(* ===== verification/_CoqProject ===== *)
-Q . S2P
Prelude.v
Token.v
Pairs.v
RbTree.v
SearchTree.v
Entry.v
Store.v
Cleanup.v
Create.v
Session.v
Abstract.v
Expiry.v
Concurrency.v
Trace.v
