(* ===== verification/Prelude.v ===== *)
(** * A verification development of FreeRADIUS' multi-packet session state

    This library models [src/main/state.c] of the FreeRADIUS server (the
    "session-state" cache that lets a later RADIUS packet of a multi-round
    exchange find the attributes and opaque data left by an earlier one,
    through the 16-octet State attribute) and proves it correct.

    ** The program

    [state.c] keeps one store, [fr_state_t] (lines 47-56), with
    - a red-black tree ([rbtree_t], from [src/lib/rbtree.c], not part of
      the sources given) that indexes entries by their 16-octet State,
      compared with [memcmp] ([state_entry_cmp], lines 77-83);
    - an intrusive doubly-linked list, [head]/[tail] with [prev]/[next]
      pointers inside each [state_entry_t] (lines 33-45), in creation
      order, which the cleanup loop walks from its head;
    - [max_sessions], the admission bound, and a mutex.
    Entries are created by [state_entry_create] (lines 190-339), which
    first sweeps the head of the list, checks the bound, chooses a State
    (fresh from [fr_rand], derived from the previous entry, or copied from
    a State attribute an earlier stage put on the reply), frees the previous
    entry unless it still owns data, puts the State on the reply, inserts
    the entry in the tree and links it at the tail.  [state_entry_free]
    (lines 91-127) unlinks, frees the payload and deletes from the tree.
    [state_entry_find] (lines 345-364) looks the packet's State up.  The
    public API (lines 370-563) takes the lock, calls these, moves
    attribute lists between the entry and the request, and hands the
    opaque payload over.

    ** The development (files in dependency order)

    - [Prelude] (this file): C integer conversions ([u8], [u32], the
      [int] range), the outcome type [result] whose [Crash] constructor
      records what C does that is not a value (a failed [rad_assert], a
      read of freed memory, a [memcpy] past the end of a buffer, signed
      overflow, a loop out of fuel), the state-and-error monad [SE] with
      its notation in [frs_scope], the hint databases [frs] and [frs_rw],
      and the tactics [se_step], [se_crash_step], [se_inv], [decide_vm].
    - [Token]: the State octets: [memcmp] and [state_entry_cmp] (lines
      77-83), the fresh State of lines 279-296 (four [fr_rand] words
      copied in host order, little-endian here, and the seed octet), the
      derived State of lines 264-270 and the copy of a State attribute of
      line 308.
    - [Pairs]: the parts of the VALUE_PAIR library [state.c] calls
      ([pairfind], [pairadd], [pairfilter] of everything, [paircreate] with
      [pairmemcpy]); that library is not among the sources, so these are
      modelled from its documented behaviour.
    - [RbTree]: what [state.c] needs from [rbtree.c] (insert failing on a
      duplicate key, find, delete, element count) as the class [RbTree],
      with the laws of [RbTreeLaws] stated against a finite map, and the
      [gmap] instance used by the examples; every theorem is proved against
      the interface.
    - [SearchTree]: a binary search tree ordered by a comparator ([bst]:
      find, insert refusing a key comparing equal, delete by in-order
      successor, count; the red-black colouring, which only rebalances,
      left out), proved under its ordering invariant to implement the
      laws for the lexicographic order ([sbst_rbtree_laws]), which on
      16-octet States is [state_entry_cmp]; so the theorems of the
      development hold of a comparator-ordered tree as well as of the
      map, and a tree ordered and searched with [state_entry_cmp] finds
      exactly what it maps ([search_tree_find_states]).
    - [Entry]: [state_entry_t] (lines 33-45) and the doubly-linked cleanup
      list: the segment predicate [dseg] relating the pointers of a heap to
      the abstract list of entries, and the split, join, frame and
      end-update lemmas the list surgery needs.
    - [Store]: [fr_state_t] (lines 47-56) with the talloc heap made
      explicit ([world]: the record, the live entries by pointer, the next
      fresh pointer, the payloads released), the memory operations, and
      [state_entry_free] (lines 91-127); the invariant [inv_with w L]
      (pointers and list agree, the tree indexes exactly the listed
      entries by State, States are 16 octets and unique, pointers were
      handed out, at most [(uint32_t) max_sessions] entries); the concrete
      stores [ex_world] and [ex_full] used by the examples.
    - [Cleanup]: the cleanup loop of [state_entry_create] (lines 201-224),
      [state_sweep], and its abstract counterpart [sweep_list].
    - [Create]: [state_entry_create] (lines 190-339), split as the code is
      into [create_from_old] (255-297), [create_state_attr] (299-314),
      [create_insert] (316-338) and [link_tail] (320-336); the proofs
      carry the invariant through each step with the new, not yet listed,
      cell set aside, and show which inputs make the function abort.
    - [Session]: [state_entry_find] (345-364) and the API
      [fr_state_discard], [fr_state_get_vps], [fr_state_put_vps],
      [fr_state_find_data], [fr_state_get_data], [fr_state_put_data]
      (370-562), [fr_state_init] (129-162; with its failures,
      [fr_state_init_alloc]), and the step relation [api_step] of API
      calls that return, with the reachability invariant.
    - [Abstract]: what the store promises its callers, without pointers,
      list or tree: a finite map [astore] from State to session
      ([sess]: expiry, retry count, attributes, payload), read off a
      [world] by [abs_store] through the tree.  Each API call has an
      abstract counterpart: functions for the calls that read or
      discard ([a_discard], [a_get_vps], [a_find_data], [a_get_data],
      and [a_calls] over sequences of calls [api_call]), relations for
      the calls that create a session ([a_put_vps], [a_put_data]: the
      new session is [new_sess], filed under the State the reply
      carries; a session may only disappear when it is the previous
      session or one the cleanup loop frees at the call's [now]
      ([a_lost_ok], [a_stale]); the previous session keeps its contents
      when it holds data, except the payload [fr_state_put_data] hands
      over).
    - [Expiry]: the API driven by a clock that never goes back
      ([clocked_step]: [time(NULL)] of line 194 is the clock's value),
      and the invariant [expiry_ok] that the cleanup list is sorted by
      expiry (the stamp of line 242, [lifetime]), kept by every call.
    - [Concurrency]: [state->mutex] (lines 58-72) and concurrent callers.
      Each API function becomes a [thread]: what it does before
      [PTHREAD_MUTEX_LOCK] (return early, fail a [rad_assert]), its
      critical section as a sequence of atomic steps ([cs]: one per
      [state_entry_find], [state_entry_create], [state_entry_free] and
      entry access, exactly as the function calls them), and the
      [rad_assert] it runs after the unlock ([thread_code]; run alone it
      is the function of [Session], [thread_code_run_eq]).  A pool of
      threads ([conf]: store, owner of the mutex, threads) moves one
      thread at a time ([tstep]), with the mutex, or with the empty
      macros of a build without [HAVE_PTHREAD_H] (lines 69-70); the
      scheduler [run_sched] executes a given interleaving.
    - [Trace]: the specification of one call with its arguments and
      result on the abstract store ([a_call_rel], over the calls [call]
      of [Concurrency]) and of a sequence of calls, one step per call
      ([a_calls_rel]).

    ** Correspondence and modelling choices

    - Pointers to entries are [positive]s; the heap is a [gmap] from
      pointer to [state_entry_t]; reading or writing a pointer that is not
      in the heap is [Crash UseAfterFree].  Opaque payloads ([void *])
      are [positive]s too, and [talloc_free(entry->data)] appends the
      payload to [w_released].
    - Every API function holds [state->mutex] for its whole body and calls
      nothing that takes it again, so in [Session] each call is one
      atomic step ([api_step], which keeps the calls that return; a
      [Crash] ends the run).  [Concurrency] justifies this: with the
      mutex, every interleaving of the finer steps is serializable.  Those
      steps are the calls the functions make, not single memory
      accesses: under the mutex serializability holds however a critical
      section is split, and finer steps would only add interleavings to
      the build without the mutex, which is already shown unsafe.
    - [time(NULL)] and [fr_rand()] are inputs ([now], and [rnd i] for the
      i-th word drawn); [main_config.max_request_time], [state_seed] and
      [HEXIFY(RADIUSD_VERSION)] form the record [config].
    - The octets of a State attribute are [uint8_t]: theorems that need it
      assume it ([vp_bytes], [attr_ok]).
    - The cleanup loop follows [next] pointers; it is a [Fixpoint] with
      fuel, run by [state_entry_create] with the number of live entries as
      fuel; [Cleanup.state_sweep_spec] shows that this fuel always
      suffices under the invariant, so [OutOfFuel] never happens.
    - Allocation failures are modelled where the code checks them at
      start-up: [fr_state_init_alloc] takes the outcomes of
      [talloc_zero], [pthread_mutex_init] and [rbtree_create] as inputs
      ([init_env]), and [fr_state_init], its success path
      ([fr_state_init_alloc_ok]), is where the reachability theorems
      start.
    - Not modelled: memory exhaustion in [state_entry_create] (talloc
      returning NULL at line 234: the model's allocator always
      succeeds), [fr_link_talloc_ctx_free], [fr_state_delete] (lines
      164-185: it detaches the tree and hands the store to
      [rbtree_free] and [talloc_free], whose effect depends on the
      talloc hierarchy, which the model does not have), the guard of
      line 99 (reached only by a talloc destructor, and [state.c]
      installs none), [pairfree] of the
      request's list, logging ([RDEBUG], [rdebug_pair_list]) and
      [VERIFY_REQUEST], which print or check and change no state the
      store or its callers can observe.

    ** Theorems

    - Token: [state_entry_cmp] is a strict total order that is [Eq]
      exactly on equal 16-octet States, and equals the numeric order of
      the States read as big-endian numbers ([be_value], equivalence); a derived State equals the old one
      except at octets 0, 1, 8, 10, 12, with the values the code stores,
      and its octet 1 is always 0; a fresh State holds the [fr_rand] words
      little-endian and the seed at octet 3 (byte round trip).
    - SearchTree: the comparator-ordered tree implements the map laws,
      so the development's theorems hold of it.
    - Store: [state_entry_free] of a listed entry succeeds, keeps the
      invariant and removes exactly that entry; States of live entries are
      unique; walking [next] from [head] visits exactly the live entries.
    - Cleanup: the sweep terminates within its fuel, keeps the invariant
      and removes exactly the leading run of stale entries, sparing [old].
    - Create: [state_entry_create] keeps the invariant and either refuses
      (full, or a colliding State) or links the new entry at the tail with
      the cleanup time, retry count and State the code assigns; a full
      store is refused; a short State attribute is an over-read; a retry
      count of [INT_MAX] overflows; with room after the sweep and a State
      no remaining entry holds, creation succeeds
      ([state_entry_create_succeeds]); on a colliding State it returns
      NULL with a data-less previous entry already freed
      ([state_entry_create_collision]); at capacity even a continued
      session is refused.
    - Session: every state reachable from [fr_state_init] by API calls
      satisfies the invariant and the bound; [state_entry_find] finds
      exactly the entry with the packet's State; [fr_state_put_vps] then
      [fr_state_get_vps], and [fr_state_put_data] then
      [fr_state_get_data], return what was stored; [fr_state_get_vps]
      and [fr_state_get_data] hand over and clear, [fr_state_find_data]
      has no effect; [fr_state_discard] forgets the State, and on a
      store of two sessions a refused session is accepted once one is
      discarded;
      [fr_state_put_data] uses the freed previous entry when it held no
      data; a failed mutex or tree creation in the first
      [fr_state_init] leaves [global_state] pointing to the freed store.  Concrete runs on the [gmap] instance witness each theorem.
    - Abstract (refinement): each call refines its abstract counterpart
      ([put_vps_refines], [put_data_refines] when the previous session is
      absent or holds data, [run_calls_refines] for any sequence of the
      other calls); the put relations bound which sessions a creation
      may lose, so a cleanup that freed a live session would break
      them.  Every call that returns is also a step of the unlabelled
      machine [a_step], on which the retry count is shown to stay in
      [0, INT_MAX] ([reachable_tries_range]).
    - Trace (refinement): every sequence of calls that returns is
      matched call by call, each with its own clock, request, packets
      and result, by the abstract specification ([calls_refine]).
    - Expiry (liveness): with a clock that never goes back, the cleanup
      loop of every creation removes every expired session but the one
      being continued ([clocked_sweep_removes_expired]), although it
      stops at the first live entry.
    - Concurrency: with the mutex, every
      execution that ends with all threads returned leaves the store and
      the results of the calls run one after the other in some order
      ([pool_serializable]), and every crash is the crash of such a
      sequential run ([pool_crash_serializable]); whenever the mutex is
      free the store satisfies the invariant ([pool_store_inv]).  Without
      the mutex, a [fr_state_discard] interleaved inside a
      [fr_state_put_vps] on the same State makes [state_entry_create] use
      the freed entry, which no schedule reaches with it
      ([mutex_prevents_race]).
*)

From Stdlib Require Import ZArith Lia.
From Stdlib Require Export Sorted.
From stdpp Require Export base list gmap.

Declare Scope frs_scope.
Delimit Scope frs_scope with frs.

(** ** C integer conversions *)

(** Conversion to [uint8_t]: assignment to an octet of the State. *)
Definition u8 (z : Z) : Z := Z.land z 255.

(** Conversion to [uint32_t]. *)
Definition u32 (z : Z) : Z := z mod 2 ^ 32.

Definition INT_MAX : Z := 2 ^ 31 - 1.
Definition INT_MIN : Z := - 2 ^ 31.

(** An [int] result is defined only in range. *)
Definition int_in_range (z : Z) : bool := (INT_MIN <=? z)%Z && (z <=? INT_MAX)%Z.

Definition is_byte (z : Z) : Prop := (0 <= z < 256)%Z.

#[export] Instance is_byte_dec z : Decision (is_byte z).
Proof. unfold is_byte. apply _. Defined.

(** ** Outcomes of C code *)

(** What C code can do besides returning a value: a failed [rad_assert]
    (which aborts the server), reading or writing memory already freed,
    a [memcpy] that reads past the end of its source, signed overflow,
    and, for a loop modelled with fuel, running out of it. *)
Inductive crash :=
| AssertFailed
| UseAfterFree
| OverRead
| SignedOverflow
| OutOfFuel.

Inductive result (A : Type) :=
| Ok (a : A)
| Crash (c : crash).
Arguments Ok {A} a.
Arguments Crash {A} c.

(** ** A state-and-error monad *)

Definition SE (S A : Type) : Type := S -> result (A * S).

Definition se_ret {S A} (a : A) : SE S A := fun s => Ok (a, s).

Definition se_bind {S A B} (m : SE S A) (k : A -> SE S B) : SE S B :=
  fun s => match m s with
           | Ok (a, s') => k a s'
           | Crash c => Crash c
           end.

Definition se_crash {S A} (c : crash) : SE S A := fun _ => Crash c.
Definition se_get {S} : SE S S := fun s => Ok (s, s).
Definition se_put {S} (s : S) : SE S unit := fun _ => Ok (tt, s).
Definition se_modify {S} (f : S -> S) : SE S unit := fun s => Ok (tt, f s).

(** [rad_assert(e)]: aborts when [e] is false. *)
Definition rad_assert {S} (b : bool) : SE S unit :=
  if b then se_ret tt else se_crash AssertFailed.

Notation "'let*' x ':=' m 'in' k" := (se_bind m (fun x => k))
  (at level 10, x name, m at level 100, k at level 200) : frs_scope.
Notation "'let*' ' p ':=' m 'in' k" :=
  (se_bind m (fun x => match x with p => k end))
  (at level 10, p pattern, m at level 100, k at level 200) : frs_scope.
Notation "m ;; k" := (se_bind m (fun _ => k)) : frs_scope.

Open Scope frs_scope.

Section Monad.
Context {S A B : Type}.

Lemma se_bind_ok (m : SE S A) (k : A -> SE S B) s a s' :
  m s = Ok (a, s') -> se_bind m k s = k a s'.
Proof. unfold se_bind. by intros ->. Qed.

Lemma se_bind_crash (m : SE S A) (k : A -> SE S B) s c :
  m s = Crash c -> se_bind m k s = Crash c.
Proof. unfold se_bind. by intros ->. Qed.

Lemma se_bind_ret (a : A) (k : A -> SE S B) s :
  se_bind (se_ret a) k s = k a s.
Proof. reflexivity. Qed.

Lemma se_bind_Ok_inv (m : SE S A) (k : A -> SE S B) s b s'' :
  se_bind m k s = Ok (b, s'') ->
  exists a s', m s = Ok (a, s') /\ k a s' = Ok (b, s'').
Proof.
  unfold se_bind. destruct (m s) as [[a s']|c]; [eauto|discriminate].
Qed.

Lemma se_bind_assoc {C} (m : SE S A) (k : A -> SE S B) (k' : B -> SE S C) s :
  se_bind (se_bind m k) k' s = se_bind m (fun a => se_bind (k a) k') s.
Proof. unfold se_bind. by destruct (m s) as [[a s']|c]. Qed.
End Monad.

Create HintDb frs.
Create Rewrite HintDb frs_rw.
#[export] Hint Rewrite @se_bind_ret @se_bind_assoc : frs_rw.

(** ** Shared lemmas on integers and lists *)

Lemma u8_range z : (0 <= u8 z < 256)%Z.
Proof.
  unfold u8. change 255%Z with (Z.ones 8). rewrite Z.land_ones by lia.
  apply Z.mod_pos_bound. lia.
Qed.

Lemma u8_mod z : u8 z = (z mod 256)%Z.
Proof. unfold u8. change 255%Z with (Z.ones 8). by rewrite Z.land_ones by lia. Qed.

Lemma u8_id z : is_byte z -> u8 z = z.
Proof. intros H. rewrite u8_mod. apply Z.mod_small. exact H. Qed.

Lemma u8_is_byte z : is_byte (u8 z).
Proof. apply u8_range. Qed.

Lemma u32_range z : (0 <= u32 z < 2 ^ 32)%Z.
Proof. unfold u32. apply Z.mod_pos_bound. lia. Qed.

Lemma u32_idem z : u32 (u32 z) = u32 z.
Proof. unfold u32. apply Z.mod_mod. lia. Qed.

#[export] Hint Resolve u8_is_byte : frs.
#[export] Hint Rewrite u8_id using assumption : frs_rw.

Lemma NoDup_remove_mid {A} (l1 l2 : list A) x :
  NoDup (l1 ++ x :: l2) -> NoDup (l1 ++ l2).
Proof.
  rewrite !NoDup_app, NoDup_cons. intros (? & Hdis & _ & ?).
  split; [done|split; [|done]]. intros y Hy1 Hy2. apply (Hdis y Hy1). set_solver.
Qed.

(** Run the first computation of a [se_bind] that is known to succeed. *)
(** A list sorted pairwise stays sorted when elements are dropped. *)
Lemma StronglySorted_sublist {A} (R : relation A) (l l' : list A) :
  l' `sublist_of` l -> StronglySorted R l -> StronglySorted R l'.
Proof.
  induction 1 as [|x l1 l2 Hsub IH|x l1 l2 Hsub IH]; intros Hs; [constructor|..];
    apply StronglySorted_inv in Hs as [Hs Hall]; [|by apply IH].
  constructor; [by apply IH|]. rewrite Forall_forall in Hall |- *. intros y Hy.
  apply Hall. eapply elem_of_submseteq; [exact Hy|by apply sublist_submseteq].
Qed.

Ltac se_step H :=
  lazymatch type of H with
  | ?m ?s = Ok (?a, ?s') =>
      lazymatch goal with
      | |- context [se_bind m ?k s] => rewrite (se_bind_ok m k s a s' H)
      end
  end.

(** Propagate a crash of the first computation of a [se_bind]. *)
Ltac se_crash_step H :=
  lazymatch type of H with
  | ?m ?s = Crash ?c =>
      lazymatch goal with
      | |- context [se_bind m ?k s] => rewrite (se_bind_crash m k s c H)
      end
  end.

(** Split a successful [se_bind] in a hypothesis. *)
Ltac se_inv H :=
  let a := fresh "a" in let s := fresh "s" in
  let H1 := fresh H in let H2 := fresh H in
  apply se_bind_Ok_inv in H as (a & s & H1 & H2).

Tactic Notation "se_inv" hyp(H) "as" simple_intropattern(p) :=
  apply se_bind_Ok_inv in H as p.

(** Prove a decidable proposition on concrete data by evaluation. *)
Ltac decide_vm := apply (bool_decide_unpack _); vm_compute; reflexivity.
