(* ===== verification/Token.v ===== *)
(** * The State octets: comparison, fresh and derived States

    [state_entry_t.state] is a [uint8_t[AUTH_VECTOR_LEN]] array
    ([state.c] line 34).  It is modelled as a list of octets (as [Z] in
    [0, 256)) of length 16.  This file holds the comparator the tree uses
    ([state_entry_cmp], lines 77-83, i.e. [memcmp]), the two ways
    [state_entry_create] computes a State (fresh, lines 283-296; derived,
    lines 264-270) and the copy from a State attribute (line 308). *)

From Stdlib Require Import ZArith Lia.
From S2P Require Import Prelude.

Definition AUTH_VECTOR_LEN : nat := 16.

Abbreviation token := (list Z) (only parsing).

(** A well-formed State: exactly 16 octets. *)
Definition token_ok (t : list Z) : Prop :=
  length t = AUTH_VECTOR_LEN /\ Forall is_byte t.

#[export] Instance token_ok_dec t : Decision (token_ok t).
Proof. unfold token_ok. apply _. Defined.

(** ** [memcmp] and the tree's comparator *)

(** [memcmp(a, b, n)]: octets compared as unsigned values, first
    difference decides.  Only 16-octet arrays reach it; the cases of a
    shorter list order a prefix first. *)
Fixpoint memcmp (n : nat) (a b : list Z) : comparison :=
  match n with
  | O => Eq
  | S n' =>
      match a, b with
      | [], [] => Eq
      | [], _ :: _ => Lt
      | _ :: _, [] => Gt
      | x :: a', y :: b' =>
          match Z.compare x y with
          | Eq => memcmp n' a' b'
          | c => c
          end
      end
  end.

(** [state_entry_cmp(one, two) = memcmp(a->state, b->state, 16)]. *)
Definition state_entry_cmp (a b : list Z) : comparison :=
  memcmp AUTH_VECTOR_LEN a b.

(** The reference order: octets read as one big-endian unsigned number. *)
Fixpoint be_value (l : list Z) : Z :=
  match l with
  | [] => 0
  | x :: l' => x * 256 ^ Z.of_nat (length l') + be_value l'
  end.

(** ** The derived State (continuing an exchange, lines 264-270) *)

(** [entry->state] after [memcpy] from [old->state] and the five octet
    stores; [tries] is [old->tries + 1], [ver] is
    [HEXIFY(RADIUSD_VERSION)].  Each store converts to [uint8_t]; each
    read of [entry->state[i]] sees the stores before it. *)
Definition state_derive (old : list Z) (tries ver : Z) : list Z :=
  let v := u32 ver in
  let s0 := <[0 := u8 tries]> old in
  let s1 := <[1 := u8 (Z.lxor (s0 !!! 0%nat) tries)]> s0 in
  let s8 := <[8 := u8 (Z.lxor (s1 !!! 2%nat) (Z.land (Z.shiftr v 16) 255))]> s1 in
  let s10 := <[10 := u8 (Z.lxor (s8 !!! 2%nat) (Z.land (Z.shiftr v 8) 255))]> s8 in
  <[12 := u8 (Z.lxor (s10 !!! 2%nat) (Z.land v 255))]> s10.

(** The octet positions the derivation writes. *)
Definition derived_octets : list nat := [0; 1; 8; 10; 12]%nat.

(** ** The fresh State (lines 283-296) *)

(** [memcpy(state + 4i, &x, 4)] of a [uint32_t]: host order, which is
    little-endian on the platforms modelled. *)
Definition le_bytes32 (x : Z) : list Z :=
  [u8 x; u8 (Z.shiftr x 8); u8 (Z.shiftr x 16); u8 (Z.shiftr x 24)].

(** The little-endian value of four octets. *)
Definition le_combine32 (l : list Z) : Z :=
  match l with
  | [a; b; c; d] => a + 256 * b + 65536 * c + 16777216 * d
  | _ => 0
  end.

(** The loop [for (i = 0; i < 4; i++) { x = fr_rand(); memcpy(...); }]:
    [rnd i] is the value of the i-th call of [fr_rand()]. *)
Fixpoint fill_random (rnd : nat -> Z) (i n : nat) : list Z :=
  match n with
  | O => []
  | S n' => le_bytes32 (u32 (rnd i)) ++ fill_random rnd (S i) n'
  end.

(** Then [if (main_config.state_seed < 256) entry->state[3] = state_seed]
    ([state_seed] is a [uint32_t]). *)
Definition state_fresh (rnd : nat -> Z) (state_seed : Z) : list Z :=
  let st := fill_random rnd 0 4 in
  if (u32 state_seed <? 256)%Z then <[3 := u8 state_seed]> st else st.

(** ** Copy of a State attribute (line 308) *)

(** [memcpy(entry->state, vp->vp_octets, 16)]: reads 16 octets whatever
    [vp_length] is; [None] when the attribute is shorter, where the C
    code reads past the end of the value. *)
Definition state_copy (octets : list Z) : option (list Z) :=
  if decide (AUTH_VECTOR_LEN <= length octets)%nat
  then Some (take AUTH_VECTOR_LEN octets) else None.

(** ** Lemmas *)

Lemma memcmp_refl n a : memcmp n a a = Eq.
Proof.
  revert a. induction n as [|n IH]; intros [|x a]; simpl; auto.
  rewrite Z.compare_refl. apply IH.
Qed.

Lemma memcmp_Eq n a b :
  length a = n -> length b = n -> memcmp n a b = Eq -> a = b.
Proof.
  revert a b. induction n as [|n IH]; intros [|x a] [|y b] Ha Hb; simpl in *;
    try discriminate; auto.
  destruct (Z.compare_spec x y) as [->| |]; try discriminate.
  intros H. f_equal. apply IH; auto.
Qed.


Lemma memcmp_opp n a b : memcmp n a b = CompOpp (memcmp n b a).
Proof.
  revert a b. induction n as [|n IH]; intros [|x a] [|y b]; simpl; auto.
  rewrite (Z.compare_antisym x y).
  destruct (Z.compare x y); simpl; auto.
Qed.

Lemma memcmp_Lt_trans n a b c :
  memcmp n a b = Lt -> memcmp n b c = Lt -> memcmp n a c = Lt.
Proof.
  revert a b c. induction n as [|n IH]; intros [|x a] [|y b] [|z c]; simpl;
    try discriminate; auto.
  destruct (Z.compare_spec x y); destruct (Z.compare_spec y z);
    try discriminate; subst; intros H1 H2.
  1: rewrite Z.compare_refl; eauto.
  all: rewrite (proj2 (Z.compare_lt_iff _ _)) by lia; reflexivity.
Qed.

Lemma length_le_bytes32 x : length (le_bytes32 x) = 4%nat.
Proof. reflexivity. Qed.

Lemma length_fill_random rnd i n : length (fill_random rnd i n) = (4 * n)%nat.
Proof.
  revert i. induction n as [|n IH]; intros i; simpl; auto.
  rewrite IH. lia.
Qed.

Lemma le_bytes32_is_byte x : Forall is_byte (le_bytes32 x).
Proof. repeat constructor; apply u8_is_byte. Qed.

Lemma fill_random_is_byte rnd i n : Forall is_byte (fill_random rnd i n).
Proof.
  revert i. induction n as [|n IH]; intros i; cbn [fill_random]; [constructor|].
  apply Forall_app. split; [apply le_bytes32_is_byte|apply IH].
Qed.

Lemma Forall_is_byte_insert (l : list Z) i v :
  Forall is_byte l -> is_byte v -> Forall is_byte (<[i := v]> l).
Proof. intros Hl Hv. by apply Forall_insert. Qed.

#[export] Hint Resolve le_bytes32_is_byte fill_random_is_byte
  Forall_is_byte_insert : frs.

Lemma le_combine32_le_bytes32 x : le_combine32 (le_bytes32 x) = u32 x.
Proof.
  unfold le_combine32, le_bytes32, u32. rewrite !u8_mod.
  rewrite !Z.shiftr_div_pow2 by lia.
  change (2 ^ 8)%Z with 256%Z. change (2 ^ 16)%Z with 65536%Z.
  change (2 ^ 24)%Z with 16777216%Z. change (2 ^ 32)%Z with 4294967296%Z.
  pose proof (Z.div_mod x 256 ltac:(lia)).
  pose proof (Z.div_mod x 65536 ltac:(lia)).
  pose proof (Z.div_mod x 16777216 ltac:(lia)).
  pose proof (Z.div_mod x 4294967296 ltac:(lia)).
  pose proof (Z.mod_pos_bound x 256 ltac:(lia)).
  pose proof (Z.mod_pos_bound x 65536 ltac:(lia)).
  pose proof (Z.mod_pos_bound x 16777216 ltac:(lia)).
  pose proof (Z.mod_pos_bound x 4294967296 ltac:(lia)).
  pose proof (Z.div_mod (x / 256) 256 ltac:(lia)).
  pose proof (Z.div_mod (x / 65536) 256 ltac:(lia)).
  pose proof (Z.div_mod (x / 16777216) 256 ltac:(lia)).
  pose proof (Z.mod_pos_bound (x / 256) 256 ltac:(lia)).
  pose proof (Z.mod_pos_bound (x / 65536) 256 ltac:(lia)).
  pose proof (Z.mod_pos_bound (x / 16777216) 256 ltac:(lia)).
  lia.
Qed.

Lemma u8_lxor_self k : u8 (Z.lxor (u8 k) k) = 0%Z.
Proof.
  unfold u8. apply Z.bits_inj'. intros n _.
  rewrite Z.land_spec, Z.lxor_spec, Z.land_spec, Z.bits_0.
  by destruct (Z.testbit k n), (Z.testbit 255 n).
Qed.

Lemma be_value_range l : Forall is_byte l -> (0 <= be_value l < 256 ^ Z.of_nat (length l))%Z.
Proof.
  induction 1 as [|x l Hx _ IH]; simpl; [lia|]. unfold is_byte in Hx.
  rewrite Nat2Z.inj_succ, Z.pow_succ_r by lia. nia.
Qed.

(** [memcmp] on octet arrays of length [n] is the order of their
    big-endian values. *)
Lemma memcmp_be n a b :
  length a = n -> length b = n -> Forall is_byte a -> Forall is_byte b ->
  memcmp n a b = Z.compare (be_value a) (be_value b).
Proof.
  revert a b. induction n as [|n IH]; intros [|x a] [|y b] Ha Hb Fa Fb; simpl in *;
    try discriminate; [done|].
  injection Ha as Ha. injection Hb as Hb. apply Forall_cons in Fa as [Hx Fa].
  apply Forall_cons in Fb as [Hy Fb]. rewrite Ha, Hb.
  pose proof (be_value_range a Fa) as Ra. pose proof (be_value_range b Fb) as Rb.
  rewrite Ha in Ra. rewrite Hb in Rb. set (P := (256 ^ Z.of_nat n)%Z) in *.
  destruct (Z.compare_spec x y) as [->|Hlt|Hgt].
  - rewrite Z.add_compare_mono_l. by apply IH.
  - symmetry. apply Z.compare_lt_iff. nia.
  - symmetry. apply Z.compare_gt_iff. nia.
Qed.

(** A State used by the examples. *)
Definition ex_token : list Z := [3; 1; 4; 1; 5; 9; 2; 6; 5; 3; 5; 8; 9; 7; 9; 3]%Z.

(** A 16-octet list, taken apart into its octets. *)
Lemma token_ok_shape (t : list Z) :
  token_ok t ->
  exists a0 a1 a2 a3 a4 a5 a6 a7 a8 a9 a10 a11 a12 a13 a14 a15,
    t = [a0; a1; a2; a3; a4; a5; a6; a7; a8; a9; a10; a11; a12; a13; a14; a15].
Proof.
  intros [Hl _]. unfold AUTH_VECTOR_LEN in Hl.
  do 16 (destruct t as [|? t]; [discriminate|]).
  destruct t; [|discriminate]. eauto 20.
Qed.

Lemma fill_random_word rnd i :
  (i < 4)%nat ->
  take 4 (drop (4 * i) (fill_random rnd 0 4)) = le_bytes32 (u32 (rnd i)).
Proof. intros Hi. do 4 (destruct i as [|i]; [reflexivity|]). lia. Qed.

(** ** Properties of the State computations *)

(** C27: on 16-octet States the comparator [state_entry_cmp] answers 0 exactly
    on equal States. *)
Theorem state_entry_cmp_eq_iff a b :
  token_ok a -> token_ok b -> state_entry_cmp a b = Eq <-> a = b.
Proof.
  intros [Ha _] [Hb _]. unfold state_entry_cmp. split.
  - by apply memcmp_Eq.
  - intros ->. apply memcmp_refl.
Qed.

Lemma state_entry_cmp_eq_iff_witness :
  token_ok ex_token /\ (state_entry_cmp ex_token ex_token = Eq <-> ex_token = ex_token).
Proof. split; [decide_vm|]. apply state_entry_cmp_eq_iff; decide_vm. Defined.


(** [state_entry_cmp] is antisymmetric and transitive: a strict total
    order for the tree. *)
Theorem state_entry_cmp_strict_order a b c :
  state_entry_cmp a b = CompOpp (state_entry_cmp b a) /\
  (state_entry_cmp a b = Lt -> state_entry_cmp b c = Lt -> state_entry_cmp a c = Lt).
Proof.
  unfold state_entry_cmp. split; [apply memcmp_opp|apply memcmp_Lt_trans].
Qed.

(** C28: the tree's comparator is the numeric order of States: on 16-octet
    States [state_entry_cmp] (a [memcmp] of 16 octets) compares them as
    128-bit big-endian unsigned numbers. *)
Theorem state_entry_cmp_be a b :
  token_ok a -> token_ok b -> state_entry_cmp a b = Z.compare (be_value a) (be_value b).
Proof. intros [Ha Fa] [Hb Fb]. by apply memcmp_be. Qed.

Lemma state_entry_cmp_be_witness :
  token_ok ex_token /\ token_ok (state_derive ex_token 2 0x030022) /\
  state_entry_cmp ex_token (state_derive ex_token 2 0x030022) =
    Z.compare (be_value ex_token) (be_value (state_derive ex_token 2 0x030022)).
Proof.
  split; [decide_vm|]. split; [decide_vm|].
  apply state_entry_cmp_be; decide_vm.
Defined.

Lemma state_derive_frame old k v i :
  i ∉ derived_octets -> state_derive old k v !! i = old !! i.
Proof.
  intros Hi. unfold derived_octets in Hi.
  assert (i <> 0 /\ i <> 1 /\ i <> 8 /\ i <> 10 /\ i <> 12)%nat
    as (? & ? & ? & ? & ?) by set_solver.
  unfold state_derive. cbv zeta. by rewrite !list_lookup_insert_ne by lia.
Qed.

(** C29: the State derived from the previous one (lines 264-270) is a 16-octet
    State that differs from it only in octets 0, 1, 8, 10 and 12, with octet 0
    the retry count and octets 8, 10 and 12 octet 2 mixed with the version. *)
Theorem state_derive_spec old k v :
  token_ok old ->
  token_ok (state_derive old k v) /\
  (forall i, i ∉ derived_octets -> state_derive old k v !! i = old !! i) /\
  state_derive old k v !! 0%nat = Some (u8 k) /\
  state_derive old k v !! 8%nat =
    Some (u8 (Z.lxor (old !!! 2%nat) (Z.land (Z.shiftr (u32 v) 16) 255))) /\
  state_derive old k v !! 10%nat =
    Some (u8 (Z.lxor (old !!! 2%nat) (Z.land (Z.shiftr (u32 v) 8) 255))) /\
  state_derive old k v !! 12%nat =
    Some (u8 (Z.lxor (old !!! 2%nat) (Z.land (u32 v) 255))).
Proof.
  intros Hok. split; [|split; [apply state_derive_frame|]].
  - destruct Hok as [Hl Hb]. split.
    + unfold state_derive. cbv zeta. by rewrite !length_insert.
    + unfold state_derive. cbv zeta. auto 10 with frs.
  - destruct (token_ok_shape old Hok) as (a0 & a1 & a2 & a3 & a4 & a5 & a6 & a7 &
      a8 & a9 & a10 & a11 & a12 & a13 & a14 & a15 & ->).
    repeat split.
Qed.

Lemma state_derive_spec_witness :
  token_ok ex_token /\ token_ok (state_derive ex_token 2 0x030022).
Proof. split; [decide_vm|]. apply (state_derive_spec ex_token 2 0x030022); decide_vm. Defined.


(** C30: octet 1 of a derived State is always 0: it is [tries ^ tries] after
    octet 0 was set to [tries]. *)
Theorem state_derive_octet1_zero old k v :
  token_ok old -> state_derive old k v !! 1%nat = Some 0%Z.
Proof.
  intros Hok.
  destruct (token_ok_shape old Hok) as (a0 & a1 & a2 & a3 & a4 & a5 & a6 & a7 &
    a8 & a9 & a10 & a11 & a12 & a13 & a14 & a15 & ->).
  cbn. by rewrite u8_lxor_self.
Qed.

Lemma state_derive_octet1_zero_witness :
  token_ok ex_token /\ state_derive ex_token 7 0x030022 !! 1%nat = Some 0%Z.
Proof. split; [decide_vm|]. apply state_derive_octet1_zero; decide_vm. Defined.


(** C31: a new State is 16 octets holding the four [fr_rand] words in host
    (little-endian) order, with octet 3 the seed when the seed is below 256. *)
Theorem state_fresh_spec rnd seed :
  token_ok (state_fresh rnd seed) /\
  ((u32 seed < 256)%Z -> state_fresh rnd seed !! 3%nat = Some (u8 seed)) /\
  (forall i, (1 <= i < 4)%nat ->
     le_combine32 (take 4 (drop (4 * i) (state_fresh rnd seed))) = u32 (rnd i)) /\
  ((256 <= u32 seed)%Z -> le_combine32 (take 4 (state_fresh rnd seed)) = u32 (rnd 0%nat)).
Proof.
  unfold state_fresh. split; [|split; [|split]].
  - split.
    + destruct (u32 seed <? 256)%Z; [rewrite length_insert|]; apply length_fill_random.
    + destruct (u32 seed <? 256)%Z; auto with frs.
  - intros Hs. rewrite (proj2 (Z.ltb_lt _ _) Hs). reflexivity.
  - intros i Hi. pose proof (fill_random_word rnd i ltac:(lia)) as Hw.
    rewrite <- (u32_idem (rnd i)), <- (le_combine32_le_bytes32 (u32 (rnd i))), <- Hw.
    destruct (u32 seed <? 256)%Z; [|done].
    do 4 (destruct i as [|i]; [first [lia | reflexivity]|]). lia.
  - intros Hs. rewrite (proj2 (Z.ltb_ge _ _) Hs).
    rewrite <- (u32_idem (rnd 0%nat)), <- (le_combine32_le_bytes32 (u32 (rnd 0%nat))),
      <- (fill_random_word rnd 0) by lia.
    reflexivity.
Qed.
