(* ===== verification/Pairs.v ===== *)
(** * Attribute lists (the VALUE_PAIR library as [state.c] uses it)

    [state.c] manipulates attribute lists only through [pairfind],
    [pairadd], [paircreate] + [pairmemcpy], [pairfilter] with attribute
    and vendor 0 (move every pair) and [pairfree].  That library
    ([src/lib/valuepair.c]) is not among the sources, so these
    definitions follow its documented behaviour: a list of pairs in
    order; [pairfind] returns the first pair of the attribute and vendor
    (any tag with [TAG_ANY]); [pairadd] appends; [pairfilter] with
    attribute 0 appends the whole source list to the destination and
    leaves the source empty. *)

From Stdlib Require Import ZArith Lia.
From S2P Require Import Prelude.

Record value_pair := mk_vp {
  vp_attr : Z;
  vp_vendor : Z;
  vp_tag : Z;
  vp_octets : list Z
}.

Definition vp_length (vp : value_pair) : nat := length (vp_octets vp).

Definition PW_STATE : Z := 24.
Definition TAG_ANY : Z := -128.

(** The only part of [RADIUS_PACKET] the code reads or writes. *)
Record radius_packet := mk_packet { packet_vps : list value_pair }.

(** The parts of [REQUEST] the code reads or writes: the request
    packet and the list of session-state attributes. *)
Record request := mk_request {
  request_packet : radius_packet;
  request_state : list value_pair
}.

Definition pair_matches (attr vendor tag : Z) (vp : value_pair) : bool :=
  (vp_attr vp =? attr)%Z && (vp_vendor vp =? vendor)%Z &&
  ((tag =? TAG_ANY)%Z || (vp_tag vp =? tag)%Z).

(** [pairfind(vps, attr, vendor, tag)]. *)
Fixpoint pairfind (vps : list value_pair) (attr vendor tag : Z) : option value_pair :=
  match vps with
  | [] => None
  | vp :: rest => if pair_matches attr vendor tag vp then Some vp
                 else pairfind rest attr vendor tag
  end.

(** [pairadd(&vps, vp)]. *)
Definition pairadd (vps : list value_pair) (vp : value_pair) : list value_pair :=
  vps ++ [vp].

(** [vp = paircreate(ctx, PW_STATE, 0); pairmemcpy(vp, octets, len)]. *)
Definition pair_state (octets : list Z) : value_pair :=
  mk_vp PW_STATE 0 0 octets.

(** [pairfilter(ctx, &to, &from, 0, 0, TAG_ANY)]: returns the new
    destination and the new source. *)
Definition pairfilter_all (to from : list value_pair) :
  list value_pair * list value_pair :=
  (to ++ from, []).

(** The State attribute of a list, as [state.c] looks it up. *)
Definition find_state (vps : list value_pair) : option value_pair :=
  pairfind vps PW_STATE 0 TAG_ANY.

Lemma pairfind_app_None vps vp attr vendor tag :
  pairfind vps attr vendor tag = None ->
  pairfind (vps ++ [vp]) attr vendor tag =
  if pair_matches attr vendor tag vp then Some vp else None.
Proof.
  induction vps as [|x vps IH]; simpl; [done|].
  destruct (pair_matches attr vendor tag x); [discriminate|auto].
Qed.

Lemma find_state_pairadd_state vps octets :
  find_state vps = None ->
  find_state (pairadd vps (pair_state octets)) = Some (pair_state octets).
Proof. intros H. unfold find_state, pairadd. by rewrite pairfind_app_None. Qed.

Lemma find_state_pairadd_Some vps vp v :
  find_state vps = Some v -> find_state (pairadd vps vp) = Some v.
Proof.
  unfold find_state, pairadd. induction vps as [|x vps IH]; simpl; [done|].
  destruct (pair_matches PW_STATE 0 TAG_ANY x); auto.
Qed.
