(* ===== verification/RbTree.v ===== *)
(** * The red-black tree interface [state.c] relies on

    [state.c] uses [rbtree_create] with [state_entry_cmp] as comparator and
    no free callback (line 155), [rbtree_insert] (line 316, which fails on
    an entry comparing equal to one already present), [rbtree_finddata]
    (line 357), [rbtree_deletebydata] (line 125) and
    [rbtree_num_elements] (line 226).  The tree itself
    ([src/lib/rbtree.c]) is not among the sources: the class [RbTree]
    names these operations on keys (the State of the entry) and values
    (the entry pointer), and the class [RbTreeLaws] states, against a
    finite map from States to pointers, the contract the store's proofs
    use.  Keys are compared with [memcmp]; on 16-octet States
    ([Token.state_entry_cmp_eq_iff]) its [Eq] is equality, so a map
    keyed by equality of States is the tree's contents. *)

From Stdlib Require Import ZArith.
From S2P Require Import Prelude Token.

Abbreviation ptr := positive.

Class RbTree (T : Type) := {
  rb_empty : T;
  rb_insert : list Z -> ptr -> T -> option T;
  rb_find : list Z -> T -> option ptr;
  rb_delete : list Z -> T -> T;
  rb_num : T -> nat;
  rb_abs : T -> gmap (list Z) ptr
}.

Class RbTreeLaws (T : Type) `{!RbTree T} := {
  rb_abs_empty : rb_abs rb_empty = ∅;
  rb_insert_dup k p t : is_Some (rb_abs t !! k) -> rb_insert k p t = None;
  rb_insert_new k p t :
    rb_abs t !! k = None ->
    exists t', rb_insert k p t = Some t' /\ rb_abs t' = <[k := p]> (rb_abs t);
  rb_find_abs k t : rb_find k t = rb_abs t !! k;
  rb_delete_abs k t : rb_abs (rb_delete k t) = delete k (rb_abs t);
  rb_num_abs t : rb_num t = size (rb_abs t)
}.

(** A tree given by its contents: the reference implementation. *)
#[export] Instance gmap_rbtree : RbTree (gmap (list Z) ptr) := {
  rb_empty := ∅;
  rb_insert k p t := match t !! k with Some _ => None | None => Some (<[k := p]> t) end;
  rb_find k t := t !! k;
  rb_delete k t := delete k t;
  rb_num t := size t;
  rb_abs t := t
}.

#[export] Instance gmap_rbtree_laws : RbTreeLaws (gmap (list Z) ptr).
Proof.
  split; simpl; auto.
  - intros k p t [v ->]. reflexivity.
  - intros k p t ->. eauto.
Qed.

Section Laws.
Context `{RbTreeLaws T}.

Lemma rb_insert_Some k p t t' :
  rb_insert k p t = Some t' ->
  rb_abs t !! k = None /\ rb_abs t' = <[k := p]> (rb_abs t).
Proof.
  intros Hi. destruct (rb_abs t !! k) eqn:E.
  - rewrite rb_insert_dup in Hi; [discriminate|by eexists].
  - destruct (rb_insert_new k p t E) as (t'' & Hi' & Ha). split; congruence.
Qed.

Lemma rb_insert_None k p t :
  rb_insert k p t = None -> is_Some (rb_abs t !! k).
Proof.
  intros Hi. destruct (rb_abs t !! k) eqn:E; [by eexists|].
  destruct (rb_insert_new k p t E) as (t'' & Hi' & _). congruence.
Qed.
End Laws.
