(* ===== verification/SearchTree.v ===== *)
(** * A search tree ordered by a comparator, implementing [RbTree]

    [rbtree.c] is not among the sources; [state.c] relies only on what a
    binary search tree ordered by the comparator passed to
    [rbtree_create] gives (line 155: [state_entry_cmp], no duplicates):
    [rbtree_insert] refusing a key that compares equal to one present
    (line 316), [rbtree_finddata] (357), [rbtree_deletebydata] (125) and
    [rbtree_num_elements] (226).  This file models that structure, without
    the colouring that only balances it: [bst] with [bst_find],
    [bst_insert], [bst_delete] (the in-order successor replaces a deleted
    node with two children) and [bst_size], written for any comparator
    [cmp] that is [Eq] exactly on equal keys, antisymmetric and
    transitive (Section [Bst]).  Under the ordering invariant [bst_wf]
    each operation is the map operation on [bst_abs], so the ordered
    trees ([sbst]) are an instance of [RbTreeLaws] for the total
    lexicographic order [lexcmp].  On 16-octet States [lexcmp] is
    [state_entry_cmp] ([lexcmp_state_entry_cmp]), so searching such a
    tree with the comparator of [state.c] finds what the map holds
    ([search_tree_find_states]). *)

From Stdlib Require Import ZArith Lia.
From S2P Require Import Prelude Token RbTree.

Inductive bst :=
| Leaf
| Node (l : bst) (k : list Z) (v : ptr) (r : bst).

Fixpoint bst_keys (t : bst) : list (list Z) :=
  match t with
  | Leaf => []
  | Node l k _ r => k :: bst_keys l ++ bst_keys r
  end.

Fixpoint bst_abs (t : bst) : gmap (list Z) ptr :=
  match t with
  | Leaf => ∅
  | Node l k v r => <[k := v]> (bst_abs l ∪ bst_abs r)
  end.

Section Bst.
Variable cmp : list Z -> list Z -> comparison.
Implicit Types (t l r : bst) (k x : list Z) (v : ptr).

(** [rbtree_finddata]. *)
Fixpoint bst_find k t : option ptr :=
  match t with
  | Leaf => None
  | Node l k' v r =>
      match cmp k k' with
      | Eq => Some v
      | Lt => bst_find k l
      | Gt => bst_find k r
      end
  end.

(** [rbtree_insert]: fails on a key comparing equal to one present. *)
Fixpoint bst_insert k v t : option bst :=
  match t with
  | Leaf => Some (Node Leaf k v Leaf)
  | Node l k' v' r =>
      match cmp k k' with
      | Eq => None
      | Lt => match bst_insert k v l with Some l' => Some (Node l' k' v' r) | None => None end
      | Gt => match bst_insert k v r with Some r' => Some (Node l k' v' r') | None => None end
      end
  end.

(** The least node of [Node l k v r], and the tree without it. *)
Fixpoint bst_remove_min l k v r : list Z * ptr * bst :=
  match l with
  | Leaf => (k, v, r)
  | Node ll lk lv lr =>
      let '(m, mv, l') := bst_remove_min ll lk lv lr in (m, mv, Node l' k v r)
  end.

(** The node's children joined under the in-order successor. *)
Definition bst_merge l r : bst :=
  match r with
  | Leaf => l
  | Node rl rk rv rr => let '(m, mv, r') := bst_remove_min rl rk rv rr in Node l m mv r'
  end.

(** [rbtree_deletebydata]. *)
Fixpoint bst_delete k t : bst :=
  match t with
  | Leaf => Leaf
  | Node l k' v r =>
      match cmp k k' with
      | Eq => bst_merge l r
      | Lt => Node (bst_delete k l) k' v r
      | Gt => Node l k' v (bst_delete k r)
      end
  end.

(** [rbtree_num_elements]. *)
Fixpoint bst_size t : nat :=
  match t with Leaf => 0 | Node l _ _ r => S (bst_size l + bst_size r) end.

(** Keys of the left subtree are below the node's, keys of the right
    one above. *)
Fixpoint bst_wf t : Prop :=
  match t with
  | Leaf => True
  | Node l k _ r =>
      (forall x, x ∈ bst_keys l -> cmp x k = Lt) /\
      (forall x, x ∈ bst_keys r -> cmp x k = Gt) /\ bst_wf l /\ bst_wf r
  end.

Hypothesis cmp_eq : forall a b, cmp a b = Eq <-> a = b.
Hypothesis cmp_opp : forall a b, cmp a b = CompOpp (cmp b a).
Hypothesis cmp_lt_trans : forall a b c, cmp a b = Lt -> cmp b c = Lt -> cmp a c = Lt.

Lemma cmp_gt_lt a b : cmp a b = Gt <-> cmp b a = Lt.
Proof. rewrite (cmp_opp a b). destruct (cmp b a); simpl; split; congruence. Qed.

Lemma cmp_gt_trans a b c : cmp a b = Gt -> cmp b c = Gt -> cmp a c = Gt.
Proof. rewrite !cmp_gt_lt. intros H1 H2. eauto. Qed.

Lemma cmp_lt_ne a b : cmp a b = Lt -> a <> b.
Proof. intros H ->. rewrite (proj2 (cmp_eq b b) eq_refl) in H. discriminate. Qed.

Lemma cmp_gt_ne a b : cmp a b = Gt -> a <> b.
Proof. intros H ->. rewrite (proj2 (cmp_eq b b) eq_refl) in H. discriminate. Qed.

Lemma bst_abs_keys t x : is_Some (bst_abs t !! x) <-> x ∈ bst_keys t.
Proof.
  induction t as [|l IHl k v r IHr]; simpl.
  - rewrite lookup_empty. split; [by intros []|set_solver].
  - rewrite lookup_insert_is_Some, lookup_union_is_Some, elem_of_cons, elem_of_app, IHl, IHr.
    destruct (decide (k = x)); naive_solver.
Qed.

Lemma bst_abs_None t x : x ∉ bst_keys t -> bst_abs t !! x = None.
Proof. rewrite <- bst_abs_keys. apply eq_None_not_Some. Qed.

(** Under a node, a key below it is not on the right, and vice versa. *)
Lemma bst_abs_node_lt l k v r x :
  bst_wf (Node l k v r) -> cmp x k = Lt ->
  bst_abs (Node l k v r) !! x = bst_abs l !! x /\ bst_abs r !! x = None.
Proof.
  intros (_ & Hr & _) Hx. assert (Hn : bst_abs r !! x = None).
  { apply bst_abs_None. intros Hin. apply Hr in Hin. congruence. }
  simpl. rewrite lookup_insert_ne by (apply not_eq_sym, cmp_lt_ne, Hx).
  by rewrite lookup_union_l.
Qed.

Lemma bst_abs_node_gt l k v r x :
  bst_wf (Node l k v r) -> cmp x k = Gt ->
  bst_abs (Node l k v r) !! x = bst_abs r !! x /\ bst_abs l !! x = None.
Proof.
  intros (Hl & _ & _) Hx. assert (Hn : bst_abs l !! x = None).
  { apply bst_abs_None. intros Hin. apply Hl in Hin. congruence. }
  simpl. rewrite lookup_insert_ne by (apply not_eq_sym, cmp_gt_ne, Hx).
  by rewrite lookup_union_r.
Qed.

Lemma bst_find_abs t k : bst_wf t -> bst_find k t = bst_abs t !! k.
Proof.
  induction t as [|l IHl k' v r IHr]; intros Hwf; [done|].
  pose proof Hwf as (_ & _ & Hwl & Hwr). simpl bst_find.
  destruct (cmp k k') eqn:E.
  - apply cmp_eq in E as ->. simpl. by rewrite lookup_insert_eq.
  - rewrite (proj1 (bst_abs_node_lt l k' v r k Hwf E)). auto.
  - rewrite (proj1 (bst_abs_node_gt l k' v r k Hwf E)). auto.
Qed.

Lemma bst_wf_node_notin l k v r :
  bst_wf (Node l k v r) -> bst_abs l !! k = None /\ bst_abs r !! k = None.
Proof.
  intros (Hl & Hr & _). split; apply bst_abs_None; intros Hin;
    [apply Hl in Hin|apply Hr in Hin]; rewrite (proj2 (cmp_eq k k) eq_refl) in Hin; discriminate.
Qed.

Lemma bst_insert_dup t k v : bst_wf t -> is_Some (bst_abs t !! k) -> bst_insert k v t = None.
Proof.
  induction t as [|l IHl k' v' r IHr]; intros Hwf Hk.
  - simpl in Hk. rewrite lookup_empty in Hk. by destruct Hk.
  - pose proof Hwf as (_ & _ & Hwl & Hwr). simpl bst_insert. destruct (cmp k k') eqn:E; [done| |].
    + rewrite IHl; [done|done|]. by rewrite <- (proj1 (bst_abs_node_lt l k' v' r k Hwf E)).
    + rewrite IHr; [done|done|]. by rewrite <- (proj1 (bst_abs_node_gt l k' v' r k Hwf E)).
Qed.

Lemma bst_insert_new t k v :
  bst_wf t -> bst_abs t !! k = None ->
  exists t', bst_insert k v t = Some t' /\ bst_abs t' = <[k := v]> (bst_abs t) /\ bst_wf t' /\
             (forall x, x ∈ bst_keys t' -> x = k \/ x ∈ bst_keys t).
Proof.
  induction t as [|l IHl k' v' r IHr]; intros Hwf Hk.
  - exists (Node Leaf k v Leaf). simpl. rewrite (left_id_L ∅ (∪)).
    split_and!; (done || set_solver).
  - pose proof Hwf as (Hl & Hr & Hwl & Hwr). simpl bst_insert.
    destruct (cmp k k') eqn:E.
    + apply cmp_eq in E as ->. simpl in Hk. by rewrite lookup_insert_eq in Hk.
    + destruct (bst_abs_node_lt l k' v' r k Hwf E) as [Habs Hrn]. rewrite Habs in Hk.
      destruct (IHl Hwl Hk) as (l' & -> & Habs' & Hw' & Hkeys).
      exists (Node l' k' v' r). split_and!; try done.
      * simpl. rewrite Habs', <- insert_union_l.
        apply insert_insert_ne, not_eq_sym, cmp_lt_ne, E.
      * simpl. split_and!; try done. intros x Hx. destruct (Hkeys x Hx) as [->|]; auto.
      * intros x. simpl. rewrite !elem_of_cons, !elem_of_app. specialize (Hkeys x). naive_solver.
    + destruct (bst_abs_node_gt l k' v' r k Hwf E) as [Habs Hln]. rewrite Habs in Hk.
      destruct (IHr Hwr Hk) as (r' & -> & Habs' & Hw' & Hkeys).
      exists (Node l k' v' r'). split_and!; try done.
      * simpl. rewrite Habs', <- (insert_union_r _ _ _ _ Hln).
        apply insert_insert_ne, not_eq_sym, cmp_gt_ne, E.
      * simpl. split_and!; try done. intros x Hx. destruct (Hkeys x Hx) as [->|]; auto.
      * intros x. simpl. rewrite !elem_of_cons, !elem_of_app. specialize (Hkeys x). naive_solver.
Qed.

Lemma bst_insert_wf t k v t' : bst_wf t -> bst_insert k v t = Some t' -> bst_wf t'.
Proof.
  intros Hwf Hi. destruct (bst_abs t !! k) eqn:E.
  - rewrite bst_insert_dup in Hi; [discriminate|done|by eexists].
  - destruct (bst_insert_new t k v Hwf E) as (t'' & Hi' & _ & Hw & _). congruence.
Qed.

Lemma bst_remove_min_spec l k v r m mv t' :
  bst_wf (Node l k v r) -> bst_remove_min l k v r = (m, mv, t') ->
  bst_abs (Node l k v r) = <[m := mv]> (bst_abs t') /\ bst_abs t' !! m = None /\ bst_wf t' /\
  m ∈ bst_keys (Node l k v r) /\ (forall x, x ∈ bst_keys t' -> cmp m x = Lt) /\
  (forall x, x ∈ bst_keys t' -> x ∈ bst_keys (Node l k v r)).
Proof.
  revert k v r m mv t'.
  induction l as [|ll IH lk lv lr _]; intros k v r m mv t' Hwf Hrm; simpl in Hrm.
  - inversion Hrm; subst. pose proof (bst_wf_node_notin _ _ _ _ Hwf) as [_ Hn].
    destruct Hwf as (_ & Hr & _ & Hwr). simpl. rewrite (left_id_L ∅ (∪)).
    split_and!; try done; [set_solver| |set_solver].
    intros x Hx. apply cmp_gt_lt, Hr, Hx.
  - destruct (bst_remove_min ll lk lv lr) as [[m' mv'] l'] eqn:E. inversion Hrm; subst.
    pose proof Hwf as (Hl & Hr & Hwl & Hwr).
    destruct (IH lk lv lr m mv l' Hwl E) as (Habs & Hn & Hwl' & Hm & Hlt & Hsub).
    assert (Hmk : cmp m k = Lt) by (apply Hl, Hm).
    assert (Hrm' : bst_abs r !! m = None).
    { apply bst_abs_None. intros Hin. apply Hr in Hin. congruence. }
    split_and!.
    + change (<[k:=v]> (bst_abs (Node ll lk lv lr) ∪ bst_abs r) =
              <[m:=mv]> (<[k:=v]> (bst_abs l' ∪ bst_abs r))).
      rewrite Habs, <- insert_union_l. apply insert_insert_ne, not_eq_sym, cmp_lt_ne, Hmk.
    + simpl. rewrite lookup_insert_ne by (apply not_eq_sym, cmp_lt_ne, Hmk).
      by apply lookup_union_None.
    + simpl. split_and!; try done. intros x Hx. apply Hl, Hsub, Hx.
    + simpl. set_solver.
    + intros x. simpl. rewrite elem_of_cons, elem_of_app. intros [->|[Hx|Hx]]; [done|auto|].
      apply Hr, cmp_gt_lt in Hx. eauto.
    + intros x. specialize (Hsub x). simpl in *. set_solver.
Qed.

Lemma bst_merge_spec l k v r :
  bst_wf (Node l k v r) ->
  bst_abs (bst_merge l r) = bst_abs l ∪ bst_abs r /\ bst_wf (bst_merge l r) /\
  (forall x, x ∈ bst_keys (bst_merge l r) -> x ∈ bst_keys l \/ x ∈ bst_keys r).
Proof.
  intros Hwf. pose proof Hwf as (Hl & Hr & Hwl & Hwr). destruct r as [|rl rk rv rr].
  - simpl. rewrite (right_id_L ∅ (∪)). split_and!; [done|done|set_solver].
  - unfold bst_merge. destruct (bst_remove_min rl rk rv rr) as [[m mv] r'] eqn:E.
    destruct (bst_remove_min_spec rl rk rv rr m mv r' Hwr E) as (Habs & Hn & Hwr' & Hm & Hlt & Hsub).
    assert (Hmk : cmp k m = Lt) by (apply cmp_gt_lt, Hr, Hm).
    assert (Hml : bst_abs l !! m = None).
    { apply bst_abs_None. intros Hin. apply Hl in Hin.
      pose proof (cmp_lt_trans _ _ _ Hin Hmk) as Hmm.
      rewrite (proj2 (cmp_eq m m) eq_refl) in Hmm. discriminate. }
    split_and!.
    + simpl bst_abs at 1. rewrite Habs. by apply insert_union_r.
    + simpl. split_and!; try done.
      * intros x Hx. eapply cmp_lt_trans; [apply Hl, Hx|exact Hmk].
      * intros x Hx. apply cmp_gt_lt, Hlt, Hx.
    + intros x. simpl. rewrite elem_of_cons, elem_of_app.
      intros [->|[Hx|Hx]]; [by right|by left|right; apply Hsub, Hx].
Qed.

Lemma bst_delete_spec t k :
  bst_wf t ->
  bst_abs (bst_delete k t) = delete k (bst_abs t) /\ bst_wf (bst_delete k t) /\
  (forall x, x ∈ bst_keys (bst_delete k t) -> x ∈ bst_keys t).
Proof.
  induction t as [|l IHl k' v r IHr]; intros Hwf.
  - simpl. rewrite delete_empty. split_and!; [done|done|set_solver].
  - pose proof Hwf as (Hl & Hr & Hwl & Hwr). simpl bst_delete. destruct (cmp k k') eqn:E.
    + apply cmp_eq in E as ->. destruct (bst_merge_spec l k' v r Hwf) as (Habs & Hw & Hk).
      pose proof (bst_wf_node_notin _ _ _ _ Hwf) as [Hnl Hnr].
      split_and!; [|done|].
      * rewrite Habs. simpl. rewrite delete_insert_eq, delete_id; [done|].
        by apply lookup_union_None.
      * intros x Hx. apply Hk in Hx. simpl. set_solver.
    + destruct (IHl Hwl) as (Habs & Hw & Hk).
      destruct (bst_abs_node_lt l k' v r k Hwf E) as [_ Hrn].
      split_and!.
      * simpl. rewrite Habs, delete_insert_ne by (apply cmp_lt_ne, E).
        by rewrite delete_union, (delete_id (bst_abs r)).
      * simpl. split_and!; try done. intros x Hx. apply Hl, Hk, Hx.
      * intros x. simpl. rewrite !elem_of_cons, !elem_of_app. specialize (Hk x). naive_solver.
    + destruct (IHr Hwr) as (Habs & Hw & Hk).
      destruct (bst_abs_node_gt l k' v r k Hwf E) as [_ Hln].
      split_and!.
      * simpl. rewrite Habs, delete_insert_ne by (apply cmp_gt_ne, E).
        by rewrite delete_union, (delete_id (bst_abs l)).
      * simpl. split_and!; try done. intros x Hx. apply Hr, Hk, Hx.
      * intros x. simpl. rewrite !elem_of_cons, !elem_of_app. specialize (Hk x). naive_solver.
Qed.

Lemma bst_size_abs t : bst_wf t -> bst_size t = size (bst_abs t).
Proof.
  induction t as [|l IHl k v r IHr]; intros Hwf; [simpl; by rewrite map_size_empty|].
  pose proof (bst_wf_node_notin _ _ _ _ Hwf) as [Hnl Hnr].
  destruct Hwf as (Hl & Hr & Hwl & Hwr). simpl.
  rewrite map_size_insert_None by (by apply lookup_union_None).
  rewrite map_size_disj_union; [by rewrite IHl, IHr|].
  apply map_disjoint_spec. intros i x y Hx Hy.
  assert (Hil : i ∈ bst_keys l) by (apply bst_abs_keys; by eexists).
  assert (Hir : i ∈ bst_keys r) by (apply bst_abs_keys; by eexists).
  apply Hl in Hil. apply Hr in Hir. congruence.
Qed.
End Bst.

(** A search depends on the comparator only through the comparisons it
    makes with the keys of the tree. *)
Lemma bst_find_ext (cmp1 cmp2 : list Z -> list Z -> comparison) t k :
  (forall x, x ∈ bst_keys t -> cmp1 k x = cmp2 k x) -> bst_find cmp1 k t = bst_find cmp2 k t.
Proof.
  induction t as [|l IHl k' v r IHr]; intros Heq; [done|]. simpl.
  rewrite (Heq k') by (simpl; set_solver).
  destruct (cmp2 k k'); [done|apply IHl|apply IHr]; intros x Hx; apply Heq; simpl; set_solver.
Qed.

Lemma bst_wf_ext (cmp1 cmp2 : list Z -> list Z -> comparison) t :
  (forall x y, x ∈ bst_keys t -> y ∈ bst_keys t -> cmp1 x y = cmp2 x y) ->
  bst_wf cmp1 t -> bst_wf cmp2 t.
Proof.
  induction t as [|l IHl k v r IHr]; intros Heq Hwf; [done|].
  destruct Hwf as (Hl & Hr & Hwl & Hwr). simpl in Heq. split_and!.
  - intros x Hx. rewrite <- Heq by set_solver. auto.
  - intros x Hx. rewrite <- Heq by set_solver. auto.
  - apply IHl; [intros; apply Heq; set_solver|done].
  - apply IHr; [intros; apply Heq; set_solver|done].
Qed.

(** ** The lexicographic order of octet strings *)

Fixpoint lexcmp (a b : list Z) : comparison :=
  match a, b with
  | [], [] => Eq
  | [], _ :: _ => Lt
  | _ :: _, [] => Gt
  | x :: a', y :: b' =>
      match Z.compare x y with
      | Eq => lexcmp a' b'
      | c => c
      end
  end.

Lemma lexcmp_eq a b : lexcmp a b = Eq <-> a = b.
Proof.
  revert b. induction a as [|x a IH]; intros [|y b]; simpl; try (split; congruence).
  destruct (Z.compare_spec x y) as [->|Hxy|Hxy].
  - rewrite IH. split; congruence.
  - split; [discriminate|intros [= -> ->]; lia].
  - split; [discriminate|intros [= -> ->]; lia].
Qed.

Lemma lexcmp_opp a b : lexcmp a b = CompOpp (lexcmp b a).
Proof.
  revert b. induction a as [|x a IH]; intros [|y b]; simpl; try done.
  destruct (Z.compare_spec x y) as [->|Hxy|Hxy].
  - rewrite Z.compare_refl. apply IH.
  - by rewrite (proj2 (Z.compare_gt_iff y x) Hxy).
  - by rewrite (proj2 (Z.compare_lt_iff y x) Hxy).
Qed.

Lemma lexcmp_lt_trans a b c : lexcmp a b = Lt -> lexcmp b c = Lt -> lexcmp a c = Lt.
Proof.
  revert b c. induction a as [|x a IH]; intros [|y b] [|z c]; simpl; try discriminate; auto.
  destruct (Z.compare_spec x y); destruct (Z.compare_spec y z);
    try discriminate; subst; intros H1 H2.
  1: rewrite Z.compare_refl; eauto.
  all: rewrite (proj2 (Z.compare_lt_iff _ _)) by lia; reflexivity.
Qed.

(** [memcmp] over the whole of two arrays of its length is [lexcmp]. *)
Lemma memcmp_lexcmp n a b : length a = n -> length b = n -> memcmp n a b = lexcmp a b.
Proof.
  revert a b. induction n as [|n IH]; intros [|x a] [|y b] Ha Hb; simpl in *; try lia; auto.
  destruct (Z.compare x y); auto.
Qed.

Lemma lexcmp_state_entry_cmp a b :
  token_ok a -> token_ok b -> lexcmp a b = state_entry_cmp a b.
Proof. intros [Ha _] [Hb _]. symmetry. by apply memcmp_lexcmp. Qed.

(** ** Ordered trees as an [RbTree] *)

Definition sbst : Type := { t : bst | bst_wf lexcmp t }.

(** An optional result with the proof that it is ordered. *)
Definition opt_sig {A} {P : A -> Prop} (o : option A) :
    (forall a, o = Some a -> P a) -> option { a | P a } :=
  match o as o' return (forall a, o' = Some a -> P a) -> option { a | P a } with
  | Some a => fun H => Some (exist _ a (H a eq_refl))
  | None => fun _ => None
  end.

Lemma opt_sig_proj {A} {P : A -> Prop} (o : option A) H : proj1_sig <$> @opt_sig A P o H = o.
Proof. by destruct o. Qed.

Definition sbst_insert (k : list Z) (v : ptr) (t : sbst) : option sbst :=
  opt_sig (bst_insert lexcmp k v (proj1_sig t))
    (fun t' => bst_insert_wf lexcmp lexcmp_eq lexcmp_opp lexcmp_lt_trans _ k v t' (proj2_sig t)).

Definition sbst_delete (k : list Z) (t : sbst) : sbst :=
  exist _ (bst_delete lexcmp k (proj1_sig t))
    (proj1 (proj2 (bst_delete_spec lexcmp lexcmp_eq lexcmp_opp lexcmp_lt_trans _ k (proj2_sig t)))).

#[export] Instance sbst_rbtree : RbTree sbst := {
  rb_empty := exist _ Leaf I;
  rb_insert := sbst_insert;
  rb_find k t := bst_find lexcmp k (proj1_sig t);
  rb_delete := sbst_delete;
  rb_num t := bst_size (proj1_sig t);
  rb_abs t := bst_abs (proj1_sig t)
}.

#[export] Instance sbst_rbtree_laws : RbTreeLaws sbst.
Proof.
  pose proof (bst_insert_dup lexcmp lexcmp_eq lexcmp_opp lexcmp_lt_trans) as Hdup.
  pose proof (bst_insert_new lexcmp lexcmp_eq lexcmp_opp lexcmp_lt_trans) as Hnew.
  split; simpl.
  - done.
  - intros k p [t Ht] Hk. unfold sbst_insert. simpl.
    pose proof (opt_sig_proj (P := bst_wf lexcmp) (bst_insert lexcmp k p t)
      (fun t' => bst_insert_wf lexcmp lexcmp_eq lexcmp_opp lexcmp_lt_trans _ k p t' Ht)) as E.
    rewrite (Hdup t k p Ht Hk) in E. by apply fmap_None in E.
  - intros k p [t Ht] Hk. simpl in Hk. destruct (Hnew t k p Ht Hk) as (t' & Hi & Habs & _).
    unfold sbst_insert. simpl.
    pose proof (opt_sig_proj (P := bst_wf lexcmp) (bst_insert lexcmp k p t)
      (fun t' => bst_insert_wf lexcmp lexcmp_eq lexcmp_opp lexcmp_lt_trans _ k p t' Ht)) as E.
    rewrite Hi in E. apply fmap_Some in E as ([t'' Ht''] & -> & ->). by eexists.
  - intros k [t Ht]. apply (bst_find_abs lexcmp lexcmp_eq lexcmp_opp lexcmp_lt_trans), Ht.
  - intros k [t Ht]. apply (bst_delete_spec lexcmp lexcmp_eq lexcmp_opp lexcmp_lt_trans), Ht.
  - intros [t Ht]. apply (bst_size_abs lexcmp lexcmp_eq lexcmp_opp lexcmp_lt_trans), Ht.
Qed.

(** the tree [state.c] builds, read with its own comparator: in a binary
    search tree ordered by [state_entry_cmp] whose keys are 16-octet States,
    [bst_find] with [state_entry_cmp] for a 16-octet State ([rbtree_finddata]
    as [state_entry_find] calls it) returns exactly the pointer the tree maps
    that State to. *)
Theorem search_tree_find_states t k :
  bst_wf state_entry_cmp t -> Forall token_ok (bst_keys t) -> token_ok k ->
  bst_find state_entry_cmp k t = bst_abs t !! k.
Proof.
  intros Hwf Hks Hk. rewrite Forall_forall in Hks.
  rewrite <- (bst_find_abs lexcmp lexcmp_eq lexcmp_opp lexcmp_lt_trans).
  - apply bst_find_ext. intros x Hx. symmetry. by apply lexcmp_state_entry_cmp, Hks.
  - apply (bst_wf_ext state_entry_cmp); [|done].
    intros x y Hx Hy. symmetry. by apply lexcmp_state_entry_cmp; apply Hks.
Qed.

(** Two States, the second above the first. *)
Definition ex_tree : bst :=
  Node Leaf ex_token 1%positive
    (Node Leaf [3; 1; 4; 1; 5; 9; 2; 6; 5; 3; 5; 8; 9; 7; 9; 4]%Z 2%positive Leaf).

Lemma search_tree_find_states_witness :
  bst_wf state_entry_cmp ex_tree /\ Forall token_ok (bst_keys ex_tree) /\ token_ok ex_token /\
  bst_find state_entry_cmp ex_token ex_tree = Some 1%positive.
Proof.
  assert (Hwf : bst_wf state_entry_cmp ex_tree).
  { cbn. repeat split; intros x Hx;
      repeat (apply elem_of_cons in Hx as [->|Hx]; [vm_compute; reflexivity|]);
      apply elem_of_nil in Hx; contradiction. }
  assert (Hks : Forall token_ok (bst_keys ex_tree)) by (apply Forall_forall; intros x Hx;
      repeat (apply elem_of_cons in Hx as [->|Hx]; [decide_vm|]);
      apply elem_of_nil in Hx; contradiction).
  assert (Hk : token_ok ex_token) by decide_vm.
  split; [exact Hwf|split; [exact Hks|split; [exact Hk|]]].
  rewrite (search_tree_find_states ex_tree ex_token Hwf Hks Hk). vm_compute. reflexivity.
Defined.
