(* ===== verification/Entry.v ===== *)
(** * Entries and the doubly-linked cleanup list

    [state_entry_t] ([state.c] lines 33-45) is a record; the [prev] and
    [next] pointers thread every live entry on the list [head .. tail]
    of [fr_state_t].  The heap maps entry pointers to entries.  The
    predicate [dseg h pp x L q qn] says that, in heap [h], following
    [next] from [x] visits exactly the pointers of [L] in order, each
    entry's [prev] is its predecessor ([pp] for the first), the last one
    is [q] and its [next] is [qn].  The whole list of a store is
    [dseg h None head L tail None].  The lemmas here split and join
    segments and update the entries at the ends of a segment, which is
    all the list surgery of [state_entry_free] and [state_entry_create]
    needs. *)

From Stdlib Require Import ZArith Lia.
From S2P Require Import Prelude Token Pairs RbTree.

Record state_entry_t := mk_entry {
  state : list Z;
  cleanup : Z;
  prev : option ptr;
  next : option ptr;
  tries : Z;
  vps : list value_pair;
  data : option ptr
}.

(** [talloc_zero(ctx, state_entry_t)]: every field zero or NULL. *)
Definition entry_zero : state_entry_t :=
  mk_entry (replicate AUTH_VECTOR_LEN 0%Z) 0 None None 0 [] None.

#[export] Instance state_entry_inhabited : Inhabited state_entry_t :=
  populate entry_zero.

Definition set_prev (e : state_entry_t) (p : option ptr) : state_entry_t :=
  mk_entry (state e) (cleanup e) p (next e) (tries e) (vps e) (data e).
Definition set_next (e : state_entry_t) (p : option ptr) : state_entry_t :=
  mk_entry (state e) (cleanup e) (prev e) p (tries e) (vps e) (data e).
Definition set_vps (e : state_entry_t) (l : list value_pair) : state_entry_t :=
  mk_entry (state e) (cleanup e) (prev e) (next e) (tries e) l (data e).
Definition set_data (e : state_entry_t) (d : option ptr) : state_entry_t :=
  mk_entry (state e) (cleanup e) (prev e) (next e) (tries e) (vps e) d.

Abbreviation heap := (gmap ptr state_entry_t).

Fixpoint dseg (h : heap) (pp x : option ptr) (L : list ptr) (q qn : option ptr) : Prop :=
  match L with
  | [] => x = qn /\ q = pp
  | p :: L' =>
      x = Some p /\
      match h !! p with
      | Some e => prev e = pp /\ dseg h (Some p) (next e) L' q qn
      | None => False
      end
  end.

(** The pointers reached from [x] by [next], at most [fuel] of them:
    the list the cleanup loop walks. *)
Fixpoint walk (h : heap) (fuel : nat) (x : option ptr) : list ptr :=
  match fuel, x with
  | S f, Some p =>
      match h !! p with
      | Some e => p :: walk h f (next e)
      | None => []
      end
  | _, _ => []
  end.

Definition hd_ptr (L : list ptr) (qn : option ptr) : option ptr :=
  match L with [] => qn | p :: _ => Some p end.

Definition last_ptr (L : list ptr) (pp : option ptr) : option ptr :=
  match last L with None => pp | Some p => Some p end.

Lemma last_ptr_nil pp : last_ptr [] pp = pp.
Proof. reflexivity. Qed.

Lemma last_ptr_snoc L r pp : last_ptr (L ++ [r]) pp = Some r.
Proof. unfold last_ptr. by rewrite last_snoc. Qed.

#[export] Hint Rewrite last_ptr_nil last_ptr_snoc : frs_rw.

Lemma NoDup_snoc_notin (L : list ptr) r : NoDup (L ++ [r]) -> r ∉ L.
Proof.
  intros Hnd Hin. apply NoDup_app in Hnd as (_ & Hdis & _).
  apply (Hdis r Hin). set_solver.
Qed.

#[export] Instance dseg_dec h pp x L q qn : Decision (dseg h pp x L q qn).
Proof.
  revert pp x. induction L as [|p L IH]; intros pp x; simpl.
  - apply _.
  - destruct (h !! p); apply _.
Defined.

(** The pointer updates of [state_entry_free] (lines 104-118) on the
    neighbours of an entry [e]: [prev->next = next; next->prev = prev]. *)
Definition unlink_heap (h : heap) (e : state_entry_t) : heap :=
  let h1 := match prev e with
            | Some r => <[r := set_next (h !!! r) (next e)]> h
            | None => h
            end in
  match next e with
  | Some r => <[r := set_prev (h1 !!! r) (prev e)]> h1
  | None => h1
  end.

(** What an entry holds besides its list links. *)
Definition entry_content (e : state_entry_t) :=
  (state e, cleanup e, tries e, vps e, data e).

(** [h'] differs from [h] at most in list links. *)
Definition same_content (h h' : heap) : Prop :=
  forall q, entry_content <$> h' !! q = entry_content <$> h !! q.

Lemma same_content_refl h : same_content h h.
Proof. by intros q. Qed.

Lemma same_content_trans h1 h2 h3 :
  same_content h1 h2 -> same_content h2 h3 -> same_content h1 h3.
Proof. intros H12 H23 q. by rewrite H23, H12. Qed.

Lemma same_content_state h h' q :
  same_content h h' -> state (h' !!! q) = state (h !!! q).
Proof.
  intros Hs. specialize (Hs q). rewrite !lookup_total_alt.
  destruct (h' !! q), (h !! q); simpl in *; try discriminate; [|done].
  by injection Hs as [= -> _ _ _].
Qed.

(** The entries live in [h'] hold what they held in [h]. *)
Definition content_sub (h h' : heap) : Prop :=
  forall q, is_Some (h' !! q) -> entry_content <$> h' !! q = entry_content <$> h !! q.

Lemma content_sub_trans h1 h2 h3 :
  content_sub h1 h2 -> content_sub h2 h3 -> content_sub h1 h3.
Proof.
  intros H12 H23 q Hq. rewrite (H23 q Hq). apply H12.
  specialize (H23 q Hq). destruct Hq as [e3 He3]. rewrite He3 in H23.
  destruct (h2 !! q); [by eexists|discriminate].
Qed.

Lemma same_content_sub h h' : same_content h h' -> content_sub h h'.
Proof. intros Hs q _. apply Hs. Qed.

Lemma content_sub_delete h h' p : same_content h h' -> content_sub h (delete p h').
Proof.
  intros Hs q Hq. destruct (decide (p = q)) as [<-|Hne].
  - rewrite lookup_delete_eq in Hq. by destruct Hq.
  - rewrite lookup_delete_ne by done. apply Hs.
Qed.

Lemma content_sub_live h h' q : content_sub h h' -> is_Some (h' !! q) -> is_Some (h !! q).
Proof.
  intros Hs Hq. specialize (Hs q Hq). destruct Hq as [e He]. rewrite He in Hs.
  destruct (h !! q); [by eexists|discriminate].
Qed.

(** Adding the entry [p] and then keeping contents keeps them everywhere
    but at [p]. *)
Lemma content_sub_insert_delete h0 h p e h' :
  content_sub h0 h -> content_sub (<[p := e]> h) h' -> content_sub h0 (delete p h').
Proof.
  intros H1 H2 q Hq. destruct (decide (p = q)) as [<-|Hne].
  - rewrite lookup_delete_eq in Hq. by destruct Hq.
  - rewrite lookup_delete_ne in Hq |- * by done.
    pose proof (content_sub_live _ _ q H2 Hq) as Hq'. rewrite lookup_insert_ne in Hq' by done.
    by rewrite (H2 q Hq), lookup_insert_ne, (H1 q Hq').
Qed.

Lemma content_sub_total h h' q :
  content_sub h h' -> is_Some (h' !! q) -> entry_content (h' !!! q) = entry_content (h !!! q).
Proof.
  intros Hs Hq. specialize (Hs q Hq). rewrite !lookup_total_alt.
  destruct Hq as [e' He']. rewrite He' in Hs |- *.
  destruct (h !! q); simpl in *; congruence.
Qed.

Lemma same_content_links h r x y :
  is_Some (h !! r) ->
  same_content h (<[r := mk_entry (state (h !!! r)) (cleanup (h !!! r)) x y
                          (tries (h !!! r)) (vps (h !!! r)) (data (h !!! r))]> h).
Proof.
  intros [er Her] q. destruct (decide (r = q)) as [<-|Hne].
  - rewrite lookup_insert_eq, Her, (lookup_total_correct _ _ _ Her). done.
  - by rewrite lookup_insert_ne.
Qed.

Lemma unlink_heap_same_content h e :
  (forall r, prev e = Some r -> is_Some (h !! r)) ->
  (forall r, next e = Some r -> is_Some (h !! r)) ->
  same_content h (unlink_heap h e).
Proof.
  intros Hp Hn. unfold unlink_heap.
  assert (H1 : same_content h (match prev e with
            | Some r => <[r := set_next (h !!! r) (next e)]> h | None => h end)).
  { destruct (prev e) as [r|]; [apply same_content_links; auto|apply same_content_refl]. }
  destruct (next e) as [r|]; [|done].
  eapply same_content_trans; [exact H1|]. apply same_content_links.
  destruct (prev e) as [r'|]; [|auto]. rewrite lookup_insert_is_Some'. auto.
Qed.

Lemma unlink_heap_dom h e :
  (forall r, prev e = Some r -> is_Some (h !! r)) ->
  (forall r, next e = Some r -> is_Some (h !! r)) ->
  dom (unlink_heap h e) = dom h.
Proof.
  intros Hp Hn. apply set_eq. intros q. rewrite !elem_of_dom.
  pose proof (unlink_heap_same_content h e Hp Hn q) as Hq.
  destruct (unlink_heap h e !! q), (h !! q); simpl in *; try discriminate;
    split; intros [? ?]; try done; by eexists.
Qed.

Section Dseg.
Implicit Types (h : heap) (L : list ptr) (pp x q qn : option ptr).

Lemma dseg_hd h pp x L q qn : dseg h pp x L q qn -> x = hd_ptr L qn.
Proof. destruct L; simpl; tauto. Qed.

Lemma dseg_last h pp x L q qn : dseg h pp x L q qn -> q = last_ptr L pp.
Proof.
  unfold last_ptr. revert pp x. induction L as [|p L IH]; intros pp x; simpl.
  - intros [_ ->]. reflexivity.
  - intros [-> H]. destruct (h !! p) as [e|]; [|done]. destruct H as [_ H].
    rewrite (IH _ _ H). destruct L as [|p0 L]; [done|].
    rewrite last_cons_cons. destruct (last (p0 :: L)) eqn:E; [done|].
    by apply last_None in E.
Qed.

Lemma dseg_app h pp x L1 L2 q qn :
  dseg h pp x (L1 ++ L2) q qn <->
  exists mp m, dseg h pp x L1 mp m /\ dseg h mp m L2 q qn.
Proof.
  revert pp x. induction L1 as [|p L1 IH]; intros pp x; simpl.
  - split; [eauto|]. intros (mp & m & [-> ->] & H). done.
  - destruct (h !! p) as [e|]; [|naive_solver].
    setoid_rewrite IH. naive_solver.
Qed.

Lemma dseg_frame h h' pp x L q qn :
  (forall p, p ∈ L -> h' !! p = h !! p) ->
  dseg h pp x L q qn -> dseg h' pp x L q qn.
Proof.
  revert pp x. induction L as [|p L IH]; intros pp x Hfr; simpl; [done|].
  rewrite Hfr by set_solver. destruct (h !! p); [|done].
  intros (-> & ? & Hs). split; [done|split; [done|]].
  apply IH; [|done]. intros r Hr. apply Hfr. set_solver.
Qed.

Lemma dseg_in_heap h pp x L q qn p :
  dseg h pp x L q qn -> p ∈ L -> is_Some (h !! p).
Proof.
  revert pp x. induction L as [|r L IH]; intros pp x; simpl; [set_solver|].
  intros [-> Hs] Hp. destruct (h !! r) as [e|] eqn:E; [|done].
  apply elem_of_cons in Hp as [->|Hp]; [by eexists|].
  destruct Hs as [_ Hs]. eauto.
Qed.

Lemma dseg_frame_delete h pp x L q qn p :
  p ∉ L -> dseg h pp x L q qn -> dseg (delete p h) pp x L q qn.
Proof.
  intros Hp. apply dseg_frame. intros r Hr.
  rewrite lookup_delete_ne; [done|set_solver].
Qed.

(** Changing the [prev] of the first entry of a segment. *)
Lemma dseg_set_first_prev h pp pp' x r L q qn e :
  r ∉ L -> h !! r = Some e ->
  dseg h pp x (r :: L) q qn ->
  dseg (<[r := set_prev e pp']> h) pp' x (r :: L) q qn.
Proof.
  intros Hr He. simpl. rewrite He, lookup_insert_eq.
  intros (-> & _ & Hs). split; [done|split; [done|]].
  apply (dseg_frame h); [|done].
  intros p Hp. rewrite lookup_insert_ne; [done|set_solver].
Qed.

(** Changing the [next] of the last entry of a segment. *)
Lemma dseg_set_last_next h pp x L r q qn qn' e :
  r ∉ L -> h !! r = Some e ->
  dseg h pp x (L ++ [r]) q qn ->
  dseg (<[r := set_next e qn']> h) pp x (L ++ [r]) q qn'.
Proof.
  intros Hr He. rewrite !dseg_app. intros (mp & m & H1 & H2).
  exists mp, m. split.
  - apply (dseg_frame h); [|done].
    intros p Hp. rewrite lookup_insert_ne; [done|set_solver].
  - simpl in *. rewrite He in H2. rewrite lookup_insert_eq.
    destruct H2 as (-> & <- & <- & ->). done.
Qed.

Lemma dseg_walk h pp x L q fuel :
  dseg h pp x L q None -> (length L <= fuel)%nat -> walk h fuel x = L.
Proof.
  revert pp x fuel. induction L as [|p L IH]; intros pp x fuel; simpl.
  - intros [-> _] _. by destruct fuel.
  - intros [-> Hs] Hf. destruct fuel as [|fuel]; [lia|]. simpl.
    destruct (h !! p) as [e|]; [|done]. destruct Hs as [_ Hs].
    f_equal. eapply IH; [done|lia].
Qed.

(** An entry in the middle of a list: its [prev] is the end of the part
    before it, its [next] the start of the part after it. *)
Lemma dseg_split_mid h hd tl L1 p L2 e :
  h !! p = Some e ->
  dseg h None hd (L1 ++ p :: L2) tl None ->
  prev e = last_ptr L1 None /\ next e = hd_ptr L2 None /\
  dseg h None hd L1 (prev e) (Some p) /\ dseg h (Some p) (next e) L2 tl None.
Proof.
  intros He. rewrite dseg_app. intros (mp & m & H1 & H2).
  simpl in H2. rewrite He in H2. destruct H2 as (-> & Hp & H2). subst mp.
  split; [eauto using dseg_last|]. split; [eauto using dseg_hd|]. done.
Qed.

Lemma dseg_mid_prev h hd tl L1 p L2 e :
  NoDup (L1 ++ p :: L2) -> h !! p = Some e ->
  dseg h None hd (L1 ++ p :: L2) tl None ->
  match prev e with None => hd = Some p | Some r => hd <> Some p /\ r ∈ L1 end.
Proof.
  intros Hnd He Hs.
  destruct (dseg_split_mid h hd tl L1 p L2 e He Hs) as (Hpv & _).
  apply dseg_hd in Hs. rewrite Hpv, Hs.
  destruct L1 as [|r1 L1'] using rev_ind; [done|].
  rewrite last_ptr_snoc. split; [|set_solver].
  apply NoDup_app in Hnd as (_ & Hdis & _).
  destruct L1' as [|x L1']; simpl; intros [= Heq]; subst.
  - apply (Hdis p); set_solver.
  - apply (Hdis p); set_solver.
Qed.

Lemma dseg_mid_next h hd tl L1 p L2 e :
  NoDup (L1 ++ p :: L2) -> h !! p = Some e ->
  dseg h None hd (L1 ++ p :: L2) tl None ->
  match next e with None => tl = Some p | Some r => tl <> Some p /\ r ∈ L2 end.
Proof.
  intros Hnd He Hs.
  destruct (dseg_split_mid h hd tl L1 p L2 e He Hs) as (_ & Hnx & _).
  apply dseg_last in Hs. rewrite Hnx, Hs.
  apply NoDup_app in Hnd as (_ & _ & Hnd2).
  destruct L2 as [|r2 L2'].
  - by rewrite last_ptr_snoc.
  - split; [|set_solver].
    apply NoDup_cons in Hnd2 as [Hp _].
    destruct (r2 :: L2') as [|y L2] eqn:E using rev_ind; [discriminate|].
    rewrite app_comm_cons, app_assoc, last_ptr_snoc. intros [= Heq]; subst.
    set_solver.
Qed.

Lemma dseg_unlink h hd tl L1 p L2 e :
  NoDup (L1 ++ p :: L2) -> h !! p = Some e ->
  dseg h None hd (L1 ++ p :: L2) tl None ->
  dseg (delete p (unlink_heap h e)) None
       (match prev e with Some _ => hd | None => next e end) (L1 ++ L2)
       (match next e with Some _ => tl | None => prev e end) None.
Proof.
  intros Hnd He Hs.
  destruct (dseg_split_mid h hd tl L1 p L2 e He Hs) as (Hpv & Hnx & H1 & H2).
  unfold unlink_heap.
  apply NoDup_app in Hnd as (Hnd1 & Hdis & Hnd2).
  apply NoDup_cons in Hnd2 as [Hp2 Hnd2].
  assert (Hp1 : p ∉ L1) by (intros Hin; apply (Hdis p); set_solver).
  destruct L2 as [|r2 L2']; destruct L1 as [|r1 L1'] using rev_ind;
    try clear IHL1'; simpl in Hnx; autorewrite with frs_rw in Hpv;
    rewrite Hpv, Hnx in *;
    autorewrite with frs_rw in H1, H2 |- *; rewrite ?app_nil_r.
  - destruct H1 as [-> _]. done.
  - pose proof (dseg_in_heap _ _ _ _ _ _ r1 H1 ltac:(set_solver)) as [e1 E1].
    rewrite (lookup_total_correct _ _ _ E1).
    apply dseg_frame_delete; [done|].
    eapply dseg_set_last_next; [eapply NoDup_snoc_notin, Hnd1|exact E1|exact H1].
  - pose proof (dseg_in_heap _ _ _ _ _ _ r2 H2 ltac:(set_solver)) as [e2 E2].
    destruct H1 as [-> _].
    rewrite (lookup_total_correct _ _ _ E2).
    apply dseg_frame_delete; [done|].
    eapply dseg_set_first_prev; [by inversion Hnd2|exact E2|exact H2].
  - pose proof (dseg_in_heap _ _ _ _ _ _ r1 H1 ltac:(set_solver)) as [e1 E1].
    pose proof (dseg_in_heap _ _ _ _ _ _ r2 H2 ltac:(set_solver)) as [e2 E2].
    assert (Hr12 : r1 <> r2) by (intros ->; apply (Hdis r2); set_solver).
    rewrite (lookup_total_correct _ _ _ E1), lookup_total_insert_ne by done.
    rewrite (lookup_total_correct _ _ _ E2).
    apply dseg_frame_delete; [set_solver|].
    apply dseg_app. exists (Some r1), (Some r2). split.
    + apply (dseg_frame (<[r1:=set_next e1 (Some r2)]> h)).
      { intros q Hq. rewrite lookup_insert_ne; [done|].
        intros Heq; subst q. apply (Hdis r2); set_solver. }
      eapply dseg_set_last_next; [eapply NoDup_snoc_notin, Hnd1|exact E1|exact H1].
    + apply dseg_set_first_prev with (pp := Some p);
        [by inversion Hnd2|by rewrite lookup_insert_ne|].
      apply (dseg_frame h); [|done].
      intros q Hq. rewrite lookup_insert_ne; [done|].
      intros Heq; subst q. apply (Hdis r1); set_solver.
Qed.

(** Lines 328-335: linking a new entry after the tail. *)
Lemma dseg_link_tail h hd L t p e :
  NoDup L -> p ∉ L -> h !! p = Some e ->
  dseg h None hd L (Some t) None ->
  let h1 := <[p := set_prev e (Some t)]> h in
  let h2 := <[t := set_next (h1 !!! t) (Some p)]> h1 in
  dseg (<[p := set_next (h2 !!! p) None]> h2) None hd (L ++ [p]) (Some p) None.
Proof.
  intros Hnd Hp He Hs. cbv zeta.
  pose proof (dseg_last _ _ _ _ _ _ Hs) as Hl. unfold last_ptr in Hl.
  destruct (last L) as [t'|] eqn:Et; [|discriminate]. injection Hl as <-.
  apply last_Some in Et as [L' ->].
  pose proof (dseg_in_heap _ _ _ _ _ _ t Hs ltac:(set_solver)) as [et Het].
  assert (Htp : t <> p) by set_solver.
  rewrite (lookup_total_insert_ne _ p t), (lookup_total_correct _ _ _ Het) by done.
  rewrite (lookup_total_insert_ne _ t p), lookup_total_insert_eq by done.
  apply dseg_app. exists (Some t), (Some p). split.
  - apply (dseg_frame (<[t := set_next et (Some p)]> h)).
    { intros q Hq. rewrite (lookup_insert_ne _ p q) by set_solver.
      destruct (decide (t = q)) as [<-|Hne].
      - by rewrite !lookup_insert_eq.
      - rewrite !lookup_insert_ne by set_solver. done. }
    eapply dseg_set_last_next; [by eapply NoDup_snoc_notin|exact Het|exact Hs].
  - simpl. rewrite lookup_insert_eq. done.
Qed.

(** Rewriting an entry's payload, links unchanged, keeps every segment. *)
Lemma dseg_payload h pp x L q qn p e e' :
  h !! p = Some e -> prev e' = prev e -> next e' = next e ->
  dseg h pp x L q qn -> dseg (<[p := e']> h) pp x L q qn.
Proof.
  intros He Hp Hn. revert pp x. induction L as [|r L IH]; intros pp x; simpl; [done|].
  intros [-> Hs]. split; [done|]. destruct (decide (p = r)) as [<-|Hne].
  - rewrite lookup_insert_eq. rewrite He in Hs. rewrite Hp, Hn. naive_solver.
  - rewrite lookup_insert_ne by done. destruct (h !! r); naive_solver.
Qed.
End Dseg.

Lemma unlink_heap_insert_ne h e p e0 :
  prev e <> Some p -> next e <> Some p ->
  unlink_heap (<[p := e0]> h) e = <[p := e0]> (unlink_heap h e).
Proof.
  intros Hp Hn. unfold unlink_heap.
  destruct (prev e) as [r|], (next e) as [r'|];
    try rewrite (lookup_total_insert_ne _ p r) by congruence;
    try rewrite (insert_insert_ne _ r p) by congruence;
    try rewrite (lookup_total_insert_ne _ p r') by congruence;
    try rewrite (insert_insert_ne _ r' p) by congruence; done.
Qed.

#[export] Hint Resolve dseg_hd dseg_last dseg_in_heap : frs.
