(* ===== verification/Store.v ===== *)
(** * The store: [fr_state_t], entry creation, removal and cleanup

    The state of [state.c] is [fr_state_t] (lines 47-56) together with
    the talloc memory the entries live in.  [world] holds both: the
    [fr_state_t] record, the live entries by pointer, the next pointer the
    allocator hands out and the payloads released by
    [talloc_free(entry->data)].  Operations run in the [SE] monad over
    [world]; a read or write of an entry that is not live is
    [Crash UseAfterFree].  This file models the memory
    operations and [state_entry_free] (lines 91-127), defines the
    invariant of a store and proves that [state_entry_free] keeps it and
    removes exactly its entry. *)

From Stdlib Require Import ZArith Lia.
From S2P Require Import Prelude Token Pairs RbTree Entry.

Record fr_state_t (T : Type) := mk_fr_state {
  max_sessions : Z;
  tree : T;
  head : option ptr;
  tail : option ptr
}.
Arguments mk_fr_state {T}.
Arguments max_sessions {T}. Arguments tree {T}.
Arguments head {T}. Arguments tail {T}.

Record world (T : Type) := mk_world {
  w_state : fr_state_t T;
  w_heap : heap;
  w_next : ptr;
  w_released : list ptr
}.
Arguments mk_world {T}.
Arguments w_state {T}. Arguments w_heap {T}.
Arguments w_next {T}. Arguments w_released {T}.

(** The configuration [state_entry_create] reads:
    [main_config.max_request_time], [main_config.state_seed] and the
    compile-time [HEXIFY(RADIUSD_VERSION)]. *)
Record config := mk_config {
  max_request_time : Z;
  state_seed : Z;
  radiusd_version : Z
}.

Section Store.
Context `{RbTreeLaws T}.
Context (cfg : config).

Implicit Types (w : world T) (st : fr_state_t T).

Definition set_head st (p : option ptr) : fr_state_t T :=
  mk_fr_state (max_sessions st) (tree st) p (tail st).
Definition set_tail st (p : option ptr) : fr_state_t T :=
  mk_fr_state (max_sessions st) (tree st) (head st) p.
Definition set_tree st (t : T) : fr_state_t T :=
  mk_fr_state (max_sessions st) t (head st) (tail st).

(** ** Memory *)

Definition get_st : SE (world T) (fr_state_t T) := fun w => Ok (w_state w, w).

Definition put_st st : SE (world T) unit :=
  fun w => Ok (tt, mk_world st (w_heap w) (w_next w) (w_released w)).

(** [entry->field] reads. *)
Definition load (p : ptr) : SE (world T) state_entry_t :=
  fun w => match w_heap w !! p with
           | Some e => Ok (e, w)
           | None => Crash UseAfterFree
           end.

(** [entry->field = v] writes. *)
Definition store (p : ptr) (e : state_entry_t) : SE (world T) unit :=
  fun w => match w_heap w !! p with
           | Some _ => Ok (tt, mk_world (w_state w) (<[p := e]> (w_heap w))
                                   (w_next w) (w_released w))
           | None => Crash UseAfterFree
           end.

(** [talloc_zero(state->tree, state_entry_t)]. *)
Definition talloc_zero_entry : SE (world T) ptr :=
  fun w => Ok (w_next w, mk_world (w_state w) (<[w_next w := entry_zero]> (w_heap w))
                               (Pos.succ (w_next w)) (w_released w)).

(** [talloc_free(entry)]. *)
Definition talloc_free_entry (p : ptr) : SE (world T) unit :=
  fun w => match w_heap w !! p with
           | Some _ => Ok (tt, mk_world (w_state w) (delete p (w_heap w))
                                   (w_next w) (w_released w))
           | None => Crash UseAfterFree
           end.

(** [talloc_free(entry->data)]. *)
Definition talloc_free_data (d : ptr) : SE (world T) unit :=
  fun w => Ok (tt, mk_world (w_state w) (w_heap w) (w_next w) (w_released w ++ [d])).

(** ** [state_entry_free] (lines 91-127) *)

(** Lines 104-110: unlink from the predecessor, or move [head]. *)
Definition unlink_prev (entry : ptr) (prv nxt : option ptr) : SE (world T) unit :=
  let* st := get_st in
  match prv with
  | Some pv =>
      rad_assert (bool_decide (head st <> Some entry)) ;;
      let* pe := load pv in store pv (set_next pe nxt)
  | None =>
      match head st with
      | Some _ => rad_assert (bool_decide (head st = Some entry)) ;;
                  put_st (set_head st nxt)
      | None => se_ret tt
      end
  end.

(** Lines 112-118: unlink from the successor, or move [tail]. *)
Definition unlink_next (entry : ptr) (prv nxt : option ptr) : SE (world T) unit :=
  let* st := get_st in
  match nxt with
  | Some nx =>
      rad_assert (bool_decide (tail st <> Some entry)) ;;
      let* ne := load nx in store nx (set_prev ne prv)
  | None =>
      match tail st with
      | Some _ => rad_assert (bool_decide (tail st = Some entry)) ;;
                  put_st (set_tail st prv)
      | None => se_ret tt
      end
  end.

(** [state_entry_free] (lines 91-127), with [state] and [state->tree]
    non-NULL (the guard of line 99 only matters while
    [fr_state_delete] tears the tree down). *)
Definition state_entry_free (entry : ptr) : SE (world T) unit :=
  let* e := load entry in
  unlink_prev entry (prev e) (next e) ;;
  unlink_next entry (prev e) (next e) ;;
  let* e := load entry in
  (match data e with Some d => talloc_free_data d | None => se_ret tt end) ;;
  let* st := get_st in
  put_st (set_tree st (rb_delete (state e) (tree st))) ;;
  talloc_free_entry entry.

End Store.

(** ** The invariant of a store *)

Definition st_of (h : heap) (p : ptr) : list Z := state (h !!! p).

(** The contents the tree must have for the entries [L]. *)
Definition tree_image (h : heap) (L : list ptr) : gmap (list Z) ptr :=
  list_to_map ((fun p => (st_of h p, p)) <$> L).

Section Invariant.
Context `{RbTreeLaws T}.
Implicit Types (w : world T) (L : list ptr).

(** [L] is the cleanup list of [w]: the pointers agree with it, it has
    no repetition, it is exactly the live entries, the tree indexes
    exactly its entries by their States (I1, I2), the States are
    16 octets, every entry was handed out by the allocator, and there
    are at most [(uint32_t) max_sessions] entries (I3). *)
Definition inv_with w L : Prop :=
  dseg (w_heap w) None (head (w_state w)) L (tail (w_state w)) None /\
  NoDup L /\
  dom (w_heap w) = list_to_set L /\
  NoDup (st_of (w_heap w) <$> L) /\
  rb_abs (tree (w_state w)) = tree_image (w_heap w) L /\
  Forall (fun p => token_ok (st_of (w_heap w) p)) L /\
  Forall (fun p => (p < w_next w)%positive) L /\
  (Z.of_nat (length L) <= u32 (max_sessions (w_state w)))%Z.

Definition inv w : Prop := exists L, inv_with w L.

Lemma tree_image_lookup h L k p :
  NoDup (st_of h <$> L) ->
  tree_image h L !! k = Some p <-> p ∈ L /\ st_of h p = k.
Proof.
  intros Hnd. unfold tree_image. rewrite <- elem_of_list_to_map.
  - rewrite list_elem_of_fmap. naive_solver.
  - by rewrite <- list_fmap_compose.
Qed.

Lemma tree_image_lookup_None h L k :
  tree_image h L !! k = None <-> forall p, p ∈ L -> st_of h p <> k.
Proof.
  unfold tree_image. rewrite <- not_elem_of_list_to_map.
  rewrite <- list_fmap_compose. rewrite list_elem_of_fmap. naive_solver.
Qed.

Lemma tree_image_frame h h' L :
  (forall p, p ∈ L -> st_of h' p = st_of h p) ->
  tree_image h' L = tree_image h L.
Proof.
  intros Hfr. unfold tree_image. f_equal. apply list_fmap_ext.
  intros i p Hi. f_equal. apply Hfr. by eapply list_elem_of_lookup_2.
Qed.

Lemma tree_image_snoc h L p :
  NoDup (st_of h <$> L ++ [p]) ->
  tree_image h (L ++ [p]) = <[st_of h p := p]> (tree_image h L).
Proof.
  intros Hnd. pose proof Hnd as Hnd0. rewrite fmap_app in Hnd. simpl in Hnd.
  apply NoDup_app in Hnd as (Hnd' & Hdis & _).
  apply map_eq. intros k. apply option_eq. intros q.
  rewrite lookup_insert_Some, !tree_image_lookup by done.
  split.
  - intros [[Hq|Hq]%elem_of_app <-].
    + right. split; [|split; [done|done]]. intros Heq.
      apply (Hdis (st_of h q)); [by apply list_elem_of_fmap_2|]. rewrite Heq. set_solver.
    + left. set_solver.
  - intros [[<- <-]|[Hne [Hq <-]]]; set_solver.
Qed.

Lemma inv_in_heap w L p : inv_with w L -> p ∈ L <-> is_Some (w_heap w !! p).
Proof.
  intros (_ & _ & Hdom & _). rewrite <- elem_of_dom, Hdom.
  by rewrite elem_of_list_to_set.
Qed.

Lemma inv_size w L : inv_with w L -> size (w_heap w) = length L.
Proof.
  intros (_ & Hnd & Hdom & _).
  rewrite <- size_dom, Hdom. by apply size_list_to_set.
Qed.

(** walking [next] from [head] for as many steps as there are live
    entries visits exactly the list of the invariant. *)
Lemma inv_walk w L :
  inv_with w L -> walk (w_heap w) (size (w_heap w)) (head (w_state w)) = L.
Proof.
  intros Hi. rewrite (inv_size w L Hi). destruct Hi as (Hs & _).
  eapply dseg_walk; [exact Hs|lia].
Qed.

(** no two live entries share a State (the tree is a map on States). *)
Lemma inv_state_unique w L p q :
  inv_with w L -> p ∈ L -> q ∈ L ->
  st_of (w_heap w) p = st_of (w_heap w) q -> p = q.
Proof.
  intros (_ & _ & _ & Hnd & _) Hp Hq Heq.
  assert (Hp' := proj2 (tree_image_lookup _ _ _ _ Hnd) (conj Hp eq_refl)).
  assert (Hq' := proj2 (tree_image_lookup _ _ _ _ Hnd) (conj Hq eq_refl)).
  rewrite Heq in Hp'. congruence.
Qed.
End Invariant.

#[export] Instance inv_with_dec `{RbTreeLaws T} (w : world T) L :
  Decision (inv_with w L).
Proof. unfold inv_with. apply _. Defined.

(** ** [state_entry_free] *)

Definition upd_state {T} (w : world T) (st : fr_state_t T) : world T :=
  mk_world st (w_heap w) (w_next w) (w_released w).
Definition upd_heap {T} (w : world T) (h : heap) : world T :=
  mk_world (w_state w) h (w_next w) (w_released w).

(** The world after [state_entry_free] of [p], whose entry is [e]. *)
Definition free_world `{RbTree T} (w : world T) (p : ptr) (e : state_entry_t) : world T :=
  let st := w_state w in
  mk_world (mk_fr_state (max_sessions st) (rb_delete (state e) (tree st))
              (match prev e with Some _ => head st | None => next e end)
              (match next e with Some _ => tail st | None => prev e end))
           (delete p (unlink_heap (w_heap w) e))
           (w_next w)
           (w_released w ++ option_list (data e)).

(** The list part of the invariant: what [state_entry_free] needs. *)
Definition list_ok {T} (w : world T) (L : list ptr) : Prop :=
  dseg (w_heap w) None (head (w_state w)) L (tail (w_state w)) None /\ NoDup L.

Lemma inv_list_ok `{RbTreeLaws T} (w : world T) L : inv_with w L -> list_ok w L.
Proof. by intros (? & ? & _). Qed.

Section FreeRun.
Context `{RbTreeLaws T}.
Implicit Types (w : world T).

Lemma load_ok w p e : w_heap w !! p = Some e -> load p w = Ok (e, w).
Proof. unfold load. by intros ->. Qed.

Lemma store_ok w p e : is_Some (w_heap w !! p) ->
  store p e w = Ok (tt, upd_heap w (<[p := e]> (w_heap w))).
Proof. unfold store. by intros [? ->]. Qed.

Lemma unlink_prev_run w p prv nxt :
  match prv with
  | None => head (w_state w) = Some p
  | Some r => head (w_state w) <> Some p /\ is_Some (w_heap w !! r)
  end ->
  unlink_prev p prv nxt w =
  Ok (tt, match prv with
          | Some r => upd_heap w (<[r := set_next (w_heap w !!! r) nxt]> (w_heap w))
          | None => upd_state w (set_head (w_state w) nxt)
          end).
Proof.
  unfold unlink_prev, se_bind, get_st. destruct prv as [r|].
  - intros [Hh [er Her]]. rewrite bool_decide_eq_true_2 by done. simpl.
    rewrite (load_ok _ _ _ Her), store_ok by (by eexists).
    by rewrite (lookup_total_correct _ _ _ Her).
  - intros Hh. rewrite Hh. simpl. by rewrite bool_decide_eq_true_2.
Qed.

Lemma unlink_next_run w p prv nxt :
  match nxt with
  | None => tail (w_state w) = Some p
  | Some r => tail (w_state w) <> Some p /\ is_Some (w_heap w !! r)
  end ->
  unlink_next p prv nxt w =
  Ok (tt, match nxt with
          | Some r => upd_heap w (<[r := set_prev (w_heap w !!! r) prv]> (w_heap w))
          | None => upd_state w (set_tail (w_state w) prv)
          end).
Proof.
  unfold unlink_next, se_bind, get_st. destruct nxt as [r|].
  - intros [Hh [er Her]]. rewrite bool_decide_eq_true_2 by done. simpl.
    rewrite (load_ok _ _ _ Her), store_ok by (by eexists).
    by rewrite (lookup_total_correct _ _ _ Her).
  - intros Hh. rewrite Hh. simpl. by rewrite bool_decide_eq_true_2.
Qed.
Lemma free_tail_run (w : world T) p e :
  w_heap w !! p = Some e ->
  (let* e0 := load p in
   (match data e0 with Some d => talloc_free_data d | None => se_ret tt end) ;;
   let* st := get_st in
   put_st (set_tree st (rb_delete (state e0) (tree st))) ;;
   talloc_free_entry p) w =
  Ok (tt, mk_world (set_tree (w_state w) (rb_delete (state e) (tree (w_state w))))
                   (delete p (w_heap w)) (w_next w)
                   (w_released w ++ option_list (data e))).
Proof.
  intros He. rewrite (se_bind_ok _ _ _ _ _ (load_ok _ _ _ He)).
  unfold se_bind, get_st, put_st, talloc_free_entry, talloc_free_data, se_ret.
  destruct (data e); simpl; rewrite He; [done|]. by rewrite app_nil_r.
Qed.

Lemma state_entry_free_run (w : world T) L1 p L2 e :
  list_ok w (L1 ++ p :: L2) -> w_heap w !! p = Some e ->
  state_entry_free p w = Ok (tt, free_world w p e).
Proof.
  intros (Hs & Hnd) He.
  pose proof (dseg_mid_prev _ _ _ _ _ _ _ Hnd He Hs) as Hpv.
  pose proof (dseg_mid_next _ _ _ _ _ _ _ Hnd He Hs) as Hnx.
  assert (Hin : forall r, r ∈ L1 ++ p :: L2 -> is_Some (w_heap w !! r))
    by (intros r; eapply dseg_in_heap; eauto).
  apply NoDup_app in Hnd as (Hnd1 & Hdis & Hnd2).
  apply NoDup_cons in Hnd2 as [Hp2 _].
  assert (Hp1 : p ∉ L1) by (intros Hin1; apply (Hdis p); set_solver).
  unfold state_entry_free, free_world, unlink_heap.
  rewrite (se_bind_ok _ _ _ _ _ (load_ok _ _ _ He)).
  assert (Hu1 : match prev e with
    | Some r => head (w_state w) <> Some p /\ is_Some (w_heap w !! r)
    | None => head (w_state w) = Some p end).
  { destruct (prev e); [|done]. split; [tauto|]. apply Hin. set_solver. }
  rewrite (se_bind_ok _ _ _ _ _ (unlink_prev_run w p (prev e) (next e) Hu1)).
  set (w1 := match prev e with
          | Some r => upd_heap w (<[r := set_next (w_heap w !!! r) (next e)]> (w_heap w))
          | None => upd_state w (set_head (w_state w) (next e)) end).
  assert (Hu2 : match next e with
    | Some r => tail (w_state w1) <> Some p /\ is_Some (w_heap w1 !! r)
    | None => tail (w_state w1) = Some p end).
  { subst w1. destruct (next e), (prev e); simpl; try tauto;
    split; try tauto; rewrite ?lookup_insert_is_Some'; try right; apply Hin; set_solver. }
  rewrite (se_bind_ok _ _ _ _ _ (unlink_next_run w1 p (prev e) (next e) Hu2)).
  assert (Hne : prev e <> Some p /\ next e <> Some p).
  { split; [destruct (prev e)|destruct (next e)]; try done;
      intros [= ->]; set_solver. }
  rewrite (free_tail_run _ p e).
  2: { subst w1. destruct Hne as [Hn1 Hn2].
       destruct (next e), (prev e); simpl; rewrite ?lookup_insert_ne by congruence; done. }
  subst w1. destruct w as [[ms t hd tl] h nx rel].
  by destruct (prev e), (next e).
Qed.
End FreeRun.


Section FreeInv.
Context `{RbTreeLaws T}.
Implicit Types (w : world T).

(** The tree after removing [p]'s State indexes the other entries. *)
Lemma tree_image_remove h h' L1 p L2 :
  NoDup (st_of h <$> L1 ++ p :: L2) ->
  (forall q, q ∈ L1 ++ L2 -> st_of h' q = st_of h q) ->
  delete (st_of h p) (tree_image h (L1 ++ p :: L2)) = tree_image h' (L1 ++ L2).
Proof.
  intros Hnd Hfr.
  assert (Hnd' : NoDup (st_of h' <$> L1 ++ L2)).
  { rewrite (list_fmap_ext _ (st_of h) (L1 ++ L2)).
    - rewrite fmap_app in *. simpl in Hnd. by eapply NoDup_remove_mid.
    - intros i q Hi. apply Hfr. by eapply list_elem_of_lookup_2. }
  apply map_eq. intros k. apply option_eq. intros q.
  rewrite lookup_delete_Some, !tree_image_lookup by done.
  rewrite fmap_app in Hnd. simpl in Hnd.
  apply NoDup_app in Hnd as (_ & Hdis & Hnd2). apply NoDup_cons in Hnd2 as [Hp2 _].
  split.
  - intros (Hk & Hq & <-). assert (q <> p) by congruence.
    split; [set_solver|]. apply Hfr. set_solver.
  - intros (Hq & <-). rewrite (Hfr q Hq).
    split; [|split; [set_solver|done]].
    intros Heq. apply elem_of_app in Hq as [Hq|Hq].
    + apply (Hdis (st_of h q)); [by apply list_elem_of_fmap_2|].
      rewrite Heq. set_solver.
    + apply Hp2. rewrite Heq. by apply list_elem_of_fmap_2.
Qed.

Lemma free_world_inv w L1 p L2 e :
  inv_with w (L1 ++ p :: L2) -> w_heap w !! p = Some e ->
  inv_with (free_world w p e) (L1 ++ L2).
Proof.
  intros Hi He. pose proof Hi as (Hs & Hnd & Hdom & Hsnd & Htree & Htok & Hfresh & Hcap).
  pose proof (dseg_mid_prev _ _ _ _ _ _ _ Hnd He Hs) as Hpv.
  pose proof (dseg_mid_next _ _ _ _ _ _ _ Hnd He Hs) as Hnx.
  assert (Hin : forall r, r ∈ L1 ++ p :: L2 -> is_Some (w_heap w !! r))
    by (intros r; apply (inv_in_heap w); done).
  assert (Hpr : forall r, prev e = Some r -> is_Some (w_heap w !! r)).
  { intros r Hr. rewrite Hr in Hpv. apply Hin. set_solver. }
  assert (Hnr : forall r, next e = Some r -> is_Some (w_heap w !! r)).
  { intros r Hr. rewrite Hr in Hnx. apply Hin. set_solver. }
  pose proof (unlink_heap_same_content _ _ Hpr Hnr) as Hsc.
  assert (Hp' : p ∉ L1 ++ L2).
  { apply NoDup_app in Hnd as (_ & Hdis & Hnd2). apply NoDup_cons in Hnd2.
    intros [Hq|Hq]%elem_of_app; [apply (Hdis p Hq)|]; set_solver. }
  assert (Hst : forall q, q ∈ L1 ++ L2 ->
    st_of (delete p (unlink_heap (w_heap w) e)) q = st_of (w_heap w) q).
  { intros q Hq. unfold st_of. rewrite lookup_total_delete_ne by set_solver.
    by apply same_content_state. }
  unfold inv_with, free_world; simpl. split; [|split; [|split; [|split; [|split; [|split; [|split]]]]]].
  - by apply dseg_unlink.
  - by eapply NoDup_remove_mid.
  - rewrite dom_delete_L, unlink_heap_dom, Hdom by done.
    rewrite !list_to_set_app_L. simpl. set_solver.
  - rewrite (list_fmap_ext _ (st_of (w_heap w)) (L1 ++ L2)).
    + rewrite fmap_app in *. simpl in Hsnd. by eapply NoDup_remove_mid.
    + intros i q Hiq. apply Hst. by eapply list_elem_of_lookup_2.
  - rewrite rb_delete_abs, Htree. rewrite <- (tree_image_remove (w_heap w) _ L1 p L2); try done.
    unfold st_of. by rewrite (lookup_total_correct _ _ _ He).
  - apply Forall_forall. intros q Hq. rewrite Hst by done.
    rewrite Forall_forall in Htok. apply Htok. set_solver.
  - apply Forall_forall. intros q Hq.
    rewrite Forall_forall in Hfresh. apply Hfresh. set_solver.
  - rewrite length_app in *. simpl in Hcap. lia.
Qed.
End FreeInv.

Section FreeSpec.
Context `{RbTreeLaws T}.
Implicit Types (w : world T).

(** [state_entry_free] of an entry of the list succeeds, keeps the
    invariant for the list without it, frees the entry and its payload,
    removes its State from the tree and changes no other entry's
    contents. *)
Lemma state_entry_free_correct w L1 p L2 :
  inv_with w (L1 ++ p :: L2) ->
  exists w', state_entry_free p w = Ok (tt, w') /\
    inv_with w' (L1 ++ L2) /\
    w_heap w' !! p = None /\
    content_sub (w_heap w) (w_heap w') /\
    w_released w' = w_released w ++ option_list (data (w_heap w !!! p)) /\
    rb_abs (tree (w_state w')) = delete (st_of (w_heap w) p) (rb_abs (tree (w_state w))) /\
    w_next w' = w_next w /\ max_sessions (w_state w') = max_sessions (w_state w).
Proof.
  intros Hi.
  destruct (proj1 (inv_in_heap w _ p Hi) ltac:(set_solver)) as [e He].
  pose proof Hi as (Hs & Hnd & _).
  pose proof (dseg_mid_prev _ _ _ _ _ _ _ Hnd He Hs) as Hpv.
  pose proof (dseg_mid_next _ _ _ _ _ _ _ Hnd He Hs) as Hnx.
  exists (free_world w p e).
  split; [by eapply state_entry_free_run; [apply inv_list_ok|]|].
  split; [by eapply free_world_inv|].
  unfold free_world, st_of; simpl. rewrite (lookup_total_correct _ _ _ He).
  split; [apply lookup_delete_eq|].
  split; [|split; [done|split; [by rewrite rb_delete_abs|done]]].
  apply content_sub_delete, unlink_heap_same_content.
  - intros r Hr. rewrite Hr in Hpv. apply (inv_in_heap w _ r Hi). set_solver.
  - intros r Hr. rewrite Hr in Hnx. apply (inv_in_heap w _ r Hi). set_solver.
Qed.

(** C12: [state_entry_free] of a listed entry succeeds, keeps the invariant
    for the list without it, frees it and its data, removes its State from the
    tree and changes no other entry's contents. *)
Theorem state_entry_free_spec w L1 p L2 :
  inv_with w (L1 ++ p :: L2) ->
  exists w', state_entry_free p w = Ok (tt, w') /\
    inv_with w' (L1 ++ L2) /\
    w_heap w' !! p = None /\
    content_sub (w_heap w) (w_heap w') /\
    w_released w' = w_released w ++ option_list (data (w_heap w !!! p)) /\
    rb_abs (tree (w_state w')) = delete (st_of (w_heap w) p) (rb_abs (tree (w_state w))) /\
    w_next w' = w_next w /\ max_sessions (w_state w') = max_sessions (w_state w).
Proof. apply state_entry_free_correct. Qed.
End FreeSpec.

(** ** A concrete store

    Two entries on the list [1 <-> 2] indexed by their States; the first
    holds neither attributes nor data, the second holds data [7].  The
    tree is the reference [gmap] instance of [RbTree.v]. *)

Definition ex_s1 : list Z := [1; 2; 3; 4; 5; 6; 7; 8; 9; 10; 11; 12; 13; 14; 15; 16]%Z.
Definition ex_s2 : list Z := [16; 15; 14; 13; 12; 11; 10; 9; 8; 7; 6; 5; 4; 3; 2; 1]%Z.

Definition ex_e1 : state_entry_t := mk_entry ex_s1 100 None (Some 2%positive) 0 [] None.
Definition ex_e2 : state_entry_t :=
  mk_entry ex_s2 200 (Some 1%positive) None 3 [] (Some 7%positive).

Definition ex_store (max : Z) (e1 : state_entry_t) : world (gmap (list Z) ptr) :=
  mk_world (mk_fr_state max (<[ex_s1 := 1%positive]> (<[ex_s2 := 2%positive]> ∅))
                        (Some 1%positive) (Some 2%positive))
           (<[1%positive := e1]> (<[2%positive := ex_e2]> ∅)) 3%positive [].

Definition ex_world : world (gmap (list Z) ptr) := ex_store 4 ex_e1.

(** The same store at its limit of two entries, the first holding data. *)
Definition ex_full : world (gmap (list Z) ptr) :=
  ex_store 2 (mk_entry ex_s1 100 None (Some 2%positive) 0 [] (Some 5%positive)).

(** The configuration of the examples: [max_request_time] 30,
    [state_seed] 300 (not below 256, so octet 3 stays random) and
    version 3.0.22 as [HEXIFY] gives it. *)
Definition ex_cfg : config := mk_config 30 300 0x030022.

(** The random source of the examples ([fr_rand] calls). *)
Definition ex_rnd (i : nat) : Z := (Z.of_nat i * 12345 + 678)%Z.

Lemma state_entry_free_spec_witness :
  inv_with ex_world ([] ++ 1%positive :: [2%positive]) /\
  exists w', state_entry_free 1%positive ex_world = Ok (tt, w') /\ inv_with w' [2%positive].
Proof.
  split; [decide_vm|].
  destruct (state_entry_free_spec ex_world [] 1%positive [2%positive] ltac:(decide_vm))
    as (w' & Hrun & Hi & _). by exists w'.
Defined.

Lemma inv_state_unique_witness :
  inv_with ex_world [1%positive; 2%positive] /\ (2 = 2)%positive.
Proof.
  split; [decide_vm|].
  apply (inv_state_unique ex_world [1%positive; 2%positive]); [decide_vm|set_solver..|done].
Defined.

Lemma inv_walk_witness :
  inv_with ex_world [1%positive; 2%positive] /\
  walk (w_heap ex_world) (size (w_heap ex_world)) (head (w_state ex_world)) =
    [1%positive; 2%positive].
Proof. split; [decide_vm|]. apply inv_walk. decide_vm. Defined.
