(* ===== verification/Cleanup.v ===== *)
(** * The cleanup loop of [state_entry_create]

    Lines 201-224 of [state.c] walk the list from [head], skip the entry
    being continued ([old]), free every entry that is expired or holds
    neither attributes nor data, and stop at the first other entry.
    [sweep_list] is that loop on the abstract list; [state_sweep_spec]
    shows that [state_sweep], run with as much fuel as there are
    live entries, never runs out of fuel, keeps the invariant and leaves
    exactly [sweep_list] of the entries; [sweep_list_spec] says which
    entries that is, and [sweep_list_expired] that on a list sorted by
    expiry ([expiry_sorted]) no expired entry but [old] is left. *)

From Stdlib Require Import ZArith Lia.
From S2P Require Import Prelude Token Pairs RbTree Entry Store.

Section Sweep.
Context `{RbTreeLaws T}.

Implicit Types (w : world T) (st : fr_state_t T).

(** ** The cleanup loop of [state_entry_create] (lines 201-224) *)

(** An entry the loop removes: expired, or holding neither attributes
    nor data. *)
Definition stale (now : Z) (e : state_entry_t) : bool :=
  (cleanup e <? now)%Z || (bool_decide (vps e = []) && bool_decide (data e = None)).

Fixpoint state_sweep (fuel : nat) (now : Z) (old : option ptr) (cur : option ptr)
    : SE (world T) unit :=
  match cur with
  | None => se_ret tt
  | Some p =>
      match fuel with
      | O => se_crash OutOfFuel
      | S fuel' =>
          let* e := load p in
          let nxt := next e in
          if bool_decide (Some p = old) then state_sweep fuel' now old nxt
          else if (cleanup e <? now)%Z then
            state_entry_free p ;; state_sweep fuel' now old nxt
          else if bool_decide (vps e = []) && bool_decide (data e = None) then
            state_entry_free p ;; state_sweep fuel' now old nxt
          else se_ret tt
      end
  end.
End Sweep.

(** The loop on the list of entries [L] of heap [h]. *)
Fixpoint sweep_list (h : heap) (now : Z) (old : option ptr) (L : list ptr) : list ptr :=
  match L with
  | [] => []
  | p :: L' =>
      if bool_decide (Some p = old) then p :: sweep_list h now old L'
      else if stale now (h !!! p) then sweep_list h now old L'
      else L
  end.

(** The entries of [L] expire in list order; it holds when the clock
    never goes back, since each entry expires [max_request_time * 10]
    seconds after its creation and is linked at the tail. *)
Definition expiry_sorted (h : heap) (L : list ptr) : Prop :=
  StronglySorted Z.le ((fun p => cleanup (h !!! p)) <$> L).

Lemma stale_content now e e' :
  entry_content e = entry_content e' -> stale now e = stale now e'.
Proof. unfold stale, entry_content. by intros [= _ -> _ -> ->]. Qed.

Lemma sweep_list_content h h' now old L :
  (forall q, q ∈ L -> entry_content (h' !!! q) = entry_content (h !!! q)) ->
  sweep_list h' now old L = sweep_list h now old L.
Proof.
  induction L as [|p L IH]; intros Hc; simpl; [done|].
  rewrite (stale_content now (h' !!! p) (h !!! p)) by (apply Hc; set_solver).
  rewrite IH by (intros q Hq; apply Hc; set_solver). done.
Qed.

Lemma sweep_list_subseteq h now old L q : q ∈ sweep_list h now old L -> q ∈ L.
Proof.
  induction L as [|p L IH]; simpl; [done|].
  case_bool_decide; [set_solver|]. destruct (stale now (h !!! p)); set_solver.
Qed.

(** On a list sorted by expiry the loop keeps no expired entry but
    [old]: the entry it stops at is not expired, and the later ones
    expire no earlier. *)
Lemma sweep_list_expired h now old L q :
  expiry_sorted h L -> q ∈ sweep_list h now old L -> Some q <> old ->
  (now <= cleanup (h !!! q))%Z.
Proof.
  unfold expiry_sorted. induction L as [|p L IH]; intros Hs; simpl; [set_solver|].
  rewrite fmap_cons in Hs. apply StronglySorted_inv in Hs as [Hs Hall].
  specialize (IH Hs). rewrite Forall_fmap, Forall_forall in Hall.
  case_bool_decide as Hold.
  - rewrite elem_of_cons. intros [->|Hq] Hne; [done|]. by apply IH.
  - destruct (stale now (h !!! p)) eqn:Hst; [exact IH|].
    unfold stale in Hst. apply orb_false_iff in Hst as [Hlt _]. apply Z.ltb_ge in Hlt.
    rewrite elem_of_cons. intros [->|Hq] _; [lia|].
    specialize (Hall q Hq). simpl in Hall. lia.
Qed.

Lemma sweep_list_sublist h now old L : sweep_list h now old L `sublist_of` L.
Proof.
  induction L as [|p L IH]; simpl; [done|].
  case_bool_decide; [by apply sublist_skip|].
  destruct (stale now (h !!! p)); [by apply sublist_cons|done].
Qed.

(** An entry the loop drops is not [old] and is stale. *)
Lemma sweep_list_dropped h now old L q :
  q ∈ L -> q ∉ sweep_list h now old L -> Some q <> old /\ stale now (h !!! q) = true.
Proof.
  induction L as [|p L IH]; simpl; [set_solver|]. rewrite elem_of_cons.
  case_bool_decide as Ho.
  - intros [->|Hq] Hn; [set_solver|]. apply IH; set_solver.
  - destruct (stale now (h !!! p)) eqn:Hs.
    + intros [->|Hq] Hn; [done|]. by apply IH.
    + intros Hq Hn. set_solver.
Qed.

Section Sweep.
Context `{RbTreeLaws T}.
Implicit Types (w : world T).

Lemma state_sweep_run fuel now old w K M :
  inv_with w (K ++ M) -> (length M <= fuel)%nat ->
  exists w', state_sweep fuel now old (hd_ptr M None) w = Ok (tt, w') /\
    inv_with w' (K ++ sweep_list (w_heap w) now old M) /\
    content_sub (w_heap w) (w_heap w') /\
    w_next w' = w_next w /\
    max_sessions (w_state w') = max_sessions (w_state w).
Proof.
  revert fuel w K. induction M as [|p M IH]; intros fuel w K Hi Hf; simpl.
  { exists w. rewrite app_nil_r in *. split; [by destruct fuel|].
    split; [done|]. split; [intros q Hq; done|done]. }
  destruct fuel as [|fuel]; [simpl in Hf; lia|].
  destruct (proj1 (inv_in_heap w _ p Hi) ltac:(set_solver)) as [e He].
  pose proof Hi as (Hs & _).
  destruct (dseg_split_mid _ _ _ _ _ _ _ He Hs) as (_ & Hnx & _).
  simpl. rewrite (se_bind_ok _ _ _ _ _ (load_ok _ _ _ He)), Hnx.
  rewrite (lookup_total_correct _ _ _ He).
  case_bool_decide as Hold.
  { destruct (IH fuel w (K ++ [p])) as (w' & Hrun & Hi' & Hc & Hn & Hm).
    - by rewrite <- app_assoc.
    - simpl in Hf. lia.
    - exists w'. rewrite <- app_assoc in Hi'. auto 6. }
  assert (Hfree : stale now e = true ->
    exists w', se_bind (state_entry_free p)
      (fun _ => state_sweep fuel now old (hd_ptr M None)) w = Ok (tt, w') /\
    inv_with w' (K ++ sweep_list (w_heap w) now old M) /\
    content_sub (w_heap w) (w_heap w') /\ w_next w' = w_next w /\
    max_sessions (w_state w') = max_sessions (w_state w)).
  { intros _. destruct (state_entry_free_correct w K p M Hi)
      as (w1 & Hrun1 & Hi1 & _ & Hc1 & _ & _ & Hn1 & Hm1).
    destruct (IH fuel w1 K Hi1) as (w' & Hrun & Hi' & Hc & Hn & Hm); [simpl in Hf; lia|].
    exists w'. rewrite (se_bind_ok _ _ _ _ _ Hrun1). split; [done|].
    rewrite (sweep_list_content (w_heap w) (w_heap w1)) in Hi'.
    2: { intros q Hq. apply content_sub_total; [done|].
         apply (inv_in_heap w1 _ q Hi1). set_solver. }
    split; [done|]. split; [by eapply content_sub_trans|]. split; congruence. }
  unfold stale in Hfree |- *.
  destruct (cleanup e <? now)%Z; simpl in *; [by apply Hfree|].
  destruct (bool_decide (vps e = []) && bool_decide (data e = None)); simpl in *;
    [by apply Hfree|].
  exists w. split; [done|]. split; [done|]. split; [intros q Hq; done|done].
Qed.
End Sweep.

(** the cleanup loop removes the leading run of entries that are expired
    or hold neither attributes nor data, keeps [old], and stops at the first
    other entry, so later expired entries stay. *)
Theorem sweep_list_spec h now old L :
  exists P R, L = P ++ R /\
    sweep_list h now old L = filter (fun q => Some q = old) P ++ R /\
    Forall (fun q => Some q = old \/ stale now (h !!! q) = true) P /\
    match R with
    | [] => True
    | q :: _ => Some q <> old /\ stale now (h !!! q) = false
    end.
Proof.
  induction L as [|p L (P & R & -> & Hsw & HP & HR)]; simpl.
  { exists [], []. by repeat split. }
  case_bool_decide as Hold; [|destruct (stale now (h !!! p)) eqn:Hst].
  - exists (p :: P), R. rewrite filter_cons_True by done. simpl.
    rewrite Hsw. repeat split; auto.
  - exists (p :: P), R. rewrite filter_cons_False by done. simpl.
    rewrite Hsw. repeat split; auto.
  - exists [], (p :: P ++ R). by repeat split.
Qed.

Section SweepSpec.
Context `{RbTreeLaws T}.
Implicit Types (w : world T).

(** The cleanup loop, run from [head] with the number of live entries
    as fuel, never runs out of fuel, keeps the invariant, leaves
    exactly the entries [sweep_list] keeps and changes none of their
    contents. *)
Lemma state_sweep_correct w L now old :
  inv_with w L ->
  exists w', state_sweep (size (w_heap w)) now old (head (w_state w)) w = Ok (tt, w') /\
    inv_with w' (sweep_list (w_heap w) now old L) /\
    content_sub (w_heap w) (w_heap w') /\
    w_next w' = w_next w /\
    max_sessions (w_state w') = max_sessions (w_state w).
Proof.
  intros Hi. pose proof Hi as (Hs & _).
  rewrite (dseg_hd _ _ _ _ _ _ Hs), (inv_size w L Hi).
  apply (state_sweep_run _ _ _ w [] L); [done|lia].
Qed.

(** C13: the cleanup loop of [state_entry_create], given as much fuel as there
    are live entries, terminates without running out of fuel, keeps the
    invariant and leaves exactly the entries [sweep_list] keeps. *)
Theorem state_sweep_spec w L now old :
  inv_with w L ->
  exists w', state_sweep (size (w_heap w)) now old (head (w_state w)) w = Ok (tt, w') /\
    inv_with w' (sweep_list (w_heap w) now old L) /\
    content_sub (w_heap w) (w_heap w') /\
    w_next w' = w_next w /\
    max_sessions (w_state w') = max_sessions (w_state w).
Proof. apply state_sweep_correct. Qed.

(** On a store whose list is sorted by expiry, the cleanup loop at
    time [now] leaves no entry expired before [now] but [old]. *)
Lemma state_sweep_removes_expired w L now old :
  inv_with w L -> expiry_sorted (w_heap w) L ->
  exists w', state_sweep (size (w_heap w)) now old (head (w_state w)) w = Ok (tt, w') /\
    map_Forall (fun p e => Some p <> old -> (now <= cleanup e)%Z) (w_heap w').
Proof.
  intros Hi Hs. destruct (state_sweep_correct w L now old Hi) as (w' & Hrun & Hi' & Hc & _).
  exists w'. split; [done|]. intros p e He Hne.
  assert (Hp : p ∈ sweep_list (w_heap w) now old L)
    by (apply (inv_in_heap w' _ p Hi'); by eexists).
  pose proof (content_sub_total _ _ p Hc ltac:(by eexists)) as Hec.
  rewrite (lookup_total_correct _ _ _ He) in Hec. unfold entry_content in Hec.
  replace (cleanup e) with (cleanup (w_heap w !!! p)) by congruence.
  exact (sweep_list_expired _ now old L p Hs Hp Hne).
Qed.
End SweepSpec.

Lemma state_sweep_spec_witness :
  inv_with ex_world [1%positive; 2%positive] /\
  exists w', state_sweep (size (w_heap ex_world)) 50 None (head (w_state ex_world)) ex_world =
               Ok (tt, w') /\
             inv_with w' [2%positive].
Proof.
  split; [decide_vm|].
  destruct (state_sweep_spec ex_world [1%positive; 2%positive] 50 None ltac:(decide_vm))
    as (w' & Hrun & Hi & _). by exists w'.
Defined.
