(* ===== verification/Create.v ===== *)
(** * [state_entry_create]: invariant, capacity and the new entry

    [state_entry_create] (lines 190-339) sweeps, checks the bound,
    allocates, computes the retry count and the State, may free the
    previous entry, puts the State on the reply, inserts in the tree and
    links at the tail.  While it runs, the new entry is allocated but on
    no list; the lemmas here carry the invariant of the store through
    each step with that extra cell ([add_cell]) set aside, and the main
    theorem shows that the whole function, under the conditions the
    callers establish, does not crash and leaves a store that satisfies
    the invariant, with the new entry last on the list.  The file also
    shows which inputs make the function abort (a State attribute shorter
    than 16 octets, a retry count at [INT_MAX]), that every other run
    keeps the invariant, and, on concrete stores, that the previous entry
    is freed before the insertion can fail and that the capacity check
    comes before that release. *)

From Stdlib Require Import ZArith Lia.
From S2P Require Import Prelude Token Pairs RbTree Entry Store Cleanup.

Section CreateDefs.
Context `{RbTreeLaws T}.
Context (cfg : config).

Implicit Types (w : world T) (st : fr_state_t T).

(** ** [state_entry_create] (lines 190-339) *)

(** Lines 255-297: the retry count and the State chosen before the
    State attribute is looked at, and the release of the previous
    entry.  [vp] is the State attribute already on the reply. *)
Definition create_from_old (rnd : nat -> Z) (vp : option value_pair)
    (old : option ptr) : SE (world T) (Z * list Z) :=
  match old with
  | Some o =>
      let* oe := load o in
      let tr := (tries oe + 1)%Z in
      if negb (int_in_range tr) then se_crash SignedOverflow else
      rad_assert (bool_decide (vps oe = [])) ;;
      let s := match vp with
               | None => state_derive (state oe) tr (radiusd_version cfg)
               | Some _ => state entry_zero
               end in
      let* oe := load o in
      (if bool_decide (data oe = None) then state_entry_free o else se_ret tt) ;;
      se_ret (tr, s)
  | None =>
      se_ret (0%Z, match vp with
                   | None => state_fresh rnd (state_seed cfg)
                   | Some _ => state entry_zero
                   end)
  end.

(** Lines 303-314: copy the State attribute, or add the chosen State
    to the reply. *)
Definition create_state_attr (vp : option value_pair) (s : list Z)
    (packet : radius_packet) : SE (world T) (list Z * radius_packet) :=
  match vp with
  | Some v =>
      match state_copy (vp_octets v) with
      | Some s' => se_ret (s', packet)
      | None => se_crash OverRead
      end
  | None => se_ret (s, mk_packet (pairadd (packet_vps packet) (pair_state s)))
  end.

(** Lines 325-336: link the entry at the tail of the list. *)
Definition link_tail (p : ptr) : SE (world T) unit :=
  let* st := get_st in
  match head st with
  | None =>
      let* e := load p in
      store p (set_next (set_prev e None) None) ;;
      put_st (set_tail (set_head st (Some p)) (Some p))
  | Some _ =>
      match tail st with
      | None => rad_assert false
      | Some tl =>
          let* e := load p in
          store p (set_prev e (Some tl)) ;;
          let* te := load tl in
          store tl (set_next te (Some p)) ;;
          let* e := load p in
          store p (set_next e None) ;;
          put_st (set_tail st (Some p))
      end
  end.

(** Lines 316-338: insert in the tree (on failure free the entry and
    return NULL), then link at the tail. *)
Definition create_insert (p : ptr) (s : list Z) (packet : radius_packet)
    : SE (world T) (option ptr * radius_packet) :=
  let* st := get_st in
  match rb_insert s p (tree st) with
  | None => talloc_free_entry p ;; se_ret (None, packet)
  | Some t' =>
      put_st (set_tree st t') ;;
      link_tail p ;;
      se_ret (Some p, packet)
  end.

(** Lines 233-338: allocate, fill in and insert the new entry. *)
Definition create_entry (now : Z) (rnd : nat -> Z) (packet : radius_packet)
    (old : option ptr) : SE (world T) (option ptr * radius_packet) :=
  let* p := talloc_zero_entry in
  let* e := load p in
  let cl := (now + u32 (max_request_time cfg * 10))%Z in
  let vp := find_state (packet_vps packet) in
  let* '(tr, s) := create_from_old rnd vp old in
  let* '(s, packet) := create_state_attr vp s packet in
  store p (mk_entry s cl (prev e) (next e) tr (vps e) (data e)) ;;
  create_insert p s packet.

(** The whole of [state_entry_create]: [None] is the NULL return; the
    packet returned is the reply with the State attribute added. *)
Definition state_entry_create (now : Z) (rnd : nat -> Z) (packet : radius_packet)
    (old : option ptr) : SE (world T) (option ptr * radius_packet) :=
  let* st := get_st in
  let* w := se_get in
  state_sweep (size (w_heap w)) now old (head st) ;;
  let* st := get_st in
  if bool_decide (u32 (max_sessions st) <= Z.of_nat (rb_num (tree st)))%Z
  then se_ret (None, packet) else
  create_entry now rnd packet old.
End CreateDefs.

(** The world with one more allocated cell. *)
Definition add_cell {T} (w : world T) (p : ptr) (e : state_entry_t) : world T :=
  upd_heap w (<[p := e]> (w_heap w)).

(** The world after the allocator handed out [w_next w]. *)
Definition bump {T} (w : world T) : world T :=
  mk_world (w_state w) (w_heap w) (Pos.succ (w_next w)) (w_released w).

Section CreateSteps.
Context `{RbTreeLaws T}.
Implicit Types (w : world T).

Lemma talloc_zero_entry_run w :
  talloc_zero_entry w = Ok (w_next w, add_cell (bump w) (w_next w) entry_zero).
Proof. reflexivity. Qed.

Lemma inv_bump w L : inv_with w L -> inv_with (bump w) L.
Proof.
  intros (Hs & Hnd & Hdom & Hsn & Htr & Htok & Hfr & Hcap).
  repeat split; try done. eapply Forall_impl; [exact Hfr|]. simpl. intros q Hq. lia.
Qed.

Lemma inv_fresh w L : inv_with w L -> w_next w ∉ L.
Proof.
  intros (_ & _ & _ & _ & _ & _ & Hfr & _) Hin.
  rewrite Forall_forall in Hfr. specialize (Hfr _ Hin). lia.
Qed.

(** Freeing a listed entry does not touch a cell off the list. *)
Lemma free_add_cell w L1 o L2 eo p e0 :
  list_ok w (L1 ++ o :: L2) -> w_heap w !! o = Some eo -> p ∉ L1 ++ o :: L2 ->
  state_entry_free o (add_cell w p e0) = Ok (tt, add_cell (free_world w o eo) p e0).
Proof.
  intros [Hs Hnd] He Hp.
  pose proof (dseg_mid_prev _ _ _ _ _ _ _ Hnd He Hs) as Hpv.
  pose proof (dseg_mid_next _ _ _ _ _ _ _ Hnd He Hs) as Hnx.
  rewrite (state_entry_free_run _ L1 o L2 eo).
  - f_equal. f_equal. unfold free_world, add_cell, upd_heap. simpl. f_equal.
    rewrite unlink_heap_insert_ne, delete_insert_ne; [done|set_solver|..].
    + destruct (prev eo); [intros [= ->]; set_solver|done].
    + destruct (next eo); [intros [= ->]; set_solver|done].
  - split; [|done]. apply (dseg_frame (w_heap w)); [|done].
    intros q Hq. simpl. rewrite lookup_insert_ne; [done|set_solver].
  - simpl. rewrite lookup_insert_ne; [done|set_solver].
Qed.
End CreateSteps.

Section CreateOld.
Context `{RbTreeLaws T}.
Context (cfg : config).
Implicit Types (w : world T).

(** What [create_from_old] requires of the previous entry: it is live,
    its attributes were taken ([rad_assert(old->vps == NULL)]) and its
    retry count can be incremented. *)
Definition old_ok w (L : list ptr) (old : option ptr) : Prop :=
  match old with
  | None => True
  | Some o => o ∈ L /\ vps (w_heap w !!! o) = [] /\
             int_in_range (tries (w_heap w !!! o) + 1) = true
  end.

(** Lines 255-277 for a previous entry that passes the checks of lines
    256-258. *)
Lemma create_from_old_some w o eo rnd vp :
  w_heap w !! o = Some eo -> int_in_range (tries eo + 1) = true -> vps eo = [] ->
  create_from_old cfg rnd vp (Some o) w =
  se_bind (if bool_decide (data eo = None) then state_entry_free o else se_ret tt)
    (fun _ => se_ret ((tries eo + 1)%Z,
                      match vp with
                      | None => state_derive (state eo) (tries eo + 1) (radiusd_version cfg)
                      | Some _ => state entry_zero
                      end)) w.
Proof.
  intros Heo Hrange Hvps. unfold create_from_old. se_step (load_ok _ _ _ Heo).
  rewrite Hrange. cbn [negb]. unfold rad_assert. rewrite bool_decide_eq_true_2 by done.
  rewrite se_bind_ret. by se_step (load_ok _ _ _ Heo).
Qed.

Lemma create_from_old_run w L p e0 rnd vp old :
  inv_with w L -> p ∉ L -> old_ok w L old ->
  exists tr s W L',
    create_from_old cfg rnd vp old (add_cell w p e0) = Ok ((tr, s), add_cell W p e0) /\
    inv_with W L' /\ L' `sublist_of` L /\ (forall q, q ∈ L -> q ∉ L' -> old = Some q) /\
    content_sub (w_heap w) (w_heap W) /\ w_next W = w_next w /\
    max_sessions (w_state W) = max_sessions (w_state w) /\
    match old with
    | None => tr = 0%Z /\ W = w /\
              (vp = None -> s = state_fresh rnd (state_seed cfg))
    | Some o => tr = (tries (w_heap w !!! o) + 1)%Z /\
                (vp = None -> s = state_derive (state (w_heap w !!! o)) tr (radiusd_version cfg)) /\
                (data (w_heap w !!! o) = None -> w_heap W !! o = None) /\
                (data (w_heap w !!! o) <> None -> W = w)
    end.
Proof.
  intros Hi Hp Hold. destruct old as [o|]; simpl.
  2: { eexists _, _, w, L. split; [reflexivity|].
       split; [done|]. split; [done|]. split; [intros q Hq Hn; by contradict Hn|].
       split; [intros q Hq; done|].
       do 4 (split; [done|]). by intros ->. }
  destruct Hold as (Ho & Hvps & Hrange).
  destruct (proj1 (inv_in_heap w L o Hi) Ho) as [eo Heo].
  rewrite (lookup_total_correct _ _ _ Heo) in Hvps, Hrange |- *.
  assert (Heo' : w_heap (add_cell w p e0) !! o = Some eo).
  { simpl. rewrite lookup_insert_ne; [done|set_solver]. }
  pose proof (create_from_old_some (add_cell w p e0) o eo rnd vp Heo' Hrange Hvps) as Hpre.
  destruct (data eo) as [d|] eqn:Hd; simpl in Hpre.
  - eexists _, _, w, L. split; [rewrite Hpre; reflexivity|].
    split; [done|]. split; [done|]. split; [intros q Hq Hn; by contradict Hn|].
    split; [intros q Hq; done|].
    do 3 (split; [done|]). split; [by intros ->|]. split; [congruence|done].
  - apply list_elem_of_split in Ho as (L1 & L2 & ->).
    destruct (state_entry_free_correct w L1 o L2 Hi)
      as (w' & Hrun & Hi' & Hgone & Hc & _ & _ & Hn & Hm).
    rewrite (state_entry_free_run w L1 o L2 eo (inv_list_ok _ _ Hi) Heo) in Hrun.
    injection Hrun as <-.
    eexists _, _, (free_world w o eo), (L1 ++ L2). split.
    { rewrite Hpre. by se_step (free_add_cell w L1 o L2 eo p e0
              (inv_list_ok _ _ Hi) Heo Hp). }
    split; [done|]. split; [apply sublist_app; [done|by apply sublist_cons]|].
    split; [intros q Hq Hq'; destruct (decide (q = o)) as [->|Hne]; [done|set_solver]|].
    do 4 (split; [done|]).
    split; [by intros ->|]. split; [done|congruence].
Qed.
End CreateOld.

Section Link.
Context `{RbTreeLaws T}.
Implicit Types (w : world T).

Definition pre_link (W : world T) p enew (t' : T) : world T :=
  mk_world (set_tree (w_state W) t') (<[p := enew]> (w_heap W)) (w_next W) (w_released W).

Lemma link_tail_run_cons (W : world T) p enew t' t :
  head (w_state W) <> None -> tail (w_state W) = Some t -> t <> p ->
  is_Some (w_heap W !! t) ->
  let h0 := <[p := enew]> (w_heap W) in
  let h1 := <[p := set_prev enew (Some t)]> h0 in
  let h2 := <[t := set_next (h1 !!! t) (Some p)]> h1 in
  link_tail p (pre_link W p enew t') =
  Ok (tt, mk_world (set_tail (set_tree (w_state W) t') (Some p))
                   (<[p := set_next (h2 !!! p) None]> h2) (w_next W) (w_released W)).
Proof.
  intros Hhd Htl Htp [et Het]. cbv zeta.
  unfold link_tail, pre_link, se_bind, get_st, load, store, put_st. simpl.
  destruct (head (w_state W)) as [hd|]; [|done]. rewrite Htl. simpl.
  rewrite lookup_insert_eq. simpl. rewrite lookup_insert_eq. simpl.
  assert (Hpt : p <> t) by congruence.
  repeat first [rewrite lookup_insert_eq | rewrite lookup_insert_ne by done
               | rewrite lookup_total_insert_eq | rewrite lookup_total_insert_ne by done
               | rewrite Het | rewrite (lookup_total_correct _ _ _ Het) | progress simpl].
  done.
Qed.

Lemma link_tail_run_nil (W : world T) p enew t' :
  head (w_state W) = None ->
  link_tail p (pre_link W p enew t') =
  Ok (tt, mk_world (set_tail (set_head (set_tree (w_state W) t') (Some p)) (Some p))
                   (<[p := set_next (set_prev enew None) None]> (<[p := enew]> (w_heap W)))
                   (w_next W) (w_released W)).
Proof.
  intros Hhd. unfold link_tail, pre_link, se_bind, get_st, load, store, put_st. simpl.
  rewrite Hhd. simpl. rewrite lookup_insert_eq. simpl. by rewrite lookup_insert_eq.
Qed.

Lemma inv_with_snoc W L p enew W' :
  inv_with W L -> p ∉ L -> (p < w_next W)%positive -> token_ok (state enew) ->
  rb_abs (tree (w_state W)) !! state enew = None ->
  rb_abs (tree (w_state W')) = <[state enew := p]> (rb_abs (tree (w_state W))) ->
  (Z.of_nat (length L) < u32 (max_sessions (w_state W)))%Z ->
  same_content (<[p := enew]> (w_heap W)) (w_heap W') ->
  dom (w_heap W') = {[p]} ∪ dom (w_heap W) ->
  dseg (w_heap W') None (head (w_state W')) (L ++ [p]) (tail (w_state W')) None ->
  max_sessions (w_state W') = max_sessions (w_state W) -> w_next W' = w_next W ->
  inv_with W' (L ++ [p]).
Proof.
  intros (Hs & Hnd & Hdom & Hsn & Htr & Htok & Hfr & Hcap) Hp Hpn Hok Hnone Htr'
    Hlen Hsc Hdom' Hs' Hms Hnx.
  assert (Hst : forall q, st_of (w_heap W') q = st_of (<[p := enew]> (w_heap W)) q)
    by (intros q; by apply same_content_state).
  assert (Hstp : st_of (w_heap W') p = state enew)
    by (rewrite Hst; unfold st_of; by rewrite lookup_total_insert_eq).
  assert (HstL : forall q, q ∈ L -> st_of (w_heap W') q = st_of (w_heap W) q).
  { intros q Hq. rewrite Hst. unfold st_of. rewrite lookup_total_insert_ne; [done|set_solver]. }
  assert (HnotL : state enew ∉ st_of (w_heap W) <$> L).
  { rewrite Htr in Hnone. intros [q [Heq Hq]]%list_elem_of_fmap.
    apply (proj1 (tree_image_lookup_None _ _ _) Hnone q Hq). done. }
  assert (HmapL : st_of (w_heap W') <$> L = st_of (w_heap W) <$> L).
  { apply list_fmap_ext. intros i q Hi. apply HstL. by eapply list_elem_of_lookup_2. }
  assert (Hsn' : NoDup (st_of (w_heap W') <$> L ++ [p])).
  { rewrite fmap_app, HmapL. simpl. rewrite Hstp.
    apply NoDup_app. split; [done|split; [|apply NoDup_singleton]].
    intros x Hx ->%list_elem_of_singleton. done. }
  split; [done|]. split.
  { apply NoDup_app. split; [done|split; [|apply NoDup_singleton]]. set_solver. }
  split; [rewrite Hdom', Hdom, list_to_set_app_L; simpl; set_solver|].
  split; [done|]. split.
  { rewrite Htr', tree_image_snoc, Hstp, Htr by done. f_equal.
    symmetry. by apply tree_image_frame. }
  split.
  { apply Forall_app. split.
    - apply Forall_forall. intros q Hq. rewrite HstL by done.
      rewrite Forall_forall in Htok. by apply Htok.
    - apply Forall_singleton. by rewrite Hstp. }
  split.
  { rewrite Hnx. apply Forall_app. split; [done|]. by apply Forall_singleton. }
  rewrite Hms, length_app. simpl. lia.
Qed.

(** Lines 325-329 relink the old tail [t] and the new entry [p]: the
    contents stay. *)
Lemma same_content_link_cons (h0 : heap) p t enew :
  h0 !! p = Some enew -> t <> p -> is_Some (h0 !! t) ->
  same_content h0
    (<[p:=set_next (<[t:=set_next (<[p:=set_prev enew (Some t)]> h0 !!! t) (Some p)]>
      (<[p:=set_prev enew (Some t)]> h0) !!! p) None]>
      (<[t:=set_next (<[p:=set_prev enew (Some t)]> h0 !!! t) (Some p)]>
      (<[p:=set_prev enew (Some t)]> h0))).
Proof.
  intros Hp Htp Ht. assert (S1 : same_content h0 (<[p:=set_prev enew (Some t)]> h0)).
  { rewrite <- (lookup_total_correct _ _ _ Hp) at 1. apply same_content_links. by eexists. }
  eapply same_content_trans; [exact S1|].
  eapply same_content_trans; [apply same_content_links|apply same_content_links].
  - by rewrite lookup_insert_ne by done.
  - rewrite lookup_insert_ne by done. by rewrite lookup_insert_eq.
Qed.

Lemma link_tail_inv W L p enew t' :
  inv_with W L -> p ∉ L -> (p < w_next W)%positive ->
  prev enew = None -> next enew = None -> token_ok (state enew) ->
  rb_abs (tree (w_state W)) !! state enew = None ->
  rb_abs t' = <[state enew := p]> (rb_abs (tree (w_state W))) ->
  (Z.of_nat (length L) < u32 (max_sessions (w_state W)))%Z ->
  exists W', link_tail p (pre_link W p enew t') = Ok (tt, W') /\
    inv_with W' (L ++ [p]) /\
    content_sub (<[p := enew]> (w_heap W)) (w_heap W') /\
    w_next W' = w_next W /\ w_released W' = w_released W /\
    max_sessions (w_state W') = max_sessions (w_state W).
Proof.
  intros Hi Hp Hpn Hpv Hnx Hok Hnone Htr' Hlen.
  pose proof Hi as (Hs & Hnd & Hdom & _).
  set (h0 := <[p := enew]> (w_heap W)).
  assert (Hh0p : h0 !!! p = enew) by apply lookup_total_insert_eq.
  assert (Hs0 : dseg h0 None (head (w_state W)) L (tail (w_state W)) None).
  { apply (dseg_frame (w_heap W)); [|done].
    intros q Hq. subst h0. rewrite lookup_insert_ne; [done|set_solver]. }
  pose proof (dseg_hd _ _ _ _ _ _ Hs) as Hh. pose proof (dseg_last _ _ _ _ _ _ Hs) as Ht.
  destruct (head (w_state W)) as [hd|] eqn:Ehd.
  - unfold last_ptr in Ht. destruct (last L) as [t|] eqn:Elast.
    2: { apply last_None in Elast. subst L. discriminate. }
    assert (HtL : t ∈ L) by (apply last_Some in Elast as [L' ->]; set_solver).
    assert (Htp : t <> p) by set_solver.
    assert (Hth : is_Some (w_heap W !! t)) by (eapply dseg_in_heap; eauto).
    rewrite Ht in Hs0.
    pose proof (dseg_link_tail h0 (Some hd) L t p enew Hnd Hp
                  ltac:(apply lookup_insert_eq) Hs0) as Hlink.
    cbv zeta in Hlink.
    eexists. split; [apply link_tail_run_cons; [by rewrite Ehd|done|done|done]|].
    pose proof (same_content_link_cons h0 p t enew ltac:(apply lookup_insert_eq) Htp
                  ltac:(subst h0; by rewrite lookup_insert_ne)) as Hsc.
    split; [|split; [by apply same_content_sub|done]].
    apply (inv_with_snoc W L p enew); simpl; try done.
    + rewrite !dom_insert_L. apply elem_of_dom in Hth. set_solver.
    + by rewrite Ehd.
  - destruct L as [|x L']; [|discriminate].
    eexists. split; [by apply link_tail_run_nil|].
    assert (Hsc : same_content h0 (<[p:=set_next (set_prev enew None) None]> h0)).
    { rewrite <- Hh0p at 1. apply same_content_links. subst h0. by rewrite lookup_insert_eq. }
    split; [|split; [by apply same_content_sub|done]].
    apply (inv_with_snoc W [] p enew); simpl; try done.
    + rewrite !dom_insert_L. set_solver.
    + by rewrite !lookup_insert_eq.
Qed.
End Link.

Section CreateInsert.
Context `{RbTreeLaws T}.
Implicit Types (w : world T).

Lemma get_st_ok w : get_st w = Ok (w_state w, w).
Proof. reflexivity. Qed.

Lemma se_get_ok w : se_get w = Ok (w, w).
Proof. reflexivity. Qed.

Lemma put_st_ok w st : put_st st w = Ok (tt, upd_state w st).
Proof. reflexivity. Qed.

Lemma inv_rb_num w L : inv_with w L -> rb_num (tree (w_state w)) = length L.
Proof.
  intros (_ & _ & _ & Hsn & Htr & _). rewrite rb_num_abs, Htr.
  unfold tree_image. rewrite map_size_list_to_map, length_fmap; [done|].
  by rewrite <- list_fmap_compose.
Qed.

Lemma sweep_list_keeps_old h now o L :
  o ∈ L -> o ∈ sweep_list h now (Some o) L.
Proof.
  induction L as [|q L IH]; simpl; [set_solver|]. intros Hin.
  case_bool_decide as Hq; [set_solver|].
  assert (o ∈ L) by (apply elem_of_cons in Hin as [->|]; [congruence|done]).
  destruct (stale now (h !!! q)); set_solver.
Qed.

Lemma create_insert_run W L p enew packet :
  inv_with W L -> p ∉ L -> (p < w_next W)%positive ->
  prev enew = None -> next enew = None -> token_ok (state enew) ->
  (Z.of_nat (length L) < u32 (max_sessions (w_state W)))%Z ->
  exists res W' L',
    create_insert p (state enew) packet (add_cell W p enew) = Ok (res, W') /\
    inv_with W' L' /\
    ((res = (None, packet) /\ W' = W /\ L' = L /\
      is_Some (rb_abs (tree (w_state W)) !! state enew)) \/
     (res = (Some p, packet) /\ L' = L ++ [p] /\
      content_sub (<[p := enew]> (w_heap W)) (w_heap W') /\
      w_next W' = w_next W /\ w_released W' = w_released W /\
      max_sessions (w_state W') = max_sessions (w_state W))).
Proof.
  intros Hi Hp Hpn Hpv Hnx Hok Hlen. unfold create_insert.
  se_step (get_st_ok (add_cell W p enew)). simpl.
  destruct (rb_insert (state enew) p (tree (w_state W))) as [t'|] eqn:Hins.
  - apply rb_insert_Some in Hins as [Hnone Htr'].
    destruct (link_tail_inv W L p enew t' Hi Hp Hpn Hpv Hnx Hok Hnone Htr' Hlen)
      as (W' & Hrun & Hi' & Hc & Hn & Hr & Hm).
    exists (Some p, packet), W', (L ++ [p]). split.
    + assert (E : upd_state (add_cell W p enew) (set_tree (w_state W) t') =
                  pre_link W p enew t') by reflexivity.
      se_step (put_st_ok (add_cell W p enew) (set_tree (w_state W) t')).
      rewrite E. by se_step Hrun.
    + split; [done|]. right. done.
  - apply rb_insert_None in Hins.
    assert (HpW : w_heap W !! p = None).
    { apply not_elem_of_dom. pose proof Hi as (_ & _ & Hdom & _). rewrite Hdom.
      by rewrite elem_of_list_to_set. }
    exists (None, packet), W, L. split; [|split; [done|left; done]].
    unfold se_bind, talloc_free_entry, add_cell, upd_heap. simpl.
    rewrite lookup_insert_eq. simpl. rewrite delete_insert_id by done.
    by destruct W.
Qed.
End CreateInsert.

(** The State attribute already on the reply, if any, has at least 16
    octets: otherwise line 308 reads past its end. *)
Definition attr_ok (packet : radius_packet) : Prop :=
  match find_state (packet_vps packet) with
  | None => True
  | Some v => (AUTH_VECTOR_LEN <= vp_length v)%nat /\ Forall is_byte (vp_octets v)
  end.

(** ** What [state_entry_create] computes *)

(** Lines 303-314: the State of the new entry and the reply, from the
    State [s] chosen before and the reply [packet]: a State attribute
    already on the reply wins, otherwise [s] is added to the reply. *)
Definition attr_state (s : list Z) (packet : radius_packet) : list Z * radius_packet :=
  match find_state (packet_vps packet) with
  | Some v => (take AUTH_VECTOR_LEN (vp_octets v), packet)
  | None => (s, mk_packet (pairadd (packet_vps packet) (pair_state s)))
  end.

(** The State chosen before line 299: derived from the previous entry's
    State and retry count (lines 264-270), or fresh (lines 279-296). *)
Definition base_state (cfg : config) (rnd : nat -> Z) (prev : option (list Z * Z)) : list Z :=
  match prev with
  | Some (st, tr) => state_derive st (tr + 1) (radiusd_version cfg)
  | None => state_fresh rnd (state_seed cfg)
  end.

(** The previous entry's State and retry count in heap [h]. *)
Definition prev_info (h : heap) (old : option ptr) : option (list Z * Z) :=
  (fun o => (state (h !!! o), tries (h !!! o))) <$> old.

(** The entry [state_entry_create] fills in (lines 242-314) and the reply
    it returns, given the heap [h] before the call. *)
Definition new_entry_ok (cfg : config) (now : Z) (rnd : nat -> Z) (h : heap)
    (old : option ptr) (packet packet' : radius_packet) (e : state_entry_t) : Prop :=
  (state e, packet') = attr_state (base_state cfg rnd (prev_info h old)) packet /\
  cleanup e = (now + u32 (max_request_time cfg * 10))%Z /\
  tries e = match old with None => 0%Z | Some o => (tries (h !!! o) + 1)%Z end /\
  vps e = [] /\ data e = None.

(** The State that entry gets. *)
Definition new_state (cfg : config) (rnd : nat -> Z) (h : heap) (old : option ptr)
    (packet : radius_packet) : list Z :=
  fst (attr_state (base_state cfg rnd (prev_info h old)) packet).

Lemma take_token_ok (l : list Z) :
  (AUTH_VECTOR_LEN <= length l)%nat -> Forall is_byte l ->
  token_ok (take AUTH_VECTOR_LEN l).
Proof.
  intros Hl Hb. split; [rewrite length_take; lia|]. by apply Forall_take.
Qed.

(** The State [state_entry_create] gives the entry is a well-formed State. *)
Lemma attr_state_ok s packet :
  token_ok s -> attr_ok packet -> token_ok (attr_state s packet).1.
Proof.
  unfold attr_ok, attr_state. destruct (find_state (packet_vps packet)); [|done].
  intros _ [Hl Hb]. by apply take_token_ok.
Qed.

Lemma base_state_ok cfg rnd prev :
  (forall st tr, prev = Some (st, tr) -> token_ok st) -> token_ok (base_state cfg rnd prev).
Proof.
  destruct prev as [[st tr]|]; intros Hp; [apply state_derive_spec; eauto|apply state_fresh_spec].
Qed.

Lemma prev_info_ok `{RbTreeLaws T} (w : world T) L old st tr :
  inv_with w L -> old_ok w L old -> prev_info (w_heap w) old = Some (st, tr) -> token_ok st.
Proof.
  intros (_ & _ & _ & _ & _ & Htok & _) Hold Hp. destruct old as [o|]; [|done].
  injection Hp as <- _. rewrite Forall_forall in Htok. apply Htok. by destruct Hold.
Qed.

(** The payload-free facts about the new entry only read the previous
    entry's contents. *)
Lemma new_entry_ok_content cfg now rnd h h' old packet packet' e :
  (forall o, old = Some o -> entry_content (h' !!! o) = entry_content (h !!! o)) ->
  new_entry_ok cfg now rnd h' old packet packet' e -> new_entry_ok cfg now rnd h old packet packet' e.
Proof.
  destruct old as [o|]; [|done]. intros Hc. specialize (Hc o eq_refl).
  unfold entry_content in Hc. injection Hc as Hs _ Ht _ _.
  unfold new_entry_ok, prev_info. simpl. by rewrite Hs, Ht.
Qed.

Lemma new_state_content cfg rnd h h' old packet :
  (forall o, old = Some o -> entry_content (h' !!! o) = entry_content (h !!! o)) ->
  new_state cfg rnd h' old packet = new_state cfg rnd h old packet.
Proof.
  destruct old as [o|]; [|done]. intros Hc. specialize (Hc o eq_refl).
  unfold entry_content in Hc. injection Hc as Hs _ Ht _ _.
  unfold new_state, prev_info. simpl. by rewrite Hs, Ht.
Qed.

Section CreateSpec.
Context `{RbTreeLaws T}.
Context (cfg : config).
Implicit Types (w : world T).

Lemma create_state_attr_run w s packet :
  attr_ok packet ->
  create_state_attr (find_state (packet_vps packet)) s packet w = Ok (attr_state s packet, w).
Proof.
  unfold attr_ok, attr_state, create_state_attr, state_copy.
  destruct (find_state (packet_vps packet)) as [v|]; [|done].
  intros [Hl _]. unfold vp_length in Hl. by rewrite decide_True.
Qed.

Lemma store_add_cell (W : world T) p e0 e :
  store p e (add_cell W p e0) = Ok (tt, add_cell W p e).
Proof.
  rewrite store_ok by (eexists; apply lookup_insert_eq).
  unfold add_cell, upd_heap. simpl. by rewrite insert_insert_eq.
Qed.

(** The steps of [create_entry] before [create_from_old]: allocate and
    read the zeroed entry. *)
Lemma create_entry_alloc w1 now rnd packet old :
  create_entry cfg now rnd packet old w1 =
  se_bind (create_from_old cfg rnd (find_state (packet_vps packet)) old)
    (fun '(tr, s) =>
       let* '(s, packet) := create_state_attr (find_state (packet_vps packet)) s packet in
       store (w_next w1) (mk_entry s (now + u32 (max_request_time cfg * 10)) None None
                            tr [] None) ;;
       create_insert (w_next w1) s packet)
    (add_cell (bump w1) (w_next w1) entry_zero).
Proof.
  unfold create_entry. se_step (talloc_zero_entry_run w1).
  by se_step (load_ok (add_cell (bump w1) (w_next w1) entry_zero) (w_next w1) entry_zero
                (lookup_insert_eq _ _ _)).
Qed.

(** Lines 233-314: up to the insertion, [create_entry] allocates the new
    entry, releases the previous one when it holds no data, and fills
    the new entry in as [new_entry_ok] says. *)
Lemma create_prefix_run w1 L1 now rnd packet old :
  inv_with w1 L1 -> old_ok w1 L1 old -> attr_ok packet ->
  exists W L2 enew packet',
    create_entry cfg now rnd packet old w1 =
      create_insert (w_next w1) (state enew) packet' (add_cell W (w_next w1) enew) /\
    inv_with W L2 /\ L2 `sublist_of` L1 /\ (forall q, q ∈ L1 -> q ∉ L2 -> old = Some q) /\
    content_sub (w_heap w1) (w_heap W) /\
    w_next W = Pos.succ (w_next w1) /\ max_sessions (w_state W) = max_sessions (w_state w1) /\
    prev enew = None /\ next enew = None /\
    new_entry_ok cfg now rnd (w_heap w1) old packet packet' enew /\
    (forall o, old = Some o -> data (w_heap w1 !!! o) = None -> w_heap W !! o = None) /\
    (forall o, old = Some o -> data (w_heap w1 !!! o) <> None -> W = bump w1).
Proof.
  intros Hi1 Hold Hattr. rewrite create_entry_alloc. set (p := w_next w1).
  destruct (create_from_old_run cfg (bump w1) L1 p entry_zero rnd
              (find_state (packet_vps packet)) old (inv_bump _ _ Hi1) (inv_fresh _ _ Hi1) Hold)
    as (tr & s0 & W & L2 & Hrun & HiW & Hsub & Hlost & Hcs & HnW & HmW & Hinfo).
  se_step Hrun. cbn beta iota.
  se_step (create_state_attr_run (add_cell W p entry_zero) s0 packet Hattr).
  destruct (attr_state s0 packet) as [s packet'] eqn:Ea. cbn beta iota.
  se_step (store_add_cell W p entry_zero
             (mk_entry s (now + u32 (max_request_time cfg * 10)) None None tr [] None)).
  exists W, L2, (mk_entry s (now + u32 (max_request_time cfg * 10)) None None tr [] None),
    packet'. split; [reflexivity|].
  do 8 (split; [done|]). unfold new_entry_ok, prev_info. cbn [state cleanup tries vps data]. rewrite <- Ea.
  destruct old as [o|]; simpl in Hinfo |- *.
  - destruct Hinfo as (-> & Hs0 & Hfr & Hkp).
    split; [unfold attr_state in *; destruct (find_state _); [done|by rewrite Hs0]|].
    split; intros ? [= <-]; assumption.
  - destruct Hinfo as (-> & -> & Hs0).
    split; [unfold attr_state in *; destruct (find_state _); [done|by rewrite Hs0]|].
    done.
Qed.

(** [state_entry_create] after the capacity check (lines 233-338):
    either the new State collides with a live one and nothing is
    inserted, or the new entry is inserted at the tail as
    [new_entry_ok] says; a previous entry without data is gone either
    way, one with data keeps its contents. *)
Lemma create_entry_run w1 L1 now rnd packet old :
  inv_with w1 L1 -> old_ok w1 L1 old -> attr_ok packet ->
  (Z.of_nat (length L1) < u32 (max_sessions (w_state w1)))%Z ->
  exists res w' L', create_entry cfg now rnd packet old w1 = Ok (res, w') /\
    inv_with w' L' /\ (forall q, q ∈ L1 -> q ∉ L' -> old = Some q) /\
    (forall o, old = Some o -> data (w_heap w1 !!! o) = None -> w_heap w' !! o = None) /\
    (forall o, old = Some o -> data (w_heap w1 !!! o) <> None ->
               o ∈ L' /\ entry_content (w_heap w' !!! o) = entry_content (w_heap w1 !!! o)) /\
    match res with
    | (None, _) => content_sub (w_heap w1) (w_heap w') /\ L' `sublist_of` L1 /\
        exists p, p ∈ L1 /\ st_of (w_heap w1) p = new_state cfg rnd (w_heap w1) old packet
    | (Some q, packet') =>
        q = w_next w1 /\ (exists L0, L' = L0 ++ [q] /\ L0 `sublist_of` L1) /\
        content_sub (w_heap w1) (delete q (w_heap w')) /\
        exists e, w_heap w' !! q = Some e /\ new_entry_ok cfg now rnd (w_heap w1) old packet packet' e
    end.
Proof.
  intros Hi1 Hold Hattr Hlen.
  destruct (create_prefix_run w1 L1 now rnd packet old Hi1 Hold Hattr)
    as (W & L2 & enew & packet' & -> & HiW & Hsub & Hlost & Hcs & HnW & HmW & Hp & Hn & Hnew & Hfr & Hkp).
  set (p := w_next w1) in *.
  assert (Hop : forall o, old = Some o -> o <> p).
  { intros o -> ->. apply (inv_fresh _ _ Hi1). by destruct Hold. }
  assert (HpL2 : p ∉ L2).
  { intros Hin. apply (inv_fresh _ _ Hi1). eapply elem_of_submseteq; [exact Hin|].
    by apply sublist_submseteq. }
  assert (Hok : token_ok (state enew)).
  { destruct Hnew as (Hst & _). pose proof (f_equal fst Hst) as Hs. simpl in Hs. rewrite Hs.
    apply attr_state_ok; [|done]. apply base_state_ok. intros st tr.
    by apply (prev_info_ok w1 L1 old). }
  assert (Hlen2 : (Z.of_nat (length L2) < u32 (max_sessions (w_state W)))%Z).
  { rewrite HmW. pose proof (sublist_length _ _ Hsub). lia. }
  assert (HoL2 : forall o, old = Some o -> data (w_heap w1 !!! o) <> None -> o ∈ L2).
  { intros o Ho Hdo. rewrite (Hkp o Ho Hdo) in HiW. subst old. destruct Hold as [Hol _].
    by apply (inv_in_heap _ _ o HiW), (inv_in_heap _ _ o Hi1). }
  destruct (create_insert_run W L2 p enew packet' HiW HpL2 ltac:(rewrite HnW; lia) Hp Hn Hok Hlen2)
    as (res & w' & L' & Hrun' & Hi' & [(-> & -> & -> & [q Hq])|(-> & -> & Hc' & _)]).
  - exists (None, packet'), W, L2. do 3 (split; [done|]). split; [|split; [|split; [exact Hcs|split; [exact Hsub|]]]].
    + intros o Ho Hdo. by apply Hfr.
    + intros o Ho Hdo. split; [by apply HoL2|]. by rewrite (Hkp o Ho Hdo).
    + pose proof HiW as (_ & _ & _ & Hnd & Htr & _). rewrite Htr in Hq.
      apply tree_image_lookup in Hq as [HqL2 Hst]; [|done].
      exists q. split; [eapply elem_of_submseteq; [exact HqL2|by apply sublist_submseteq]|].
      pose proof (content_sub_total _ _ q Hcs ltac:(by apply (inv_in_heap _ _ q HiW))) as Hcq.
      unfold entry_content in Hcq. unfold st_of in *. injection Hcq as <- _ _ _ _.
      rewrite Hst. destruct Hnew as (Hst' & _). unfold new_state. by rewrite <- Hst'.
  - exists (Some p, packet'), w', (L2 ++ [p]). do 2 (split; [done|]).
    split; [intros q Hq Hq'; apply Hlost; set_solver|]. split; [|split].
    + intros o Ho Hdo. destruct (w_heap w' !! o) eqn:Ewo; [|done].
      pose proof (Hc' o ltac:(by eexists)) as Hco.
      assert (p <> o) by (intros Heq; apply (Hop o Ho); congruence).
      by rewrite Ewo, lookup_insert_ne, (Hfr o Ho Hdo) in Hco.
    + intros o Ho Hdo. pose proof (HoL2 o Ho Hdo) as HoL.
      assert (p <> o) by (intros Heq; apply (Hop o Ho); congruence).
      split; [set_solver|].
      rewrite (content_sub_total _ _ o Hc') by (apply (inv_in_heap _ _ o Hi'); set_solver).
      rewrite lookup_total_insert_ne by done. by rewrite (Hkp o Ho Hdo).
    + split; [done|]. split; [by exists L2|].
      split; [exact (content_sub_insert_delete _ _ _ _ _ Hcs Hc')|].
      destruct (proj1 (inv_in_heap w' _ p Hi') ltac:(set_solver)) as [e He].
      pose proof (Hc' p ltac:(by eexists)) as Hce. rewrite He, lookup_insert_eq in Hce.
      cbn in Hce. injection Hce as Hs Hcl Htr Hv Hd. exists e. split; [done|].
      unfold new_entry_ok in *. by rewrite Hs, Hcl, Htr, Hv, Hd.
Qed.
End CreateSpec.

Section CreateTop.
Context `{RbTreeLaws T}.
Context (cfg : config).
Implicit Types (w : world T).

Lemma old_ok_sweep w w1 L now old :
  old_ok w L old -> inv_with w1 (sweep_list (w_heap w) now old L) ->
  content_sub (w_heap w) (w_heap w1) ->
  old_ok w1 (sweep_list (w_heap w) now old L) old /\
  forall o, old = Some o -> entry_content (w_heap w1 !!! o) = entry_content (w_heap w !!! o).
Proof.
  destruct old as [o|]; [|done]. intros (Ho & Hv & Hr) Hi1 Hc.
  assert (Ho1 : o ∈ sweep_list (w_heap w) now (Some o) L) by by apply sweep_list_keeps_old.
  assert (Hec : entry_content (w_heap w1 !!! o) = entry_content (w_heap w !!! o)).
  { apply content_sub_total; [done|]. by apply (inv_in_heap w1 _ o Hi1). }
  split; [|by intros ? [= <-]].
  unfold entry_content in Hec. injection Hec as _ _ Htr Hvp _.
  repeat split; [done|congruence|]. by rewrite Htr.
Qed.

(** Lines 201-228: the cleanup loop, then the capacity check. *)
Lemma state_entry_create_sweep w L now rnd packet old :
  inv_with w L ->
  exists w1, inv_with w1 (sweep_list (w_heap w) now old L) /\
    content_sub (w_heap w) (w_heap w1) /\ w_next w1 = w_next w /\
    max_sessions (w_state w1) = max_sessions (w_state w) /\
    state_entry_create cfg now rnd packet old w =
      if bool_decide (u32 (max_sessions (w_state w)) <=
                        Z.of_nat (length (sweep_list (w_heap w) now old L)))%Z
      then Ok ((None, packet), w1) else create_entry cfg now rnd packet old w1.
Proof.
  intros Hi. unfold state_entry_create.
  se_step (get_st_ok w). se_step (se_get_ok w).
  destruct (state_sweep_correct w L now old Hi) as (w1 & Hsw & Hi1 & Hc1 & Hn1 & Hm1).
  se_step Hsw. se_step (get_st_ok w1). exists w1. do 4 (split; [done|]).
  rewrite (inv_rb_num w1 _ Hi1), Hm1. by case_bool_decide.
Qed.

Lemma state_entry_create_correct w L now rnd packet old :
  inv_with w L -> old_ok w L old -> attr_ok packet ->
  exists res w' L', state_entry_create cfg now rnd packet old w = Ok (res, w') /\
    inv_with w' L' /\
    (forall q, q ∈ L -> q ∉ L' -> old = Some q \/ stale now (w_heap w !!! q) = true) /\
    match res with
    | (None, _) => content_sub (w_heap w) (w_heap w') /\ L' `sublist_of` L
    | (Some q, packet') =>
        q = w_next w /\ q ∉ L /\ (exists L0, L' = L0 ++ [q] /\ L0 `sublist_of` L) /\
        (forall o, old = Some o -> data (w_heap w !!! o) = None -> w_heap w' !! o = None) /\
        (forall o, old = Some o -> data (w_heap w !!! o) <> None ->
                   o ∈ L' /\ entry_content (w_heap w' !!! o) = entry_content (w_heap w !!! o)) /\
        content_sub (w_heap w) (delete q (w_heap w')) /\
        exists e, w_heap w' !! q = Some e /\ new_entry_ok cfg now rnd (w_heap w) old packet packet' e
    end.
Proof.
  intros Hi Hold Hattr.
  destruct (state_entry_create_sweep w L now rnd packet old Hi) as (w1 & Hi1 & Hc1 & Hn1 & Hm1 & ->).
  set (L1 := sweep_list (w_heap w) now old L) in *.
  destruct (old_ok_sweep w w1 L now old Hold Hi1 Hc1) as [Hold1 Hent].
  assert (Hdrop : forall q, q ∈ L -> q ∉ L1 -> old = Some q \/ stale now (w_heap w !!! q) = true).
  { intros q Hq Hn. right. by apply (sweep_list_dropped _ _ old L q Hq Hn). }
  case_bool_decide as Hfull.
  { exists (None, packet), w1, L1. do 4 (split; [done|]). apply sweep_list_sublist. }
  destruct (create_entry_run cfg w1 L1 now rnd packet old Hi1 Hold1 Hattr ltac:(rewrite Hm1; lia))
    as (res & w' & L' & Hrun & Hi' & Hlost & Hfr & Hkp & Hres).
  exists res, w', L'. do 2 (split; [done|]).
  split; [intros q Hq Hn; destruct (decide (q ∈ L1)); [left; by apply Hlost|by apply Hdrop]|].
  destruct res as [[q|] packet'].
  2: { destruct Hres as (Hc2 & Hs2 & _). split; [by eapply content_sub_trans|].
       etrans; [exact Hs2|apply sweep_list_sublist]. }
  destruct Hres as (-> & (L0 & -> & Hs0) & Hcs & e & He & Hnew).
  assert (Hd : forall o, old = Some o -> data (w_heap w1 !!! o) = data (w_heap w !!! o)).
  { intros o Ho. pose proof (Hent o Ho) as Hc. unfold entry_content in Hc. congruence. }
  split; [done|]. split; [rewrite Hn1; apply (inv_fresh _ _ Hi)|].
  split; [exists L0; split; [done|etrans; [exact Hs0|apply sweep_list_sublist]]|].
  split; [|split].
  - intros o Ho Hdo. apply Hfr; [done|]. by rewrite Hd.
  - intros o Ho Hdo. rewrite <- (Hent o Ho). apply Hkp; [done|]. by rewrite Hd.
  - split; [by eapply content_sub_trans|]. exists e. split; [done|]. by apply (new_entry_ok_content _ _ _ _ (w_heap w1)).
Qed.

(** C10: [state_entry_create] on a continued or new session does not crash,
    keeps the invariant and, when it returns an entry, that entry is the newly
    allocated one, last on the list, with the cleanup time, retry count, empty
    payload and State the code assigns, the State put on the reply; a previous
    entry without data is freed, one with data is kept unchanged. *)
Theorem state_entry_create_spec w L now rnd packet old :
  inv_with w L -> old_ok w L old -> attr_ok packet ->
  exists res w' L', state_entry_create cfg now rnd packet old w = Ok (res, w') /\
    inv_with w' L' /\
    match res with
    | (None, _) => content_sub (w_heap w) (w_heap w') /\ L' `sublist_of` L
    | (Some q, packet') =>
        q = w_next w /\ q ∉ L /\ (exists L0, L' = L0 ++ [q] /\ L0 `sublist_of` L) /\
        (forall o, old = Some o -> data (w_heap w !!! o) = None -> w_heap w' !! o = None) /\
        (forall o, old = Some o -> data (w_heap w !!! o) <> None ->
                   o ∈ L' /\ entry_content (w_heap w' !!! o) = entry_content (w_heap w !!! o)) /\
        content_sub (w_heap w) (delete q (w_heap w')) /\
        exists e, w_heap w' !! q = Some e /\ new_entry_ok cfg now rnd (w_heap w) old packet packet' e
    end.
Proof.
  intros Hi Hold Hattr.
  destruct (state_entry_create_correct w L now rnd packet old Hi Hold Hattr)
    as (res & w' & L' & Hrun & Hi' & _ & Hres).
  exists res, w', L'. split; [exact Hrun|split; [exact Hi'|exact Hres]].
Qed.

(** C24: when the store is still full after the cleanup loop,
    [state_entry_create] returns NULL and leaves the swept store. *)
Theorem state_entry_create_full w L now rnd packet old :
  inv_with w L ->
  (u32 (max_sessions (w_state w)) <= Z.of_nat (length (sweep_list (w_heap w) now old L)))%Z ->
  exists w', state_entry_create cfg now rnd packet old w = Ok ((None, packet), w') /\
    inv_with w' (sweep_list (w_heap w) now old L) /\
    content_sub (w_heap w) (w_heap w').
Proof.
  intros Hi Hfull.
  destruct (state_entry_create_sweep w L now rnd packet old Hi) as (w1 & Hi1 & Hc1 & _ & _ & ->).
  rewrite bool_decide_eq_true_2 by done. by exists w1.
Qed.

(** C11: when the cleanup loop leaves room under [max_sessions] and no entry
    it leaves holds the State the new entry would get, [state_entry_create] on
    a continued or new session succeeds: it returns the newly allocated entry. *)
Theorem state_entry_create_succeeds w L now rnd packet old :
  inv_with w L -> old_ok w L old -> attr_ok packet ->
  (Z.of_nat (length (sweep_list (w_heap w) now old L)) < u32 (max_sessions (w_state w)))%Z ->
  (forall p, p ∈ sweep_list (w_heap w) now old L ->
             st_of (w_heap w) p <> new_state cfg rnd (w_heap w) old packet) ->
  exists packet' w',
    state_entry_create cfg now rnd packet old w = Ok ((Some (w_next w), packet'), w').
Proof.
  intros Hi Hold Hattr Hroom Hfresh.
  destruct (state_entry_create_sweep w L now rnd packet old Hi) as (w1 & Hi1 & Hc1 & Hn1 & Hm1 & ->).
  rewrite bool_decide_eq_false_2 by lia.
  destruct (old_ok_sweep w w1 L now old Hold Hi1 Hc1) as [Hold1 Hent].
  destruct (create_entry_run cfg w1 _ now rnd packet old Hi1 Hold1 Hattr ltac:(rewrite Hm1; lia))
    as (res & w' & L' & Hrun & _ & _ & _ & _ & Hres).
  destruct res as [[q|] packet'].
  - destruct Hres as (-> & _). rewrite Hn1 in Hrun. eauto.
  - destruct Hres as (_ & _ & p & Hp & Hst). exfalso. apply (Hfresh p Hp).
    rewrite <- (new_state_content cfg rnd _ (w_heap w1)), <- Hst by done.
    pose proof (content_sub_total _ _ p Hc1 ltac:(by apply (inv_in_heap _ _ p Hi1))) as Hcp.
    unfold entry_content in Hcp. unfold st_of. congruence.
Qed.

(** C16: when an entry the cleanup loop leaves, other than the previous one,
    already holds the State the new entry would get, [state_entry_create]
    returns NULL, and the previous entry, when it holds no data, has been
    freed all the same (line 276 runs before the insertion fails at line 316). *)
Theorem state_entry_create_collision w L now rnd packet o :
  inv_with w L -> old_ok w L (Some o) -> attr_ok packet -> data (w_heap w !!! o) = None ->
  (Z.of_nat (length (sweep_list (w_heap w) now (Some o) L)) < u32 (max_sessions (w_state w)))%Z ->
  (exists p, p ∈ sweep_list (w_heap w) now (Some o) L /\ p <> o /\
             st_of (w_heap w) p = new_state cfg rnd (w_heap w) (Some o) packet) ->
  exists packet' w', state_entry_create cfg now rnd packet (Some o) w = Ok ((None, packet'), w') /\
    w_heap w' !! o = None.
Proof.
  intros Hi Hold Hattr Hdo Hroom (p & Hp & Hpo & Hsp).
  destruct (state_entry_create_sweep w L now rnd packet (Some o) Hi) as (w1 & Hi1 & Hc1 & Hn1 & Hm1 & ->).
  rewrite bool_decide_eq_false_2 by lia.
  destruct (old_ok_sweep w w1 L now (Some o) Hold Hi1 Hc1) as [Hold1 Hent].
  assert (Hdo1 : data (w_heap w1 !!! o) = None).
  { pose proof (Hent o eq_refl) as Hc. unfold entry_content in Hc. congruence. }
  destruct (create_entry_run cfg w1 _ now rnd packet (Some o) Hi1 Hold1 Hattr ltac:(rewrite Hm1; lia))
    as (res & w' & L' & Hrun & Hi' & Hlost & Hfr & _ & Hres).
  destruct res as [[q|] packet']; [exfalso|exists packet', w'; split; [done|by apply Hfr]].
  destruct Hres as (-> & (L0 & -> & _) & Hcs & e & He & Hnew).
  assert (Hpq : p <> w_next w1) by (intros ->; by apply (inv_fresh _ _ Hi1)).
  assert (HpL' : p ∈ L0 ++ [w_next w1]).
  { destruct (decide (p ∈ L0 ++ [w_next w1])) as [|Hn]; [done|]. exfalso. apply Hpo. by injection (Hlost p Hp Hn). }
  assert (Hp1 : st_of (w_heap w1) p = st_of (w_heap w) p).
  { pose proof (content_sub_total _ _ p Hc1 ltac:(by apply (inv_in_heap _ _ p Hi1))) as Hc.
    unfold entry_content in Hc. unfold st_of. congruence. }
  assert (Hp' : st_of (w_heap w') p = st_of (w_heap w1) p).
  { assert (Hlive : is_Some (delete (w_next w1) (w_heap w') !! p))
      by (rewrite lookup_delete_ne by congruence; by apply (inv_in_heap _ _ p Hi')).
    pose proof (content_sub_total _ _ p Hcs Hlive) as Hc.
    rewrite lookup_total_delete_ne in Hc by congruence.
    unfold entry_content in Hc. unfold st_of. congruence. }
  assert (Hq' : st_of (w_heap w') (w_next w1) = new_state cfg rnd (w_heap w) (Some o) packet).
  { unfold st_of. rewrite (lookup_total_correct _ _ _ He). destruct Hnew as (Hs & _).
    apply (f_equal fst) in Hs. cbn [fst] in Hs. rewrite Hs.
    exact (new_state_content cfg rnd (w_heap w) (w_heap w1) (Some o) packet Hent). }
  pose proof Hi' as (_ & _ & _ & Hnd & _).
  assert (E1 : tree_image (w_heap w') (L0 ++ [w_next w1]) !! st_of (w_heap w') p = Some p)
    by (apply tree_image_lookup; [done|split; done]).
  assert (E2 : tree_image (w_heap w') (L0 ++ [w_next w1]) !! st_of (w_heap w') p = Some (w_next w1))
    by (apply tree_image_lookup; [done|split; [set_solver|congruence]]).
  congruence.
Qed.
End CreateTop.

(** ** Calls that do not return *)

(** The octets of the State attribute are octets ([vp_octets] is a
    [uint8_t] array). *)
Definition vp_bytes (packet : radius_packet) : Prop :=
  match find_state (packet_vps packet) with
  | Some v => Forall is_byte (vp_octets v)
  | None => True
  end.

#[export] Instance old_ok_dec `{RbTreeLaws T} (w : world T) L old : Decision (old_ok w L old).
Proof. destruct old; simpl; apply _. Defined.

#[export] Instance attr_ok_dec packet : Decision (attr_ok packet).
Proof. unfold attr_ok. destruct (find_state _); apply _. Defined.

Section CreateTotal.
Context `{RbTreeLaws T}.
Context (cfg : config).
Implicit Types (w : world T).

Lemma create_state_attr_crash w s packet :
  vp_bytes packet -> ~ attr_ok packet ->
  create_state_attr (find_state (packet_vps packet)) s packet w = Crash OverRead.
Proof.
  unfold vp_bytes, attr_ok, create_state_attr, state_copy.
  destruct (find_state (packet_vps packet)) as [v|]; [|done].
  intros Hb Hn. rewrite decide_False; [done|]. unfold vp_length in Hn. naive_solver.
Qed.

Lemma create_from_old_crash w L p e0 rnd vp o :
  inv_with w L -> o ∈ L -> p ∉ L -> ~ old_ok w L (Some o) ->
  exists c, create_from_old cfg rnd vp (Some o) (add_cell w p e0) = Crash c.
Proof.
  intros Hi Ho Hp Hn. destruct (proj1 (inv_in_heap w L o Hi) Ho) as [eo Heo].
  assert (Heo' : w_heap (add_cell w p e0) !! o = Some eo).
  { simpl. rewrite lookup_insert_ne; [done|set_solver]. }
  unfold create_from_old. se_step (load_ok _ _ _ Heo').
  unfold old_ok in Hn. rewrite (lookup_total_correct _ _ _ Heo) in Hn.
  destruct (int_in_range (tries eo + 1)) eqn:Hr; cbn [negb]; [|by eexists].
  unfold rad_assert. rewrite bool_decide_eq_false_2 by naive_solver. by eexists.
Qed.

(** [state_entry_create] after the capacity check aborts when the
    previous entry fails the checks of lines 256-258 or the reply's
    State attribute is shorter than 16 octets. *)
Lemma create_entry_crash w1 L1 now rnd packet old :
  inv_with w1 L1 -> (forall o, old = Some o -> o ∈ L1) -> vp_bytes packet ->
  ~ (old_ok w1 L1 old /\ attr_ok packet) ->
  exists c, create_entry cfg now rnd packet old w1 = Crash c.
Proof.
  intros Hi Hin Hb Hn. unfold create_entry. se_step (talloc_zero_entry_run w1).
  set (p := w_next w1).
  assert (Hpz : w_heap (add_cell (bump w1) p entry_zero) !! p = Some entry_zero)
    by apply lookup_insert_eq.
  se_step (load_ok _ _ _ Hpz).
  destruct (decide (old_ok w1 L1 old)) as [Hold|Hold].
  - assert (Ha : ~ attr_ok packet) by naive_solver.
    destruct (create_from_old_run cfg (bump w1) L1 p entry_zero rnd
                (find_state (packet_vps packet)) old (inv_bump _ _ Hi) (inv_fresh _ _ Hi) Hold)
      as (tr & s0 & W & L2 & Hrun & _).
    pose proof (create_state_attr_crash (add_cell W p entry_zero) s0 packet Hb Ha) as Hc.
    se_step Hrun. eexists. by se_crash_step Hc.
  - destruct old as [o|]; [|by destruct Hold].
    destruct (create_from_old_crash (bump w1) L1 p entry_zero rnd
                (find_state (packet_vps packet)) o (inv_bump _ _ Hi) (Hin o eq_refl)
                (inv_fresh _ _ Hi) Hold) as [c Hc].
    exists c. by se_crash_step Hc.
Qed.

Lemma create_entry_total w1 L1 now rnd packet old :
  inv_with w1 L1 -> (forall o, old = Some o -> o ∈ L1) -> vp_bytes packet ->
  (Z.of_nat (length L1) < u32 (max_sessions (w_state w1)))%Z ->
  (exists c, create_entry cfg now rnd packet old w1 = Crash c) \/
  exists res w' L', create_entry cfg now rnd packet old w1 = Ok (res, w') /\ inv_with w' L'.
Proof.
  intros Hi Hin Hb Hlen.
  destruct (decide (old_ok w1 L1 old /\ attr_ok packet)) as [[Hold Ha]|Hn].
  - right. destruct (create_entry_run cfg w1 L1 now rnd packet old Hi Hold Ha Hlen)
      as (res & w' & L' & Hr & Hi' & _). eauto.
  - left. by apply (create_entry_crash w1 L1).
Qed.

(** [state_entry_create] on an entry of the list either aborts or
    returns a store that satisfies the invariant. *)
Lemma state_entry_create_total w L now rnd packet old :
  inv_with w L -> (forall o, old = Some o -> o ∈ L) -> vp_bytes packet ->
  (exists c, state_entry_create cfg now rnd packet old w = Crash c) \/
  exists res w' L', state_entry_create cfg now rnd packet old w = Ok (res, w') /\
                    inv_with w' L'.
Proof.
  intros Hi Hin Hb. unfold state_entry_create.
  se_step (get_st_ok w). se_step (se_get_ok w).
  destruct (state_sweep_correct w L now old Hi) as (w1 & Hsw & Hi1 & _).
  se_step Hsw. se_step (get_st_ok w1).
  case_bool_decide as Hfull; [right; by do 3 eexists|].
  rewrite (inv_rb_num w1 _ Hi1) in Hfull.
  apply (create_entry_total w1 _ now rnd packet old Hi1); [|done|lia].
  intros o ->. apply sweep_list_keeps_old. by apply Hin.
Qed.

(** The checks of lines 256-258 read the previous entry, which the
    cleanup loop keeps unchanged, so they give the same answer before
    and after it. *)
Lemma old_ok_unsweep w w1 L now o :
  o ∈ L -> inv_with w1 (sweep_list (w_heap w) now (Some o) L) ->
  content_sub (w_heap w) (w_heap w1) ->
  old_ok w1 (sweep_list (w_heap w) now (Some o) L) (Some o) -> old_ok w L (Some o).
Proof.
  intros Ho Hi1 Hc (Ho1 & Hv & Hr).
  assert (Hec : entry_content (w_heap w1 !!! o) = entry_content (w_heap w !!! o)).
  { apply content_sub_total; [done|]. by apply (inv_in_heap w1 _ o Hi1). }
  unfold entry_content in Hec. injection Hec as _ _ Htr Hvp _.
  split; [done|]. split; [congruence|]. by rewrite <- Htr.
Qed.

(** A call of [state_entry_create] that returns either passed the checks
    on the previous entry and the reply, or found the store full after
    the cleanup loop and returned NULL. *)
Lemma state_entry_create_ok_cases w L now rnd packet old res w' :
  inv_with w L -> (forall o, old = Some o -> o ∈ L) -> vp_bytes packet ->
  state_entry_create cfg now rnd packet old w = Ok (res, w') ->
  (old_ok w L old /\ attr_ok packet) \/
  (fst res = None /\
   (exists L', inv_with w' L' /\ L' `sublist_of` L /\
               forall q, q ∈ L -> q ∉ L' -> stale now (w_heap w !!! q) = true) /\
   content_sub (w_heap w) (w_heap w')).
Proof.
  intros Hi Hin Hb Hr. destruct (decide (old_ok w L old /\ attr_ok packet)) as [?|Hn]; [by left|right].
  destruct (state_entry_create_sweep cfg w L now rnd packet old Hi) as (w1 & Hi1 & Hc1 & _ & _ & Hrun).
  rewrite Hrun in Hr. case_bool_decide.
  - injection Hr as <- <-. split; [done|]. split; [|done].
    eexists. split; [exact Hi1|]. split; [apply sweep_list_sublist|].
    intros q Hq Hq'. by apply (sweep_list_dropped _ _ old L q Hq Hq').
  - exfalso.
    assert (Hin1 : forall o, old = Some o -> o ∈ sweep_list (w_heap w) now old L)
      by (intros o ->; apply sweep_list_keeps_old; by apply Hin).
    assert (Hn1 : ~ (old_ok w1 (sweep_list (w_heap w) now old L) old /\ attr_ok packet)).
    { intros [Hold1 Ha]. apply Hn. split; [|done]. destruct old as [o|]; [|done].
      by apply (old_ok_unsweep w w1 L now o); [apply Hin|..]. }
    destruct (create_entry_crash w1 _ now rnd packet old Hi1 Hin1 Hb Hn1) as [c Hc].
    by rewrite Hc in Hr.
Qed.

(** C25: a State attribute shorter than 16 octets on the reply makes
    [state_entry_create] read past its end ([memcpy] at line 308). *)
Theorem state_entry_create_short_state w L now rnd packet v :
  inv_with w L -> find_state (packet_vps packet) = Some v ->
  (vp_length v < AUTH_VECTOR_LEN)%nat ->
  (Z.of_nat (length (sweep_list (w_heap w) now None L)) < u32 (max_sessions (w_state w)))%Z ->
  state_entry_create cfg now rnd packet None w = Crash OverRead.
Proof.
  intros Hi Hv Hl Hlen.
  destruct (state_entry_create_sweep cfg w L now rnd packet None Hi) as (w1 & _ & _ & _ & _ & ->).
  rewrite bool_decide_eq_false_2 by lia.
  rewrite create_entry_alloc. unfold create_from_old. rewrite se_bind_ret. cbn beta iota.
  rewrite Hv. unfold create_state_attr, state_copy.
  rewrite decide_False by (unfold vp_length in Hl; lia). done.
Qed.

(** C26: continuing a session whose retry count is [INT_MAX] overflows the
    [int] [tries] (line 256). *)
Theorem state_entry_create_tries_overflow w L now rnd packet o :
  inv_with w L -> o ∈ L -> tries (w_heap w !!! o) = INT_MAX ->
  (Z.of_nat (length (sweep_list (w_heap w) now (Some o) L)) < u32 (max_sessions (w_state w)))%Z ->
  state_entry_create cfg now rnd packet (Some o) w = Crash SignedOverflow.
Proof.
  intros Hi Ho Ht Hlen.
  destruct (state_entry_create_sweep cfg w L now rnd packet (Some o) Hi)
    as (w1 & Hi1 & Hc1 & _ & _ & ->).
  rewrite bool_decide_eq_false_2 by lia.
  assert (Ho1 : o ∈ sweep_list (w_heap w) now (Some o) L) by by apply sweep_list_keeps_old.
  destruct (proj1 (inv_in_heap w1 _ o Hi1) Ho1) as [eo Heo].
  assert (Ht1 : tries eo = INT_MAX).
  { pose proof (content_sub_total _ _ o Hc1 ltac:(by eexists)) as Hc.
    rewrite (lookup_total_correct _ _ _ Heo) in Hc. unfold entry_content in Hc. congruence. }
  assert (Heo' : w_heap (add_cell (bump w1) (w_next w1) entry_zero) !! o = Some eo).
  { simpl. rewrite lookup_insert_ne; [done|]. intros Heq. apply (inv_fresh _ _ Hi1). by rewrite Heq. }
  rewrite create_entry_alloc. unfold create_from_old. rewrite se_bind_assoc.
  se_step (load_ok _ _ _ Heo'). by rewrite Ht1.
Qed.
End CreateTotal.

(** ** Examples and witnesses *)

Lemma state_entry_create_succeeds_witness :
  inv_with ex_world [1%positive; 2%positive] /\ old_ok ex_world [1%positive; 2%positive] (Some 1%positive) /\
  attr_ok (mk_packet []) /\
  (Z.of_nat (length (sweep_list (w_heap ex_world) 50 (Some 1%positive) [1%positive; 2%positive]))
     < u32 (max_sessions (w_state ex_world)))%Z /\
  Forall (fun p => st_of (w_heap ex_world) p <>
                   new_state ex_cfg ex_rnd (w_heap ex_world) (Some 1%positive) (mk_packet []))
    (sweep_list (w_heap ex_world) 50 (Some 1%positive) [1%positive; 2%positive]) /\
  exists packet' w', state_entry_create ex_cfg 50 ex_rnd (mk_packet []) (Some 1%positive) ex_world =
                     Ok ((Some (w_next ex_world), packet'), w').
Proof.
  assert (Hf : Forall (fun p => st_of (w_heap ex_world) p <>
                   new_state ex_cfg ex_rnd (w_heap ex_world) (Some 1%positive) (mk_packet []))
    (sweep_list (w_heap ex_world) 50 (Some 1%positive) [1%positive; 2%positive])) by decide_vm.
  split; [decide_vm|]. split; [decide_vm|]. split; [decide_vm|]. split; [vm_compute; reflexivity|].
  split; [exact Hf|].
  apply (state_entry_create_succeeds ex_cfg ex_world [1%positive; 2%positive] 50 ex_rnd
           (mk_packet []) (Some 1%positive) ltac:(decide_vm) ltac:(decide_vm) ltac:(decide_vm)
           ltac:(vm_compute; reflexivity)).
  by apply Forall_forall.
Defined.

Lemma state_entry_create_collision_witness :
  inv_with ex_world [1%positive; 2%positive] /\
  old_ok ex_world [1%positive; 2%positive] (Some 1%positive) /\
  attr_ok (mk_packet [pair_state ex_s2]) /\ data (w_heap ex_world !!! 1%positive) = None /\
  (Z.of_nat (length (sweep_list (w_heap ex_world) 50 (Some 1%positive) [1%positive; 2%positive]))
     < u32 (max_sessions (w_state ex_world)))%Z /\
  exists packet' w',
    state_entry_create ex_cfg 50 ex_rnd (mk_packet [pair_state ex_s2]) (Some 1%positive) ex_world =
      Ok ((None, packet'), w') /\ w_heap w' !! 1%positive = None.
Proof.
  split; [decide_vm|]. split; [decide_vm|]. split; [decide_vm|].
  split; [vm_compute; reflexivity|]. split; [vm_compute; reflexivity|].
  apply (state_entry_create_collision ex_cfg ex_world [1%positive; 2%positive] 50 ex_rnd
           (mk_packet [pair_state ex_s2]) 1%positive ltac:(decide_vm) ltac:(decide_vm)
           ltac:(decide_vm) ltac:(vm_compute; reflexivity) ltac:(vm_compute; reflexivity)).
  exists 2%positive. split; [decide_vm|]. split; [discriminate|]. vm_compute. reflexivity.
Defined.

Lemma state_entry_create_spec_witness :
  inv_with ex_world [1%positive; 2%positive] /\ old_ok ex_world [1%positive; 2%positive] None /\
  attr_ok (mk_packet []) /\
  exists res w' L', state_entry_create ex_cfg 50 ex_rnd (mk_packet []) None ex_world = Ok (res, w') /\
                    inv_with w' L'.
Proof.
  split; [decide_vm|]. split; [decide_vm|]. split; [decide_vm|].
  destruct (state_entry_create_spec ex_cfg ex_world [1%positive; 2%positive] 50 ex_rnd
              (mk_packet []) None ltac:(decide_vm) ltac:(decide_vm) ltac:(decide_vm))
    as (res & w' & L' & Hrun & Hi & _).
  exists res, w', L'. split; assumption.
Defined.

Lemma state_entry_create_full_witness :
  inv_with ex_full [1%positive; 2%positive] /\
  (u32 (max_sessions (w_state ex_full)) <=
     Z.of_nat (length (sweep_list (w_heap ex_full) 50 (Some 1%positive) [1%positive; 2%positive])))%Z /\
  exists w', state_entry_create ex_cfg 50 ex_rnd (mk_packet []) (Some 1%positive) ex_full =
               Ok ((None, mk_packet []), w').
Proof.
  split; [decide_vm|]. split; [vm_compute; discriminate|].
  destruct (state_entry_create_full ex_cfg ex_full [1%positive; 2%positive] 50 ex_rnd
              (mk_packet []) (Some 1%positive) ltac:(decide_vm) ltac:(vm_compute; discriminate))
    as (w' & Hrun & _).
  exists w'. exact Hrun.
Defined.

(** A State attribute of three octets on the reply. *)
Definition ex_short : radius_packet := mk_packet [mk_vp PW_STATE 0 0 [1; 2; 3]%Z].

Lemma state_entry_create_short_state_witness :
  inv_with ex_world [1%positive; 2%positive] /\
  state_entry_create ex_cfg 50 ex_rnd ex_short None ex_world = Crash OverRead.
Proof.
  split; [decide_vm|].
  apply (state_entry_create_short_state ex_cfg ex_world [1%positive; 2%positive] 50 ex_rnd
           ex_short (mk_vp PW_STATE 0 0 [1; 2; 3]%Z)); [decide_vm|reflexivity|unfold vp_length, AUTH_VECTOR_LEN; simpl; lia|].
  vm_compute. reflexivity.
Defined.

(** The store whose first entry has been continued [INT_MAX] times. *)
Definition ex_worn : world (gmap (list Z) ptr) :=
  ex_store 4 (mk_entry ex_s1 100 None (Some 2%positive) INT_MAX [] None).

Lemma state_entry_create_tries_overflow_witness :
  inv_with ex_worn [1%positive; 2%positive] /\
  state_entry_create ex_cfg 50 ex_rnd (mk_packet []) (Some 1%positive) ex_worn = Crash SignedOverflow.
Proof.
  split; [decide_vm|].
  apply (state_entry_create_tries_overflow ex_cfg ex_worn [1%positive; 2%positive] 50 ex_rnd
           (mk_packet []) 1%positive); [decide_vm|set_solver|reflexivity|].
  vm_compute. reflexivity.
Defined.

(** [state_entry_create] frees the previous entry before [rbtree_insert]
    can fail: on a concrete store, a colliding State makes the call return
    NULL with the previous entry already freed. *)
Example create_collision_frees_old :
  exists packet' w',
    state_entry_create ex_cfg 50 ex_rnd (mk_packet [pair_state ex_s2]) (Some 1%positive) ex_world =
      Ok ((None, packet'), w') /\
    is_Some (w_heap ex_world !! 1%positive) /\ w_heap w' !! 1%positive = None.
Proof. eexists _, _. split; [vm_compute; reflexivity|]. split; [by eexists|vm_compute; reflexivity]. Qed.

(** the capacity check runs before the previous entry is released: a full
    store refuses to continue a session even though the entry it would free
    leaves room. *)
Example create_full_keeps_old :
  state_entry_create ex_cfg 50 ex_rnd (mk_packet []) (Some 1%positive) ex_full =
    Ok ((None, mk_packet []), ex_full) /\
  (Z.of_nat (size (delete 1%positive (w_heap ex_full))) < u32 (max_sessions (w_state ex_full)))%Z.
Proof. split; [vm_compute; reflexivity|]. vm_compute. reflexivity. Qed.
