(* ===== verification/Session.v ===== *)
(** * The public API of [state.c]

    [fr_state_discard] (lines 370-388), [fr_state_get_vps] (393-428),
    [fr_state_put_vps] (436-473), [fr_state_find_data] (479-497),
    [fr_state_get_data] (504-523) and [fr_state_put_data] (530-563).
    Each runs with [state->mutex] held from the lock to the unlock, so a
    call is one step of the [SE] monad over the store; calls of
    different threads are the sequences of such steps ([api_step]);
    [Concurrency.v] proves that the finer interleavings the mutex allows
    come to the same.
    [REQUEST] is [request] of [Pairs.v]; a NULL [original] is [None];
    the [state] argument of the data functions is NULL when [has_state]
    is [false]; the [now] and [rnd] arguments of [state_entry_create]
    are passed through.  [fr_state_init] (lines 129-162), with its
    allocation failures ([fr_state_init_alloc]), starts the store's
    life. *)

From Stdlib Require Import ZArith Lia.
From S2P Require Import Prelude Token Pairs RbTree Entry Store Cleanup Create.

Section Find.
Context `{RbTreeLaws T}.

Implicit Types (w : world T) (st : fr_state_t T).

(** ** [state_entry_find] (lines 345-364) *)

Definition state_entry_find (packet : radius_packet) : SE (world T) (option ptr) :=
  match find_state (packet_vps packet) with
  | None => se_ret None
  | Some vp =>
      if bool_decide (vp_length vp = AUTH_VECTOR_LEN) then
        let* st := get_st in se_ret (rb_find (vp_octets vp) (tree st))
      else se_ret None
  end.
End Find.

Section Api.
Context `{RbTreeLaws T}.
Context (cfg : config).
Implicit Types (w : world T) (req : request).

(** [fr_state_discard]: drop the request's cached attributes, then free
    the entry of the State in [original]. *)
Definition fr_state_discard req (original : radius_packet) : SE (world T) request :=
  let req := mk_request (request_packet req) [] in
  let* entry := state_entry_find original in
  match entry with
  | None => se_ret req
  | Some p => state_entry_free p ;; se_ret req
  end.

(** [fr_state_get_vps]: move the entry's attributes to [request->state]. *)
Definition fr_state_get_vps req (packet : radius_packet) : SE (world T) request :=
  rad_assert (bool_decide (request_state req = [])) ;;
  match find_state (packet_vps (request_packet req)) with
  | None => se_ret req
  | Some _ =>
      let* entry := state_entry_find packet in
      match entry with
      | Some p =>
          let* e := load p in
          let '(to, from) := pairfilter_all (request_state req) (vps e) in
          store p (set_vps e from) ;;
          se_ret (mk_request (request_packet req) to)
      | None => se_ret req
      end
  end.

(** [state_entry_find] of [original] when it is not NULL. *)
Definition find_original (original : option radius_packet) : SE (world T) (option ptr) :=
  match original with
  | Some orig => state_entry_find orig
  | None => se_ret None
  end.

(** [fr_state_put_vps]: create the entry for the reply [packet] and move
    [request->state] into it.  Returns the result, the request and the
    reply with its State attribute. *)
Definition fr_state_put_vps (now : Z) (rnd : nat -> Z) req
    (original : option radius_packet) (packet : radius_packet)
    : SE (world T) (bool * request * radius_packet) :=
  if bool_decide (request_state req = []) then se_ret (true, req, packet) else
  let* old := find_original original in
  let* '(entry, packet) := state_entry_create cfg now rnd packet old in
  match entry with
  | None => se_ret (false, req, packet)
  | Some p =>
      let* e := load p in
      let '(to, from) := pairfilter_all (vps e) (request_state req) in
      store p (set_vps e to) ;;
      rad_assert (bool_decide (from = [])) ;;
      se_ret (true, mk_request (request_packet req) from, packet)
  end.

(** [fr_state_find_data]: the entry's data, left in place. *)
Definition fr_state_find_data (has_state : bool) (packet : radius_packet)
    : SE (world T) (option ptr) :=
  if negb has_state then se_ret None else
  let* entry := state_entry_find packet in
  match entry with
  | None => se_ret None
  | Some p => let* e := load p in se_ret (data e)
  end.

(** [fr_state_get_data]: the entry's data, removed from the entry. *)
Definition fr_state_get_data (has_state : bool) (packet : radius_packet)
    : SE (world T) (option ptr) :=
  if negb has_state then se_ret None else
  let* entry := state_entry_find packet in
  match entry with
  | None => se_ret None
  | Some p =>
      let* e := load p in
      store p (set_data e None) ;;
      se_ret (data e)
  end.

(** [fr_state_put_data]: create the entry for the reply [packet], take
    [data] away from the previous entry if it held it, and store it in
    the new one. *)
Definition fr_state_put_data (now : Z) (rnd : nat -> Z) (has_state : bool)
    (original : option radius_packet) (packet : radius_packet) (d : option ptr)
    : SE (world T) (bool * radius_packet) :=
  if negb has_state then se_ret (false, packet) else
  let* old := find_original original in
  let* '(entry, packet) := state_entry_create cfg now rnd packet old in
  match entry with
  | None => se_ret (false, packet)
  | Some p =>
      (match old with
       | Some o =>
           let* oe := load o in
           if bool_decide (data oe = d) then store o (set_data oe None) else se_ret tt
       | None => se_ret tt
       end) ;;
      let* e := load p in
      store p (set_data e d) ;;
      se_ret (true, packet)
  end.
End Api.

(** ** Lookup *)

(** The entry [state_entry_find] returns for [packet]: the tree's entry
    for the 16 octets of the packet's State attribute. *)
Definition find_result `{RbTree T} (w : world T) (packet : radius_packet) : option ptr :=
  match find_state (packet_vps packet) with
  | Some vp =>
      if bool_decide (vp_length vp = AUTH_VECTOR_LEN)
      then rb_find (vp_octets vp) (tree (w_state w)) else None
  | None => None
  end.

Definition find_orig `{RbTree T} (w : world T) (original : option radius_packet) : option ptr :=
  match original with Some orig => find_result w orig | None => None end.

Section Lookup.
Context `{RbTreeLaws T}.
Implicit Types (w : world T) (L : list ptr).

Lemma state_entry_find_run w packet :
  state_entry_find packet w = Ok (find_result w packet, w).
Proof.
  unfold state_entry_find, find_result.
  destruct (find_state (packet_vps packet)); [|done]. by case_bool_decide.
Qed.

Lemma find_original_run w original :
  find_original original w = Ok (find_orig w original, w).
Proof. destruct original; [apply state_entry_find_run|done]. Qed.

(** [state_entry_find] finds exactly the live entry whose State is the
    16 octets of the packet's State attribute. *)
Lemma find_result_spec w L packet p :
  inv_with w L ->
  find_result w packet = Some p <->
  p ∈ L /\ exists vp, find_state (packet_vps packet) = Some vp /\
                     vp_length vp = AUTH_VECTOR_LEN /\ st_of (w_heap w) p = vp_octets vp.
Proof.
  intros Hi. pose proof Hi as (_ & _ & _ & Hnd & Htr & _).
  unfold find_result. destruct (find_state (packet_vps packet)) as [vp|]; [|naive_solver].
  case_bool_decide as Hl; [|naive_solver].
  rewrite rb_find_abs, Htr, tree_image_lookup by done. naive_solver.
Qed.

Lemma find_result_in w L packet p :
  inv_with w L -> find_result w packet = Some p -> p ∈ L.
Proof. intros Hi Hf. by apply (find_result_spec w L packet p Hi) in Hf as [? _]. Qed.

Lemma find_result_live w L packet p :
  inv_with w L -> find_result w packet = Some p -> is_Some (w_heap w !! p).
Proof. intros Hi Hf. apply (inv_in_heap w L p Hi). by eapply find_result_in. Qed.

(** Rewriting the payload of a live entry (attributes, data) keeps the
    invariant. *)
Lemma inv_with_payload w L p e' :
  inv_with w L -> is_Some (w_heap w !! p) ->
  state e' = state (w_heap w !!! p) -> prev e' = prev (w_heap w !!! p) ->
  next e' = next (w_heap w !!! p) ->
  inv_with (upd_heap w (<[p := e']> (w_heap w))) L.
Proof.
  intros (Hs & Hnd & Hdom & Hnds & Htr & Htok & Hlt & Hlen) Hp0 Hst Hp Hn.
  destruct Hp0 as [e He]. rewrite (lookup_total_correct _ _ _ He) in Hst, Hp, Hn.
  assert (Hso : forall q, st_of (<[p := e']> (w_heap w)) q = st_of (w_heap w) q).
  { intros q. unfold st_of. destruct (decide (p = q)) as [<-|Hne].
    - by rewrite lookup_total_insert_eq, (lookup_total_correct _ _ _ He).
    - by rewrite lookup_total_insert_ne. }
  assert (Hsof : st_of (<[p := e']> (w_heap w)) <$> L = st_of (w_heap w) <$> L)
    by (apply list_fmap_ext; auto).
  unfold inv_with; simpl. rewrite Hsof, (tree_image_frame (w_heap w)) by auto.
  split; [by eapply dseg_payload|]. split; [done|].
  split; [by rewrite dom_insert_lookup_L by (by eexists)|].
  do 2 (split; [done|]). split; [|done].
  eapply Forall_impl; [exact Htok|]. intros q. by rewrite Hso.
Qed.
End Lookup.

(** ** The data functions *)

Section DataSpec.
Context `{RbTreeLaws T}.
Implicit Types (w : world T) (L : list ptr).

(** The payload of the entry [state_entry_find] returns. *)
Definition found_data w (packet : radius_packet) : option ptr :=
  match find_result w packet with
  | Some p => data (w_heap w !!! p)
  | None => None
  end.

Lemma fr_state_find_data_run w L packet :
  inv_with w L -> fr_state_find_data true packet w = Ok (found_data w packet, w).
Proof.
  intros Hi. unfold fr_state_find_data, found_data. cbn [negb].
  se_step (state_entry_find_run w packet).
  destruct (find_result w packet) as [p|] eqn:Ef; [|done].
  destruct (find_result_live w L packet p Hi Ef) as [e He].
  se_step (load_ok _ _ _ He). by rewrite (lookup_total_correct _ _ _ He).
Qed.

Lemma fr_state_get_data_run w L packet :
  inv_with w L ->
  fr_state_get_data true packet w =
    Ok (found_data w packet,
        match find_result w packet with
        | Some p => upd_heap w (<[p := set_data (w_heap w !!! p) None]> (w_heap w))
        | None => w
        end).
Proof.
  intros Hi. unfold fr_state_get_data, found_data. cbn [negb].
  se_step (state_entry_find_run w packet).
  destruct (find_result w packet) as [p|] eqn:Ef; [|done].
  destruct (find_result_live w L packet p Hi Ef) as [e He].
  se_step (load_ok _ _ _ He). rewrite (lookup_total_correct _ _ _ He).
  se_step (store_ok w p (set_data e None) ltac:(by eexists)). done.
Qed.

Lemma fr_state_get_data_inv w L packet :
  inv_with w L ->
  exists w', fr_state_get_data true packet w = Ok (found_data w packet, w') /\ inv_with w' L.
Proof.
  intros Hi. rewrite (fr_state_get_data_run w L packet Hi). eexists. split; [done|].
  destruct (find_result w packet) as [p|] eqn:Ef; [|done].
  apply inv_with_payload; [done|by eapply find_result_live|done..].
Qed.
End DataSpec.

Section DataClaims.
Context `{RbTreeLaws T}.
Context (cfg : config).
Implicit Types (w : world T) (L : list ptr).

(** C19: [fr_state_get_data] returns the data of the entry found and removes
    it, so a following [fr_state_find_data] on the same packet returns NULL;
    the invariant is kept. *)
Theorem get_data_then_find_data w L packet :
  inv_with w L ->
  exists w', fr_state_get_data true packet w = Ok (found_data w packet, w') /\
    inv_with w' L /\ fr_state_find_data true packet w' = Ok (None, w').
Proof.
  intros Hi. rewrite (fr_state_get_data_run w L packet Hi). eexists. split; [done|].
  destruct (find_result w packet) as [p|] eqn:Ef.
  - pose proof (find_result_live w L packet p Hi Ef) as Hp.
    assert (Hi' : inv_with (upd_heap w (<[p := set_data (w_heap w !!! p) None]> (w_heap w))) L)
      by (by apply inv_with_payload).
    split; [done|]. rewrite (fr_state_find_data_run _ _ packet Hi').
    unfold found_data. change (find_result (upd_heap w _) packet) with (find_result w packet).
    rewrite Ef. cbn [w_heap upd_heap]. by rewrite lookup_total_insert_eq.
  - split; [done|]. rewrite (fr_state_find_data_run _ _ packet Hi).
    unfold found_data. by rewrite Ef.
Qed.

(** C15: when the previous entry holds no data, [fr_state_put_data] never
    returns true: either creation fails or it reads [old->data] after
    [state_entry_create] freed [old] (use after free, line 555). *)
Theorem fr_state_put_data_use_after_free w L now rnd orig packet d o :
  inv_with w L -> find_result w orig = Some o -> data (w_heap w !!! o) = None ->
  vps (w_heap w !!! o) = [] -> int_in_range (tries (w_heap w !!! o) + 1) = true ->
  attr_ok packet ->
  fr_state_put_data cfg now rnd true (Some orig) packet d w = Crash UseAfterFree \/
  exists packet' w', fr_state_put_data cfg now rnd true (Some orig) packet d w =
                     Ok ((false, packet'), w').
Proof.
  intros Hi Hf Hd Hv Hr Hattr. unfold fr_state_put_data. cbn [negb].
  se_step (find_original_run w (Some orig)). cbn [find_orig]. rewrite Hf.
  assert (Hold : old_ok w L (Some o)) by (split; [by eapply find_result_in|done]).
  destruct (state_entry_create_correct cfg w L now rnd packet (Some o) Hi Hold Hattr)
    as (res & w' & L' & Hrun & _ & _ & Hres).
  se_step Hrun. destruct res as [[q|] packet']; [|right; by eexists _, _].
  left. destruct Hres as (_ & _ & _ & Hfree & _).
  assert (Hl : load o w' = Crash UseAfterFree) by (unfold load; by rewrite Hfree).
  cbn beta iota. rewrite se_bind_assoc. by se_crash_step Hl.
Qed.
End DataClaims.

(** ** Discarding, fetching and saving attributes *)

Section VpsSpec.
Context `{RbTreeLaws T}.
Context (cfg : config).
Implicit Types (w : world T) (L : list ptr) (req : request).

(** Once an entry is freed, its State is no longer found. *)
Lemma find_result_after_free w w' L packet p :
  inv_with w L -> find_result w packet = Some p ->
  rb_abs (tree (w_state w')) = delete (st_of (w_heap w) p) (rb_abs (tree (w_state w))) ->
  find_result w' packet = None.
Proof.
  intros Hi Hf Habs. apply (find_result_spec w L packet p Hi) in Hf as (_ & vp & Hv & Hl & Hs).
  unfold find_result. rewrite Hv, bool_decide_eq_true_2 by done.
  by rewrite rb_find_abs, Habs, Hs, lookup_delete_eq.
Qed.

Lemma fr_state_discard_run w L req original :
  inv_with w L ->
  exists w' L', fr_state_discard req original w = Ok (mk_request (request_packet req) [], w') /\
    inv_with w' L' /\ find_result w' original = None /\
    (forall q, q ∈ L' <-> q ∈ L /\ find_result w original <> Some q) /\
    content_sub (w_heap w) (w_heap w').
Proof.
  intros Hi. unfold fr_state_discard. se_step (state_entry_find_run w original).
  destruct (find_result w original) as [p|] eqn:Ef.
  - pose proof (find_result_in w L original p Hi Ef) as Hp.
    apply list_elem_of_split in Hp as (L1 & L2 & ->).
    destruct (state_entry_free_correct w L1 p L2 Hi)
      as (w' & Hrun & Hi' & Hfree & Hsub & _ & Habs & _).
    exists w', (L1 ++ L2). se_step Hrun. split; [done|]. split; [done|].
    split; [exact (find_result_after_free w w' _ original p Hi Ef Habs)|]. split; [|done].
    pose proof Hi as (_ & Hnd & _). apply NoDup_app in Hnd as (_ & Hdis & Hnd2).
    apply NoDup_cons in Hnd2 as [Hp2 _]. intros q. rewrite !elem_of_app, elem_of_cons.
    split; [|naive_solver]. intros Hq. split; [naive_solver|].
    intros [= <-]. destruct Hq as [Hq|Hq]; [by apply (Hdis p); set_solver|done].
  - exists w, L. split; [done|]. split; [done|]. split; [done|].
    split; [naive_solver|]. intros q Hq. done.
Qed.

Lemma fr_state_get_vps_run w L req packet :
  inv_with w L -> request_state req = [] ->
  fr_state_get_vps req packet w =
    match find_state (packet_vps (request_packet req)), find_result w packet with
    | Some _, Some p =>
        Ok (mk_request (request_packet req) (vps (w_heap w !!! p)),
            upd_heap w (<[p := set_vps (w_heap w !!! p) []]> (w_heap w)))
    | _, _ => Ok (req, w)
    end.
Proof.
  intros Hi Hr. unfold fr_state_get_vps. rewrite bool_decide_eq_true_2 by done.
  cbn [rad_assert]. rewrite se_bind_ret. destruct (find_state (packet_vps (request_packet req))); [|done].
  se_step (state_entry_find_run w packet).
  destruct (find_result w packet) as [p|] eqn:Ef; [|done].
  destruct (find_result_live w L packet p Hi Ef) as [e He].
  se_step (load_ok _ _ _ He). rewrite (lookup_total_correct _ _ _ He), Hr.
  cbn [pairfilter_all app]. se_step (store_ok w p (set_vps e []) ltac:(by eexists)). done.
Qed.

(** A reply carrying the 16-octet State [s] of a live entry [q] leads
    back to [q]. *)
Lemma find_result_state w L q echo vp :
  inv_with w L -> q ∈ L -> find_state (packet_vps echo) = Some vp ->
  vp_octets vp = st_of (w_heap w) q -> find_result w echo = Some q.
Proof.
  intros Hi Hq Hv Ho. pose proof Hi as (_ & _ & _ & _ & _ & Htok & _).
  rewrite Forall_forall in Htok. destruct (Htok q Hq) as [Hl _].
  apply (find_result_spec w L echo q Hi). split; [done|]. exists vp.
  unfold vp_length. by rewrite Ho.
Qed.

(** The State attribute on the reply [fr_state_put_vps] returns holds the
    State of the entry it created. *)
Lemma reply_state (packet packet' : radius_packet) s b :
  (match find_state (packet_vps packet) with
   | None => True | Some v => vp_length v = AUTH_VECTOR_LEN end) ->
  (s, packet') = attr_state b packet ->
  exists vp, find_state (packet_vps packet') = Some vp /\ vp_octets vp = s.
Proof.
  unfold attr_state. destruct (find_state (packet_vps packet)) as [v|] eqn:Ev.
  - intros Hl [= -> ->]. exists v. split; [done|]. symmetry. apply take_ge.
    unfold vp_length in Hl. lia.
  - intros _ [= -> ->]. exists (pair_state b). split; [|done].
    by apply find_state_pairadd_state.
Qed.

(** C6: [fr_state_put_vps] followed by [fr_state_get_vps] on a request that
    echoes the State of the reply returns exactly the attributes that were
    cached, and both calls keep the invariant. *)
Theorem put_vps_get_vps_roundtrip w L now rnd req original packet :
  inv_with w L -> request_state req <> [] -> old_ok w L (find_orig w original) ->
  attr_ok packet ->
  (match find_state (packet_vps packet) with
   | None => True | Some v => vp_length v = AUTH_VECTOR_LEN end) ->
  exists b req1 packet' w1 L1,
    fr_state_put_vps cfg now rnd req original packet w = Ok ((b, req1, packet'), w1) /\
    inv_with w1 L1 /\
    (b = false -> req1 = req) /\
    (b = true -> request_state req1 = [] /\
      forall req2 echo, request_state req2 = [] ->
        find_state (packet_vps (request_packet req2)) <> None ->
        find_state (packet_vps echo) = find_state (packet_vps packet') ->
        exists w2, fr_state_get_vps req2 echo w1 =
                     Ok (mk_request (request_packet req2) (request_state req), w2) /\
                   inv_with w2 L1).
Proof.
  intros Hi Hne Hold Hattr H16. unfold fr_state_put_vps.
  rewrite bool_decide_eq_false_2 by done. se_step (find_original_run w original).
  destruct (state_entry_create_correct cfg w L now rnd packet _ Hi Hold Hattr)
    as (res & w' & L' & Hrun & Hi' & _ & Hres).
  se_step Hrun. destruct res as [[q|] packet'];
    [|by exists false, req, packet', w', L'].
  destruct Hres as (_ & _ & Hlast & _ & _ & _ & e & He & Hst & _ & _ & Hv & _).
  destruct (reply_state packet packet' (state e) _ H16 Hst) as (vp & Hvp & Hoct).
  cbn beta iota. se_step (load_ok _ _ _ He). cbn [pairfilter_all]. rewrite Hv. cbn [app].
  se_step (store_ok w' q (set_vps e (request_state req)) ltac:(by eexists)).
  rewrite bool_decide_eq_true_2 by done. cbn [rad_assert]. rewrite se_bind_ret.
  set (w1 := upd_heap w' _).
  assert (Hq : q ∈ L') by (destruct Hlast as (L0 & -> & _); set_solver).
  assert (Hi1 : inv_with w1 L')
    by (apply inv_with_payload; rewrite ?(lookup_total_correct _ _ _ He); done || by eexists).
  exists true, (mk_request (request_packet req) []), packet', w1, L'.
  do 3 (split; [done|]). intros _. split; [done|].
  intros req2 echo Hr2 Hs2 Hecho.
  assert (Hf : find_result w1 echo = Some q).
  { apply (find_result_state w1 L' q echo vp Hi1 Hq); [by rewrite Hecho|].
    unfold st_of, w1. cbn [w_heap upd_heap]. by rewrite lookup_total_insert_eq, Hoct. }
  rewrite (fr_state_get_vps_run w1 L' req2 echo Hi1 Hr2), Hf.
  destruct (find_state (packet_vps (request_packet req2))); [|done].
  eexists. split; [unfold w1; cbn [w_heap upd_heap]; by rewrite lookup_total_insert_eq|].
  apply inv_with_payload; [done|by apply (inv_in_heap w1 L' q Hi1)|..];
    unfold w1; cbn [w_heap upd_heap]; by rewrite lookup_total_insert_eq.
Qed.
End VpsSpec.

Section PutData.
Context `{RbTreeLaws T}.
Context (cfg : config).
Implicit Types (w : world T) (L : list ptr).

(** Lines 555-557: take the data away from the previous entry. *)
Lemma put_data_old_run w L o eo d :
  inv_with w L -> w_heap w !! o = Some eo ->
  exists w',
    (let* oe := load o in
     if bool_decide (data oe = d) then store o (set_data oe None) else se_ret tt) w =
      Ok (tt, w') /\
    inv_with w' L /\ w_state w' = w_state w /\
    (data eo = d -> data (w_heap w' !!! o) = None) /\
    (forall q, q <> o -> w_heap w' !! q = w_heap w !! q).
Proof.
  intros Hi He. se_step (load_ok _ _ _ He). case_bool_decide as Hd.
  - eexists. split; [apply store_ok; by eexists|].
    split; [apply inv_with_payload; rewrite ?(lookup_total_correct _ _ _ He); done || by eexists|].
    split; [done|]. split; [intros _; simpl; by rewrite lookup_total_insert_eq|].
    intros q Hq. simpl. by rewrite lookup_insert_ne.
  - exists w. do 3 (split; [done|]). split; [intros Hc; by destruct Hd|done].
Qed.

(** Line 559: store the data in the new entry. *)
Lemma put_data_new_run w L q e d (packet : radius_packet) :
  inv_with w L -> w_heap w !! q = Some e ->
  (let* e := load q in store q (set_data e d) ;; se_ret (true, packet)) w =
    Ok ((true, packet), upd_heap w (<[q := set_data e d]> (w_heap w))) /\
  inv_with (upd_heap w (<[q := set_data e d]> (w_heap w))) L.
Proof.
  intros Hi He. se_step (load_ok _ _ _ He).
  se_step (store_ok w q (set_data e d) ltac:(by eexists)). split; [done|].
  apply inv_with_payload; rewrite ?(lookup_total_correct _ _ _ He); done || by eexists.
Qed.

(** The new entry after line 559 leads back to its data. *)
Lemma get_data_new w L q e d echo vp :
  inv_with w L -> q ∈ L -> w_heap w !! q = Some e ->
  find_state (packet_vps echo) = Some vp -> vp_octets vp = state e ->
  exists w2, fr_state_get_data true echo (upd_heap w (<[q := set_data e d]> (w_heap w))) =
             Ok (d, w2) /\ inv_with w2 L.
Proof.
  intros Hi Hq He Hv Ho. destruct (put_data_new_run w L q e d echo Hi He) as [_ Hi1].
  assert (Hf : find_result (upd_heap w (<[q := set_data e d]> (w_heap w))) echo = Some q).
  { apply (find_result_state _ L q echo vp Hi1 Hq Hv).
    unfold st_of. simpl. by rewrite lookup_total_insert_eq. }
  destruct (fr_state_get_data_inv _ _ echo Hi1) as (w2 & Hrun & Hi2).
  exists w2. split; [|done]. rewrite Hrun. unfold found_data. rewrite Hf.
  simpl. by rewrite lookup_total_insert_eq.
Qed.

(** C7: [fr_state_put_data] followed by [fr_state_get_data] on a packet that
    echoes the State of the reply returns the stored data; the data moves away
    from the previous entry that held it. *)
Theorem put_data_get_data_roundtrip w L now rnd original packet d :
  inv_with w L -> old_ok w L (find_orig w original) -> attr_ok packet ->
  (match find_state (packet_vps packet) with
   | None => True | Some v => vp_length v = AUTH_VECTOR_LEN end) ->
  (forall o, find_orig w original = Some o -> data (w_heap w !!! o) <> None) ->
  exists b packet' w1 L1,
    fr_state_put_data cfg now rnd true original packet d w = Ok ((b, packet'), w1) /\
    inv_with w1 L1 /\
    (b = true ->
      (forall o, find_orig w original = Some o -> data (w_heap w !!! o) = d ->
                 data (w_heap w1 !!! o) = None) /\
      forall echo, find_state (packet_vps echo) = find_state (packet_vps packet') ->
        exists w2, fr_state_get_data true echo w1 = Ok (d, w2) /\ inv_with w2 L1).
Proof.
  intros Hi Hold Hattr H16 Hdata. unfold fr_state_put_data. cbn [negb].
  se_step (find_original_run w original).
  destruct (state_entry_create_correct cfg w L now rnd packet _ Hi Hold Hattr)
    as (res & w' & L' & Hrun & Hi' & _ & Hres).
  se_step Hrun. destruct res as [[q|] packet']; [|by exists false, packet', w', L'].
  destruct Hres as (-> & Hqn & Hlast & _ & Hkp & _ & e & He & Hst & _).
  destruct (reply_state packet packet' (state e) _ H16 Hst) as (vp & Hvp & Hoct).
  assert (Hq : w_next w ∈ L') by (destruct Hlast as (L0 & -> & _); set_solver).
  cbn beta iota. destruct (find_orig w original) as [o|] eqn:Eo.
  - destruct (Hkp o eq_refl (Hdata o eq_refl)) as [Ho Hco].
    destruct (proj1 (inv_in_heap w' L' o Hi') Ho) as [eo Heo].
    assert (Hqo : w_next w <> o) by (intros Heq; apply Hqn; rewrite Heq; by destruct Hold).
    destruct (put_data_old_run w' L' o eo d Hi' Heo) as (w'' & Hr'' & Hi'' & _ & Hdo & Hfr).
    se_step Hr''.
    assert (He'' : w_heap w'' !! w_next w = Some e) by (rewrite Hfr; done).
    destruct (put_data_new_run w'' L' _ e d packet' Hi'' He'') as [Hr1 Hi1].
    rewrite Hr1. do 4 eexists. split; [done|]. split; [done|]. intros _. split.
    + intros o' [= <-] Hd. simpl. rewrite lookup_total_insert_ne by done. apply Hdo.
      rewrite (lookup_total_correct _ _ _ Heo) in Hco.
      unfold entry_content in Hco. injection Hco. congruence.
    + intros echo Hecho. apply (get_data_new w'' L' _ e d echo vp Hi'' Hq He'');
        [by rewrite Hecho|done].
  - rewrite se_bind_ret. destruct (put_data_new_run w' L' _ e d packet' Hi' He) as [Hr1 Hi1].
    rewrite Hr1. do 4 eexists. split; [done|]. split; [done|]. intros _.
    split; [done|]. intros echo Hecho.
    apply (get_data_new w' L' _ e d echo vp Hi' Hq He); [by rewrite Hecho|done].
Qed.
End PutData.

(** ** Every call that returns keeps the invariant *)

Section Preserve.
Context `{RbTreeLaws T}.
Context (cfg : config).
Implicit Types (w : world T) (L : list ptr).

Lemma load_Ok_inv w p e w' : load p w = Ok (e, w') -> w' = w /\ w_heap w !! p = Some e.
Proof. unfold load. destruct (w_heap w !! p); [by intros [= -> ->]|done]. Qed.

Lemma store_Ok_inv w p e u w' :
  store p e w = Ok (u, w') -> w' = upd_heap w (<[p := e]> (w_heap w)) /\ is_Some (w_heap w !! p).
Proof. unfold store. destruct (w_heap w !! p); [intros [= _ <-]; by split; [|eexists]|done]. Qed.

(** Load an entry, rewrite its payload, store it back. *)
Lemma load_store_payload_inv w L p (f : state_entry_t -> state_entry_t) w1 e w' u :
  inv_with w L -> load p w = Ok (e, w1) -> store p (f e) w1 = Ok (u, w') ->
  state (f e) = state e -> prev (f e) = prev e -> next (f e) = next e ->
  inv_with w' L.
Proof.
  intros Hi Hl Hs Hst Hp Hn. apply load_Ok_inv in Hl as [-> He].
  apply store_Ok_inv in Hs as [-> _].
  apply inv_with_payload; rewrite ?(lookup_total_correct _ _ _ He); done || by eexists.
Qed.

Lemma rad_assert_Ok_inv {S} b (s s' : S) u : rad_assert b s = Ok (u, s') -> b = true /\ s' = s.
Proof. unfold rad_assert. destruct b; [by intros [= _ <-]|done]. Qed.
End Preserve.

Section PreserveApi.
Context `{RbTreeLaws T}.
Context (cfg : config).
Implicit Types (w : world T) (L : list ptr).

Lemma fr_state_get_vps_inv w L req packet r w' :
  inv_with w L -> fr_state_get_vps req packet w = Ok (r, w') -> inv_with w' L.
Proof.
  intros Hi Hr. unfold fr_state_get_vps in Hr.
  se_inv Hr as (u & w1 & Ha & Hr). apply rad_assert_Ok_inv in Ha as [_ ->].
  destruct (find_state (packet_vps (request_packet req))); [|by injection Hr as _ <-].
  se_inv Hr as (f & w2 & Hf & Hr). rewrite state_entry_find_run in Hf.
  injection Hf as <- <-. destruct (find_result w packet) as [p|]; [|by injection Hr as _ <-].
  se_inv Hr as (e & w3 & Hl & Hr). cbn [pairfilter_all] in Hr.
  se_inv Hr as (u' & w4 & Hs & Hr). injection Hr as _ <-.
  by eapply (load_store_payload_inv w L p (fun e => set_vps e _)).
Qed.

Lemma find_orig_in w L original o : inv_with w L -> find_orig w original = Some o -> o ∈ L.
Proof. destruct original; [apply find_result_in|done]. Qed.

Lemma fr_state_put_vps_inv w L now rnd req original packet r w' :
  inv_with w L -> vp_bytes packet ->
  fr_state_put_vps cfg now rnd req original packet w = Ok (r, w') -> inv w'.
Proof.
  intros Hi Hb Hr. unfold fr_state_put_vps in Hr.
  case_bool_decide; [injection Hr as _ <-; by exists L|].
  se_inv Hr as (old & w1 & Ho & Hr). rewrite find_original_run in Ho. injection Ho as <- <-.
  se_inv Hr as ([ent pk] & w2 & Hc & Hr).
  destruct (state_entry_create_total cfg w L now rnd packet (find_orig w original) Hi
              (fun o => find_orig_in w L original o Hi) Hb)
    as [[c Hc']|(res & w3 & L' & Hc' & Hi')]; rewrite Hc' in Hc; [done|].
  injection Hc as -> ->. destruct ent as [p|]; [|injection Hr as _ <-; by exists L'].
  se_inv Hr as (e & w4 & Hl & Hr). cbn [pairfilter_all] in Hr.
  se_inv Hr as (u & w5 & Hs & Hr). se_inv Hr as (u' & w6 & Ha & Hr).
  apply rad_assert_Ok_inv in Ha as [_ ->]. injection Hr as _ <-.
  exists L'. by eapply (load_store_payload_inv w2 L' p (fun e => set_vps e _)).
Qed.

Lemma fr_state_put_data_inv w L now rnd has_state original packet d r w' :
  inv_with w L -> vp_bytes packet ->
  fr_state_put_data cfg now rnd has_state original packet d w = Ok (r, w') -> inv w'.
Proof.
  intros Hi Hb Hr. unfold fr_state_put_data in Hr.
  destruct has_state; cbn [negb] in Hr; [|injection Hr as _ <-; by exists L].
  se_inv Hr as (old & w1 & Ho & Hr). rewrite find_original_run in Ho. injection Ho as <- <-.
  se_inv Hr as ([ent pk] & w2 & Hc & Hr).
  destruct (state_entry_create_total cfg w L now rnd packet (find_orig w original) Hi
              (fun o => find_orig_in w L original o Hi) Hb)
    as [[c Hc']|(res & w3 & L' & Hc' & Hi')]; rewrite Hc' in Hc; [done|].
  injection Hc as -> ->. destruct ent as [p|]; [|injection Hr as _ <-; by exists L'].
  exists L'. se_inv Hr as (u & w4 & Hold & Hr).
  assert (Hi4 : inv_with w4 L').
  { destruct (find_orig w original) as [o|]; [|by injection Hold as _ <-].
    se_inv Hold as (eo & w5 & Hl & Hold).
    case_bool_decide; [|apply load_Ok_inv in Hl as [-> _]; by injection Hold as _ <-].
    by eapply (load_store_payload_inv w2 L' o (fun e => set_data e None)). }
  se_inv Hr as (e & w5 & Hl & Hr). se_inv Hr as (u' & w6 & Hs & Hr). injection Hr as _ <-.
  by eapply (load_store_payload_inv w4 L' p (fun e => set_data e d)).
Qed.

Lemma fr_state_discard_inv w L req original r w' :
  inv_with w L -> fr_state_discard req original w = Ok (r, w') -> inv w'.
Proof.
  intros Hi Hr. destruct (fr_state_discard_run w L req original Hi) as (w'' & L' & Hr' & Hi' & _).
  rewrite Hr' in Hr. injection Hr as _ <-. by exists L'.
Qed.

Lemma fr_state_find_data_inv w L has_state packet r w' :
  inv_with w L -> fr_state_find_data has_state packet w = Ok (r, w') -> w' = w.
Proof.
  intros Hi Hr. destruct has_state; [|by injection Hr].
  rewrite (fr_state_find_data_run w L packet Hi) in Hr. by injection Hr.
Qed.

Lemma fr_state_get_data_inv' w L has_state packet r w' :
  inv_with w L -> fr_state_get_data has_state packet w = Ok (r, w') -> inv_with w' L.
Proof.
  intros Hi Hr. destruct has_state; [|by injection Hr as _ <-].
  destruct (fr_state_get_data_inv w L packet Hi) as (w'' & Hr' & Hi').
  rewrite Hr' in Hr. by injection Hr as _ <-.
Qed.
End PreserveApi.

(** ** The store as a state machine *)

(** A new [fr_state_t]: an empty tree and list and no entry allocated. *)
Definition fresh_state `{RbTree T} (max_sessions : Z) : world T :=
  mk_world (mk_fr_state max_sessions rb_empty None None) ∅ 1%positive [].

(** [fr_state_init] (lines 129-162): with no [ctx], the existing
    [global_state] if there is one, otherwise a new store limited to
    [main_config.max_requests * 2] sessions that becomes [global_state];
    with a [ctx], a new store limited to [max_sessions].  Returns the
    store and the new [global_state]. *)
Definition fr_state_init `{RbTree T} (global_state : option (world T)) (has_ctx : bool)
    (max_requests max_sessions : Z) : world T * option (world T) :=
  if has_ctx then (fresh_state max_sessions, global_state) else
  match global_state with
  | Some g => (g, global_state)
  | None => let st := fresh_state (max_requests * 2)%Z in (st, Some st)
  end.

(** The outcomes of the allocations of [fr_state_init]: [talloc_zero]
    (lines 136, 141), [pthread_mutex_init] (149) and [rbtree_create]
    (155). *)
Record init_env := mk_init_env { talloc_ok : bool; mutex_ok : bool; tree_ok : bool }.

(** A [fr_state_t *]: NULL, a live store, or a store already freed. *)
Inductive gptr (T : Type) := GNull | GLive (w : world T) | GFreed.
Arguments GNull {T}. Arguments GLive {T}. Arguments GFreed {T}.

(** [fr_state_init] (lines 129-162) with its failures: returns the
    store (or NULL) and the new [global_state].  Without a context,
    [global_state] is set by the allocation of line 136, before the
    mutex and the tree are made; when either fails the store is freed
    (lines 150, 157) but [global_state] still points to it. *)
Definition fr_state_init_alloc `{RbTree T} (global_state : gptr T) (has_ctx : bool)
    (max_requests max_sessions : Z) (env : init_env) : gptr T * gptr T :=
  match has_ctx, global_state with
  | false, GLive _ | false, GFreed => (global_state, global_state)
  | _, _ =>
      let st := fresh_state (if has_ctx then max_sessions else (max_requests * 2)%Z) in
      let global := if has_ctx then global_state else if talloc_ok env then GLive st else GNull in
      if negb (talloc_ok env) then (GNull, global)
      else if negb (mutex_ok env) || negb (tree_ok env) then
        (GNull, if has_ctx then global else GFreed)
      else (GLive st, global)
  end.

(** One call of the API that returns, under the mutex.  The put
    functions receive replies whose State attribute holds octets. *)
Inductive api_step `{RbTree T} (cfg : config) : world T -> world T -> Prop :=
| step_discard w w' req original r :
    fr_state_discard req original w = Ok (r, w') -> api_step cfg w w'
| step_get_vps w w' req packet r :
    fr_state_get_vps req packet w = Ok (r, w') -> api_step cfg w w'
| step_put_vps w w' now rnd req original packet r :
    vp_bytes packet ->
    fr_state_put_vps cfg now rnd req original packet w = Ok (r, w') -> api_step cfg w w'
| step_find_data w w' has_state packet r :
    fr_state_find_data has_state packet w = Ok (r, w') -> api_step cfg w w'
| step_get_data w w' has_state packet r :
    fr_state_get_data has_state packet w = Ok (r, w') -> api_step cfg w w'
| step_put_data w w' now rnd has_state original packet d r :
    vp_bytes packet ->
    fr_state_put_data cfg now rnd has_state original packet d w = Ok (r, w') -> api_step cfg w w'.

Section Machine.
Context `{RbTreeLaws T}.
Context (cfg : config).
Implicit Types (w : world T).

Lemma fresh_state_inv ms : inv_with (fresh_state ms) [].
Proof.
  unfold inv_with, fresh_state; simpl. rewrite rb_abs_empty.
  repeat split; try done; [constructor|constructor|].
  pose proof (u32_range ms). lia.
Qed.

Lemma fr_state_init_inv has_ctx max_requests max_sessions :
  inv (fst (fr_state_init None has_ctx max_requests max_sessions)).
Proof. eexists. destruct has_ctx; apply fresh_state_inv. Qed.

Lemma api_step_inv w w' : inv w -> api_step cfg w w' -> inv w'.
Proof.
  intros [L Hi] Hs. destruct Hs.
  - by eapply fr_state_discard_inv.
  - exists L. by eapply fr_state_get_vps_inv.
  - by eapply fr_state_put_vps_inv.
  - exists L. by rewrite (fr_state_find_data_inv w L has_state packet r w').
  - exists L. by eapply fr_state_get_data_inv'.
  - by eapply fr_state_put_data_inv.
Qed.

Lemma api_steps_inv w w' : inv w -> rtc (api_step cfg) w w' -> inv w'.
Proof.
  intros Hi Hr. revert Hi. induction Hr as [|w1 w2 w3 Hs _ IH]; [done|].
  intros Hi. by apply IH, (api_step_inv w1).
Qed.

Lemma reachable_inv_with has_ctx max_requests max_sessions w :
  rtc (api_step cfg) (fst (fr_state_init None has_ctx max_requests max_sessions)) w ->
  exists L, inv_with w L.
Proof. apply api_steps_inv, fr_state_init_inv. Qed.

(** C1: the store stays well formed: in every state reachable from a new
    [fr_state_t] by calls of the API that return, the list, the tree and the
    live entries agree ([inv]). *)
Theorem reachable_inv has_ctx max_requests max_sessions w :
  rtc (api_step cfg) (fst (fr_state_init None has_ctx max_requests max_sessions)) w -> inv w.
Proof. apply reachable_inv_with. Qed.

(** in every reachable state the number of live entries is at most
    [(uint32_t) max_sessions] and equals [rbtree_num_elements]. *)
Theorem reachable_bounded has_ctx mr ms w :
  rtc (api_step cfg) (fst (fr_state_init None has_ctx mr ms)) w ->
  (Z.of_nat (size (w_heap w)) <= u32 (max_sessions (w_state w)))%Z /\
  size (w_heap w) = rb_num (tree (w_state w)).
Proof.
  intros Hr. destruct (reachable_inv_with _ _ _ w Hr) as [L Hi].
  rewrite (inv_size w L Hi), (inv_rb_num w L Hi). split; [|done].
  by destruct Hi as (_ & _ & _ & _ & _ & _ & _ & Hlen).
Qed.
End Machine.

Section Init.
Context `{RbTreeLaws T}.
Implicit Types (w : world T).

(** When every allocation succeeds, [fr_state_init_alloc] is the
    [fr_state_init] the rest of the development starts from. *)
Lemma fr_state_init_alloc_ok (g : option (world T)) has_ctx mr ms :
  fr_state_init_alloc (match g with Some w => GLive w | None => GNull end) has_ctx mr ms
    (mk_init_env true true true) =
  (GLive (fst (fr_state_init g has_ctx mr ms)),
   match snd (fr_state_init g has_ctx mr ms) with Some w => GLive w | None => GNull end).
Proof. by destruct has_ctx, g. Qed.

(** C18: when [pthread_mutex_init] or [rbtree_create] fails in the first
    [fr_state_init] without a context, the store is freed but [global_state]
    keeps pointing to it, so every later [fr_state_init(NULL)] returns the
    freed store (lines 136, 149-158). *)
Theorem fr_state_init_dangling_global mr ms env :
  talloc_ok env = true -> mutex_ok env = false \/ tree_ok env = false ->
  fr_state_init_alloc (T := T) GNull false mr ms env = (GNull, GFreed) /\
  forall env', fr_state_init_alloc (T := T) GFreed false mr ms env' = (GFreed, GFreed).
Proof.
  intros Ht Hf. split; [|done]. simpl. rewrite Ht. simpl.
  by destruct Hf as [-> | ->]; [|rewrite orb_true_r].
Qed.

End Init.

Section ApiClaims.
Context `{RbTreeLaws T}.
Context (cfg : config).
Implicit Types (w : world T) (L : list ptr).

(** C23: a new session without a previous entry and without a State from an
    earlier stage gets a fresh State of [fr_rand] words, which
    [state_entry_create] attaches to the reply; a later packet carrying that
    State attribute finds the new entry (E2E A). *)
Theorem create_then_find w L now rnd packet :
  inv_with w L -> find_state (packet_vps packet) = None ->
  exists res w' L', state_entry_create cfg now rnd packet None w = Ok (res, w') /\
    inv_with w' L' /\
    match res with
    | (None, _) => True
    | (Some q, packet') =>
        exists vp, find_state (packet_vps packet') = Some vp /\
          vp_octets vp = state_fresh rnd (state_seed cfg) /\
          forall echo, find_state (packet_vps echo) = Some vp ->
            state_entry_find echo w' = Ok (Some q, w')
    end.
Proof.
  intros Hi Hn. assert (Ha : attr_ok packet) by (unfold attr_ok; by rewrite Hn).
  destruct (state_entry_create_correct cfg w L now rnd packet None Hi I Ha)
    as (res & w' & L' & Hrun & Hi' & _ & Hres).
  exists res, w', L'. do 2 (split; [done|]).
  destruct res as [[q|] packet']; [|done].
  destruct Hres as (_ & _ & (L0 & -> & _) & _ & _ & _ & e & He & Hst & _).
  destruct (reply_state packet packet' (state e) _ ltac:(by rewrite Hn) Hst) as (vp & Hvp & Hoct).
  exists vp. split; [done|]. split.
  { rewrite Hoct. unfold attr_state in Hst. rewrite Hn in Hst. by injection Hst as -> _. }
  intros echo Hecho. rewrite state_entry_find_run. do 2 f_equal.
  apply (find_result_state w' _ q echo vp Hi'); [set_solver|done|].
  unfold st_of. by rewrite (lookup_total_correct _ _ _ He).
Qed.

(** C22: [state_entry_find] changes nothing and returns exactly the live entry
    whose State equals the 16 octets of the packet's State attribute, NULL
    when there is none or when the attribute is not 16 octets long. *)
Theorem state_entry_find_spec w L packet :
  inv_with w L ->
  exists r, state_entry_find packet w = Ok (r, w) /\
    forall p, r = Some p <->
      p ∈ L /\ exists vp, find_state (packet_vps packet) = Some vp /\
                         vp_length vp = AUTH_VECTOR_LEN /\ state (w_heap w !!! p) = vp_octets vp.
Proof.
  intros Hi. exists (find_result w packet). split; [apply state_entry_find_run|].
  intros p. apply (find_result_spec w L packet p Hi).
Qed.

(** C21: after [fr_state_discard] the request has no cached attributes and the
    State of [original] no longer finds an entry, so no data can be fetched
    for it. *)
Theorem discard_forgets w L req original :
  inv_with w L ->
  exists w', fr_state_discard req original w = Ok (mk_request (request_packet req) [], w') /\
    inv w' /\ state_entry_find original w' = Ok (None, w') /\
    fr_state_get_data true original w' = Ok (None, w').
Proof.
  intros Hi. destruct (fr_state_discard_run w L req original Hi)
    as (w' & L' & Hr & Hi' & Hf & _).
  exists w'. split; [done|]. split; [by exists L'|].
  rewrite state_entry_find_run, Hf. split; [done|].
  rewrite (fr_state_get_data_run w' L' original Hi'). unfold found_data. by rewrite Hf.
Qed.

(** [fr_state_put_vps] with nothing to cache returns true and changes
    nothing, even when [original] names an entry, which the comment of lines
    431-435 says is deleted. *)
Theorem put_vps_empty_noop w now rnd req original packet :
  request_state req = [] ->
  fr_state_put_vps cfg now rnd req original packet w = Ok ((true, req, packet), w).
Proof. intros Hr. unfold fr_state_put_vps. by rewrite bool_decide_eq_true_2. Qed.

(** [fr_state_find_data] changes nothing and returns the data of the
    entry found, so repeating it returns the same data (P5). *)
Theorem find_data_no_effect w L packet :
  inv_with w L ->
  exists d, fr_state_find_data true packet w = Ok (d, w) /\
    d = match find_result w packet with Some p => data (w_heap w !!! p) | None => None end.
Proof.
  intros Hi. exists (found_data w packet). split; [|done].
  apply (fr_state_find_data_run w L packet Hi).
Qed.

(** [fr_state_get_vps] hands the entry's attributes to the request and
    leaves the entry, still found by the same State, with none (E2E B). *)
Theorem get_vps_moves w L req packet p :
  inv_with w L -> request_state req = [] -> find_state (packet_vps (request_packet req)) <> None ->
  find_result w packet = Some p ->
  exists w', fr_state_get_vps req packet w =
               Ok (mk_request (request_packet req) (vps (w_heap w !!! p)), w') /\
    inv_with w' L /\ find_result w' packet = Some p /\ vps (w_heap w' !!! p) = [].
Proof.
  intros Hi Hr Hs Hf. rewrite (fr_state_get_vps_run w L req packet Hi Hr), Hf.
  destruct (find_state (packet_vps (request_packet req))); [|done].
  eexists. split; [done|]. split.
  - apply inv_with_payload; [done|by eapply find_result_live|done..].
  - split; [done|]. simpl. by rewrite lookup_total_insert_eq.
Qed.
End ApiClaims.

(** ** Examples and witnesses *)

Definition ok_world {S A} (r : result (A * S)) (d : S) : S :=
  match r with Ok (_, s) => s | Crash _ => d end.

(** A fresh store with room for four sessions. *)
Definition ex_init : world (gmap (list Z) ptr) := fst (fr_state_init None true 0 4).

(** A request with one attribute to cache, answered by an empty reply. *)
Definition ex_req : request := mk_request (mk_packet []) [mk_vp 1 0 0 [42]%Z].

(** The store after [fr_state_put_vps] cached [ex_req]. *)
Definition ex_session : world (gmap (list Z) ptr) :=
  Eval vm_compute in
    ok_world (fr_state_put_vps ex_cfg 50 ex_rnd ex_req None (mk_packet []) ex_init) ex_init.

(** A reply carrying the State of the first, resp. second, entry of
    [ex_world]. *)
Definition ex_echo1 : radius_packet := mk_packet [pair_state ex_s1].
Definition ex_echo2 : radius_packet := mk_packet [pair_state ex_s2].

Lemma ex_session_step : api_step ex_cfg ex_init ex_session.
Proof.
  apply (step_put_vps ex_cfg ex_init ex_session 50 ex_rnd ex_req None (mk_packet [])
           (true, mk_request (mk_packet []) [],
            mk_packet [pair_state (state (w_heap ex_session !!! 1%positive))]));
    [exact I|vm_compute; reflexivity].
Qed.

Lemma reachable_inv_witness :
  rtc (api_step ex_cfg) (fst (fr_state_init None true 0 4)) ex_session /\ inv ex_session.
Proof.
  assert (Hr : rtc (api_step ex_cfg) (fst (fr_state_init None true 0 4)) ex_session)
    by (apply rtc_once, ex_session_step).
  split; [exact Hr|]. exact (reachable_inv ex_cfg true 0 4 ex_session Hr).
Defined.

Lemma reachable_bounded_witness :
  rtc (api_step ex_cfg) (fst (fr_state_init None true 0 4)) ex_session /\
  size (w_heap ex_session) = rb_num (tree (w_state ex_session)).
Proof.
  assert (Hr : rtc (api_step ex_cfg) (fst (fr_state_init None true 0 4)) ex_session)
    by (apply rtc_once, ex_session_step).
  split; [exact Hr|]. exact (proj2 (reachable_bounded ex_cfg true 0 4 ex_session Hr)).
Defined.

Lemma put_vps_get_vps_roundtrip_witness :
  inv_with ex_init [] /\ request_state ex_req <> [] /\
  exists b req1 packet' w1 L1,
    fr_state_put_vps ex_cfg 50 ex_rnd ex_req None (mk_packet []) ex_init =
      Ok ((b, req1, packet'), w1) /\ inv_with w1 L1.
Proof.
  split; [decide_vm|]. split; [discriminate|].
  destruct (put_vps_get_vps_roundtrip ex_cfg ex_init [] 50 ex_rnd ex_req None (mk_packet [])
              ltac:(decide_vm) ltac:(discriminate) I I I)
    as (b & req1 & packet' & w1 & L1 & Hrun & Hi & _).
  exists b, req1, packet', w1, L1. split; assumption.
Defined.

Lemma put_data_get_data_roundtrip_witness :
  inv_with ex_world [1%positive; 2%positive] /\
  find_orig ex_world (Some ex_echo2) = Some 2%positive /\
  exists b packet' w1 L1,
    fr_state_put_data ex_cfg 50 ex_rnd true (Some ex_echo2) (mk_packet []) (Some 7%positive)
      ex_world = Ok ((b, packet'), w1) /\ inv_with w1 L1.
Proof.
  split; [decide_vm|]. split; [vm_compute; reflexivity|].
  destruct (put_data_get_data_roundtrip ex_cfg ex_world [1%positive; 2%positive] 50 ex_rnd
              (Some ex_echo2) (mk_packet []) (Some 7%positive) ltac:(decide_vm)
              ltac:(decide_vm) I I)
    as (b & packet' & w1 & L1 & Hrun & Hi & _).
  { intros o Ho. vm_compute in Ho. injection Ho as <-. vm_compute. discriminate. }
  exists b, packet', w1, L1. split; assumption.
Defined.

Lemma get_data_then_find_data_witness :
  inv_with ex_world [1%positive; 2%positive] /\
  exists w', fr_state_get_data true ex_echo2 ex_world = Ok (Some 7%positive, w') /\
             fr_state_find_data true ex_echo2 w' = Ok (None, w').
Proof.
  split; [decide_vm|].
  destruct (get_data_then_find_data ex_world [1%positive; 2%positive] ex_echo2 ltac:(decide_vm))
    as (w' & Hget & _ & Hfind).
  exists w'. split; [exact Hget|exact Hfind].
Defined.

Lemma discard_forgets_witness :
  inv_with ex_world [1%positive; 2%positive] /\
  exists w', fr_state_discard ex_req ex_echo2 ex_world = Ok (mk_request (mk_packet []) [], w') /\
             state_entry_find ex_echo2 w' = Ok (None, w').
Proof.
  split; [decide_vm|].
  destruct (discard_forgets ex_world [1%positive; 2%positive] ex_req ex_echo2 ltac:(decide_vm))
    as (w' & Hrun & _ & Hfind & _).
  exists w'. split; assumption.
Defined.

Lemma state_entry_find_spec_witness :
  inv_with ex_world [1%positive; 2%positive] /\
  exists r, state_entry_find ex_echo1 ex_world = Ok (r, ex_world).
Proof.
  split; [decide_vm|].
  destruct (state_entry_find_spec ex_world [1%positive; 2%positive] ex_echo1 ltac:(decide_vm))
    as (r & Hr & _).
  by exists r.
Defined.

Lemma fr_state_put_data_use_after_free_witness :
  inv_with ex_world [1%positive; 2%positive] /\
  find_result ex_world ex_echo1 = Some 1%positive /\
  (fr_state_put_data ex_cfg 50 ex_rnd true (Some ex_echo1) (mk_packet []) (Some 9%positive)
     ex_world = Crash UseAfterFree \/
   exists packet' w', fr_state_put_data ex_cfg 50 ex_rnd true (Some ex_echo1) (mk_packet [])
                        (Some 9%positive) ex_world = Ok ((false, packet'), w')).
Proof.
  split; [decide_vm|]. split; [vm_compute; reflexivity|].
  apply (fr_state_put_data_use_after_free ex_cfg ex_world [1%positive; 2%positive] 50 ex_rnd
           ex_echo1 (mk_packet []) (Some 9%positive) 1%positive);
    [decide_vm|vm_compute; reflexivity..|exact I].
Defined.

(** the use after free of [fr_state_put_data] is reached: on a concrete
    store, continuing a session whose entry holds no data crashes. *)
Example put_data_crash_example :
  fr_state_put_data ex_cfg 50 ex_rnd true (Some ex_echo1) (mk_packet []) (Some 9%positive)
    ex_world = Crash UseAfterFree.
Proof. vm_compute. reflexivity. Qed.

Lemma put_vps_empty_noop_witness :
  request_state (mk_request ex_echo1 []) = [] /\
  fr_state_put_vps ex_cfg 50 ex_rnd (mk_request ex_echo1 []) (Some ex_echo1) (mk_packet [])
    ex_world = Ok ((true, mk_request ex_echo1 [], mk_packet []), ex_world).
Proof. split; [reflexivity|]. by apply put_vps_empty_noop. Defined.

Lemma find_data_no_effect_witness :
  inv_with ex_world [1%positive; 2%positive] /\
  exists d, fr_state_find_data true ex_echo2 ex_world = Ok (d, ex_world).
Proof.
  split; [decide_vm|].
  destruct (find_data_no_effect ex_world [1%positive; 2%positive] ex_echo2 ltac:(decide_vm))
    as (d & Hd & _).
  exists d. exact Hd.
Defined.

(** A request whose packet carries the State of the second entry. *)
Definition ex_req2 : request := mk_request ex_echo2 [].

Lemma get_vps_moves_witness :
  inv_with ex_world [1%positive; 2%positive] /\ find_result ex_world ex_echo2 = Some 2%positive /\
  exists w', fr_state_get_vps ex_req2 ex_echo2 ex_world = Ok (mk_request ex_echo2 [], w').
Proof.
  split; [decide_vm|]. split; [vm_compute; reflexivity|].
  destruct (get_vps_moves ex_world [1%positive; 2%positive] ex_req2 ex_echo2 2%positive
              ltac:(decide_vm) eq_refl ltac:(discriminate) ltac:(vm_compute; reflexivity))
    as (w' & Hr & _).
  exists w'. exact Hr.
Defined.

(** The scenario of a store limited to two sessions: two sessions are
    cached, a third is refused, the first is discarded and a new one is
    then accepted.  The results of the four [fr_state_put_vps] calls. *)
Definition scenario_capacity : SE (world (gmap (list Z) ptr)) (bool * bool * bool * bool) :=
  let rnd2 := fun i => ex_rnd (i + 4)%nat in
  let rnd3 := fun i => ex_rnd (i + 8)%nat in
  let rnd4 := fun i => ex_rnd (i + 12)%nat in
  let* '(b1, _, reply1) := fr_state_put_vps ex_cfg 50 ex_rnd ex_req None (mk_packet []) in
  let* '(b2, _, _) := fr_state_put_vps ex_cfg 51 rnd2 ex_req None (mk_packet []) in
  let* '(b3, _, _) := fr_state_put_vps ex_cfg 52 rnd3 ex_req None (mk_packet []) in
  let* _ := fr_state_discard ex_req reply1 in
  let* '(b4, _, _) := fr_state_put_vps ex_cfg 53 rnd4 ex_req None (mk_packet []) in
  se_ret (b1, b2, b3, b4).

(** on a store limited to two sessions, a third session is refused and,
    once the first is discarded, a new one is accepted (E2E D). *)
Example capacity_then_discard :
  match scenario_capacity (fresh_state 2) with
  | Ok (r, _) => r = (true, true, false, true)
  | Crash _ => False
  end.
Proof. vm_compute. reflexivity. Qed.


Lemma create_then_find_witness :
  inv_with ex_world [1%positive; 2%positive] /\ find_state (packet_vps (mk_packet [])) = None /\
  exists res w' L', state_entry_create ex_cfg 50 ex_rnd (mk_packet []) None ex_world = Ok (res, w') /\
    inv_with w' L'.
Proof.
  assert (Hi : inv_with ex_world [1%positive; 2%positive]) by decide_vm.
  split; [exact Hi|]. split; [reflexivity|].
  destruct (create_then_find ex_cfg ex_world _ 50 ex_rnd (mk_packet []) Hi eq_refl)
    as (res & w' & L' & Hrun & Hi' & _).
  exists res, w', L'. split; assumption.
Defined.

Lemma fr_state_init_dangling_global_witness :
  talloc_ok (mk_init_env true false true) = true /\
  fr_state_init_alloc (T := gmap (list Z) ptr) GNull false 100 0 (mk_init_env true false true) =
    (GNull, GFreed).
Proof.
  split; [reflexivity|].
  exact (proj1 (fr_state_init_dangling_global 100 0 (mk_init_env true false true)
                  eq_refl (or_introl eq_refl))).
Defined.
