(* ===== verification/Abstract.v ===== *)
(** * Abstract specification of the session store

    What [state.c] promises its callers, stated without lists, pointers
    or a tree: the store is a finite map from a 16-octet State to the
    session it identifies (expiry, retry count, cached attributes,
    opaque payload), and each call of the API is a function on such
    maps.  [abs_store] reads a concrete [world] as such a map through
    the tree's index, and the refinement theorems show that every call
    that reads or discards sessions ([fr_state_discard],
    [fr_state_get_vps], [fr_state_find_data], [fr_state_get_data])
    computes exactly the abstract function on [abs_store], also along
    any sequence of calls ([run_calls] against [a_calls]), and that the
    two calls that create a session satisfy the relations [a_put_vps]
    and [a_put_data]: the new session as [new_sess] under the reply's
    State, the previous session kept or released as the code does, and
    no session lost but the previous one or those the cleanup loop frees
    at the call's clock ([a_lost_ok]).  [a_step] forgets the arguments
    of each call; Trace.v keeps them. *)

From Stdlib Require Import ZArith Lia.
From S2P Require Import Prelude Token Pairs RbTree Entry Store Cleanup Create Session.

(** ** The abstract store *)

(** A session: what an entry holds besides its State and its links. *)
Record sess := mk_sess {
  s_cleanup : Z;
  s_tries : Z;
  s_vps : list value_pair;
  s_data : option ptr
}.

Abbreviation astore := (gmap (list Z) sess).

Definition sess_of (e : state_entry_t) : sess :=
  mk_sess (cleanup e) (tries e) (vps e) (data e).

(** The sessions of a store, indexed by their State through the tree. *)
Definition abs_store `{RbTree T} (w : world T) : astore :=
  (fun p => sess_of (w_heap w !!! p)) <$> rb_abs (tree (w_state w)).

(** The key a packet names: the octets of its State attribute when it
    has one of 16 octets. *)
Definition state_key (packet : radius_packet) : option (list Z) :=
  match find_state (packet_vps packet) with
  | Some vp =>
      if bool_decide (vp_length vp = AUTH_VECTOR_LEN) then Some (vp_octets vp) else None
  | None => None
  end.

(** ** Abstract operations *)

Definition a_find (s : astore) (packet : radius_packet) : option sess :=
  k ← state_key packet; s !! k.

Definition a_find_data (s : astore) (packet : radius_packet) : option ptr :=
  a_find s packet ≫= s_data.

(** Take the payload of the session named by [packet] out of it. *)
Definition a_get_data (s : astore) (packet : radius_packet) : option ptr * astore :=
  match state_key packet with
  | Some k =>
      match s !! k with
      | Some c => (s_data c, <[k := mk_sess (s_cleanup c) (s_tries c) (s_vps c) None]> s)
      | None => (None, s)
      end
  | None => (None, s)
  end.

(** Forget the session named by [original]. *)
Definition a_discard (s : astore) (original : radius_packet) : astore :=
  match state_key original with
  | Some k => delete k s
  | None => s
  end.

(** Move the attributes of the session named by [packet] to a request
    that has none and carries a State attribute. *)
Definition a_get_vps (s : astore) (req : request) (packet : radius_packet) : request * astore :=
  match find_state (packet_vps (request_packet req)), state_key packet with
  | Some _, Some k =>
      match s !! k with
      | Some c => (mk_request (request_packet req) (s_vps c),
                   <[k := mk_sess (s_cleanup c) (s_tries c) [] (s_data c)]> s)
      | None => (req, s)
      end
  | _, _ => (req, s)
  end.

(** ** Calls and their results *)

Inductive api_call :=
| CallDiscard (req : request) (original : radius_packet)
| CallGetVps (req : request) (packet : radius_packet)
| CallFindData (has_state : bool) (packet : radius_packet)
| CallGetData (has_state : bool) (packet : radius_packet).

Inductive api_ret :=
| RetReq (r : request)
| RetData (d : option ptr).

(** A call is admissible when [fr_state_get_vps] is given a request
    without cached attributes (its [rad_assert]). *)
Definition call_ok (c : api_call) : Prop :=
  match c with
  | CallGetVps req _ => request_state req = []
  | _ => True
  end.

Section Run.
Context `{RbTree T}.

Definition run_call (c : api_call) : SE (world T) api_ret :=
  match c with
  | CallDiscard req original => let* r := fr_state_discard req original in se_ret (RetReq r)
  | CallGetVps req packet => let* r := fr_state_get_vps req packet in se_ret (RetReq r)
  | CallFindData hs packet => let* d := fr_state_find_data hs packet in se_ret (RetData d)
  | CallGetData hs packet => let* d := fr_state_get_data hs packet in se_ret (RetData d)
  end.

Fixpoint run_calls (cs : list api_call) : SE (world T) (list api_ret) :=
  match cs with
  | [] => se_ret []
  | c :: cs => let* r := run_call c in let* rs := run_calls cs in se_ret (r :: rs)
  end.
End Run.

Definition a_call (c : api_call) (s : astore) : api_ret * astore :=
  match c with
  | CallDiscard req original => (RetReq (mk_request (request_packet req) []), a_discard s original)
  | CallGetVps req packet => let '(r, s') := a_get_vps s req packet in (RetReq r, s')
  | CallFindData hs packet => (RetData (if hs then a_find_data s packet else None), s)
  | CallGetData hs packet =>
      if hs then let '(d, s') := a_get_data s packet in (RetData d, s') else (RetData None, s)
  end.

Fixpoint a_calls (cs : list api_call) (s : astore) : list api_ret * astore :=
  match cs with
  | [] => ([], s)
  | c :: cs =>
      let '(r, s1) := a_call c s in
      let '(rs, s2) := a_calls cs s1 in (r :: rs, s2)
  end.

(** ** Creating sessions *)

(** The key under which a reply's State attribute files the session. *)
Definition reply_key (packet : radius_packet) : option (list Z) :=
  (fun vp => take AUTH_VECTOR_LEN (vp_octets vp)) <$> find_state (packet_vps packet).

(** The key of the previous session, named by [original]. *)
Definition orig_key (original : option radius_packet) : option (list Z) :=
  original ≫= state_key.

(** The session a creation files: expiry [max_request_time * 10] seconds
    from [now], one more try than the previous session, or none. *)
Definition new_sess (cfg : config) (now : Z) (s : astore) (original : option radius_packet)
    (l : list value_pair) (d : option ptr) : sess :=
  mk_sess (now + u32 (max_request_time cfg * 10))
    (match original ≫= a_find s with Some c => s_tries c + 1 | None => 0 end) l d.

(** What happens to the previous session when the session [k] is
    created: kept as it was if it holds data (and then it is not [k]),
    gone otherwise (unless [k] reuses its key). *)
Definition a_released (s s' : astore) (original : option radius_packet) (k : list Z) : Prop :=
  forall ko c, orig_key original = Some ko -> s !! ko = Some c ->
    (s_data c <> None -> ko <> k /\ s' !! ko = Some c) /\
    (s_data c = None -> s' !! ko = None \/ ko = k).

(** The retry count of the previous session can be incremented as an
    [int] (line 256 aborts otherwise). *)
Definition a_tries_ok (s : astore) (original : option radius_packet) : Prop :=
  match original ≫= a_find s with
  | Some c => int_in_range (s_tries c + 1) = true
  | None => True
  end.

(** A session the cleanup loop of [state_entry_create] frees at [now]
    (lines 210-214): expired, or holding neither attributes nor data. *)
Definition a_stale (now : Z) (c : sess) : bool :=
  (s_cleanup c <? now)%Z || (bool_decide (s_vps c = []) && bool_decide (s_data c = None)).

(** Every session of [s] that [s'] does not keep as it was is the
    previous session, named by [original], or one the cleanup loop
    frees at [now]. *)
Definition a_lost_ok (now : Z) (s s' : astore) (original : option radius_packet) : Prop :=
  forall k c, s !! k = Some c -> s' !! k <> Some c ->
    orig_key original = Some k \/ a_stale now c = true.

(** [fr_state_put_vps] as a relation between the abstract store before
    and after the call and its result: nothing to cache changes nothing;
    a failure only loses sessions, each of them the previous one or one
    the cleanup loop frees; a success files a new session holding the
    request's attributes under the key the reply carries, under which no
    other live session was, and otherwise only loses such sessions. *)
Definition a_put_vps (cfg : config) (now : Z) (s : astore) (req : request)
    (original : option radius_packet) (packet : radius_packet)
    (res : bool * request * radius_packet) (s' : astore) : Prop :=
  if bool_decide (request_state req = []) then res = (true, req, packet) /\ s' = s else
  match res with
  | (false, req', _) => req' = req /\ s' ⊆ s /\ a_lost_ok now s s' original
  | (true, req', packet') =>
      req' = mk_request (request_packet req) [] /\ a_tries_ok s original /\
      exists k, reply_key packet' = Some k /\
        s' !! k = Some (new_sess cfg now s original (request_state req) None) /\
        delete k s' ⊆ s /\ a_lost_ok now s (delete k s') original /\ a_released s s' original k
  end.

(** The previous session gives up its payload when it is [d]. *)
Definition a_take_data (s : astore) (original : option radius_packet) (d : option ptr) : astore :=
  match orig_key original with
  | Some ko =>
      match s !! ko with
      | Some c =>
          if bool_decide (s_data c = d)
          then <[ko := mk_sess (s_cleanup c) (s_tries c) (s_vps c) None]> s else s
      | None => s
      end
  | None => s
  end.

(** [fr_state_put_data] as a relation, for a previous session that is
    absent or holds a payload: without a request nothing changes; a
    failure only loses sessions the cleanup loop frees; a success files
    a new session holding [d] under the key the reply carries, the
    previous session gives up [d] if it held it and is otherwise kept,
    and no other session but those the cleanup loop frees is lost. *)
Definition a_put_data (cfg : config) (now : Z) (s : astore) (has_state : bool)
    (original : option radius_packet) (packet : radius_packet) (d : option ptr)
    (res : bool * radius_packet) (s' : astore) : Prop :=
  if negb has_state then res = (false, packet) /\ s' = s else
  match res with
  | (false, _) => s' ⊆ s /\ a_lost_ok now s s' original
  | (true, packet') =>
      a_tries_ok s original /\
      exists k, reply_key packet' = Some k /\
        s' !! k = Some (new_sess cfg now s original [] d) /\
        delete k s' ⊆ a_take_data s original d /\ a_lost_ok now s (delete k s') original /\
        forall ko, orig_key original = Some ko -> is_Some (s !! ko) ->
          ko <> k /\ s' !! ko = a_take_data s original d !! ko
  end.

(** ** Reading a store *)

Section Abs.
Context `{RbTreeLaws T}.
Implicit Types (w : world T) (L : list ptr).

Lemma sess_of_content e e' : entry_content e = entry_content e' -> sess_of e = sess_of e'.
Proof. destruct e, e'. unfold entry_content, sess_of. simpl. intros Hc. by inversion Hc. Qed.

Lemma find_result_key w packet :
  find_result w packet = state_key packet ≫= (fun k => rb_abs (tree (w_state w)) !! k).
Proof.
  unfold find_result, state_key. destruct (find_state (packet_vps packet)); [|done].
  case_bool_decide; [|done]. apply rb_find_abs.
Qed.

(** The tree of a well-formed store indexes each entry by its own State. *)
Lemma tree_key w L k p :
  inv_with w L -> rb_abs (tree (w_state w)) !! k = Some p -> p ∈ L /\ st_of (w_heap w) p = k.
Proof.
  intros Hi. pose proof Hi as (_ & _ & _ & Hnd & Htr & _).
  rewrite Htr. by apply tree_image_lookup.
Qed.

(** Rewriting the payload of the entry of [k] rewrites its session. *)
Lemma abs_payload w L k p e' :
  inv_with w L -> rb_abs (tree (w_state w)) !! k = Some p ->
  abs_store (upd_heap w (<[p := e']> (w_heap w))) = <[k := sess_of e']> (abs_store w).
Proof.
  intros Hi Hk. apply map_eq. intros k'. unfold abs_store. cbn [upd_heap w_state w_heap].
  rewrite !lookup_fmap. destruct (decide (k' = k)) as [->|Hne].
  - by rewrite lookup_insert_eq, Hk; simpl; rewrite lookup_total_insert_eq.
  - rewrite lookup_insert_ne, lookup_fmap by done.
    destruct (rb_abs (tree (w_state w)) !! k') as [q|] eqn:Hq; [|done]. simpl.
    rewrite lookup_total_insert_ne; [done|]. intros ->.
    apply Hne. destruct (tree_key w L k' q Hi Hq) as [_ <-].
    by destruct (tree_key w L k q Hi Hk) as [_ <-].
Qed.

(** A step that deletes the key [k] from the tree and keeps what the
    remaining entries hold deletes the session of [k]. *)
Lemma abs_delete w w' L' k :
  inv_with w' L' ->
  rb_abs (tree (w_state w')) = delete k (rb_abs (tree (w_state w))) ->
  content_sub (w_heap w) (w_heap w') ->
  abs_store w' = delete k (abs_store w).
Proof.
  intros Hi' Habs Hsub. apply map_eq. intros k'. unfold abs_store.
  destruct (decide (k' = k)) as [->|Hne].
  - by rewrite lookup_delete_eq, lookup_fmap, Habs, lookup_delete_eq.
  - rewrite lookup_delete_ne, !lookup_fmap by done.
    destruct (rb_abs (tree (w_state w')) !! k') as [q|] eqn:Hq;
      rewrite Habs, lookup_delete_ne in Hq by done; rewrite Hq; [|done]. simpl. f_equal.
    apply sess_of_content. apply content_sub_total; [done|].
    apply (inv_in_heap w' L' q Hi'). apply (tree_key w' L' k' q Hi').
    by rewrite Habs, lookup_delete_ne.
Qed.
End Abs.

Section AbsLookup.
Context `{RbTreeLaws T}.
Implicit Types (w : world T) (L : list ptr).

Lemma abs_store_lookup w k :
  abs_store w !! k = (fun p => sess_of (w_heap w !!! p)) <$> rb_abs (tree (w_state w)) !! k.
Proof. apply lookup_fmap. Qed.

Lemma tree_key_live w L k p :
  inv_with w L -> rb_abs (tree (w_state w)) !! k = Some p -> is_Some (w_heap w !! p).
Proof. intros Hi Hk. apply (inv_in_heap w L p Hi). by apply (tree_key w L k p Hi Hk). Qed.

Lemma found_data_abs w packet : found_data w packet = a_find_data (abs_store w) packet.
Proof.
  unfold found_data, a_find_data, a_find. rewrite find_result_key.
  destruct (state_key packet) as [k|]; [|done]. simpl. rewrite abs_store_lookup.
  by destruct (rb_abs (tree (w_state w)) !! k).
Qed.
End AbsLookup.

(** The tactic that splits on the key a packet names and on its entry. *)
Ltac key_cases w packet k p Ep :=
  rewrite ?(find_result_key w packet), ?(found_data_abs w packet);
  unfold a_find_data, a_find, a_get_data, a_get_vps, a_discard;
  destruct (state_key packet) as [k|]; simpl;
  [rewrite ?abs_store_lookup;
   destruct (rb_abs (tree (w_state w)) !! k) as [p|] eqn:Ep; simpl|].

(** ** Refinement of each call *)

Section Refine.
Context `{RbTreeLaws T}.
Implicit Types (w : world T) (L : list ptr) (req : request).

Lemma discard_refines_run w L req original :
  inv_with w L ->
  exists w' L', fr_state_discard req original w = Ok (mk_request (request_packet req) [], w') /\
    inv_with w' L' /\ abs_store w' = a_discard (abs_store w) original.
Proof.
  intros Hi. unfold fr_state_discard. se_step (state_entry_find_run w original).
  key_cases w original k p Ep.
  - destruct (tree_key w L k p Hi Ep) as [Hp Hk].
    apply list_elem_of_split in Hp as (L1 & L2 & ->).
    destruct (state_entry_free_correct w L1 p L2 Hi)
      as (w' & Hrun & Hi' & _ & Hsub & _ & Habs & _).
    exists w', (L1 ++ L2). se_step Hrun. split; [done|]. split; [done|].
    rewrite Hk in Habs. by apply (abs_delete w w' (L1 ++ L2) k).
  - exists w, L. split; [done|]. split; [done|]. symmetry. apply delete_id.
    by rewrite abs_store_lookup, Ep.
  - by exists w, L.
Qed.

Lemma get_vps_refines_run w L req packet :
  inv_with w L -> request_state req = [] ->
  exists w', fr_state_get_vps req packet w = Ok (fst (a_get_vps (abs_store w) req packet), w') /\
    inv_with w' L /\ abs_store w' = snd (a_get_vps (abs_store w) req packet).
Proof.
  intros Hi Hr. rewrite (fr_state_get_vps_run w L req packet Hi Hr).
  unfold a_get_vps. destruct (find_state (packet_vps (request_packet req))); [|by exists w].
  key_cases w packet k p Ep; [|by exists w..].
  eexists. split; [done|]. split.
  - apply inv_with_payload; [done|by eapply tree_key_live|done..].
  - by rewrite (abs_payload w L k p _ Hi Ep).
Qed.

Lemma find_data_refines_run w L hs packet :
  inv_with w L ->
  fr_state_find_data hs packet w =
    Ok (if hs then a_find_data (abs_store w) packet else None, w).
Proof.
  intros Hi. destruct hs; [|done].
  by rewrite (fr_state_find_data_run w L packet Hi), found_data_abs.
Qed.

Lemma get_data_refines_run w L packet :
  inv_with w L ->
  exists w', fr_state_get_data true packet w = Ok (fst (a_get_data (abs_store w) packet), w') /\
    inv_with w' L /\ abs_store w' = snd (a_get_data (abs_store w) packet).
Proof.
  intros Hi. rewrite (fr_state_get_data_run w L packet Hi), found_data_abs.
  rewrite (find_result_key w packet). key_cases w packet k p Ep; [|by exists w..].
  eexists. split; [done|]. split.
  - apply inv_with_payload; [done|by eapply tree_key_live|done..].
  - by rewrite (abs_payload w L k p _ Hi Ep).
Qed.
End Refine.

(** ** Refinement of sequences of calls *)

Section RefineCalls.
Context `{RbTreeLaws T}.
Implicit Types (w : world T) (L : list ptr).

Lemma run_call_refines w L c :
  inv_with w L -> call_ok c ->
  exists w' L', run_call c w = Ok (fst (a_call c (abs_store w)), w') /\
    inv_with w' L' /\ abs_store w' = snd (a_call c (abs_store w)).
Proof.
  intros Hi Hc. destruct c as [req orig|req packet|hs packet|hs packet]; simpl.
  - destruct (discard_refines_run w L req orig Hi) as (w' & L' & Hrun & Hi' & Ha).
    exists w', L'. by se_step Hrun.
  - destruct (get_vps_refines_run w L req packet Hi Hc) as (w' & Hrun & Hi' & Ha).
    exists w', L. se_step Hrun. by destruct (a_get_vps (abs_store w) req packet).
  - exists w, L. by se_step (find_data_refines_run w L hs packet Hi).
  - destruct hs; [|by exists w, L].
    destruct (get_data_refines_run w L packet Hi) as (w' & Hrun & Hi' & Ha).
    exists w', L. se_step Hrun. by destruct (a_get_data (abs_store w) packet).
Qed.

(** C20: any sequence of calls that read or discard sessions computes what the
    abstract store computes: on a well-formed store where every
    [fr_state_get_vps] gets a request without cached attributes, the calls
    return, keep the invariant, give the results [a_calls] gives and leave the
    abstract store [a_calls] leaves. *)
Theorem run_calls_refines w L cs :
  inv_with w L -> Forall call_ok cs ->
  exists w' L', run_calls cs w = Ok (fst (a_calls cs (abs_store w)), w') /\
    inv_with w' L' /\ abs_store w' = snd (a_calls cs (abs_store w)).
Proof.
  revert w L. induction cs as [|c cs IH]; intros w L Hi Hok; [by exists w, L|].
  apply Forall_cons in Hok as [Hc Hok]. simpl.
  destruct (run_call_refines w L c Hi Hc) as (w1 & L1 & Hrun1 & Hi1 & Ha1).
  destruct (IH w1 L1 Hi1 Hok) as (w2 & L2 & Hrun2 & Hi2 & Ha2).
  exists w2, L2. se_step Hrun1. se_step Hrun2. rewrite Ha1 in Ha2 |- *.
  destruct (a_call c (abs_store w)) as [r s1]. simpl in *.
  destruct (a_calls cs s1). simpl in *. by subst.
Qed.
End RefineCalls.

(** ** Sessions kept, lost and created *)

Section AbsCreate.
Context `{RbTreeLaws T}.
Implicit Types (w : world T) (L : list ptr).

Lemma a_find_abs w packet :
  a_find (abs_store w) packet = (fun p => sess_of (w_heap w !!! p)) <$> find_result w packet.
Proof.
  unfold a_find. rewrite find_result_key.
  destruct (state_key packet) as [k|]; [|done]. simpl. apply abs_store_lookup.
Qed.

Lemma a_find_orig w original :
  original ≫= a_find (abs_store w) = (fun p => sess_of (w_heap w !!! p)) <$> find_orig w original.
Proof. destruct original; [apply a_find_abs|done]. Qed.

Lemma old_ok_tries w L original :
  old_ok w L (find_orig w original) -> a_tries_ok (abs_store w) original.
Proof.
  unfold a_tries_ok. rewrite a_find_orig.
  destruct (find_orig w original); [|done]. by intros (_ & _ & Hr).
Qed.

Lemma tree_entry w L p :
  inv_with w L -> p ∈ L -> rb_abs (tree (w_state w)) !! st_of (w_heap w) p = Some p.
Proof.
  intros Hi Hp. pose proof Hi as (_ & _ & _ & Hnd & Htr & _).
  rewrite Htr. by apply tree_image_lookup.
Qed.

Lemma tree_inj w L k1 k2 p :
  inv_with w L -> rb_abs (tree (w_state w)) !! k1 = Some p ->
  rb_abs (tree (w_state w)) !! k2 = Some p -> k1 = k2.
Proof.
  intros Hi H1 H2. destruct (tree_key w L k1 p Hi H1) as [_ <-].
  by destruct (tree_key w L k2 p Hi H2) as [_ <-].
Qed.

(** A session of [w'] whose entry held the same contents in [w] is a
    session of [w]. *)
Lemma abs_lookup_kept w L w' L' k p :
  inv_with w L -> inv_with w' L' -> rb_abs (tree (w_state w')) !! k = Some p ->
  entry_content <$> w_heap w' !! p = entry_content <$> w_heap w !! p ->
  abs_store w' !! k = abs_store w !! k.
Proof.
  intros Hi Hi' Hk Hc. destruct (tree_key w' L' k p Hi' Hk) as [_ Hs'].
  destruct (tree_key_live w' L' k p Hi' Hk) as [e' He'].
  rewrite He' in Hc. destruct (w_heap w !! p) as [e|] eqn:He; [|discriminate].
  simpl in Hc. apply (inj Some) in Hc. unfold st_of in Hs'. rewrite (lookup_total_correct _ _ _ He') in Hs'.
  assert (Hp : p ∈ L) by (apply (inv_in_heap w L p Hi); by eexists).
  pose proof (tree_entry w L p Hi Hp) as Hk0. unfold st_of in Hk0.
  rewrite (lookup_total_correct _ _ _ He) in Hk0.
  assert (Hke : state e = k) by (unfold entry_content in Hc; congruence).
  rewrite Hke in Hk0. rewrite !abs_store_lookup, Hk, Hk0. simpl. f_equal.
  rewrite (lookup_total_correct _ _ _ He), (lookup_total_correct _ _ _ He').
  by apply sess_of_content.
Qed.

(** A step that keeps the contents of every live entry only loses
    sessions. *)
Lemma abs_sub w L w' L' :
  inv_with w L -> inv_with w' L' -> content_sub (w_heap w) (w_heap w') ->
  abs_store w' ⊆ abs_store w.
Proof.
  intros Hi Hi' Hc. apply map_subseteq_spec. intros k c Hk.
  pose proof Hk as Hk'. rewrite abs_store_lookup in Hk'.
  destruct (rb_abs (tree (w_state w')) !! k) as [p|] eqn:Hp; [|discriminate].
  rewrite <- Hk. symmetry. apply (abs_lookup_kept w L w' L' k p Hi Hi' Hp).
  apply Hc. by apply (tree_key_live w' L' k p Hi').
Qed.

(** A step that keeps the contents of every live entry but the new [q]
    only loses sessions besides the session of [q]. *)
Lemma abs_sub_delete w L w' L' k q :
  inv_with w L -> inv_with w' L' -> content_sub (w_heap w) (delete q (w_heap w')) ->
  rb_abs (tree (w_state w')) !! k = Some q ->
  delete k (abs_store w') ⊆ abs_store w.
Proof.
  intros Hi Hi' Hc Hq. apply map_subseteq_spec. intros k' c Hk.
  apply lookup_delete_Some in Hk as [Hne Hk]. pose proof Hk as Hk'.
  rewrite abs_store_lookup in Hk'.
  destruct (rb_abs (tree (w_state w')) !! k') as [p|] eqn:Hp; [|discriminate].
  assert (Hpq : p <> q) by (intros ->; apply Hne; exact (tree_inj w' L' k k' q Hi' Hq Hp)).
  rewrite <- Hk. symmetry. apply (abs_lookup_kept w L w' L' k' p Hi Hi' Hp).
  rewrite <- (lookup_delete_ne (w_heap w') q p) by done. apply Hc.
  rewrite lookup_delete_ne by done. by apply (tree_key_live w' L' k' p Hi').
Qed.

Lemma reply_key_state s b packet packet' :
  (s, packet') = attr_state b packet -> token_ok s -> reply_key packet' = Some s.
Proof.
  unfold attr_state, reply_key. destruct (find_state (packet_vps packet)) as [v|] eqn:Ev.
  - intros [= -> ->] _. by rewrite Ev.
  - intros [= -> ->] [Hl _]. cbn [packet_vps]. rewrite find_state_pairadd_state by done. simpl.
    f_equal. apply take_ge. rewrite Hl. done.
Qed.
End AbsCreate.

Section CreateAbs.
Context `{RbTreeLaws T}.
Context (cfg : config).
Implicit Types (w : world T) (L : list ptr).

Lemma orig_key_find w original ko :
  orig_key original = Some ko -> find_orig w original = rb_abs (tree (w_state w)) !! ko.
Proof.
  destruct original as [orig|]; [|done]. simpl. intros Hk.
  by rewrite find_result_key, Hk.
Qed.

Lemma find_orig_key w original o :
  find_orig w original = Some o ->
  exists ko, orig_key original = Some ko /\ rb_abs (tree (w_state w)) !! ko = Some o.
Proof.
  destruct original as [orig|]; [|done]. simpl. rewrite find_result_key.
  destruct (state_key orig) as [ko|]; [|done]. simpl. eauto.
Qed.

Lemma stale_sess now e : stale now e = a_stale now (sess_of e).
Proof. by destruct e. Qed.

(** A session of [w] is the previous one or one the cleanup loop frees,
    or it is kept: its entry is still filed under its key in [w']. *)
Lemma abs_lost_key w L w' L' now original k c :
  inv_with w L -> inv_with w' L' ->
  (forall q, q ∈ L -> q ∉ L' -> find_orig w original = Some q \/ stale now (w_heap w !!! q) = true) ->
  (forall p, p ∈ L -> p ∈ L' -> entry_content (w_heap w' !!! p) = entry_content (w_heap w !!! p)) ->
  abs_store w !! k = Some c ->
  (orig_key original = Some k \/ a_stale now c = true) \/
  (exists p, p ∈ L /\ rb_abs (tree (w_state w')) !! k = Some p /\ abs_store w' !! k = Some c).
Proof.
  intros Hi Hi' Hlost Hkept Hk. pose proof Hk as Hk'. rewrite abs_store_lookup in Hk'.
  destruct (rb_abs (tree (w_state w)) !! k) as [p|] eqn:Hp; [|discriminate]. injection Hk' as <-.
  destruct (tree_key w L k p Hi Hp) as [HpL Hsp].
  destruct (decide (p ∈ L')) as [HpL'|HpL'].
  - right. pose proof (Hkept p HpL HpL') as Hc.
    assert (Hp' : rb_abs (tree (w_state w')) !! k = Some p).
    { rewrite <- Hsp. unfold st_of. replace (state (w_heap w !!! p)) with (state (w_heap w' !!! p))
        by (unfold entry_content in Hc; congruence). by apply (tree_entry w' L'). }
    exists p. split; [done|]. split; [done|].
    rewrite abs_store_lookup, Hp'. simpl. f_equal. by apply sess_of_content.
  - left. destruct (Hlost p HpL HpL') as [Ho|Hs]; [left|right; by rewrite <- stale_sess].
    destruct (find_orig_key w original p Ho) as (ko & Hko & Hko'). rewrite Hko.
    f_equal. exact (tree_inj w L ko k p Hi Hko' Hp).
Qed.

(** A step that keeps the contents of the entries it keeps, and drops
    only the previous entry and entries the cleanup loop frees, loses
    only such sessions. *)
Lemma abs_lost_ok w L w' L' now original :
  inv_with w L -> inv_with w' L' ->
  (forall q, q ∈ L -> q ∉ L' -> find_orig w original = Some q \/ stale now (w_heap w !!! q) = true) ->
  content_sub (w_heap w) (w_heap w') ->
  a_lost_ok now (abs_store w) (abs_store w') original.
Proof.
  intros Hi Hi' Hlost Hcs k c Hk Hne.
  destruct (abs_lost_key w L w' L' now original k c Hi Hi' Hlost) as [?|(p & _ & _ & ?)];
    [|done|done|congruence].
  intros p _ HpL'. apply content_sub_total; [done|]. by apply (inv_in_heap w' L').
Qed.

(** The same for a step that also files a new entry [q] under [kq]. *)
Lemma abs_lost_ok_new w L w' L' now original q kq :
  inv_with w L -> inv_with w' L' -> q ∉ L ->
  (forall p, p ∈ L -> p ∉ L' -> find_orig w original = Some p \/ stale now (w_heap w !!! p) = true) ->
  content_sub (w_heap w) (delete q (w_heap w')) ->
  rb_abs (tree (w_state w')) !! kq = Some q ->
  a_lost_ok now (abs_store w) (delete kq (abs_store w')) original.
Proof.
  intros Hi Hi' HqL Hlost Hcs Hq k c Hk Hne.
  destruct (abs_lost_key w L w' L' now original k c Hi Hi' Hlost) as [?|(p & HpL & Hp' & Hk')];
    [|done|done|].
  - intros p HpL HpL'. assert (p <> q) by (intros ->; contradiction).
    rewrite <- (lookup_total_delete_ne (w_heap w') q p) by done. apply content_sub_total; [done|].
    rewrite lookup_delete_ne by done. by apply (inv_in_heap w' L').
  - exfalso. apply Hne. destruct (decide (k = kq)) as [->|Hne'].
    + rewrite Hq in Hp'. injection Hp' as ->. contradiction.
    + by rewrite lookup_delete_ne.
Qed.

Lemma content_total_fmap (h h' : heap) p :
  is_Some (h' !! p) -> is_Some (h !! p) -> entry_content (h' !!! p) = entry_content (h !!! p) ->
  entry_content <$> h' !! p = entry_content <$> h !! p.
Proof.
  intros [e' He'] [e He] Heq. rewrite (lookup_total_correct _ _ _ He'),
    (lookup_total_correct _ _ _ He) in Heq. rewrite He', He. simpl. by f_equal.
Qed.

(** The previous session after a creation that filed the new entry [q]
    under [k]: [state_entry_create] keeps it when it holds data and frees
    it otherwise (lines 246-276). *)
Lemma create_released w L w' L' original q k :
  inv_with w L -> inv_with w' L' -> q ∉ L ->
  rb_abs (tree (w_state w')) !! k = Some q ->
  content_sub (w_heap w) (delete q (w_heap w')) ->
  (forall o, find_orig w original = Some o -> data (w_heap w !!! o) = None -> w_heap w' !! o = None) ->
  (forall o, find_orig w original = Some o -> data (w_heap w !!! o) <> None ->
     o ∈ L' /\ entry_content (w_heap w' !!! o) = entry_content (w_heap w !!! o)) ->
  a_released (abs_store w) (abs_store w') original k.
Proof.
  intros Hi Hi' HqL Hk Hcs Hfr Hkp ko c Hko Hc.
  pose proof (orig_key_find w original ko Hko) as Hfo.
  pose proof Hc as Hc'. rewrite abs_store_lookup in Hc'.
  destruct (rb_abs (tree (w_state w)) !! ko) as [o|] eqn:Ho; [|discriminate].
  injection Hc' as <-. cbn [s_data sess_of].
  destruct (tree_key w L ko o Hi Ho) as [HoL Hso].
  split.
  - intros Hdo. destruct (Hkp o Hfo Hdo) as [HoL' Heq].
    assert (Ho' : rb_abs (tree (w_state w')) !! ko = Some o).
    { rewrite <- Hso. unfold st_of. replace (state (w_heap w !!! o)) with (state (w_heap w' !!! o))
        by (unfold entry_content in Heq; congruence). by apply (tree_entry w' L'). }
    split; [intros ->; apply HqL; by rewrite <- (inj Some _ _ (eq_trans (eq_sym Ho') Hk))|].
    rewrite <- Hc. apply (abs_lookup_kept w L w' L' ko o Hi Hi' Ho').
    apply content_total_fmap; [by apply (inv_in_heap w' L')|by apply (inv_in_heap w L)|done].
  - intros Hdo. destruct (decide (ko = k)) as [->|Hne]; [by right|left].
    rewrite abs_store_lookup. destruct (rb_abs (tree (w_state w')) !! ko) as [p|] eqn:Hp; [|done].
    exfalso. assert (Hpq : p <> q) by (intros ->; apply Hne; exact (tree_inj w' L' ko k q Hi' Hp Hk)).
    destruct (tree_key_live w' L' ko p Hi' Hp) as [e' He'].
    assert (Hlive : is_Some (delete q (w_heap w') !! p)) by (rewrite lookup_delete_ne; eauto).
    pose proof (Hcs p Hlive) as Hcp. rewrite lookup_delete_ne, He' in Hcp by done.
    destruct (w_heap w !! p) as [e|] eqn:He; [|discriminate]. simpl in Hcp. apply (inj Some) in Hcp.
    assert (HpL : p ∈ L) by (apply (inv_in_heap w L p Hi); by eexists).
    destruct (tree_key w' L' ko p Hi' Hp) as [_ Hsp]. unfold st_of in Hsp.
    rewrite (lookup_total_correct _ _ _ He') in Hsp.
    pose proof (tree_entry w L p Hi HpL) as Hp0. unfold st_of in Hp0.
    rewrite (lookup_total_correct _ _ _ He) in Hp0.
    replace (state e) with ko in Hp0 by (unfold entry_content in Hcp; congruence).
    rewrite Ho in Hp0. injection Hp0 as ->. by rewrite (Hfr p Hfo Hdo) in He'.
Qed.
(** [state_entry_create] read on the abstract store: a failure only
    loses sessions; a success files the new entry [q] under the key [k]
    the reply carries, with the session [new_sess], and otherwise only
    loses sessions. *)
Lemma create_abs w L now rnd packet original :
  inv_with w L -> old_ok w L (find_orig w original) -> attr_ok packet ->
  exists res w' L', state_entry_create cfg now rnd packet (find_orig w original) w = Ok (res, w') /\
    inv_with w' L' /\
    match res with
    | (None, _) => abs_store w' ⊆ abs_store w /\ a_lost_ok now (abs_store w) (abs_store w') original
    | (Some q, packet') =>
        exists e, w_heap w' !! q = Some e /\
          rb_abs (tree (w_state w')) !! state e = Some q /\
          reply_key packet' = Some (state e) /\
          sess_of e = new_sess cfg now (abs_store w) original [] None /\
          delete (state e) (abs_store w') ⊆ abs_store w /\
          a_lost_ok now (abs_store w) (delete (state e) (abs_store w')) original /\
          a_released (abs_store w) (abs_store w') original (state e) /\
          (forall o, find_orig w original = Some o -> data (w_heap w !!! o) = None ->
             w_heap w' !! o = None) /\
          (forall o, find_orig w original = Some o -> data (w_heap w !!! o) <> None ->
             o ∈ L' /\ entry_content (w_heap w' !!! o) = entry_content (w_heap w !!! o))
    end.
Proof.
  intros Hi Hold Hattr.
  destruct (state_entry_create_correct cfg w L now rnd packet _ Hi Hold Hattr)
    as (res & w' & L' & Hrun & Hi' & Hlost & Hres).
  exists res, w', L'. do 2 (split; [done|]).
  destruct res as [[q|] packet'].
  2: { split; [exact (abs_sub w L w' L' Hi Hi' (proj1 Hres))|].
       exact (abs_lost_ok w L w' L' now original Hi Hi' Hlost (proj1 Hres)). }
  destruct Hres as (_ & HqL & Hlast & Hfr & Hkp & Hcs & e & He & Hnew).
  assert (HqL' : q ∈ L') by (destruct Hlast as (L0 & -> & _); set_solver).
  pose proof (tree_entry w' L' q Hi' HqL') as Hk. unfold st_of in Hk.
  rewrite (lookup_total_correct _ _ _ He) in Hk.
  assert (Htok : token_ok (state e)).
  { pose proof Hi' as (_ & _ & _ & _ & _ & Htok & _). rewrite Forall_forall in Htok.
    specialize (Htok q HqL'). unfold st_of in Htok. by rewrite (lookup_total_correct _ _ _ He) in Htok. }
  destruct Hnew as (Hst & Hcl & Htr & Hv & Hd).
  exists e. do 2 (split; [done|]). split; [exact (reply_key_state _ _ _ _ Hst Htok)|].
  split; [|split; [exact (abs_sub_delete w L w' L' _ q Hi Hi' Hcs Hk)|]].
  - unfold new_sess, sess_of. rewrite a_find_orig, Hcl, Htr, Hv, Hd.
    by destruct (find_orig w original).
  - split; [exact (abs_lost_ok_new w L w' L' now original q _ Hi Hi' HqL Hlost Hcs Hk)|].
    split; [exact (create_released w L w' L' original q _ Hi Hi' HqL Hk Hcs Hfr Hkp)|done].
Qed.
End CreateAbs.

(** ** Refinement of [fr_state_put_vps] *)

Lemma a_released_insert s s' original k c :
  a_released s s' original k -> a_released s (<[k := c]> s') original k.
Proof.
  intros Hr ko c' Hko Hc. destruct (Hr ko c' Hko Hc) as [Hd Hn]. split.
  - intros Hdo. destruct (Hd Hdo) as [Hne Hs]. split; [done|]. by rewrite lookup_insert_ne.
  - intros Hdo. destruct (decide (ko = k)) as [->|Hne]; [by right|].
    rewrite lookup_insert_ne by done. destruct (Hn Hdo) as [?|?]; [by left|done].
Qed.

Lemma new_sess_of e cfg now s original l d :
  sess_of e = new_sess cfg now s original [] None ->
  vps e = [] /\ sess_of (set_vps e l) = new_sess cfg now s original l None /\
  sess_of (set_data e d) = new_sess cfg now s original [] d.
Proof. destruct e. unfold sess_of, new_sess, set_vps, set_data. simpl. by intros [= -> -> -> ->]. Qed.

Section PutVps.
Context `{RbTreeLaws T}.
Context (cfg : config).
Implicit Types (w : world T) (L : list ptr).

(** [fr_state_put_vps] on the abstract store (lines 436-473). *)
Lemma put_vps_refines_run w L now rnd req original packet :
  inv_with w L -> old_ok w L (find_orig w original) -> attr_ok packet ->
  exists res w' L', fr_state_put_vps cfg now rnd req original packet w = Ok (res, w') /\
    inv_with w' L' /\ a_put_vps cfg now (abs_store w) req original packet res (abs_store w').
Proof.
  intros Hi Hold Hattr. unfold fr_state_put_vps, a_put_vps.
  case_bool_decide as Hr; [by exists (true, req, packet), w, L|].
  se_step (find_original_run w original).
  destruct (create_abs cfg w L now rnd packet original Hi Hold Hattr)
    as (res & w' & L' & Hrun & Hi' & Hres).
  se_step Hrun. destruct res as [[q|] packet']; [|destruct Hres; by exists (false, req, packet'), w', L'].
  destruct Hres as (e & He & Hk & Hkey & Hsess & Hsub & Hlost & Hrel & _ & _).
  destruct (new_sess_of e cfg now _ original (request_state req) None Hsess) as (Hv & Hs' & _).
  cbn beta iota. se_step (load_ok _ _ _ He). cbn [pairfilter_all]. rewrite Hv. cbn [app].
  se_step (store_ok w' q (set_vps e (request_state req)) ltac:(by eexists)).
  rewrite bool_decide_eq_true_2 by done. cbn [rad_assert]. rewrite se_bind_ret.
  eexists _, _, L'. split; [reflexivity|]. split.
  { apply inv_with_payload; rewrite ?(lookup_total_correct _ _ _ He); done || by eexists. }
  split; [done|]. split; [exact (old_ok_tries w L original Hold)|].
  exists (state e). split; [done|].
  rewrite (abs_payload w' L' (state e) q _ Hi' Hk), Hs', lookup_insert_eq, delete_insert_eq.
  split; [done|]. split; [done|]. split; [done|]. by apply a_released_insert.
Qed.

End PutVps.

(** ** Refinement of [fr_state_put_data] *)

Lemma a_take_data_some s original d ko c :
  orig_key original = Some ko -> s !! ko = Some c ->
  a_take_data s original d =
    if bool_decide (s_data c = d)
    then <[ko := mk_sess (s_cleanup c) (s_tries c) (s_vps c) None]> s else s.
Proof. unfold a_take_data. by intros -> ->. Qed.

Lemma a_take_data_none s original d :
  (forall ko, orig_key original = Some ko -> s !! ko = None) -> a_take_data s original d = s.
Proof.
  unfold a_take_data. destruct (orig_key original) as [ko|]; [|done].
  intros Hn. by rewrite (Hn ko eq_refl).
Qed.

Section PutData.
Context `{RbTreeLaws T}.
Context (cfg : config).
Implicit Types (w : world T) (L : list ptr).

(** Lines 555-557 on the abstract store: the previous entry [o], filed
    under [ko], gives up its data when it is [d]. *)
Lemma put_data_old_abs w L o eo ko d :
  inv_with w L -> w_heap w !! o = Some eo -> rb_abs (tree (w_state w)) !! ko = Some o ->
  exists w2,
    (let* oe := load o in
     if bool_decide (data oe = d) then store o (set_data oe None) else se_ret tt) w =
      Ok (tt, w2) /\
    inv_with w2 L /\ w_state w2 = w_state w /\
    (forall q, q <> o -> w_heap w2 !! q = w_heap w !! q) /\
    abs_store w2 = if bool_decide (data eo = d)
                   then <[ko := sess_of (set_data eo None)]> (abs_store w) else abs_store w.
Proof.
  intros Hi He Hko. se_step (load_ok _ _ _ He). case_bool_decide as Hd; [|by exists w].
  eexists. split; [apply store_ok; by eexists|].
  split; [apply inv_with_payload; rewrite ?(lookup_total_correct _ _ _ He); done || by eexists|].
  split; [done|]. split; [intros q Hq; simpl; by rewrite lookup_insert_ne|].
  exact (abs_payload w L ko o _ Hi Hko).
Qed.

(** The previous entry of a creation that kept it: still filed under its
    key, holding the same session. *)
Lemma old_kept_abs w L w' L' original o ko :
  inv_with w L -> inv_with w' L' -> find_orig w original = Some o ->
  orig_key original = Some ko -> o ∈ L' ->
  entry_content (w_heap w' !!! o) = entry_content (w_heap w !!! o) ->
  rb_abs (tree (w_state w')) !! ko = Some o /\
  exists eo, w_heap w' !! o = Some eo /\ sess_of eo = sess_of (w_heap w !!! o) /\
    abs_store w !! ko = Some (sess_of eo).
Proof.
  intros Hi Hi' Ho Hko HoL' Heq.
  rewrite (orig_key_find w original ko Hko) in Ho.
  destruct (tree_key w L ko o Hi Ho) as [_ Hso].
  destruct (proj1 (inv_in_heap w' L' o Hi') HoL') as [eo Heo].
  assert (Hs : sess_of eo = sess_of (w_heap w !!! o))
    by (apply sess_of_content; by rewrite <- (lookup_total_correct _ _ _ Heo)).
  split; [|exists eo; split; [done|]; split; [done|]; by rewrite abs_store_lookup, Ho, Hs].
  rewrite <- Hso. unfold st_of. replace (state (w_heap w !!! o)) with (state (w_heap w' !!! o))
    by (unfold entry_content in Heq; congruence). by apply (tree_entry w' L').
Qed.

Lemma find_orig_none w original ko :
  find_orig w original = None -> orig_key original = Some ko -> abs_store w !! ko = None.
Proof. intros Hn Hko. by rewrite abs_store_lookup, <- (orig_key_find w original ko Hko), Hn. Qed.
End PutData.

(** The abstract stores around lines 555-559: the previous session [c]
    under [ko] maybe gives up its payload, then the new session [k] is
    written. *)
Lemma a_put_data_glue (s s1 : astore) k ko c c' x (b : bool) :
  ko <> k -> s !! ko = Some c -> s1 !! ko = Some c -> delete k s1 ⊆ s ->
  delete k (<[k := x]> (if b then <[ko := c']> s1 else s1)) ⊆ (if b then <[ko := c']> s else s) /\
  <[k := x]> (if b then <[ko := c']> s1 else s1) !! ko = (if b then <[ko := c']> s else s) !! ko.
Proof.
  intros Hne Hc Hc1 Hsub. rewrite delete_insert_eq, lookup_insert_ne by congruence.
  destruct b; [|by rewrite Hc, Hc1].
  rewrite delete_insert_ne, !lookup_insert_eq by congruence. split; [by apply insert_mono|done].
Qed.

(** The loss condition across lines 555-559: the previous session is
    allowed to change. *)
Lemma a_lost_ok_glue (now : Z) (s s1 : astore) original (k ko : list Z) (x c' : sess) (b : bool) :
  orig_key original = Some ko -> a_lost_ok now s (delete k s1) original ->
  a_lost_ok now s (delete k (<[k := x]> (if b then <[ko := c']> s1 else s1))) original.
Proof.
  intros Hko Hl k' c Hk Hne. rewrite delete_insert_eq in Hne.
  destruct (decide (k' = ko)) as [->|Hne']; [by left|]. apply (Hl k' c Hk).
  destruct b; [|done]. destruct (decide (k' = k)) as [->|Hk'].
  - by rewrite lookup_delete_eq.
  - rewrite lookup_delete_ne, lookup_insert_ne in Hne by congruence. by rewrite lookup_delete_ne by congruence.
Qed.

Section PutDataRefine.
Context `{RbTreeLaws T}.
Context (cfg : config).
Implicit Types (w : world T) (L : list ptr).

(** [fr_state_put_data] on the abstract store (lines 530-562). *)
Lemma put_data_refines_run w L now rnd has_state original packet d :
  inv_with w L -> old_ok w L (find_orig w original) -> attr_ok packet ->
  (forall c, original ≫= a_find (abs_store w) = Some c -> s_data c <> None) ->
  exists res w' L', fr_state_put_data cfg now rnd has_state original packet d w = Ok (res, w') /\
    inv_with w' L' /\ a_put_data cfg now (abs_store w) has_state original packet d res (abs_store w').
Proof.
  intros Hi Hold Hattr Hdata. pose proof (old_ok_tries w L original Hold) as Htries.
  unfold fr_state_put_data, a_put_data.
  destruct has_state; cbn [negb]; [|by exists (false, packet), w, L].
  se_step (find_original_run w original).
  destruct (create_abs cfg w L now rnd packet original Hi Hold Hattr)
    as (res & w1 & L1 & Hrun & Hi1 & Hres).
  se_step Hrun. destruct res as [[q|] packet']; [|destruct Hres; by exists (false, packet'), w1, L1].
  destruct Hres as (e & He & Hk & Hkey & Hsess & Hsub & Hlost & Hrel & _ & Hkp).
  destruct (new_sess_of e cfg now _ original [] d Hsess) as (_ & _ & Hsd).
  cbn beta iota. destruct (find_orig w original) as [o|] eqn:Ho.
  - assert (Hdo : data (w_heap w !!! o) <> None)
      by (apply (Hdata (sess_of (w_heap w !!! o))); by rewrite a_find_orig, Ho).
    destruct (Hkp o eq_refl Hdo) as [HoL1 Heq].
    destruct (find_orig_key w original o Ho) as (ko & Hko & _).
    destruct (old_kept_abs w L w1 L1 original o ko Hi Hi1 Ho Hko HoL1 Heq)
      as (Hko1 & eo & Heo & Hseo & Hc).
    destruct (proj1 (Hrel ko _ Hko Hc)) as [Hne Hc1]; [by rewrite Hseo|].
    destruct (put_data_old_abs w1 L1 o eo ko d Hi1 Heo Hko1) as (w2 & Hrun2 & Hi2 & Hst2 & Hh2 & Ha2).
    se_step Hrun2.
    assert (Hqo : q <> o) by (intros ->; apply Hne; exact (tree_inj w1 L1 ko _ o Hi1 Hko1 Hk)).
    assert (Hk2 : rb_abs (tree (w_state w2)) !! state e = Some q) by (by rewrite Hst2).
    destruct (put_data_new_run w2 L1 q e d packet' Hi2 ltac:(by rewrite Hh2)) as [Hrun3 Hi3].
    eexists _, _, L1. split; [exact Hrun3|]. split; [exact Hi3|].
    split; [exact Htries|]. exists (state e).
    rewrite (abs_payload w2 L1 _ q _ Hi2 Hk2), Hsd, lookup_insert_eq, Ha2.
    rewrite (a_take_data_some _ original d ko _ Hko Hc).
    destruct (a_put_data_glue (abs_store w) (abs_store w1) (state e) ko (sess_of eo)
                (sess_of (set_data eo None)) (new_sess cfg now (abs_store w) original [] d)
                (bool_decide (data eo = d)) Hne Hc Hc1 Hsub) as [Hg1 Hg2].
    split; [done|]. split; [done|]. split; [exact Hg1|].
    split; [exact (a_lost_ok_glue now _ _ original _ ko _ _ _ Hko Hlost)|].
    intros ko' Hko' _. rewrite Hko in Hko'. injection Hko' as <-. split; [done|]. exact Hg2.
  - rewrite se_bind_ret. destruct (put_data_new_run w1 L1 q e d packet' Hi1 He) as [Hrun3 Hi3].
    eexists _, _, L1. split; [exact Hrun3|]. split; [exact Hi3|].
    split; [exact Htries|]. exists (state e).
    rewrite (abs_payload w1 L1 _ q _ Hi1 Hk), Hsd, lookup_insert_eq, delete_insert_eq.
    rewrite a_take_data_none by (intros ko; apply (find_orig_none w original ko Ho)).
    split; [done|]. split; [done|]. split; [done|]. split; [done|].
    intros ko Hko [c Hc]. by rewrite (find_orig_none w original ko Ho Hko) in Hc.
Qed.

(** C9: [fr_state_put_data] implements the abstract [a_put_data] when the
    previous session is absent or holds a payload: it returns, keeps the
    invariant and, read as a map from States to sessions, when it fails it
    only loses sessions the cleanup loop frees at [now]; when it succeeds it
    files under the key of the reply's State a new session holding [d], takes
    [d] away from the previous session, which it otherwise keeps, and loses no
    other session but those the cleanup loop frees at [now] (expired, or
    holding neither attributes nor data). *)
Theorem put_data_refines w L now rnd has_state original packet d :
  inv_with w L -> old_ok w L (find_orig w original) -> attr_ok packet ->
  (forall c, original ≫= a_find (abs_store w) = Some c -> s_data c <> None) ->
  exists res w' L', fr_state_put_data cfg now rnd has_state original packet d w = Ok (res, w') /\
    inv_with w' L' /\ a_put_data cfg now (abs_store w) has_state original packet d res (abs_store w').
Proof. apply put_data_refines_run. Qed.
End PutDataRefine.

(** ** Every call that returns is an abstract step *)

(** The previous entry holds a payload (or there is none). *)
Definition old_has_data `{RbTree T} (w : world T) (original : option radius_packet) : Prop :=
  match find_orig w original with
  | Some o => data (w_heap w !!! o) <> None
  | None => True
  end.

#[export] Instance old_has_data_dec `{RbTree T} (w : world T) original :
  Decision (old_has_data w original).
Proof. unfold old_has_data. destruct (find_orig w original); apply _. Defined.

(** The abstract machine: one step per call of the API. *)
Inductive a_step (cfg : config) : astore -> astore -> Prop :=
| a_step_discard s original : a_step cfg s (a_discard s original)
| a_step_get_vps s req packet :
    request_state req = [] -> a_step cfg s (snd (a_get_vps s req packet))
| a_step_put_vps s s' now req original packet res :
    a_put_vps cfg now s req original packet res s' -> a_step cfg s s'
| a_step_read s : a_step cfg s s
| a_step_get_data s packet : a_step cfg s (snd (a_get_data s packet))
| a_step_put_data s s' now hs original packet d res :
    a_put_data cfg now s hs original packet d res s' -> a_step cfg s s'.

Section Steps.
Context `{RbTreeLaws T}.
Context (cfg : config).
Implicit Types (w : world T) (L : list ptr).

(** A call of [state_entry_create] from a put function that returns NULL
    without the checks passing only loses sessions. *)
Lemma put_create_cases w L now rnd packet original ent pk w2 :
  inv_with w L -> vp_bytes packet ->
  state_entry_create cfg now rnd packet (find_orig w original) w = Ok ((ent, pk), w2) ->
  (old_ok w L (find_orig w original) /\ attr_ok packet) \/
  (ent = None /\ abs_store w2 ⊆ abs_store w /\ a_lost_ok now (abs_store w) (abs_store w2) original).
Proof.
  intros Hi Hb Hc.
  destruct (state_entry_create_ok_cases cfg w L now rnd packet _ _ w2 Hi
              (fun o => find_orig_in w L original o Hi) Hb Hc)
    as [?|(Hent & (L2 & Hi2 & _ & Hst) & Hc2)]; [by left|right].
  split; [done|]. split; [exact (abs_sub w L w2 L2 Hi Hi2 Hc2)|].
  apply (abs_lost_ok w L w2 L2); [done|done| |done]. intros q Hq Hq'. right. by apply Hst.
Qed.

Lemma put_vps_abs_step w L now rnd req original packet r w' :
  inv_with w L -> vp_bytes packet ->
  fr_state_put_vps cfg now rnd req original packet w = Ok (r, w') ->
  a_put_vps cfg now (abs_store w) req original packet r (abs_store w').
Proof.
  intros Hi Hb Hr.
  destruct (decide (old_ok w L (find_orig w original) /\ attr_ok packet)) as [[Hold Ha]|Hn].
  { destruct (put_vps_refines_run cfg w L now rnd req original packet Hi Hold Ha)
      as (res & w'' & L'' & Hrun & _ & Hs).
    rewrite Hrun in Hr. by injection Hr as <- <-. }
  unfold fr_state_put_vps in Hr. unfold a_put_vps.
  case_bool_decide; [by injection Hr as <- <-|].
  se_inv Hr as (old & w1 & Ho & Hr). rewrite find_original_run in Ho. injection Ho as <- <-.
  se_inv Hr as ([ent pk] & w2 & Hc & Hr).
  destruct (put_create_cases w L now rnd packet original ent pk w2 Hi Hb Hc)
    as [?|(-> & Hsub & Hl)]; [done|].
  by injection Hr as <- <-.
Qed.

Lemma put_data_abs_step w L now rnd hs original packet d r w' :
  inv_with w L -> vp_bytes packet ->
  fr_state_put_data cfg now rnd hs original packet d w = Ok (r, w') ->
  a_put_data cfg now (abs_store w) hs original packet d r (abs_store w').
Proof.
  intros Hi Hb Hr.
  destruct (decide (old_ok w L (find_orig w original) /\ attr_ok packet /\
                    old_has_data w original)) as [(Hold & Ha & Hd)|Hn].
  { assert (Hd' : forall c, original ≫= a_find (abs_store w) = Some c -> s_data c <> None).
    { intros c. rewrite a_find_orig. unfold old_has_data in Hd.
      destruct (find_orig w original); [|done]. by intros [= <-]. }
    destruct (put_data_refines_run cfg w L now rnd hs original packet d Hi Hold Ha Hd')
      as (res & w'' & L'' & Hrun & _ & Hs).
    rewrite Hrun in Hr. by injection Hr as <- <-. }
  unfold fr_state_put_data in Hr. unfold a_put_data.
  destruct hs; cbn [negb] in Hr |- *; [|by injection Hr as <- <-].
  se_inv Hr as (old & w1 & Ho & Hr). rewrite find_original_run in Ho. injection Ho as <- <-.
  se_inv Hr as ([ent pk] & w2 & Hc & Hr).
  destruct (put_create_cases w L now rnd packet original ent pk w2 Hi Hb Hc)
    as [[Hold Ha]|(-> & Hsub & Hl)]; [|by injection Hr as <- <-].
  destruct (create_abs cfg w L now rnd packet original Hi Hold Ha)
    as (res & w3 & L3 & Hrun & _ & Hres).
  rewrite Hrun in Hc. injection Hc as -> ->.
  destruct ent as [q|]; [|by injection Hr as <- <-].
  destruct Hres as (_ & _ & _ & _ & _ & _ & _ & _ & Hfr & _).
  unfold old_has_data in Hn. destruct (find_orig w original) as [o|]; [|naive_solver].
  destruct (decide (data (w_heap w !!! o) = None)) as [Hdo|Hdo]; [|naive_solver].
  assert (Hl : load o w2 = Crash UseAfterFree) by (unfold load; by rewrite (Hfr o eq_refl Hdo)).
  cbn beta iota in Hr. rewrite se_bind_assoc in Hr.
  by rewrite (se_bind_crash _ _ _ _ Hl) in Hr.
Qed.
End Steps.

Section Simulation.
Context `{RbTreeLaws T}.
Context (cfg : config).
Implicit Types (w : world T) (L : list ptr).

(** Each call of the API that returns moves the abstract store by one
    step of the abstract machine. *)
Lemma api_step_abs w w' : inv w -> api_step cfg w w' -> a_step cfg (abs_store w) (abs_store w').
Proof.
  intros [L Hi] Hs. destruct Hs as [w w' req orig r Hr|w w' req packet r Hr|
    w w' now rnd req orig packet r Hb Hr|w w' hs packet r Hr|w w' hs packet r Hr|
    w w' now rnd hs orig packet d r Hb Hr].
  - destruct (discard_refines_run w L req orig Hi) as (w'' & L'' & Hrun & _ & Ha).
    rewrite Hrun in Hr. injection Hr as _ <-. rewrite Ha. constructor.
  - destruct (decide (request_state req = [])) as [Hq|Hq].
    + destruct (get_vps_refines_run w L req packet Hi Hq) as (w'' & Hrun & _ & Ha).
      rewrite Hrun in Hr. injection Hr as _ <-. rewrite Ha. by constructor.
    + unfold fr_state_get_vps, rad_assert in Hr.
      by rewrite bool_decide_eq_false_2 in Hr.
  - eapply a_step_put_vps. exact (put_vps_abs_step cfg w L now rnd req orig packet r w' Hi Hb Hr).
  - rewrite (find_data_refines_run w L hs packet Hi) in Hr. injection Hr as _ <-. constructor.
  - destruct hs; [|injection Hr as _ <-; constructor].
    destruct (get_data_refines_run w L packet Hi) as (w'' & Hrun & _ & Ha).
    rewrite Hrun in Hr. injection Hr as _ <-. rewrite Ha. constructor.
  - eapply a_step_put_data.
    exact (put_data_abs_step cfg w L now rnd hs orig packet d r w' Hi Hb Hr).
Qed.

Lemma api_steps_abs w w' :
  inv w -> rtc (api_step cfg) w w' -> rtc (a_step cfg) (abs_store w) (abs_store w').
Proof.
  intros Hi Hr. revert Hi. induction Hr as [|w1 w2 w3 Hs _ IH]; intros Hi; [done|].
  eapply rtc_l; [exact (api_step_abs w1 w2 Hi Hs)|]. apply IH. exact (api_step_inv cfg w1 w2 Hi Hs).
Qed.

Lemma abs_fresh_state ms : abs_store (T := T) (fresh_state ms) = ∅.
Proof. unfold abs_store, fresh_state. simpl. by rewrite rb_abs_empty, fmap_empty. Qed.

Lemma reachable_abs has_ctx mr ms w :
  rtc (api_step cfg) (fst (fr_state_init None has_ctx mr ms)) w ->
  rtc (a_step cfg) ∅ (abs_store w).
Proof.
  intros Hr. assert (Hinit : abs_store (fst (fr_state_init None has_ctx mr ms)) = ∅)
    by (destruct has_ctx; apply abs_fresh_state).
  rewrite <- Hinit. apply api_steps_abs; [|done]. apply fr_state_init_inv.
Qed.
End Simulation.

(** ** The retry count stays an [int] *)

Definition sess_tries_ok (s : astore) : Prop :=
  map_Forall (fun _ c => (0 <= s_tries c <= INT_MAX)%Z) s.

Lemma tries_ok_sub s s' : s' ⊆ s -> sess_tries_ok s -> sess_tries_ok s'.
Proof. intros Hsub Hs k c Hk. apply (Hs k c). by eapply lookup_weaken. Qed.

Lemma tries_ok_new s s' k c :
  sess_tries_ok s -> delete k s' ⊆ s -> s' !! k = Some c -> (0 <= s_tries c <= INT_MAX)%Z ->
  sess_tries_ok s'.
Proof.
  intros Hs Hsub Hk Hc k' c' Hk'. destruct (decide (k' = k)) as [->|Hne]; [congruence|].
  apply (Hs k' c'). eapply lookup_weaken; [|exact Hsub]. by rewrite lookup_delete_ne.
Qed.

Lemma tries_ok_insert s k c c' :
  sess_tries_ok s -> s !! k = Some c -> s_tries c' = s_tries c -> sess_tries_ok (<[k := c']> s).
Proof. intros Hs Hk Ht. apply map_Forall_insert_2; [rewrite Ht; exact (Hs k c Hk)|done]. Qed.

Lemma new_sess_tries cfg now s original l d :
  sess_tries_ok s -> a_tries_ok s original ->
  (0 <= s_tries (new_sess cfg now s original l d) <= INT_MAX)%Z.
Proof.
  unfold a_tries_ok, new_sess. simpl. intros Hs.
  destruct (original ≫= a_find s) as [c|] eqn:Ec; [|unfold INT_MAX; lia].
  destruct original as [orig|]; [|discriminate]. simpl in Ec. unfold a_find in Ec.
  destruct (state_key orig) as [k|]; [|discriminate]. simpl in Ec.
  pose proof (Hs k c Ec) as Hc. unfold int_in_range. rewrite andb_true_iff, !Z.leb_le.
  unfold INT_MIN, INT_MAX in *. lia.
Qed.

Lemma a_take_data_tries s original d : sess_tries_ok s -> sess_tries_ok (a_take_data s original d).
Proof.
  intros Hs. unfold a_take_data. repeat case_match; try done.
  by eapply tries_ok_insert.
Qed.

Lemma a_step_tries cfg s s' : a_step cfg s s' -> sess_tries_ok s -> sess_tries_ok s'.
Proof.
  intros Hst Hs. destruct Hst as [s orig|s req packet _|s s' now req orig packet res Ha|s|
    s packet|s s' now hs orig packet d res Ha].
  - unfold a_discard. case_match; [by apply map_Forall_delete|done].
  - unfold a_get_vps. repeat case_match; simpl; try done. by eapply tries_ok_insert.
  - unfold a_put_vps in Ha. case_bool_decide; [by destruct Ha as [_ ->]|].
    destruct res as [[[] req'] packet']; [|exact (tries_ok_sub s s' (proj1 (proj2 Ha)) Hs)].
    destruct Ha as (_ & Htr & k & _ & Hk & Hsub & _).
    exact (tries_ok_new s s' k _ Hs Hsub Hk (new_sess_tries _ _ _ _ _ _ Hs Htr)).
  - done.
  - unfold a_get_data. repeat case_match; simpl; try done. by eapply tries_ok_insert.
  - unfold a_put_data in Ha. destruct hs; cbn [negb] in Ha; [|by destruct Ha as [_ ->]].
    destruct res as [[] packet']; [|exact (tries_ok_sub s s' (proj1 Ha) Hs)].
    destruct Ha as (Htr & k & _ & Hk & Hsub & _).
    exact (tries_ok_new _ s' k _ (a_take_data_tries s orig d Hs) Hsub Hk
             (new_sess_tries _ _ _ _ _ _ Hs Htr)).
Qed.

Lemma a_steps_tries cfg s s' : rtc (a_step cfg) s s' -> sess_tries_ok s -> sess_tries_ok s'.
Proof.
  induction 1 as [|s1 s2 s3 Hst _ IH]; [done|]. intros Hs. by eapply IH, a_step_tries.
Qed.

Section TriesRange.
Context `{RbTreeLaws T}.
Context (cfg : config).
Implicit Types (w : world T).

(** the [int] field [tries] stays in range: in every reachable state
    every live entry has a retry count between 0 and [INT_MAX], since a
    continuation that would overflow it aborts (line 256).  Proved on the
    abstract machine through [reachable_abs]. *)
Theorem reachable_tries_range has_ctx mr ms w :
  rtc (api_step cfg) (fst (fr_state_init None has_ctx mr ms)) w ->
  map_Forall (fun _ e => (0 <= tries e <= INT_MAX)%Z) (w_heap w).
Proof.
  intros Hr p e He.
  assert (Hs : sess_tries_ok (abs_store w))
    by (eapply a_steps_tries; [exact (reachable_abs cfg has_ctx mr ms w Hr)|apply map_Forall_empty]).
  destruct (reachable_inv_with cfg has_ctx mr ms w Hr) as [L Hi].
  assert (Hp : p ∈ L) by (apply (inv_in_heap w L p Hi); by eexists).
  pose proof (Hs (st_of (w_heap w) p) (sess_of e)) as Hc. simpl in Hc. apply Hc.
  rewrite abs_store_lookup, (tree_entry w L p Hi Hp). simpl.
  by rewrite (lookup_total_correct _ _ _ He).
Qed.
End TriesRange.

(** ** Examples and witnesses *)

(** Three calls on [ex_world]: take the data of the second session, look
    for it again, and discard the first session. *)
Definition ex_calls : list api_call :=
  [CallGetData true ex_echo2; CallFindData true ex_echo2; CallDiscard ex_req ex_echo1].

(** The abstract store of [ex_world]: the two sessions by their States. *)
Example ex_world_abs :
  abs_store ex_world =
    {[ ex_s1 := mk_sess 100 0 [] None; ex_s2 := mk_sess 200 3 [] (Some 7%positive) ]}.
Proof. vm_compute. reflexivity. Qed.

Lemma run_calls_refines_witness :
  inv_with ex_world [1%positive; 2%positive] /\ Forall call_ok ex_calls /\
  exists w' L', run_calls ex_calls ex_world = Ok (fst (a_calls ex_calls (abs_store ex_world)), w') /\
    inv_with w' L'.
Proof.
  split; [decide_vm|]. split; [repeat constructor|].
  destruct (run_calls_refines ex_world [1%positive; 2%positive] ex_calls ltac:(decide_vm)
              ltac:(repeat constructor)) as (w' & L' & Hr & Hi & _).
  exists w', L'. split; assumption.
Defined.


Lemma put_data_refines_witness :
  inv_with ex_world [1%positive; 2%positive] /\
  old_ok ex_world [1%positive; 2%positive] (find_orig ex_world (Some ex_echo2)) /\
  exists res w' L', fr_state_put_data ex_cfg 50 ex_rnd true (Some ex_echo2) (mk_packet [])
                      (Some 7%positive) ex_world = Ok (res, w') /\ inv_with w' L'.
Proof.
  split; [decide_vm|]. split; [decide_vm|].
  destruct (put_data_refines ex_cfg ex_world [1%positive; 2%positive] 50 ex_rnd true
              (Some ex_echo2) (mk_packet []) (Some 7%positive) ltac:(decide_vm) ltac:(decide_vm) I)
    as (res & w' & L' & Hr & Hi & _).
  { intros c Hc. vm_compute in Hc. injection Hc as <-. discriminate. }
  exists res, w', L'. split; assumption.
Defined.

Lemma reachable_tries_range_witness :
  rtc (api_step ex_cfg) (fst (fr_state_init None true 0 4)) ex_session /\
  map_Forall (fun _ e => (0 <= tries e <= INT_MAX)%Z) (w_heap ex_session).
Proof.
  assert (Hr : rtc (api_step ex_cfg) (fst (fr_state_init None true 0 4)) ex_session)
    by (apply rtc_once, ex_session_step).
  split; [exact Hr|]. exact (reachable_tries_range ex_cfg true 0 4 ex_session Hr).
Defined.
