(* ===== verification/Expiry.v ===== *)
(** * The cleanup list stays in expiry order

    [state_entry_create] stamps each new entry with the expiry
    [now + max_request_time * 10] (line 242) and links it at the tail
    (lines 320-336); every other operation only removes entries or
    rewrites their payload.  So, as long as the clock [time(NULL)] that
    [state_entry_create] reads never goes back, the cleanup list is
    sorted by expiry and no entry expires later than the current time
    plus the lifetime ([expiry_ok]).  The API driven by such a clock is
    [clocked_step]; [clocked_expiry] proves the invariant on every state
    it reaches, and with [Cleanup.sweep_list_expired] it gives that the
    cleanup loop of every creation removes every expired session except
    the one being continued ([clocked_sweep_removes_expired]). *)

From Stdlib Require Import ZArith Lia.
From stdpp Require Import sorting.
From S2P Require Import Prelude Token Pairs RbTree Entry Store Cleanup Create Session.

(** The lifetime of an entry: [main_config.max_request_time * 10],
    converted as the code converts it. *)
Definition lifetime (cfg : config) : Z := u32 (max_request_time cfg * 10).

(** The list [L] of heap [h] is sorted by expiry and nothing expires
    after [t + lifetime]. *)
Definition expiry_ok (cfg : config) (t : Z) (h : heap) (L : list ptr) : Prop :=
  expiry_sorted h L /\ Forall (fun p => (cleanup (h !!! p) <= t + lifetime cfg)%Z) L.

(** The API driven by a clock: [t] is the value of [time(NULL)] that
    [state_entry_create] reads, and it never goes back. *)
Inductive clocked_step `{RbTree T} (cfg : config) : Z * world T -> Z * world T -> Prop :=
| clock_tick t t' w : (t <= t')%Z -> clocked_step cfg (t, w) (t', w)
| clock_discard t w w' req original r :
    fr_state_discard req original w = Ok (r, w') -> clocked_step cfg (t, w) (t, w')
| clock_get_vps t w w' req packet r :
    fr_state_get_vps req packet w = Ok (r, w') -> clocked_step cfg (t, w) (t, w')
| clock_put_vps t w w' rnd req original packet r :
    vp_bytes packet -> fr_state_put_vps cfg t rnd req original packet w = Ok (r, w') ->
    clocked_step cfg (t, w) (t, w')
| clock_find_data t w w' hs packet r :
    fr_state_find_data hs packet w = Ok (r, w') -> clocked_step cfg (t, w) (t, w')
| clock_get_data t w w' hs packet r :
    fr_state_get_data hs packet w = Ok (r, w') -> clocked_step cfg (t, w) (t, w')
| clock_put_data t w w' rnd hs original packet d r :
    vp_bytes packet -> fr_state_put_data cfg t rnd hs original packet d w = Ok (r, w') ->
    clocked_step cfg (t, w) (t, w').

(** ** The order survives removals and appends *)

Lemma expiry_ok_keep cfg t t' h h' L L' :
  (t <= t')%Z -> L' `sublist_of` L ->
  (forall q, q ∈ L' -> cleanup (h' !!! q) = cleanup (h !!! q)) ->
  expiry_ok cfg t h L -> expiry_ok cfg t' h' L'.
Proof.
  intros Ht Hs Hc [Hsort Hb].
  assert (Hf : (fun p => cleanup (h' !!! p)) <$> L' = (fun p => cleanup (h !!! p)) <$> L')
    by (apply list_fmap_ext; intros i x Hx; apply Hc; by eapply list_elem_of_lookup_2).
  split.
  - unfold expiry_sorted. rewrite Hf. eapply StronglySorted_sublist; [|exact Hsort].
    by apply fmap_sublist.
  - rewrite Forall_forall in Hb |- *. intros q Hq. rewrite Hc by done.
    assert (q ∈ L) by (eapply elem_of_submseteq; [exact Hq|by apply sublist_submseteq]).
    specialize (Hb q ltac:(done)). lia.
Qed.

Lemma expiry_ok_snoc cfg t h h' L L0 q :
  L0 `sublist_of` L -> (forall p, p ∈ L0 -> cleanup (h' !!! p) = cleanup (h !!! p)) ->
  cleanup (h' !!! q) = (t + lifetime cfg)%Z ->
  expiry_ok cfg t h L -> expiry_ok cfg t h' (L0 ++ [q]).
Proof.
  intros Hs Hc Hq Hok. destruct (expiry_ok_keep cfg t t h h' L L0 ltac:(lia) Hs Hc Hok)
    as [Hsort0 Hb0].
  split.
  - unfold expiry_sorted. rewrite fmap_app. apply StronglySorted_app_2.
    + intros x1 x2 Hx1 Hx2. apply list_elem_of_fmap in Hx1 as (p & -> & Hp).
      rewrite Forall_forall in Hb0. specialize (Hb0 p Hp). simpl in Hx2.
      apply list_elem_of_singleton in Hx2 as ->. lia.
    + exact Hsort0.
    + simpl. repeat constructor.
  - apply Forall_app. split; [exact Hb0|]. constructor; [lia|constructor].
Qed.

(** The clock moving on keeps the order. *)
Lemma expiry_ok_later cfg t t' h L :
  (t <= t')%Z -> expiry_ok cfg t h L -> expiry_ok cfg t' h L.
Proof. intros Ht. apply (expiry_ok_keep cfg t t' h h L L Ht); done. Qed.

(** Entries whose contents a step keeps keep their expiry. *)
Lemma content_sub_cleanup h h' q :
  content_sub h h' -> is_Some (h' !! q) -> cleanup (h' !!! q) = cleanup (h !!! q).
Proof.
  intros Hc Hq. pose proof (content_sub_total h h' q Hc Hq) as He.
  unfold entry_content in He. congruence.
Qed.

(** ** Each call keeps the order *)

Section Keep.
Context `{RbTreeLaws T}.
Context (cfg : config).
Implicit Types (w : world T) (L : list ptr).

(** Load an entry, rewrite its payload, store it back: the expiry does
    not move. *)
Lemma payload_expiry w L t p (f : state_entry_t -> state_entry_t) e w1 u w' :
  inv_with w L -> expiry_ok cfg t (w_heap w) L ->
  load p w = Ok (e, w1) -> store p (f e) w1 = Ok (u, w') ->
  state (f e) = state e -> prev (f e) = prev e -> next (f e) = next e ->
  cleanup (f e) = cleanup e ->
  inv_with w' L /\ expiry_ok cfg t (w_heap w') L.
Proof.
  intros Hi Hx Hl Hs Hst Hp Hn Hc.
  split; [by eapply (load_store_payload_inv w L p f)|].
  apply load_Ok_inv in Hl as [-> He]. apply store_Ok_inv in Hs as [-> _].
  apply (expiry_ok_keep cfg t t (w_heap w) _ L L); [lia|done| |done].
  intros q _. simpl. destruct (decide (p = q)) as [<-|Hne].
  - by rewrite lookup_total_insert_eq, (lookup_total_correct _ _ _ He).
  - by rewrite lookup_total_insert_ne.
Qed.

Lemma create_expiry w L t rnd packet old ent pk w2 :
  inv_with w L -> expiry_ok cfg t (w_heap w) L -> vp_bytes packet ->
  (forall o, old = Some o -> o ∈ L) ->
  state_entry_create cfg t rnd packet old w = Ok ((ent, pk), w2) ->
  exists L2, inv_with w2 L2 /\ expiry_ok cfg t (w_heap w2) L2.
Proof.
  intros Hi Hx Hb Hin Hc.
  assert (Hkeep : forall L2, inv_with w2 L2 -> L2 `sublist_of` L ->
                    content_sub (w_heap w) (w_heap w2) -> expiry_ok cfg t (w_heap w2) L2).
  { intros L2 Hi2 Hs2 Hc2. apply (expiry_ok_keep cfg t t (w_heap w) _ L L2); [lia|done| |done].
    intros q Hq. apply content_sub_cleanup; [done|]. by apply (inv_in_heap w2 L2 q Hi2). }
  destruct (state_entry_create_ok_cases cfg w L t rnd packet old _ w2 Hi Hin Hb Hc)
    as [[Hold Ha]|(_ & (L2 & Hi2 & Hs2 & _) & Hc2)]; [|eauto].
  destruct (state_entry_create_correct cfg w L t rnd packet old Hi Hold Ha)
    as (res & w3 & L3 & Hrun & Hi3 & _ & Hres).
  rewrite Hrun in Hc. injection Hc as -> ->. exists L3. split; [done|].
  destruct ent as [q|]; [|destruct Hres as [Hc3 Hs3]; eauto].
  destruct Hres as (_ & _ & (L0 & -> & Hs0) & _ & _ & Hcs & e & He & Hnew).
  apply (expiry_ok_snoc cfg t (w_heap w) _ L L0 q Hs0); [|by rewrite (lookup_total_correct _ _ _ He); destruct Hnew as (_ & ? & _)|done].
  intros p Hp. pose proof Hi3 as (_ & Hnd & _). apply NoDup_app in Hnd as (_ & Hdis & _).
  assert (Hpq : q <> p) by (intros ->; apply (Hdis p Hp); set_solver).
  rewrite <- (lookup_total_delete_ne (w_heap w2) q p Hpq). apply content_sub_cleanup; [done|].
  rewrite lookup_delete_ne by done. apply (inv_in_heap w2 _ p Hi3). set_solver.
Qed.
(** The store after one call, in the order the call leaves. *)
Definition clock_inv `{RbTree T} (cfg : config) (t : Z) (w : world T) : Prop :=
  exists L, inv_with w L /\ expiry_ok cfg t (w_heap w) L.

Lemma discard_expiry w L t req original r w' :
  inv_with w L -> expiry_ok cfg t (w_heap w) L ->
  fr_state_discard req original w = Ok (r, w') -> clock_inv cfg t w'.
Proof.
  intros Hi Hx Hr. unfold fr_state_discard in Hr.
  se_inv Hr as (f & w1 & Hf & Hr). rewrite state_entry_find_run in Hf. injection Hf as <- <-.
  destruct (find_result w original) as [p|] eqn:Ef; [|injection Hr as _ <-; by exists L].
  pose proof (find_result_in w L original p Hi Ef) as Hp.
  apply list_elem_of_split in Hp as (L1 & L2 & ->).
  destruct (state_entry_free_correct w L1 p L2 Hi) as (w1 & Hrun & Hi1 & _ & Hc1 & _).
  se_inv Hr as (u & w2 & Hfr & Hr). rewrite Hrun in Hfr. injection Hfr as <- <-.
  injection Hr as _ <-. exists (L1 ++ L2). split; [done|].
  apply (expiry_ok_keep cfg t t (w_heap w) _ (L1 ++ p :: L2)); [lia| |intros q Hq|done].
  - apply sublist_app; [done|by apply sublist_cons].
  - apply content_sub_cleanup; [done|]. by apply (inv_in_heap w1 _ q Hi1).
Qed.

Lemma get_vps_expiry w L t req packet r w' :
  inv_with w L -> expiry_ok cfg t (w_heap w) L ->
  fr_state_get_vps req packet w = Ok (r, w') -> clock_inv cfg t w'.
Proof.
  intros Hi Hx Hr. unfold fr_state_get_vps in Hr.
  se_inv Hr as (u & w1 & Ha & Hr). apply rad_assert_Ok_inv in Ha as [_ ->].
  destruct (find_state (packet_vps (request_packet req))); [|injection Hr as _ <-; by exists L].
  se_inv Hr as (f & w2 & Hf & Hr). rewrite state_entry_find_run in Hf.
  injection Hf as <- <-. destruct (find_result w packet) as [p|]; [|injection Hr as _ <-; by exists L].
  se_inv Hr as (e & w3 & Hl & Hr). cbn [pairfilter_all] in Hr.
  se_inv Hr as (u' & w4 & Hs & Hr). injection Hr as _ <-.
  exists L. by eapply (payload_expiry w L t p (fun e => set_vps e _)).
Qed.

Lemma get_data_expiry w L t hs packet r w' :
  inv_with w L -> expiry_ok cfg t (w_heap w) L ->
  fr_state_get_data hs packet w = Ok (r, w') -> clock_inv cfg t w'.
Proof.
  intros Hi Hx Hr. unfold fr_state_get_data in Hr.
  destruct hs; cbn [negb] in Hr; [|injection Hr as _ <-; by exists L].
  se_inv Hr as (f & w2 & Hf & Hr). rewrite state_entry_find_run in Hf.
  injection Hf as <- <-. destruct (find_result w packet) as [p|]; [|injection Hr as _ <-; by exists L].
  se_inv Hr as (e & w3 & Hl & Hr). se_inv Hr as (u' & w4 & Hs & Hr). injection Hr as _ <-.
  exists L. by eapply (payload_expiry w L t p (fun e => set_data e None)).
Qed.

Lemma put_vps_expiry w L t rnd req original packet r w' :
  inv_with w L -> expiry_ok cfg t (w_heap w) L -> vp_bytes packet ->
  fr_state_put_vps cfg t rnd req original packet w = Ok (r, w') -> clock_inv cfg t w'.
Proof.
  intros Hi Hx Hb Hr. unfold fr_state_put_vps in Hr.
  case_bool_decide; [injection Hr as _ <-; by exists L|].
  se_inv Hr as (old & w1 & Ho & Hr). rewrite find_original_run in Ho. injection Ho as <- <-.
  se_inv Hr as ([ent pk] & w2 & Hc & Hr).
  destruct (create_expiry w L t rnd packet _ ent pk w2 Hi Hx Hb
              (fun o => find_orig_in w L original o Hi) Hc) as (L2 & Hi2 & Hx2).
  destruct ent as [p|]; [|injection Hr as _ <-; by exists L2].
  se_inv Hr as (e & w3 & Hl & Hr). cbn [pairfilter_all] in Hr.
  se_inv Hr as (u & w4 & Hs & Hr). se_inv Hr as (u' & w5 & Ha & Hr).
  apply rad_assert_Ok_inv in Ha as [_ ->]. injection Hr as _ <-.
  exists L2. by eapply (payload_expiry w2 L2 t p (fun e => set_vps e _)).
Qed.

Lemma put_data_expiry w L t rnd hs original packet d r w' :
  inv_with w L -> expiry_ok cfg t (w_heap w) L -> vp_bytes packet ->
  fr_state_put_data cfg t rnd hs original packet d w = Ok (r, w') -> clock_inv cfg t w'.
Proof.
  intros Hi Hx Hb Hr. unfold fr_state_put_data in Hr.
  destruct hs; cbn [negb] in Hr; [|injection Hr as _ <-; by exists L].
  se_inv Hr as (old & w1 & Ho & Hr). rewrite find_original_run in Ho. injection Ho as <- <-.
  se_inv Hr as ([ent pk] & w2 & Hc & Hr).
  destruct (create_expiry w L t rnd packet _ ent pk w2 Hi Hx Hb
              (fun o => find_orig_in w L original o Hi) Hc) as (L2 & Hi2 & Hx2).
  destruct ent as [p|]; [|injection Hr as _ <-; by exists L2].
  se_inv Hr as (u & w4 & Hold & Hr).
  assert (Hx4 : inv_with w4 L2 /\ expiry_ok cfg t (w_heap w4) L2).
  { destruct (find_orig w original) as [o|]; [|by injection Hold as _ <-].
    se_inv Hold as (eo & w5 & Hl & Hold).
    case_bool_decide; [|apply load_Ok_inv in Hl as [-> _]; by injection Hold as _ <-].
    by eapply (payload_expiry w2 L2 t o (fun e => set_data e None)). }
  destruct Hx4 as [Hi4 Hx4'].
  se_inv Hr as (e & w5 & Hl & Hr). se_inv Hr as (u' & w6 & Hs & Hr). injection Hr as _ <-.
  exists L2. by eapply (payload_expiry w4 L2 t p (fun e => set_data e d)).
Qed.
End Keep.

Section Clocked.
Context `{RbTreeLaws T}.
Context (cfg : config).
Implicit Types (w : world T).

Lemma clocked_step_inv t w t' w' :
  clock_inv cfg t w -> clocked_step cfg (t, w) (t', w') -> clock_inv cfg t' w'.
Proof.
  intros (L & Hi & Hx) Hs. inversion Hs; subst.
  - exists L. split; [done|]. by apply (expiry_ok_later cfg t t').
  - by eapply discard_expiry.
  - by eapply get_vps_expiry.
  - by eapply put_vps_expiry.
  - exists L. by rewrite (fr_state_find_data_inv w L hs packet r w').
  - by eapply get_data_expiry.
  - by eapply put_data_expiry.
Qed.

Lemma clocked_steps_inv tw tw' :
  rtc (clocked_step cfg) tw tw' -> clock_inv cfg (fst tw) (snd tw) -> clock_inv cfg (fst tw') (snd tw').
Proof.
  induction 1 as [|[t1 w1] [t2 w2] tw3 Hs _ IH]; [done|]. intros Hc. apply IH.
  exact (clocked_step_inv t1 w1 t2 w2 Hc Hs).
Qed.

(** [clock_inv] holds from the start. *)
Lemma clocked_expiry t0 has_ctx mr ms t w :
  rtc (clocked_step cfg) (t0, fst (fr_state_init None has_ctx mr ms)) (t, w) ->
  clock_inv cfg t w.
Proof.
  intros Hr. apply (clocked_steps_inv _ _ Hr). simpl.
  exists []. split; [destruct has_ctx; apply fresh_state_inv|]. split; constructor.
Qed.
End Clocked.

Section Live.
Context `{RbTreeLaws T}.
Context (cfg : config).
Implicit Types (w : world T).

(** C14: with a clock that never goes back, no expired session survives the
    next creation: in every state reachable from a new store by calls of the
    API that return, the cleanup loop that starts [state_entry_create] at any
    time [now] returns and leaves no entry that expired before [now] except
    the one being continued, although it stops at the first live entry. *)
Theorem clocked_sweep_removes_expired t0 has_ctx mr ms t w now old :
  rtc (clocked_step cfg) (t0, fst (fr_state_init None has_ctx mr ms)) (t, w) ->
  exists w', state_sweep (size (w_heap w)) now old (head (w_state w)) w = Ok (tt, w') /\
    map_Forall (fun p e => Some p <> old -> (now <= cleanup e)%Z) (w_heap w').
Proof.
  intros Hr. destruct (clocked_expiry cfg t0 has_ctx mr ms t w Hr) as (L & Hi & Hs & _).
  exact (state_sweep_removes_expired w L now old Hi Hs).
Qed.
End Live.

Lemma clocked_sweep_removes_expired_witness :
  rtc (clocked_step ex_cfg) (50%Z, fst (fr_state_init None true 0 4)) (50%Z, ex_session) /\
  exists w', state_sweep (size (w_heap ex_session)) 1000 None (head (w_state ex_session))
               ex_session = Ok (tt, w') /\
             map_Forall (fun p e => Some p <> None -> (1000 <= cleanup e)%Z) (w_heap w').
Proof.
  assert (Hr : rtc (clocked_step ex_cfg) (50%Z, fst (fr_state_init None true 0 4))
                 (50%Z, ex_session)).
  { apply rtc_once.
    apply (clock_put_vps ex_cfg 50 ex_init ex_session ex_rnd ex_req None (mk_packet [])
             (true, mk_request (mk_packet []) [],
              mk_packet [pair_state (state (w_heap ex_session !!! 1%positive))]));
      [exact I|vm_compute; reflexivity]. }
  split; [exact Hr|].
  destruct (clocked_sweep_removes_expired ex_cfg 50 true 0 4 50 ex_session 1000 None Hr)
    as (w' & Hrun & Hall).
  exists w'. split; assumption.
Defined.

(** ** Without a monotone clock *)

(** The value an API call returns, or [d] when it aborts. *)
Definition ok_ret {A S} (r : result (A * S)) (d : A) : A :=
  match r with Ok (a, _) => a | Crash _ => d end.

(** A session cached at time 1000, then, the clock set back, one cached
    at time 0 with other random words. *)
Definition ex_rnd' (i : nat) : Z := ex_rnd (i + 4)%nat.

Definition ex_back1 : world (gmap (list Z) ptr) :=
  Eval vm_compute in
    ok_world (fr_state_put_vps ex_cfg 1000 ex_rnd ex_req None (mk_packet []) ex_init) ex_init.
Definition ex_back1_ret : bool * request * radius_packet :=
  Eval vm_compute in
    ok_ret (fr_state_put_vps ex_cfg 1000 ex_rnd ex_req None (mk_packet []) ex_init)
      (false, ex_req, mk_packet []).
Definition ex_back2 : world (gmap (list Z) ptr) :=
  Eval vm_compute in
    ok_world (fr_state_put_vps ex_cfg 0 ex_rnd' ex_req None (mk_packet []) ex_back1) ex_back1.
Definition ex_back2_ret : bool * request * radius_packet :=
  Eval vm_compute in
    ok_ret (fr_state_put_vps ex_cfg 0 ex_rnd' ex_req None (mk_packet []) ex_back1)
      (false, ex_req, mk_packet []).

(** The cleanup loop at time 500 on [ex_back2]. *)
Definition ex_back3 : world (gmap (list Z) ptr) :=
  Eval vm_compute in
    ok_world (state_sweep (size (w_heap ex_back2)) 500 None (head (w_state ex_back2)) ex_back2)
      ex_back2.

Lemma ex_back_steps : rtc (api_step ex_cfg) ex_init ex_back2.
Proof.
  eapply rtc_l; [|eapply rtc_l; [|apply rtc_refl]].
  - apply (step_put_vps ex_cfg ex_init ex_back1 1000 ex_rnd ex_req None (mk_packet [])
             ex_back1_ret); [exact I|vm_compute; reflexivity].
  - apply (step_put_vps ex_cfg ex_back1 ex_back2 0 ex_rnd' ex_req None (mk_packet [])
             ex_back2_ret); [exact I|vm_compute; reflexivity].
Qed.

(** the order needs the clock: when [time(NULL)] goes back, a session
    created later can expire earlier, and the cleanup loop, stopping at the
    first live entry, leaves it in the store long after it expired. *)
Example clock_back_keeps_expired :
  rtc (api_step ex_cfg) (fst (fr_state_init None true 0 4)) ex_back2 /\
  state_sweep (size (w_heap ex_back2)) 500 None (head (w_state ex_back2)) ex_back2 =
    Ok (tt, ex_back3) /\
  (cleanup (w_heap ex_back3 !!! 2%positive) < 500)%Z /\ is_Some (w_heap ex_back3 !! 2%positive).
Proof.
  split; [exact ex_back_steps|]. split; [vm_compute; reflexivity|].
  split; [vm_compute; reflexivity|]. vm_compute. by eexists.
Qed.
