(* ===== verification/Concurrency.v ===== *)
(** * The mutex of [fr_state_t] and concurrent callers

    [state.c] protects the store with [state->mutex]: every API function
    takes it with [PTHREAD_MUTEX_LOCK] after its request-local checks and
    releases it with [PTHREAD_MUTEX_UNLOCK] before returning (lines
    58-72, 378-386, 408-424, 449-468, 486-494, 511-520, 537-561); without
    [HAVE_PTHREAD_H] both macros are empty (lines 69-70).

    This file models callers as a pool of threads.  A thread's code for
    one call ([thread]) is what it does before taking the mutex (return
    early, or fail a [rad_assert]), the critical section as a sequence of
    atomic steps on the store ([cs]: one step per call of
    [state_entry_find], [state_entry_create], [state_entry_free] and per
    access to an entry), and what it checks after the unlock.  The pool
    ([conf]) steps one thread at a time ([tstep]), with the mutex
    ([locking = true]) or with the empty macros ([locking = false]).

    - [Pool], [Serial], [PoolFacts]: the step relation and, with the
      mutex, the invariant [ser_inv] (the threads that released the
      mutex ran one after the other; the owner is the only thread in a
      critical section, and its remainder ends as its whole call would).
    - [Sched]: [tstep_fn], the executable step of one thread, equivalent
      to [tstep] ([tstep_fn_iff]), and the scheduler [run_sched].
    - [Calls]: [thread_code] splits each API function of [Session.v] at
      the lines where it locks, steps and unlocks; run alone it is that
      function ([thread_code_run_eq]).
    - [ApiPool]: with the mutex, executions are serializable
      ([pool_serializable]), crashes too ([pool_crash_serializable]),
      the mutex excludes ([pool_exclusive]) and the store is well formed
      whenever it is free ([pool_store_inv]); the examples run two
      threads on [ex_world] with and without the mutex
      ([mutex_prevents_race]). *)

From Stdlib Require Import ZArith Lia.
From S2P Require Import Prelude Token Pairs RbTree Entry Store Cleanup Create Session.

(** ** Critical sections, threads and pools *)

(** A critical section: atomic steps on the shared state [W], each
    continuing with its result, until the value returned. *)
Inductive cs (W R : Type) : Type :=
| CsRet (r : R)
| CsStep {B : Type} (m : SE W B) (k : B -> cs W R).
Arguments CsRet {W R} r.
Arguments CsStep {W R B} m k.

(** A thread running one call. *)
Inductive thread (W R : Type) : Type :=
| TDone (r : R)                                (** returned [r] *)
| TAbort (e : crash)                           (** fails before locking *)
| TWait (c : cs W R) (post : R -> result R)    (** about to lock *)
| TCrit (c : cs W R) (post : R -> result R).   (** in the critical section *)
Arguments TDone {W R} r.
Arguments TAbort {W R} e.
Arguments TWait {W R} c post.
Arguments TCrit {W R} c post.

#[export] Instance thread_inhabited {W R} : Inhabited (thread W R) :=
  populate (TAbort AssertFailed).

(** The shared store, the owner of [state->mutex], the threads. *)
Record conf (W R : Type) := mk_conf {
  c_world : W;
  c_owner : option nat;
  c_threads : list (thread W R)
}.
Arguments mk_conf {W R} c_world c_owner c_threads.
Arguments c_world {W R} c.
Arguments c_owner {W R} c.
Arguments c_threads {W R} c.

Section Pool.
Context {W R : Type}.
Implicit Types (cf : conf W R) (t : thread W R) (c : cs W R).

(** One thread moves.  [PTHREAD_MUTEX_LOCK] waits for a free mutex and
    takes it; a step of a critical section runs on the shared store;
    [PTHREAD_MUTEX_UNLOCK] frees the mutex and the thread runs its
    request-local tail.  With [locking = false] the macros are empty. *)
Inductive tstep (locking : bool) : conf W R -> result (conf W R) -> Prop :=
| ts_lock cf i c post :
    c_threads cf !! i = Some (TWait c post) ->
    (locking = true -> c_owner cf = None) ->
    tstep locking cf (Ok (mk_conf (c_world cf) (if locking then Some i else None)
                            (<[i := TCrit c post]> (c_threads cf))))
| ts_exec cf i B (m : SE W B) k post b w' :
    c_threads cf !! i = Some (TCrit (CsStep m k) post) ->
    m (c_world cf) = Ok (b, w') ->
    tstep locking cf (Ok (mk_conf w' (c_owner cf) (<[i := TCrit (k b) post]> (c_threads cf))))
| ts_exec_crash cf i B (m : SE W B) k post e :
    c_threads cf !! i = Some (TCrit (CsStep m k) post) ->
    m (c_world cf) = Crash e ->
    tstep locking cf (Crash e)
| ts_unlock cf i r post r' :
    c_threads cf !! i = Some (TCrit (CsRet r) post) ->
    post r = Ok r' ->
    tstep locking cf (Ok (mk_conf (c_world cf) None (<[i := TDone r']> (c_threads cf))))
| ts_unlock_crash cf i r post e :
    c_threads cf !! i = Some (TCrit (CsRet r) post) ->
    post r = Crash e ->
    tstep locking cf (Crash e)
| ts_abort cf i e :
    c_threads cf !! i = Some (TAbort e) ->
    tstep locking cf (Crash e).

(** Executions: a pool reaches a pool, or a crash. *)
Inductive creach (locking : bool) : conf W R -> result (conf W R) -> Prop :=
| creach_refl cf : creach locking cf (Ok cf)
| creach_step cf cf' o : tstep locking cf (Ok cf') -> creach locking cf' o -> creach locking cf o
| creach_crash cf e : tstep locking cf (Crash e) -> creach locking cf (Crash e).

(** Sequential meaning: a critical section run to its end, a thread's
    whole call, and calls one after the other. *)
Fixpoint cs_run c : SE W R :=
  match c with
  | CsRet r => se_ret r
  | CsStep m k => se_bind m (fun b => cs_run (k b))
  end.

Definition lift_result (o : result R) : SE W R :=
  match o with Ok r => se_ret r | Crash e => se_crash e end.

Definition th_run t : SE W R :=
  match t with
  | TDone r => se_ret r
  | TAbort e => se_crash e
  | TWait c post | TCrit c post => let* r := cs_run c in lift_result (post r)
  end.

Fixpoint seq_run (ts : list (thread W R)) : SE W (list R) :=
  match ts with
  | [] => se_ret []
  | t :: ts => let* r := th_run t in let* rs := seq_run ts in se_ret (r :: rs)
  end.

Definition startable t : bool :=
  match t with TCrit _ _ => false | _ => true end.

Definition init_conf (w0 : W) (ts0 : list (thread W R)) : conf W R := mk_conf w0 None ts0.

Definition all_done cf : Prop :=
  Forall (fun t => match t with TDone _ => True | _ => False end) (c_threads cf).
End Pool.

(** ** Serializability under the mutex *)

Section SeqRun.
Context {W R : Type}.
Implicit Types (t : thread W R) (ts : list (thread W R)).

Lemma seq_run_app_ok ts1 ts2 w rs1 w1 rs2 w2 :
  seq_run ts1 w = Ok (rs1, w1) -> seq_run ts2 w1 = Ok (rs2, w2) ->
  seq_run (ts1 ++ ts2) w = Ok (rs1 ++ rs2, w2).
Proof.
  revert w rs1. induction ts1 as [|t ts1 IH]; simpl; intros w rs1 H1 H2.
  - by inversion H1; subst.
  - se_inv H1 as (r & w' & Ht & H1). se_inv H1 as (rs & w'' & Hs & Hret).
    inversion Hret; subst. unfold se_bind. rewrite Ht, (IH _ _ Hs H2). done.
Qed.

Lemma seq_run_app_crash ts1 t w rs1 w1 e :
  seq_run ts1 w = Ok (rs1, w1) -> th_run t w1 = Crash e -> seq_run (ts1 ++ [t]) w = Crash e.
Proof.
  revert w rs1. induction ts1 as [|t' ts1 IH]; simpl; intros w rs1 H1 H2.
  - inversion H1; subst. unfold se_bind. by rewrite H2.
  - se_inv H1 as (r & w' & Ht & H1). se_inv H1 as (rs & w'' & Hs & Hret).
    inversion Hret; subst. unfold se_bind. rewrite Ht, (IH _ _ Hs H2). done.
Qed.

Lemma seq_run_single t w r w' : th_run t w = Ok (r, w') -> seq_run [t] w = Ok ([r], w').
Proof. intros H. simpl. unfold se_bind. by rewrite H. Qed.

Lemma th_run_step {B} (m : SE W B) (k : B -> cs W R) post w :
  th_run (TCrit (CsStep m k) post) w =
  match m w with Ok (b, w') => th_run (TCrit (k b) post) w' | Crash e => Crash e end.
Proof. simpl. unfold se_bind. by destruct (m w) as [[b w']|e]. Qed.
End SeqRun.

(** The finished threads, in the order they released the mutex. *)
Definition done_in {W R} (ths : list (thread W R)) (ord : list nat) (rs : list R) : Prop :=
  Forall2 (fun i r => ths !! i = Some (TDone r)) ord rs.

Section DoneIn.
Context {W R : Type}.
Implicit Types (ths : list (thread W R)).

Lemma done_in_elem ths ord rs i : done_in ths ord rs -> i ∈ ord -> exists r, ths !! i = Some (TDone r).
Proof.
  induction 1 as [|j r ord rs Hj _ IH]; [set_solver|].
  rewrite elem_of_cons. intros [->|Hi]; eauto.
Qed.

Lemma done_in_insert ths ord rs i t :
  done_in ths ord rs -> i ∉ ord -> done_in (<[i := t]> ths) ord rs.
Proof.
  induction 1 as [|j r ord rs Hj _ IH]; intros Hi; constructor.
  - rewrite list_lookup_insert_ne; [done|set_solver].
  - apply IH. set_solver.
Qed.

Lemma done_in_choice ths js :
  (forall j, j ∈ js -> exists r, ths !! j = Some (TDone r)) -> exists rs, done_in ths js rs.
Proof.
  induction js as [|j js IH]; intros Hall; [exists []; constructor|].
  destruct (Hall j) as [r Hr]; [set_solver|].
  destruct IH as [rs Hrs]; [intros; apply Hall; set_solver|]. exists (r :: rs). by constructor.
Qed.
End DoneIn.

Section Serial.
Context {W R : Type}.
Context (w0 : W) (ts0 : list (thread W R)).
Implicit Types (cf : conf W R).

(** The invariant of a pool under the mutex: the threads that released
    it, in order ([ord]), are the calls run one after the other from the
    initial store, and leave [wm]; the other threads are untouched
    except the owner, which holds the only critical section, and whose
    remainder ends as its whole call run from [wm] would. *)
Definition ser_inv cf : Prop :=
  exists ord rs wm,
    NoDup ord /\ Forall (fun i => i < length ts0) ord /\
    seq_run ((ts0 !!!.) <$> ord) w0 = Ok (rs, wm) /\
    done_in (c_threads cf) ord rs /\
    length (c_threads cf) = length ts0 /\
    (forall i, i ∉ ord -> c_owner cf <> Some i -> c_threads cf !! i = ts0 !! i) /\
    (forall i c post, c_threads cf !! i = Some (TCrit c post) -> c_owner cf = Some i) /\
    match c_owner cf with
    | None => c_world cf = wm
    | Some i => (i ∉ ord) /\ exists c post, c_threads cf !! i = Some (TCrit c post) /\
                th_run (ts0 !!! i) wm = th_run (TCrit c post) (c_world cf)
    end.

(** A crash is the crash of the calls of [ord] run one after the other. *)
Definition crash_ser (e : crash) : Prop :=
  exists ord, NoDup ord /\ Forall (fun i => i < length ts0) ord /\
    seq_run ((ts0 !!!.) <$> ord) w0 = Crash e.

Lemma crash_ser_snoc ord rs wm i e :
  NoDup ord -> Forall (fun i => i < length ts0) ord ->
  seq_run ((ts0 !!!.) <$> ord) w0 = Ok (rs, wm) ->
  i ∉ ord -> i < length ts0 -> th_run (ts0 !!! i) wm = Crash e -> crash_ser e.
Proof.
  intros Hnd Hlt Hs Hi Hlen He. exists (ord ++ [i]). split_and!.
  - apply NoDup_app. split_and!; [done|set_solver|apply NoDup_singleton].
  - apply Forall_app. auto.
  - rewrite fmap_app. by eapply seq_run_app_crash.
Qed.

Lemma ser_inv_init : Forall (fun t => startable t = true) ts0 -> ser_inv (init_conf w0 ts0).
Proof.
  intros Hst. exists [], [], w0. simpl. split_and!; try done.
  - constructor.
  - constructor.
  - intros i c post Hi. rewrite Forall_lookup in Hst. by specialize (Hst i _ Hi).
Qed.

Lemma ser_inv_lock cf i c post :
  ser_inv cf -> c_threads cf !! i = Some (TWait c post) -> c_owner cf = None ->
  ser_inv (mk_conf (c_world cf) (Some i) (<[i := TCrit c post]> (c_threads cf))).
Proof.
  intros (ord & rs & wm & Hnd & Hlt & Hs & Hd & Hlen & Hun & Hex & Ho) Hi Hown.
  rewrite Hown in Ho, Hun.
  assert (Hio : i ∉ ord).
  { intros Hin. destruct (done_in_elem _ _ _ i Hd Hin) as [r Hr]. congruence. }
  exists ord, rs, wm. simpl. split_and!; try done.
  - by apply done_in_insert.
  - by rewrite length_insert.
  - intros j Hj Hji. rewrite list_lookup_insert_ne by congruence. by apply Hun.
  - intros j c' post' Hj. destruct (decide (i = j)) as [->|Hne]; [done|].
    rewrite list_lookup_insert_ne in Hj by done. apply Hex in Hj. congruence.
  - exists c, post. split.
    + apply list_lookup_insert_eq. by eapply lookup_lt_Some.
    + rewrite (list_lookup_total_correct ts0 i (TWait c post)); [by rewrite Ho|].
      by rewrite <- Hun.
Qed.

(** The owner's remainder, and the serial run it continues. *)
Lemma ser_inv_crit cf i c post :
  ser_inv cf -> c_threads cf !! i = Some (TCrit c post) ->
  exists ord rs wm, NoDup ord /\ Forall (fun i => i < length ts0) ord /\
    seq_run ((ts0 !!!.) <$> ord) w0 = Ok (rs, wm) /\ (i ∉ ord) /\ i < length ts0 /\
    th_run (ts0 !!! i) wm = th_run (TCrit c post) (c_world cf).
Proof.
  intros (ord & rs & wm & Hnd & Hlt & Hs & Hd & Hlen & Hun & Hex & Ho) Hi.
  rewrite (Hex _ _ _ Hi) in Ho. destruct Ho as (Hio & c' & post' & Hi' & Hrun).
  rewrite Hi in Hi'. simplify_eq.
  exists ord, rs, wm. split_and!; try done. rewrite <- Hlen. by eapply lookup_lt_Some.
Qed.

Lemma ser_inv_exec cf i B (m : SE W B) k post b w' :
  ser_inv cf -> c_threads cf !! i = Some (TCrit (CsStep m k) post) ->
  m (c_world cf) = Ok (b, w') ->
  ser_inv (mk_conf w' (c_owner cf) (<[i := TCrit (k b) post]> (c_threads cf))).
Proof.
  intros (ord & rs & wm & Hnd & Hlt & Hs & Hd & Hlen & Hun & Hex & Ho) Hi Hm.
  pose proof (Hex _ _ _ Hi) as Hown. rewrite Hown in Ho |- *.
  destruct Ho as (Hio & c & post' & Hi' & Hrun). rewrite Hi in Hi'. simplify_eq.
  exists ord, rs, wm. simpl. split_and!; try done.
  - by apply done_in_insert.
  - by rewrite length_insert.
  - intros j Hj Hji. rewrite list_lookup_insert_ne by congruence. apply Hun; congruence.
  - intros j c' post'' Hj. destruct (decide (i = j)) as [->|Hne]; [done|].
    rewrite list_lookup_insert_ne in Hj by done. apply Hex in Hj. congruence.
  - exists (k b). eexists. split.
    + apply list_lookup_insert_eq. by eapply lookup_lt_Some.
    + by rewrite Hrun, th_run_step, Hm.
Qed.

Lemma ser_inv_unlock cf i r post r' :
  ser_inv cf -> c_threads cf !! i = Some (TCrit (CsRet r) post) -> post r = Ok r' ->
  ser_inv (mk_conf (c_world cf) None (<[i := TDone r']> (c_threads cf))).
Proof.
  intros Hinv Hi Hp.
  destruct Hinv as (ord & rs & wm & Hnd & Hlt & Hs & Hd & Hlen & Hun & Hex & Ho).
  pose proof (Hex _ _ _ Hi) as Hown. rewrite Hown in Ho.
  destruct Ho as (Hio & c & post' & Hi' & Hrun). rewrite Hi in Hi'. simplify_eq.
  assert (Hil : i < length (c_threads cf)) by (by eapply lookup_lt_Some).
  exists (ord ++ [i]), (rs ++ [r']), (c_world cf). simpl. split_and!; try done.
  - apply NoDup_app. split_and!; [done|set_solver|apply NoDup_singleton].
  - apply Forall_app. split; [done|]. apply Forall_singleton. by rewrite <- Hlen.
  - rewrite fmap_app. eapply seq_run_app_ok; [exact Hs|]. apply seq_run_single.
    rewrite Hrun. simpl. unfold se_bind, se_ret. by rewrite Hp.
  - unfold done_in. apply Forall2_app; [by apply done_in_insert|].
    constructor; [|constructor]. by apply list_lookup_insert_eq.
  - by rewrite length_insert.
  - intros j Hj _. rewrite list_lookup_insert_ne by set_solver.
    apply Hun; [set_solver|]. rewrite Hown. intros [= ->]. set_solver.
  - intros j c' post'' Hj. destruct (decide (i = j)) as [->|Hne].
    + by rewrite list_lookup_insert_eq in Hj.
    + rewrite list_lookup_insert_ne in Hj by done. apply Hex in Hj. congruence.
Qed.

Lemma ser_inv_step cf cf' : ser_inv cf -> tstep true cf (Ok cf') -> ser_inv cf'.
Proof.
  intros Hinv Hst. inversion Hst; subst.
  - eapply ser_inv_lock; eauto.
  - eapply ser_inv_exec; eauto.
  - eapply ser_inv_unlock; eauto.
Qed.

Lemma ser_inv_crash cf e : ser_inv cf -> tstep true cf (Crash e) -> crash_ser e.
Proof.
  intros Hinv Hst. inversion Hst as [| |cf0 i B m k post e' Hi Hm| |cf0 i r post e' Hi Hp|cf0 i e' Hi];
    subst.
  - destruct (ser_inv_crit _ _ _ _ Hinv Hi) as (ord & rs & wm & ? & ? & ? & ? & ? & Hrun).
    eapply crash_ser_snoc; eauto. by rewrite Hrun, th_run_step, Hm.
  - destruct (ser_inv_crit _ _ _ _ Hinv Hi) as (ord & rs & wm & ? & ? & ? & ? & ? & Hrun).
    eapply crash_ser_snoc; eauto. rewrite Hrun. simpl. unfold se_bind, se_ret. by rewrite Hp.
  - destruct Hinv as (ord & rs & wm & Hnd & Hlt & Hs & Hd & Hlen & Hun & Hex & Ho).
    assert (Hio : i ∉ ord).
    { intros Hin. destruct (done_in_elem _ _ _ i Hd Hin) as [r Hr]. congruence. }
    assert (Hown : c_owner cf <> Some i).
    { intros Hown. rewrite Hown in Ho. destruct Ho as (_ & c & post & Hc & _). congruence. }
    eapply crash_ser_snoc; eauto.
    + rewrite <- Hlen. by eapply lookup_lt_Some.
    + rewrite (list_lookup_total_correct ts0 i (TAbort e)); [done|]. by rewrite <- Hun.
Qed.

Lemma ser_inv_creach cf o :
  creach true cf o -> ser_inv cf ->
  match o with Ok cf' => ser_inv cf' | Crash e => crash_ser e end.
Proof.
  induction 1 as [cf|cf cf' o Hst _ IH|cf e Hst]; intros Hinv.
  - done.
  - apply IH. by eapply ser_inv_step.
  - by eapply ser_inv_crash.
Qed.
End Serial.

Section PoolFacts.
Context {W R : Type}.
Context (w0 : W) (ts0 : list (thread W R)).
Hypothesis Hstart : Forall (fun t => startable t = true) ts0.
Implicit Types (cf : conf W R).

Lemma done_in_ext (ths : list (thread W R)) js rs :
  done_in ths js rs -> (forall j, j ∈ js -> ths !! j = ts0 !! j) -> done_in ts0 js rs.
Proof.
  induction 1 as [|j r js rs Hj _ IH]; intros Heq; constructor.
  - rewrite <- Heq; [done|set_solver].
  - apply IH. intros; apply Heq; set_solver.
Qed.

Lemma seq_run_done js rs w : done_in ts0 js rs -> seq_run ((ts0 !!!.) <$> js) w = Ok (rs, w).
Proof.
  induction 1 as [|j r js rs Hj _ IH]; [done|].
  rewrite fmap_cons, (list_lookup_total_correct _ _ _ Hj). cbn [seq_run th_run].
  unfold se_bind at 1. cbn [se_ret]. unfold se_bind. by rewrite IH.
Qed.

Lemma pool_ser_inv cf : creach true (init_conf w0 ts0) (Ok cf) -> ser_inv w0 ts0 cf.
Proof. intros Hr. apply (ser_inv_creach w0 ts0 _ _ Hr), ser_inv_init, Hstart. Qed.

(** Whenever the mutex is free, the store is the one left by the
    released calls run one after the other. *)
Lemma pool_quiescent cf :
  creach true (init_conf w0 ts0) (Ok cf) -> c_owner cf = None ->
  exists ord rs, NoDup ord /\ Forall (fun i => i < length ts0) ord /\
    seq_run ((ts0 !!!.) <$> ord) w0 = Ok (rs, c_world cf).
Proof.
  intros Hr Hown. destruct (pool_ser_inv cf Hr) as (ord & rs & wm & Hnd & Hlt & Hs & _ & _ & _ & _ & Ho).
  rewrite Hown in Ho. subst wm. eauto.
Qed.

Lemma pool_crash_gen e :
  creach true (init_conf w0 ts0) (Crash e) -> crash_ser w0 ts0 e.
Proof. intros Hr. apply (ser_inv_creach w0 ts0 _ _ Hr), ser_inv_init, Hstart. Qed.

(** The threads that never took the mutex, appended after the others. *)
Lemma pool_final cf :
  creach true (init_conf w0 ts0) (Ok cf) -> all_done cf ->
  exists ord rs, ord ≡ₚ seq 0 (length ts0) /\
    seq_run ((ts0 !!!.) <$> ord) w0 = Ok (rs, c_world cf) /\ done_in (c_threads cf) ord rs.
Proof.
  intros Hr Hall.
  destruct (pool_ser_inv cf Hr) as (ord & rs & wm & Hnd & Hlt & Hs & Hd & Hlen & Hun & _ & Ho).
  unfold all_done in Hall. rewrite Forall_lookup in Hall.
  destruct (c_owner cf) as [i|] eqn:Hown.
  { destruct Ho as (_ & c & post & Hc & _). by specialize (Hall _ _ Hc). }
  subst wm. set (rest := filter (fun j => j ∉ ord) (seq 0 (length ts0))).
  assert (Hrest : forall j, j ∈ rest -> c_threads cf !! j = ts0 !! j /\
                                         exists r, c_threads cf !! j = Some (TDone r)).
  { intros j Hj. apply list_elem_of_filter in Hj as [Hj Hjs]. apply elem_of_seq in Hjs.
    split; [apply Hun; [done|congruence]|].
    destruct (lookup_lt_is_Some_2 (c_threads cf) j) as [t Ht]; [lia|].
    specialize (Hall _ _ Ht). destruct t; try done. eauto. }
  destruct (done_in_choice (c_threads cf) rest) as [rs2 Hrs2]; [apply Hrest|].
  exists (ord ++ rest), (rs ++ rs2). rewrite Forall_forall in Hlt. split_and!.
  - apply NoDup_Permutation; [|apply NoDup_seq|].
    + apply NoDup_app. split_and!; [done| |apply NoDup_filter, NoDup_seq].
      intros x Hx Hx'. by apply list_elem_of_filter in Hx' as [? _].
    + intros x. unfold rest. rewrite elem_of_app, list_elem_of_filter, elem_of_seq. split.
      * intros [Hx|[_ Hx]]; [specialize (Hlt x Hx)|]; lia.
      * intros Hx. destruct (decide (x ∈ ord)); [by left|right]. split; [done|lia].
  - rewrite fmap_app. eapply seq_run_app_ok; [exact Hs|]. apply seq_run_done.
    eapply done_in_ext; [exact Hrs2|]. apply Hrest.
  - unfold done_in. by apply Forall2_app.
Qed.
End PoolFacts.

(** ** An executable scheduler *)

Section Sched.
Context {W R : Type}.
Implicit Types (cf : conf W R).

(** Thread [i] moves one step, if it can: [None] when it has returned or
    waits for a mutex another thread holds. *)
Definition tstep_fn (locking : bool) (i : nat) cf : option (result (conf W R)) :=
  match c_threads cf !! i with
  | Some (TWait c post) =>
      match locking, c_owner cf with
      | true, Some _ => None
      | _, _ => Some (Ok (mk_conf (c_world cf) (if locking then Some i else None)
                                 (<[i := TCrit c post]> (c_threads cf))))
      end
  | Some (TCrit (CsStep m k) post) =>
      Some (match m (c_world cf) with
            | Ok (b, w') => Ok (mk_conf w' (c_owner cf) (<[i := TCrit (k b) post]> (c_threads cf)))
            | Crash e => Crash e
            end)
  | Some (TCrit (CsRet r) post) =>
      Some (match post r with
            | Ok r' => Ok (mk_conf (c_world cf) None (<[i := TDone r']> (c_threads cf)))
            | Crash e => Crash e
            end)
  | Some (TAbort e) => Some (Crash e)
  | Some (TDone _) | None => None
  end.

(** Run the threads in the order of [sched], skipping a thread that
    cannot move. *)
Fixpoint run_sched (locking : bool) (sched : list nat) cf : result (conf W R) :=
  match sched with
  | [] => Ok cf
  | i :: sched =>
      match tstep_fn locking i cf with
      | Some (Ok cf') => run_sched locking sched cf'
      | Some (Crash e) => Crash e
      | None => run_sched locking sched cf
      end
  end.

Lemma tstep_fn_iff locking cf o :
  tstep locking cf o <-> exists i, tstep_fn locking i cf = Some o.
Proof.
  split.
  - intros Hst. unfold tstep_fn.
    destruct Hst as [cf i c post Hi Hown|cf i B m k post b w' Hi Hm|cf i B m k post e Hi Hm
                    |cf i r post r' Hi Hp|cf i r post e Hi Hp|cf i e Hi];
      exists i; rewrite Hi; try rewrite Hm; try rewrite Hp; try done.
    destruct locking; [by rewrite Hown|done].
  - intros [i Hi]. unfold tstep_fn in Hi.
    destruct (c_threads cf !! i) as [[r|e|c post|[r|B m k] post]|] eqn:E; try done.
    + simplify_eq. by eapply ts_abort.
    + destruct locking, (c_owner cf) eqn:Ho; simplify_eq;
        first [eapply (ts_lock true) | eapply (ts_lock false)]; eauto; congruence.
    + destruct (post r) eqn:Hp; simplify_eq; [eapply ts_unlock|eapply ts_unlock_crash]; eauto.
    + destruct (m (c_world cf)) as [[b w']|e] eqn:Hm; simplify_eq;
        [eapply ts_exec|eapply ts_exec_crash]; eauto.
Qed.

Lemma run_sched_creach locking sched cf : creach locking cf (run_sched locking sched cf).
Proof.
  revert cf. induction sched as [|i sched IH]; intros cf; simpl; [constructor|].
  destruct (tstep_fn locking i cf) as [[cf'|e]|] eqn:E; [| |done].
  - eapply creach_step; [apply tstep_fn_iff; by exists i|done].
  - apply creach_crash, tstep_fn_iff. by exists i.
Qed.
End Sched.

(** ** The API functions as threads *)

Inductive call :=
| CDiscard (req : request) (original : radius_packet)
| CGetVps (req : request) (packet : radius_packet)
| CPutVps (now : Z) (rnd : nat -> Z) (req : request) (original : option radius_packet)
          (packet : radius_packet)
| CFindData (has_state : bool) (packet : radius_packet)
| CGetData (has_state : bool) (packet : radius_packet)
| CPutData (now : Z) (rnd : nat -> Z) (has_state : bool) (original : option radius_packet)
           (packet : radius_packet) (d : option ptr).

Inductive call_ret :=
| RReq (r : request)
| RPutVps (ok : bool) (r : request) (reply : radius_packet)
| RData (d : option ptr)
| RPutData (ok : bool) (reply : radius_packet).

(** Run both sides of an equation between two compositions of the same
    atomic steps: destruct the next atomic step, or the next test on a
    variable or a [bool_decide]. *)
Ltac run_atomic :=
  match goal with
  | |- context [state_entry_find ?p ?w] => destruct (state_entry_find p w) as [[? ?]|?]
  | |- context [find_original ?o ?w] => destruct (find_original o w) as [[? ?]|?]
  | |- context [state_entry_create ?c ?n ?r ?p ?o ?w] =>
      destruct (state_entry_create c n r p o w) as [[[? ?] ?]|?]
  | |- context [state_entry_free ?p ?w] => destruct (state_entry_free p w) as [[? ?]|?]
  | |- context [load ?p ?w] => destruct (load p w) as [[? ?]|?]
  | |- context [store ?p ?e ?w] => destruct (store p e w) as [[? ?]|?]
  end.

Ltac case_simple :=
  match goal with
  | |- context [match ?x with _ => _ end] => is_var x; destruct x
  | |- context [bool_decide ?P] => case_bool_decide
  | |- context [find_state ?l] => destruct (find_state l)
  end.

Section Calls.
Context `{RbTreeLaws T}.
Context (cfg : config).

(** Lines 374-387: [pairfree(&request->state)] before the lock. *)
Definition discard_code req (original : radius_packet) : thread (world T) call_ret :=
  let req := mk_request (request_packet req) [] in
  TWait (CsStep (state_entry_find original) (fun entry =>
    match entry with
    | None => CsRet (RReq req)
    | Some p => CsStep (state_entry_free p) (fun _ => CsRet (RReq req))
    end)) Ok.

(** Lines 398-424: the [rad_assert] and the [pairfind] guard before
    the lock; [pairfilter] of the entry's list under it. *)
Definition get_vps_code req (packet : radius_packet) : thread (world T) call_ret :=
  if negb (bool_decide (request_state req = [])) then TAbort AssertFailed else
  match find_state (packet_vps (request_packet req)) with
  | None => TDone (RReq req)
  | Some _ =>
      TWait (CsStep (state_entry_find packet) (fun entry =>
        match entry with
        | Some p =>
            CsStep (load p) (fun e =>
              let '(to, from) := pairfilter_all (request_state req) (vps e) in
              CsStep (store p (set_vps e from)) (fun _ =>
                CsRet (RReq (mk_request (request_packet req) to))))
        | None => CsRet (RReq req)
        end)) Ok
  end.

(** Line 470: [rad_assert(request->state == NULL)] after the unlock. *)
Definition put_vps_post (r : call_ret) : result call_ret :=
  match r with
  | RPutVps true req _ => if bool_decide (request_state req = []) then Ok r else Crash AssertFailed
  | _ => Ok r
  end.

(** Lines 441-471. *)
Definition put_vps_code now rnd req (original : option radius_packet) (packet : radius_packet) : thread (world T) call_ret :=
  if bool_decide (request_state req = []) then TDone (RPutVps true req packet) else
  TWait (CsStep (find_original original) (fun old =>
    CsStep (state_entry_create cfg now rnd packet old) (fun '(entry, packet) =>
      match entry with
      | None => CsRet (RPutVps false req packet)
      | Some p =>
          CsStep (load p) (fun e =>
            let '(to, from) := pairfilter_all (vps e) (request_state req) in
            CsStep (store p (set_vps e to)) (fun _ =>
              CsRet (RPutVps true (mk_request (request_packet req) from) packet)))
      end))) put_vps_post.

(** Lines 484-494. *)
Definition find_data_code (has_state : bool) (packet : radius_packet) : thread (world T) call_ret :=
  if negb has_state then TDone (RData None) else
  TWait (CsStep (state_entry_find packet) (fun entry =>
    match entry with
    | None => CsRet (RData None)
    | Some p => CsStep (load p) (fun e => CsRet (RData (data e)))
    end)) Ok.

(** Lines 509-520. *)
Definition get_data_code (has_state : bool) (packet : radius_packet) : thread (world T) call_ret :=
  if negb has_state then TDone (RData None) else
  TWait (CsStep (state_entry_find packet) (fun entry =>
    match entry with
    | None => CsRet (RData None)
    | Some p =>
        CsStep (load p) (fun e =>
          CsStep (store p (set_data e None)) (fun _ => CsRet (RData (data e))))
    end)) Ok.

(** Lines 535-561. *)
Definition put_data_code now rnd (has_state : bool) (original : option radius_packet)
    (packet : radius_packet) (d : option ptr) : thread (world T) call_ret :=
  if negb has_state then TDone (RPutData false packet) else
  TWait (CsStep (find_original original) (fun old =>
    CsStep (state_entry_create cfg now rnd packet old) (fun '(entry, packet) =>
      match entry with
      | None => CsRet (RPutData false packet)
      | Some p =>
          let set_new : cs (world T) call_ret :=
            CsStep (load p) (fun e =>
              CsStep (store p (set_data e d)) (fun _ => CsRet (RPutData true packet))) in
          match old with
          | Some o =>
              CsStep (load o) (fun oe =>
                if bool_decide (data oe = d)
                then CsStep (store o (set_data oe None)) (fun _ => set_new)
                else set_new)
          | None => set_new
          end
      end))) Ok.

Definition thread_code (c : call) : thread (world T) call_ret :=
  match c with
  | CDiscard req original => discard_code req original
  | CGetVps req packet => get_vps_code req packet
  | CPutVps now rnd req original packet => put_vps_code now rnd req original packet
  | CFindData hs packet => find_data_code hs packet
  | CGetData hs packet => get_data_code hs packet
  | CPutData now rnd hs original packet d => put_data_code now rnd hs original packet d
  end.

(** The API function a call runs, from [Session.v]. *)
Definition call_run (c : call) : SE (world T) call_ret :=
  match c with
  | CDiscard req original => let* r := fr_state_discard req original in se_ret (RReq r)
  | CGetVps req packet => let* r := fr_state_get_vps req packet in se_ret (RReq r)
  | CPutVps now rnd req original packet =>
      let* '(ok, r, p) := fr_state_put_vps cfg now rnd req original packet in
      se_ret (RPutVps ok r p)
  | CFindData hs packet => let* d := fr_state_find_data hs packet in se_ret (RData d)
  | CGetData hs packet => let* d := fr_state_get_data hs packet in se_ret (RData d)
  | CPutData now rnd hs original packet d =>
      let* '(ok, p) := fr_state_put_data cfg now rnd hs original packet d in
      se_ret (RPutData ok p)
  end.

Lemma thread_code_run_eq c w : th_run (thread_code c) w = call_run c w.
Proof.
  destruct c; unfold thread_code, call_run, discard_code, get_vps_code, put_vps_code,
    find_data_code, get_data_code, put_data_code, fr_state_discard, fr_state_get_vps,
    fr_state_put_vps, fr_state_find_data, fr_state_get_data, fr_state_put_data, put_vps_post.
  all: repeat (cbv [se_bind se_ret se_crash rad_assert lift_result cs_run th_run
                    pairfilter_all negb]; first [run_atomic | case_simple]).
  all: try reflexivity.
  all: simpl in *; congruence.
Qed.

#[export] Instance call_inhabited : Inhabited call := populate (CFindData false (mk_packet [])).

(** The API functions run one after the other. *)
Fixpoint calls_run (cs : list call) : SE (world T) (list call_ret) :=
  match cs with
  | [] => se_ret []
  | c :: cs => let* r := call_run c in let* rs := calls_run cs in se_ret (r :: rs)
  end.

(** The replies given to [fr_state_put_vps] and [fr_state_put_data]
    carry a State attribute of octets, as [api_step] requires. *)
Definition call_bytes (c : call) : Prop :=
  match c with
  | CPutVps _ _ _ _ packet | CPutData _ _ _ _ packet _ => vp_bytes packet
  | _ => True
  end.

Lemma thread_code_startable c : startable (thread_code c) = true.
Proof.
  destruct c; unfold thread_code, discard_code, get_vps_code, put_vps_code,
    find_data_code, get_data_code, put_data_code; repeat case_match; done.
Qed.

Lemma seq_run_thread_code cs w : seq_run (thread_code <$> cs) w = calls_run cs w.
Proof.
  revert w. induction cs as [|c cs IH]; intros w; [done|]. cbn [fmap list_fmap seq_run calls_run].
  unfold se_bind. rewrite thread_code_run_eq.
  destruct (call_run c w) as [[r w1]|e]; [|done]. by rewrite IH.
Qed.

Lemma code_lookup_fmap calls ord :
  Forall (fun i => i < length (thread_code <$> calls)) ord ->
  ((thread_code <$> calls) !!!.) <$> ord = thread_code <$> ((calls !!!.) <$> ord).
Proof.
  induction 1 as [|i ord Hi _ IH]; [done|]. rewrite length_fmap in Hi.
  rewrite !fmap_cons, IH, (list_lookup_total_fmap thread_code calls i) by done. done.
Qed.

Lemma call_run_api_step c w r w' : call_bytes c -> call_run c w = Ok (r, w') -> api_step cfg w w'.
Proof.
  intros Hb Hr. destruct c; simpl in Hr; se_inv Hr as (a & s & Hr1 & Hr2);
    repeat case_match; simplify_eq; unfold se_ret in Hr2; simplify_eq.
  all: first [ eapply step_discard; by eauto | eapply step_get_vps; by eauto
             | eapply step_put_vps; by eauto | eapply step_find_data; by eauto
             | eapply step_get_data; by eauto | eapply step_put_data; by eauto ].
Qed.

Lemma calls_run_api_steps cs w rs w' :
  Forall call_bytes cs -> calls_run cs w = Ok (rs, w') -> rtc (api_step cfg) w w'.
Proof.
  revert w rs. induction cs as [|c cs IH]; intros w rs Hall Hr; simpl in Hr.
  - inversion Hr; subst. constructor.
  - apply Forall_cons in Hall as [Hc Hall].
    se_inv Hr as (r & w1 & Hr1 & Hr2). se_inv Hr2 as (rs' & w2 & Hr3 & Hr4).
    inversion Hr4; subst. eapply rtc_l; [by eapply call_run_api_step|]. by eapply IH.
Qed.
End Calls.

(** ** Concurrent callers of the API *)

Section ApiPool.
Context `{RbTreeLaws T}.
Context (cfg : config).
Implicit Types (calls : list call) (cf : conf (world T) call_ret).

(** Thread [i] is between its lock and its unlock. *)
Definition in_crit {W R} (cf : conf W R) (i : nat) : bool :=
  match c_threads cf !! i with Some (TCrit _ _) => true | _ => false end.

Lemma thread_codes_startable calls :
  Forall (fun t => startable t = true) (thread_code cfg <$> calls).
Proof. apply Forall_fmap, Forall_forall. intros c _. apply thread_code_startable. Qed.

Lemma calls_crash_ser calls (w0 : world T) e :
  creach true (init_conf w0 (thread_code cfg <$> calls)) (Crash e) ->
  exists ord, NoDup ord /\ Forall (fun i => i < length calls) ord /\
    calls_run cfg ((calls !!!.) <$> ord) w0 = Crash e.
Proof.
  intros Hr.
  destruct (pool_crash_gen w0 _ (thread_codes_startable calls) e Hr) as (ord & Hnd & Hlt & Hs).
  rewrite code_lookup_fmap, seq_run_thread_code in Hs by done.
  rewrite length_fmap in Hlt. by exists ord.
Qed.

(** C3: with [state->mutex], every execution of threads calling the API that
    ends with every thread returned is serializable: the store it leaves and
    each thread's result are those of the API functions of [Session.v] run one
    after the other, each once, in some order (the linear order of the
    specification, section 5). *)
Theorem pool_serializable calls (w0 : world T) cf :
  creach true (init_conf w0 (thread_code cfg <$> calls)) (Ok cf) -> all_done cf ->
  exists ord rs, ord ≡ₚ seq 0 (length calls) /\
    calls_run cfg ((calls !!!.) <$> ord) w0 = Ok (rs, c_world cf) /\
    done_in (c_threads cf) ord rs.
Proof.
  intros Hr Hd.
  destruct (pool_final w0 _ (thread_codes_startable calls) cf Hr Hd) as (ord & rs & Hp & Hs & Hdn).
  rewrite length_fmap in Hp. exists ord, rs. split_and!; [done| |done].
  rewrite code_lookup_fmap, seq_run_thread_code in Hs; [done|].
  rewrite length_fmap, Forall_forall. intros i Hi.
  assert (Hin : i ∈ seq 0 (length calls)) by (by rewrite <- Hp).
  apply elem_of_seq in Hin. lia.
Qed.

(** C17: with [state->mutex], a crash of concurrent callers (a failed
    [rad_assert], a use after free) is the crash of some of their calls run
    one after the other. *)
Theorem pool_crash_serializable calls (w0 : world T) e :
  creach true (init_conf w0 (thread_code cfg <$> calls)) (Crash e) ->
  exists ord, NoDup ord /\ Forall (fun i => i < length calls) ord /\
    calls_run cfg ((calls !!!.) <$> ord) w0 = Crash e.
Proof. apply calls_crash_ser. Qed.

(** [state->mutex] excludes: a thread between its lock and its unlock owns
    the mutex, and no other thread is between its lock and its unlock. *)
Theorem pool_exclusive calls (w0 : world T) cf i :
  creach true (init_conf w0 (thread_code cfg <$> calls)) (Ok cf) -> in_crit cf i = true ->
  c_owner cf = Some i /\ forall j, in_crit cf j = true -> j = i.
Proof.
  intros Hr Hi.
  destruct (pool_ser_inv w0 _ (thread_codes_startable calls) cf Hr)
    as (? & ? & ? & _ & _ & _ & _ & _ & _ & Hex & _).
  unfold in_crit in *.
  destruct (c_threads cf !! i) as [[| |c post|c post]|] eqn:Ei; try done.
  split; [by apply (Hex _ c post)|]. intros j Hj.
  destruct (c_threads cf !! j) as [[| |c' post'|c' post']|] eqn:Ej; try done.
  apply Hex in Ei, Ej. congruence.
Qed.

(** C4: whenever [state->mutex] is free, the store shared by concurrent
    callers of the API is well formed ([inv]): the list, the tree and the live
    entries agree at every moment the lock is not held (P2). *)
Theorem pool_store_inv calls (w0 : world T) cf :
  inv w0 -> Forall call_bytes calls ->
  creach true (init_conf w0 (thread_code cfg <$> calls)) (Ok cf) -> c_owner cf = None ->
  inv (c_world cf).
Proof.
  intros Hi Hb Hr Ho.
  destruct (pool_quiescent w0 _ (thread_codes_startable calls) cf Hr Ho) as (ord & rs & _ & Hlt & Hs).
  rewrite code_lookup_fmap, seq_run_thread_code in Hs by done.
  apply (api_steps_inv cfg w0); [done|]. eapply calls_run_api_steps; [|exact Hs].
  rewrite length_fmap, Forall_forall in Hlt. rewrite Forall_forall in Hb.
  apply Forall_fmap, Forall_forall. intros i Hi'. by apply Hb, list_elem_of_lookup_total_2, Hlt.
Qed.
End ApiPool.


(** ** Examples *)

(** Two threads on [ex_world]: one continues the session of the first
    entry through [fr_state_put_vps], the other discards it. *)
Definition ex_race : list call :=
  [CPutVps 50 ex_rnd ex_req (Some ex_echo1) (mk_packet []);
   CDiscard (mk_request ex_echo1 []) ex_echo1].

Definition ex_pool : conf (world (gmap (list Z) ptr)) call_ret :=
  init_conf ex_world (thread_code ex_cfg <$> ex_race).

(** Without the mutex: thread 0 finds the previous entry, thread 1 frees
    it, thread 0 goes on with [state_entry_create] on it. *)
Definition ex_race_sched : list nat := [0; 0; 1; 1; 1; 1; 0].

(** With the mutex, the same interleaving attempted: thread 1 cannot
    lock while thread 0 holds the mutex. *)
Definition ex_sched : list nat := [0; 0; 1; 0; 0; 0; 0; 0; 1; 1; 1; 1].

Definition ex_final : conf (world (gmap (list Z) ptr)) call_ret :=
  Eval vm_compute in
    match run_sched true ex_sched ex_pool with Ok cf => cf | Crash _ => ex_pool end.

Definition ex_locked : conf (world (gmap (list Z) ptr)) call_ret :=
  match run_sched true [0; 0; 1] ex_pool with Ok cf => cf | Crash _ => ex_pool end.

(** A thread whose [fr_state_get_vps] is given a request that already
    holds attributes fails the [rad_assert] of line 398. *)
Definition ex_abort_pool : conf (world (gmap (list Z) ptr)) call_ret :=
  init_conf ex_world (thread_code ex_cfg <$> [CGetVps ex_req ex_echo1]).

(** Whether a run crashed. *)
Definition is_crash {A} (r : result A) : bool := match r with Crash _ => true | Ok _ => false end.

Lemma ord_two_cases ord :
  NoDup ord -> Forall (fun i => i < 2) ord -> ord ∈ [[]; [0]; [1]; [0; 1]; [1; 0]].
Proof.
  intros Hnd Hlt. rewrite Forall_forall in Hlt.
  destruct ord as [|a [|b [|c ord]]]; [set_solver| | |exfalso].
  - assert (a < 2) by (apply Hlt; set_solver). destruct a as [|[|]]; [set_solver|set_solver|lia].
  - assert (a < 2) by (apply Hlt; set_solver). assert (b < 2) by (apply Hlt; set_solver).
    apply NoDup_cons in Hnd as [Hab _].
    destruct a as [|[|]], b as [|[|]]; try lia; set_solver.
  - assert (a < 2) by (apply Hlt; set_solver). assert (b < 2) by (apply Hlt; set_solver).
    assert (c < 2) by (apply Hlt; set_solver).
    apply NoDup_cons in Hnd as [Ha Hnd]. apply NoDup_cons in Hnd as [Hb _].
    destruct a as [|[|]], b as [|[|]], c as [|[|]]; try lia; set_solver.
Qed.

(** C5: the mutex is what makes the API safe for concurrent callers: without
    it (no [HAVE_PTHREAD_H], lines 69-70) a [fr_state_discard] run between the
    [state_entry_find] and the [state_entry_create] of a [fr_state_put_vps]
    makes the latter use the freed previous entry; with it, no schedule of the
    same two threads crashes. *)
Theorem mutex_prevents_race :
  run_sched false ex_race_sched ex_pool = Crash UseAfterFree /\
  creach false ex_pool (Crash UseAfterFree) /\
  forall e, ~ creach true ex_pool (Crash e).
Proof.
  assert (Hrun : run_sched false ex_race_sched ex_pool = Crash UseAfterFree)
    by (vm_compute; reflexivity).
  split_and!; [done|rewrite <- Hrun; apply run_sched_creach|].
  intros e Hr. destruct (calls_crash_ser ex_cfg ex_race ex_world e Hr) as (ord & Hnd & Hlt & Hs).
  apply (ord_two_cases ord Hnd) in Hlt.
  assert (Hok : is_crash (calls_run ex_cfg ((ex_race !!!.) <$> ord) ex_world) = false).
  { repeat (apply elem_of_cons in Hlt as [->|Hlt]; [vm_compute; reflexivity|]).
    apply elem_of_nil in Hlt. contradiction. }
  rewrite Hs in Hok. discriminate Hok.
Qed.

Lemma ex_final_reach : creach true ex_pool (Ok ex_final).
Proof.
  assert (E : run_sched true ex_sched ex_pool = Ok ex_final) by (vm_compute; reflexivity).
  rewrite <- E. apply run_sched_creach.
Qed.

Lemma pool_serializable_witness :
  creach true ex_pool (Ok ex_final) /\ all_done ex_final /\
  exists ord rs, ord ≡ₚ seq 0 (length ex_race) /\
    calls_run ex_cfg ((ex_race !!!.) <$> ord) ex_world = Ok (rs, c_world ex_final) /\
    done_in (c_threads ex_final) ord rs.
Proof.
  assert (Hd : all_done ex_final) by (vm_compute; repeat constructor).
  split; [exact ex_final_reach|split; [exact Hd|]].
  exact (pool_serializable ex_cfg ex_race ex_world ex_final ex_final_reach Hd).
Defined.

Lemma pool_crash_serializable_witness :
  creach true ex_abort_pool (Crash AssertFailed) /\
  exists ord, NoDup ord /\ Forall (fun i => i < 1) ord /\
    calls_run ex_cfg (([CGetVps ex_req ex_echo1] !!!.) <$> ord) ex_world = Crash AssertFailed.
Proof.
  assert (Hr : creach true ex_abort_pool (Crash AssertFailed)).
  { assert (E : run_sched true [0] ex_abort_pool = Crash AssertFailed) by (vm_compute; reflexivity).
    rewrite <- E. apply run_sched_creach. }
  split; [exact Hr|].
  exact (pool_crash_serializable ex_cfg [CGetVps ex_req ex_echo1] ex_world AssertFailed Hr).
Defined.

Lemma pool_exclusive_witness :
  creach true ex_pool (Ok ex_locked) /\ in_crit ex_locked 0 = true /\
  c_owner ex_locked = Some 0 /\ (forall j, in_crit ex_locked j = true -> j = 0).
Proof.
  assert (Hr : creach true ex_pool (Ok ex_locked)).
  { assert (E : run_sched true [0; 0; 1] ex_pool = Ok ex_locked) by reflexivity.
    rewrite <- E. apply run_sched_creach. }
  assert (Hc : in_crit ex_locked 0 = true) by (vm_compute; reflexivity).
  split; [exact Hr|split; [exact Hc|]].
  exact (pool_exclusive ex_cfg ex_race ex_world ex_locked 0 Hr Hc).
Defined.

Lemma pool_store_inv_witness :
  inv ex_world /\ Forall call_bytes ex_race /\ creach true ex_pool (Ok ex_final) /\
  c_owner ex_final = None /\ inv (c_world ex_final).
Proof.
  assert (Hi : inv ex_world) by (exists [1%positive; 2%positive]; decide_vm).
  assert (Hb : Forall call_bytes ex_race) by (vm_compute; repeat constructor).
  assert (Ho : c_owner ex_final = None) by reflexivity.
  split; [exact Hi|split; [exact Hb|split; [exact ex_final_reach|split; [exact Ho|]]]].
  exact (pool_store_inv ex_cfg ex_race ex_world ex_final Hi Hb ex_final_reach Ho).
Defined.
